(** * ORC stripe decoding kernels (cpp/src/io/orc/stripe_data.cu)

    A shallow embedding of the device code of [stripe_data.cu]: the circular
    byte stream, the base-128 varint reader, the integer run-length decoders,
    the byte run-length decoder, the null/dictionary kernel and the column
    data kernel, followed by the properties established about them.

    Conventions.
    - Machine integers are [Z]; every C++ conversion is written out as a
      wrap ([u8], [u16], [u32], [u64], [s32], [s64]).
    - Device and shared memory arrays are total maps [Z -> Z] from index to
      value ([arr]); a store is a functional update.
    - A block has [NTHREADS] threads executing in lock step between
      barriers.  A barrier-delimited phase in which every thread [t] writes
      only cells that no other thread reads or writes in that phase is
      modelled by the map that performs all the writes of the phase; where
      the source serialises work on one thread ([if (t == 0)]) the model is
      the sequential code of that thread. *)

From Stdlib Require Import ZArith List Bool Lia.
Import ListNotations.
Local Open Scope Z_scope.

(** ** Machine integers *)

Definition u8 (x : Z) : Z := x mod 2 ^ 8.
Definition u16 (x : Z) : Z := x mod 2 ^ 16.
Definition u32 (x : Z) : Z := x mod 2 ^ 32.
Definition u64 (x : Z) : Z := x mod 2 ^ 64.
Definition s32 (x : Z) : Z := (x + 2 ^ 31) mod 2 ^ 32 - 2 ^ 31.
Definition s64 (x : Z) : Z := (x + 2 ^ 63) mod 2 ^ 64 - 2 ^ 63.

(** Element type [T] of the templated decoders. *)
Inductive elem_type := U16 | U32 | I32 | U64 | I64.

Definition sizeof (T : elem_type) : Z :=
  match T with U16 => 2 | U32 | I32 => 4 | U64 | I64 => 8 end.

(** Conversion of a value to [T]. *)
Definition wrapT (T : elem_type) (x : Z) : Z :=
  match T with
  | U16 => u16 x
  | U32 => u32 x
  | I32 => s32 x
  | U64 => u64 x
  | I64 => s64 x
  end.

(** Arrays in device or shared memory. *)
Definition arr := Z -> Z.

Definition upd (a : arr) (i v : Z) : arr := fun j => if j =? i then v else a j.

(** [read_list l] is the memory whose first cells hold [l]; the rest is 0. *)
Definition read_list (l : list Z) : arr := fun i => if i <? 0 then 0 else nth (Z.to_nat i) l 0.

(** The first [n] cells of an array. *)
Definition prefix (a : arr) (n : nat) : list Z := map (fun i => a (Z.of_nat i)) (seq 0 n).

(** ** CUDA intrinsics used by the kernels

    The intrinsics are part of the CUDA toolkit; they are written out here
    from the CUDA Math API reference. *)

(** [__ffs(x)]: position of the least significant set bit, counted from 1;
    0 when no bit is set. *)
Fixpoint ffs_from (n : nat) (i : Z) (x : Z) : Z :=
  match n with
  | O => 0
  | S n' => if Z.testbit x i then i + 1 else ffs_from n' (i + 1) x
  end.

Definition ffs (x : Z) : Z := ffs_from 32 0 x.

(** [__funnelshift_r(lo, hi, shift)]: low word of [hi:lo >> (shift & 31)]. *)
Definition funnelshift_r (lo hi shift : Z) : Z :=
  u32 (Z.shiftr (Z.lor (Z.shiftl hi 32) lo) (Z.land shift 31)).

(** [__funnelshift_l(lo, hi, shift)]: high word of [hi:lo << (shift & 31)]. *)
Definition funnelshift_l (lo hi shift : Z) : Z :=
  u32 (Z.shiftr (Z.shiftl (Z.lor (Z.shiftl hi 32) lo) (Z.land shift 31)) 32).

(** [__byte_perm(x, 0, 0x0123)]: the four bytes of [x] in reverse order. *)
Definition byte_swap (x : Z) : Z :=
  Z.lor (Z.lor (Z.shiftl (Z.land x 255) 24) (Z.shiftl (Z.land (Z.shiftr x 8) 255) 16))
        (Z.lor (Z.shiftl (Z.land (Z.shiftr x 16) 255) 8) (Z.land (Z.shiftr x 24) 255)).

(** [__popc(x)] on a 32-bit word. *)
Fixpoint popc_from (n : nat) (i : Z) (x : Z) : Z :=
  match n with
  | O => 0
  | S n' => Z.b2z (Z.testbit x i) + popc_from n' (i + 1) x
  end.

Definition popc (x : Z) : Z := popc_from 32 0 x.

(** ** Launch geometry *)

Definition LOG2_BYTESTREAM_BFRSZ : Z := 13.
Definition BYTESTREAM_BFRSZ : Z := Z.shiftl 1 LOG2_BYTESTREAM_BFRSZ.
Definition LOG2_NWARPS : Z := 5.
Definition LOG2_NTHREADS : Z := LOG2_NWARPS + 5.
Definition NWARPS : Z := Z.shiftl 1 LOG2_NWARPS.
Definition NTHREADS : Z := Z.shiftl 1 LOG2_NTHREADS.

(** The thread indices of a block, in increasing order. *)
Definition threads : list Z := map Z.of_nat (seq 0 (Z.to_nat NTHREADS)).

(** The lanes of a warp. *)
Definition lanes : list Z := map Z.of_nat (seq 0 32).

(** ** Byte stream *)

(** [orc_bytestream_s].  [base] is the address of the (aligned) start of the
    stream in device memory; [buf] is the byte view of the circular buffer. *)
Record orc_bytestream_s := mk_bs {
  base : Z;
  pos : Z;
  len : Z;
  buf : arr
}.

Definition set_pos (bs : orc_bytestream_s) (p : Z) : orc_bytestream_s :=
  mk_bs (base bs) p (len bs) (buf bs).

Definition set_buf (bs : orc_bytestream_s) (b : arr) : orc_bytestream_s :=
  mk_bs (base bs) (pos bs) (len bs) b.

(** [bytestream_init]: the read pointer is kept 8-byte aligned. *)
Definition bytestream_init (bs : orc_bytestream_s) (base_addr length : Z) : orc_bytestream_s :=
  let p := Z.land 7 base_addr in
  mk_bs (base_addr - p)
        (if 0 <? length then p else 0)
        (Z.land (u32 (length + p + 7)) (u32 (Z.lnot 7)))
        (buf bs).

(** [bytestream_flush_bytes]: new stream and number of 64-bit slots to fill. *)
Definition bytestream_flush_bytes (bs : orc_bytestream_s) (bytes_consumed : Z)
  : orc_bytestream_s * Z :=
  let p := pos bs in
  let pos_new := Z.min (u32 (p + bytes_consumed)) (len bs) in
  (set_pos bs pos_new, u32 (Z.shiftr pos_new 3 - Z.shiftr p 3)).

(** [bytestream_fill] as executed by thread [t]: one 64-bit slot, that is
    eight bytes of the byte view. *)
Definition bytestream_fill_thread (mem : arr) (base_addr p count : Z) (b : arr) (t : Z) : arr :=
  if t <? count then
    let pos8 := Z.shiftr p 3 + t in
    let slot := Z.land pos8 (Z.shiftr BYTESTREAM_BFRSZ 3 - 1) in
    fun i =>
      if (slot * 8 <=? i) && (i <? slot * 8 + 8)
      then mem (base_addr + pos8 * 8 + (i - slot * 8))
      else b i
  else b.

(** [bytestream_fill] by all the threads of the block. *)
Definition bytestream_fill (mem : arr) (bs : orc_bytestream_s) (p count : Z) : orc_bytestream_s :=
  set_buf bs (fold_left (bytestream_fill_thread mem (base bs) p count) threads (buf bs)).

Definition bytestream_initbuf (mem : arr) (bs : orc_bytestream_s) : orc_bytestream_s :=
  bytestream_fill mem bs 0 (Z.shiftr (Z.min (len bs) BYTESTREAM_BFRSZ) 3).

(** The refill as every decoder performs it: thread 0 records the position
    in [fill_pos], advances it by [n] bytes with [bytestream_flush_bytes]
    and keeps the slot count in [fill_count]; after the barrier the block
    calls [bytestream_fill] with these two. *)
Definition bytestream_consume (mem : arr) (bs : orc_bytestream_s) (n : Z) : orc_bytestream_s :=
  let '(bs', count) := bytestream_flush_bytes bs n in
  bytestream_fill mem bs' (pos bs) count.

(** The byte view [buf.u8] of the buffer: a cell holds a [uint8_t]. *)
Definition buf_u8 (bs : orc_bytestream_s) (i : Z) : Z := u8 (buf bs i).

Definition bytestream_readbyte (bs : orc_bytestream_s) (p : Z) : Z :=
  buf_u8 bs (Z.land p (BYTESTREAM_BFRSZ - 1)).

(** The 32-bit view [buf.u32] of the buffer (little endian). *)
Definition buf_u32 (bs : orc_bytestream_s) (i : Z) : Z :=
  Z.lor (Z.lor (buf_u8 bs (4 * i)) (Z.shiftl (buf_u8 bs (4 * i + 1)) 8))
        (Z.lor (Z.shiftl (buf_u8 bs (4 * i + 2)) 16) (Z.shiftl (buf_u8 bs (4 * i + 3)) 24)).

Definition bytestream_readu32 (bs : orc_bytestream_s) (p : Z) : Z :=
  let a := buf_u32 bs (Z.shiftr (Z.land p (BYTESTREAM_BFRSZ - 1)) 2) in
  let b := buf_u32 bs (Z.shiftr (Z.land (p + 4) (BYTESTREAM_BFRSZ - 1)) 2) in
  funnelshift_r a b (Z.land p 3 * 8).

Definition bytestream_readu64 (bs : orc_bytestream_s) (p : Z) : Z :=
  let a := buf_u32 bs (Z.shiftr (Z.land p (BYTESTREAM_BFRSZ - 1)) 2) in
  let b := buf_u32 bs (Z.shiftr (Z.land (p + 4) (BYTESTREAM_BFRSZ - 1)) 2) in
  let c := buf_u32 bs (Z.shiftr (Z.land (p + 8) (BYTESTREAM_BFRSZ - 1)) 2) in
  let lo32 := funnelshift_r a b (Z.land p 3 * 8) in
  let hi32 := funnelshift_r b c (Z.land p 3 * 8) in
  Z.lor (Z.shiftl hi32 32) lo32.

(** [x >> n] for a [uint32_t] [x] and the [uint32_t] count [n].  The
    language defines the shift for [n < 32] only; for a larger count the
    result is the one of the shift instruction of the device, which clamps
    the count to the width of the register: 0. *)
Definition shr_u32 (x n : Z) : Z := if n <? 32 then Z.shiftr x n else 0.

(** [bytestream_readbits]: [numbits] bits at bit position [bitpos], big
    endian.  The count [32 - numbits] is a [uint32_t]: it wraps around for
    [numbits > 32]. *)
Definition bytestream_readbits (bs : orc_bytestream_s) (bitpos numbits : Z) : Z :=
  let a := byte_swap (buf_u32 bs (Z.shiftr (Z.land bitpos ((BYTESTREAM_BFRSZ - 1) * 8)) 5)) in
  let b := byte_swap (buf_u32 bs (Z.shiftr (Z.land (bitpos + 32) ((BYTESTREAM_BFRSZ - 1) * 8)) 5)) in
  shr_u32 (funnelshift_l b a (Z.land bitpos 31)) (u32 (32 - numbits)).

Definition bytestream_readbits64 (bs : orc_bytestream_s) (bitpos numbits : Z) : Z :=
  let a := byte_swap (buf_u32 bs (Z.shiftr (Z.land bitpos ((BYTESTREAM_BFRSZ - 1) * 8)) 5)) in
  let b := byte_swap (buf_u32 bs (Z.shiftr (Z.land (bitpos + 32) ((BYTESTREAM_BFRSZ - 1) * 8)) 5)) in
  let c := byte_swap (buf_u32 bs (Z.shiftr (Z.land (bitpos + 64) ((BYTESTREAM_BFRSZ - 1) * 8)) 5)) in
  let hi32 := funnelshift_l b a (Z.land bitpos 31) in
  let lo32 := funnelshift_l c b (Z.land bitpos 31) in
  Z.shiftr (Z.lor (Z.shiftl hi32 32) lo32) (64 - numbits).

(** Zig-zag decoding as written in the signed readers:
    [(T)((u >> 1u) ^ -(T)(u & 1))]. *)
Definition zigzag (u : Z) : Z := Z.lxor (Z.shiftr u 1) (- Z.land u 1).

(** [bytestream_readbe], one overload per result type. *)
Definition bytestream_readbe (T : elem_type) (bs : orc_bytestream_s) (bitpos numbits : Z) : Z :=
  match T with
  | U16 | U32 => bytestream_readbits bs bitpos numbits
  | I32 => s32 (zigzag (bytestream_readbits bs bitpos numbits))
  | U64 => bytestream_readbits64 bs bitpos numbits
  | I64 => s64 (zigzag (bytestream_readbits64 bs bitpos numbits))
  end.

(** ** Base-128 varints *)

(** [varint_length<T>]. *)
Definition varint_length (T : elem_type) (bs : orc_bytestream_s) (p : Z) : Z :=
  if 0x7f <? bytestream_readbyte bs p then
    let next32 := bytestream_readu32 bs p in
    let l := 1 + Z.shiftr (ffs (Z.land (u32 (Z.lnot next32)) 0x80808080)) 3 in
    if (4 <? sizeof T) && (l =? 5) then
      let next32 := bytestream_readu32 bs (p + 4) in
      l + Z.shiftr (ffs (Z.land (u32 (Z.lnot next32)) 0x80808080)) 3
    else l
  else 1.

(** [decode_varint<T>] for the unsigned [T]; [wide] is [sizeof(T) > 4].
    Returns the new position and the result. *)
Definition decode_varint_u (wide : bool) (bs : orc_bytestream_s) (p : Z) : Z * Z :=
  let v := bytestream_readbyte bs p in
  let p := p + 1 in
  if 0x7f <? v then
    let b := bytestream_readbyte bs p in
    let p := p + 1 in
    let v := Z.lor (Z.land v 0x7f) (u32 (Z.shiftl b 7)) in
    if 0x7f <? b then
      let b := bytestream_readbyte bs p in
      let p := p + 1 in
      let v := Z.lor (Z.land v 0x3fff) (u32 (Z.shiftl b 14)) in
      if 0x7f <? b then
        let b := bytestream_readbyte bs p in
        let p := p + 1 in
        let v := Z.lor (Z.land v 0x1fffff) (u32 (Z.shiftl b 21)) in
        if 0x7f <? b then
          let b := bytestream_readbyte bs p in
          let p := p + 1 in
          let v := Z.lor (Z.land v 0x0fffffff) (u32 (Z.shiftl b 28)) in
          if wide && (0x7f <? b) then
            let lo := v in
            let v := Z.land (Z.shiftr b 4) 7 in
            let b := bytestream_readbyte bs p in
            let p := p + 1 in
            let v := Z.lor v (u32 (Z.shiftl b 3)) in
            let '(p, v) :=
              if 0x7f <? b then
                let b := bytestream_readbyte bs p in
                let p := p + 1 in
                let v := Z.lor (Z.land v 0x3ff) (u32 (Z.shiftl b 10)) in
                if 0x7f <? b then
                  let b := bytestream_readbyte bs p in
                  let p := p + 1 in
                  let v := Z.lor (Z.land v 0x1ffff) (u32 (Z.shiftl b 17)) in
                  if 0x7f <? b then
                    let b := bytestream_readbyte bs p in
                    let p := p + 1 in
                    let v := Z.lor (Z.land v 0xffffff) (u32 (Z.shiftl b 24)) in
                    if 0x7f <? b then (p + 1, v) else (p, v)
                  else (p, v)
                else (p, v)
              else (p, v) in
            let hi := Z.shiftl v 32 in
            (p, Z.lor hi lo)
          else (p, v)
        else (p, v)
      else (p, v)
    else (p, v)
  else (p, v).

(** [decode_varint], resolved on the result type: the template for the
    unsigned types, the zig-zag overloads for [int32_t] and [int64_t]. *)
Definition decode_varint (T : elem_type) (bs : orc_bytestream_s) (p : Z) : Z * Z :=
  match T with
  | U16 | U32 => decode_varint_u false bs p
  | U64 => decode_varint_u true bs p
  | I32 => let '(p, u) := decode_varint_u false bs p in (p, s32 (zigzag u))
  | I64 => let '(p, u) := decode_varint_u true bs p in (p, s64 (zigzag u))
  end.

(** The value of the [k] bytes at [p] read as base-128 digits, the first
    byte lowest, every byte without its high bit. *)
Fixpoint varint_sum (bs : orc_bytestream_s) (p : Z) (k : nat) : Z :=
  match k with
  | O => 0
  | S k' => Z.land (bytestream_readbyte bs p) 0x7f + 128 * varint_sum bs (p + 1) k'
  end.

(** The types whose [decode_varint] is one of the zig-zag overloads. *)
Definition is_signed (T : elem_type) : bool :=
  match T with I32 | I64 => true | _ => false end.

(** The unsigned code of a signed value: [2 x] for [x >= 0] and
    [- 2 x - 1] for [x < 0]. *)
Definition zigzag_code (x : Z) : Z := if 0 <=? x then 2 * x else - 2 * x - 1.

(** The stream holds the bytes [l] from the position [p] on. *)
Definition stream_holds (bs : orc_bytestream_s) (p : Z) (l : list Z) : Prop :=
  forall i, (i < length l)%nat -> bytestream_readbyte bs (p + Z.of_nat i) = nth i l 0.

(** A stream over the bytes [l], placed at address 0 and buffered. *)
Definition stream_of (l : list Z) : orc_bytestream_s :=
  bytestream_initbuf (read_list l)
    (bytestream_init (mk_bs 0 0 0 (fun _ => 0)) 0 (Z.of_nat (length l))).

(** ** Prefix sums *)

(** The kernels compute inclusive prefix sums in place with the same round
    structure in three places ([lengths_to_positions], the delta runs of
    Integer RLE v2, the patch list).  One round with step [i] over the [m]
    cells at [lo]: the cell [lo + j] with bit [i] of [j] set adds the cell
    [lo + ((j & ~i) | (i - 1))].  That cell has bit [i] clear and is not
    written in the round, so the order in which the threads run does not
    matter. *)
Definition scan_round (T : elem_type) (lo m i : Z) (vals : arr) : arr :=
  fun k =>
    let j := k - lo in
    if (0 <=? j) && (j <? m) && negb (Z.land j i =? 0)
    then wrapT T (vals k + vals (lo + Z.lor (Z.land j (Z.lnot i)) (i - 1)))
    else vals k.

(** The loop [for (i = 1; i < bound; i <<= 1)] over the rounds; [None] when
    the budget of rounds is used up. *)
Fixpoint scan_loop (fuel : nat) (T : elem_type) (lo m bound i : Z) (vals : arr)
  : option arr :=
  if i <? bound then
    match fuel with
    | O => None
    | S fuel' =>
        scan_loop fuel' T lo m bound (u32 (Z.shiftl i 1)) (scan_round T lo m i vals)
    end
  else Some vals.

(** [lengths_to_positions<T>]: the loop runs while [n < numvals]; the
    threads that add are those with [t < numvals], among the [NTHREADS]
    threads of the block; [n] takes at most the 32 values [1 << k]. *)
Definition lengths_to_positions (T : elem_type) (vals : arr) (numvals : Z) : option arr :=
  scan_loop 32 T 0 (Z.min numvals NTHREADS) numvals 1 vals.

(** The sum of the cells [0 .. n-1] of an array. *)
Fixpoint sum_upto (a : arr) (n : nat) : Z :=
  match n with
  | O => 0
  | S k => sum_upto a k + a (Z.of_nat k)
  end.

Definition sum_below (a : arr) (n : Z) : Z := sum_upto a (Z.to_nat n).

(** The array seen from the cell [lo]. *)
Definition shift_arr (a : arr) (lo : Z) : arr := fun j => a (lo + j).

(** The modulus of the arithmetic of [T]. *)
Definition modulus (T : elem_type) : Z := 2 ^ (8 * sizeof T).

(** First index of the aligned block of [2^k] cells that contains [t]. *)
Definition block_start (k t : Z) : Z := Z.shiftl (Z.shiftr t k) k.

(** State of the cells after the rounds [i = 1, 2, .., 2^(k-1)]: cell
    [lo + j] holds, modulo the arithmetic of [T], the sum of the cells of
    [a] from the start of the block of [2^k] cells of [j] up to [j]. *)
Definition scan_inv (T : elem_type) (a : arr) (lo m k : Z) (v : arr) : Prop :=
  (forall j, 0 <= j < m ->
     wrapT T (v (lo + j)) =
     wrapT T (sum_below (shift_arr a lo) (j + 1)
              - sum_below (shift_arr a lo) (block_start k j))) /\
  (forall c, ~ 0 <= c - lo < m -> v c = a c) /\
  (forall c, wrapT T (a c) = a c -> wrapT T (v c) = v c).

(** ** Integer RLE v1 *)

(** [orc_rlev1_state_s]; [run_data] holds
    [(delta << 24) | (count << 16) | (first_val)]. *)
Record orc_rlev1_state_s := mk_rlev1 {
  num_runs : Z;
  num_vals : Z;
  fill_pos : Z;
  fill_count : Z;
  run_data : arr
}.

(** The word stored in [run_data] for a run. *)
Definition rlev1_pack (delta n numvals : Z) : Z :=
  s32 (Z.lor (Z.lor (Z.shiftl delta 24) (Z.shiftl n 16)) numvals).

(** The three fields read back by the expansion step. *)
Definition rlev1_unpack_n (rd : Z) : Z := Z.land (Z.shiftr rd 16) 0xff.
Definition rlev1_unpack_delta (rd : Z) : Z := Z.shiftr rd 24.
Definition rlev1_unpack_base (rd : Z) : Z := Z.land rd 0x3ff.

(** Local variables of thread 0 while it looks for the runs. *)
Record rlev1_scan := mk_scan1 {
  sc_numvals : Z;
  sc_numruns : Z;
  sc_lastpos : Z;
  sc_vals : arr;
  sc_run_data : arr
}.

(** The [do ... while (++i < n)] loop of a literal block: [k] iterations,
    the [i]-th recording the position of a varint in [vals[numvals + i]]. *)
Fixpoint rlev1_literals (T : elem_type) (bs : orc_bytestream_s) (k : nat)
    (idx p : Z) (vals : arr) : Z * arr :=
  match k with
  | O => (p, vals)
  | S k' =>
      let vals := upd vals idx (wrapT T (Z.land p 0xffff)) in
      let p := u32 (p + varint_length T bs p) in
      rlev1_literals T bs k' (idx + 1) p vals
  end.

(** One iteration of the [while] loop of thread 0; the boolean is [false]
    when the iteration leaves the loop with [break]. *)
Definition rlev1_scan_step (T : elem_type) (bs : orc_bytestream_s) (maxvals maxpos : Z)
    (s : rlev1_scan) : rlev1_scan * bool :=
  let numvals := sc_numvals s in
  let numruns := sc_numruns s in
  let vals := sc_vals s in
  let p := sc_lastpos s in
  let n := bytestream_readbyte bs p in
  let p := u32 (p + 1) in
  if n <=? 0x7f then
    (* Run *)
    let n := n + 3 in
    if maxvals <? u32 (numvals + n) then (s, false)
    else
      let delta := bytestream_readbyte bs p in
      let p := u32 (p + 1) in
      let vals := upd vals numvals (wrapT T (Z.land p 0xffff)) in
      let p := u32 (p + varint_length T bs p) in
      if maxpos <? p then
        (mk_scan1 numvals numruns (sc_lastpos s) vals (sc_run_data s), false)
      else
        (mk_scan1 (u32 (numvals + n)) (numruns + 1) p vals
           (upd (sc_run_data s) numruns (rlev1_pack delta n numvals)), true)
  else
    (* Literals *)
    let n := 0x100 - n in
    if maxvals <? u32 (numvals + n) then (s, false)
    else
      let '(p, vals) := rlev1_literals T bs (Z.to_nat n) numvals p vals in
      if maxpos <? p then
        (mk_scan1 numvals numruns (sc_lastpos s) vals (sc_run_data s), false)
      else
        (mk_scan1 (u32 (numvals + n)) numruns p vals (sc_run_data s), true).

(** The [while (numvals < maxvals && numruns < NWARPS*12)] loop.  [None]
    only when the iteration budget [fuel] is used up. *)
Fixpoint rlev1_scan_loop (fuel : nat) (T : elem_type) (bs : orc_bytestream_s)
    (maxvals maxpos : Z) (s : rlev1_scan) : option rlev1_scan :=
  if (sc_numvals s <? maxvals) && (sc_numruns s <? NWARPS * 12) then
    match fuel with
    | O => None
    | S fuel' =>
        let '(s', continue) := rlev1_scan_step T bs maxvals maxpos s in
        if continue then rlev1_scan_loop fuel' T bs maxvals maxpos s' else Some s'
    end
  else Some s.

(** Every iteration that stays in the loop produces at least one value, so
    [maxvals] iterations (and the final test) are enough. *)
Definition rlev1_fuel (maxvals : Z) : nat := S (Z.to_nat maxvals).

(** The part of [Integer_RLEv1] run by thread 0. *)
Definition rlev1_scan_runs (T : elem_type) (bs : orc_bytestream_s) (rle : orc_rlev1_state_s)
    (vals : arr) (maxvals : Z) : option rlev1_scan :=
  let maxpos := Z.min (len bs) (u32 (pos bs + (BYTESTREAM_BFRSZ - 8))) in
  rlev1_scan_loop (rlev1_fuel maxvals) T bs maxvals maxpos
    (mk_scan1 0 0 (pos bs) vals (run_data rle)).

(** Expansion of one run by its warp: lane [tr] writes the slots
    [base + i] with [i = 1 + tr, 33 + tr, ...] below [n]; together the 32
    lanes write [base + 1 .. base + n - 1]. *)
Definition rlev1_expand_run (T : elem_type) (vals : arr) (rd : Z) : arr :=
  let n := rlev1_unpack_n rd in
  let delta := rlev1_unpack_delta rd in
  let b := rlev1_unpack_base rd in
  let p := u32 (Z.land (vals b) 0xffff) in
  fun k =>
    let i := k - b in
    if (1 <=? i) && (i <? n)
    then wrapT T (u32 (Z.lor (Z.shiftl (delta * i) 16) p))
    else vals k.

(** All the runs; run [r] is expanded by warp [r mod NWARPS]. *)
Definition rlev1_expand (T : elem_type) (numruns : Z) (rd : arr) (vals : arr) : arr :=
  fold_left (fun v r => rlev1_expand_run T v (rd (Z.of_nat r))) (seq 0 (Z.to_nat numruns)) vals.

(** Decoding of the varints: thread [t < numvals] rewrites [vals[t]]. *)
Definition rlev1_decode (T : elem_type) (bs : orc_bytestream_s) (numvals : Z) (vals : arr) : arr :=
  fun t =>
    if (0 <=? t) && (t <? NTHREADS) && (t <? numvals) then
      let p := s32 (vals t) in
      let delta := Z.shiftr p 16 in
      let '(_, v) := decode_varint T bs p in
      wrapT T (v + delta)
    else vals t.

(** [Integer_RLEv1<T>]: the stream, the decoder state, the values and the
    returned count. *)
Definition Integer_RLEv1 (T : elem_type) (mem : arr) (bs : orc_bytestream_s)
    (rle : orc_rlev1_state_s) (vals : arr) (maxvals : Z)
  : option (orc_bytestream_s * orc_rlev1_state_s * arr * Z) :=
  match rlev1_scan_runs T bs rle vals maxvals with
  | None => None
  | Some s =>
      let '(bs', fc) := bytestream_flush_bytes bs (u32 (sc_lastpos s - pos bs)) in
      let rle' := mk_rlev1 (sc_numruns s) (sc_numvals s) (pos bs) fc (sc_run_data s) in
      let vals := rlev1_expand T (num_runs rle') (run_data rle') (sc_vals s) in
      let numvals := num_vals rle' in
      (* the varints are read from the buffer as it is before the refill *)
      let vals := rlev1_decode T bs' numvals vals in
      let bs' := bytestream_fill mem bs' (fill_pos rle') (fill_count rle') in
      Some (bs', rle', vals, numvals)
  end.

Definition rlev1_init : orc_rlev1_state_s := mk_rlev1 0 0 0 0 (fun _ => 0).
Definition zero_arr : arr := fun _ => 0.

(** The values decoded from the bytes [l] when [maxvals] are asked for. *)
Definition rlev1_values (T : elem_type) (l : list Z) (maxvals : Z) : option (Z * list Z) :=
  match Integer_RLEv1 T (read_list l) (stream_of l) rlev1_init zero_arr maxvals with
  | None => None
  | Some (_, _, vals, n) => Some (n, prefix vals (Z.to_nat n))
  end.

(** ** Notions used to state the properties of Integer RLE v1 *)

(** The sign-extended byte that the arithmetic shift [run_data >> 24] yields. *)
Definition signed_byte (d : Z) : Z := if d <? 128 then d else d - 256.

(** A [run_data] word recorded for a run of [n] values at output index [b],
    with delta byte [d]. *)
Definition rlev1_run_ok (maxvals rd : Z) : Prop :=
  exists d n b,
    0 <= d < 256 /\ 3 <= n <= 130 /\ 0 <= b /\ b + n <= maxvals /\
    rd = rlev1_pack d n b.

(** What thread 0 maintains while it looks for the runs. *)
Definition rlev1_scan_inv (maxvals : Z) (s : rlev1_scan) : Prop :=
  0 <= sc_numvals s <= maxvals /\ 0 <= sc_numruns s /\
  forall r, 0 <= r < sc_numruns s -> rlev1_run_ok maxvals (sc_run_data s r).

(** ** Sequencing of computations that may exhaust their budget *)

Definition obind {A B : Type} (x : option A) (f : A -> option B) : option B :=
  match x with
  | Some a => f a
  | None => None
  end.

Notation "x <- e ;; k" := (obind e (fun x => k))
  (at level 61, e at next level, right associativity).
Notation "' p <- e ;; k" := (obind e (fun p => k))
  (at level 61, p pattern, e at next level, right associativity).

(** Folding a step that may fail over a list, from the left. *)
Fixpoint ofold {A B : Type} (f : A -> B -> option A) (l : list B) (a : A) : option A :=
  match l with
  | [] => Some a
  | b :: l' => a' <- f a b ;; ofold f l' a'
  end.

(** ** Integer RLE v2 *)

(** Maps the 5-bit code to 6-bit length. *)
Definition kRLEv2_W : list Z :=
  [1; 2; 3; 4; 5; 6; 7; 8; 9; 10; 11; 12; 13; 14; 15; 16;
   17; 18; 19; 20; 21; 22; 23; 24; 26; 28; 30; 32; 40; 48; 56; 64].

Definition rlev2_W (code : Z) : Z := nth (Z.to_nat code) kRLEv2_W 0.

(** [orc_rlev2_state_s]; [baseval] and [delta] are indexed by warp. *)
Record orc_rlev2_state_s := mk_rlev2 {
  v2_num_runs : Z;
  v2_num_vals : Z;
  v2_fill_pos : Z;
  v2_fill_count : Z;
  baseval : arr;
  m2_pw_byte3 : arr;
  delta : arr;
  runs_loc : arr
}.

(** Local variables of thread 0 while it looks for the runs. *)
Record rlev2_scan := mk_scan2 {
  s2_numvals : Z;
  s2_numruns : Z;
  s2_lastpos : Z;
  s2_vals : arr;
  s2_runs_loc : arr
}.

(** The header of a run as thread 0 parses it to find the length of the
    run: position after the header bytes read, number of values [n] and
    number of payload bytes [l]. *)
Definition rlev2_run_length (T : elem_type) (bs : orc_bytestream_s) (p0 : Z) : Z * Z * Z :=
  let byte0 := bytestream_readbyte bs p0 in
  let p := u32 (p0 + 1) in
  let mode := Z.shiftr byte0 6 in
  if mode =? 0 then
    (* 00lllnnn: short repeat encoding *)
    (p, 3 + Z.land byte0 7, 1 + Z.land (Z.shiftr byte0 3) 7)
  else
    let l := rlev2_W (Z.land (Z.shiftr byte0 1) 0x1f) in
    let n := 1 + Z.shiftl (Z.land byte0 1) 8 + bytestream_readbyte bs p in
    let p := u32 (p + 1) in
    if mode =? 1 then
      (* 01wwwwwn.nnnnnnnn: direct encoding *)
      (p, n, Z.shiftr (l * n + 7) 3)
    else if mode =? 2 then
      (* 10wwwwwn.nnnnnnnn.xxxxxxxx.yyyyyyyy: patched base encoding *)
      let byte2 := bytestream_readbyte bs p in
      let p := u32 (p + 1) in
      let byte3 := bytestream_readbyte bs p in
      let p := u32 (p + 1) in
      let bw := 1 + Z.shiftr byte2 5 in
      let pw := rlev2_W (Z.land byte2 0x1f) in
      let pgw := 1 + Z.shiftr byte3 5 in
      let pll := Z.land byte3 0x1f in
      let l := Z.shiftr (l * n + 7) 3 in
      let l := l + bw in
      let l := l + Z.shiftr (pll * (pgw + pw) + 7) 3 in
      (p, n, l)
    else
      (* 11wwwwwn.nnnnnnnn.<base>.<delta>: delta encoding *)
      let deltapos := varint_length T bs p in
      let deltapos := deltapos + varint_length T bs (u32 (p + deltapos)) in
      let l := if 1 <? l then Z.shiftr (l * n + 7) 3 else 0 in
      (p, n, l + deltapos).

(** One iteration of the [while (numvals < maxvals)] loop of thread 0. *)
Definition rlev2_scan_step (T : elem_type) (bs : orc_bytestream_s) (maxvals maxpos : Z)
    (s : rlev2_scan) : rlev2_scan * bool :=
  let numvals := s2_numvals s in
  let numruns := s2_numruns s in
  let lastpos := s2_lastpos s in
  let rl := upd (s2_runs_loc s) numruns (u16 numvals) in
  let vals := upd (s2_vals s) numvals (wrapT T lastpos) in
  let '(p, n, l) := rlev2_run_length T bs lastpos in
  if maxvals <? u32 (numvals + n) then (mk_scan2 numvals numruns lastpos vals rl, false)
  else
    let p := u32 (p + l) in
    if maxpos <? p then (mk_scan2 numvals numruns lastpos vals rl, false)
    else (mk_scan2 (u32 (numvals + n)) (numruns + 1) p vals rl, true).

Fixpoint rlev2_scan_loop (fuel : nat) (T : elem_type) (bs : orc_bytestream_s)
    (maxvals maxpos : Z) (s : rlev2_scan) : option rlev2_scan :=
  if s2_numvals s <? maxvals then
    match fuel with
    | O => None
    | S fuel' =>
        let '(s', continue) := rlev2_scan_step T bs maxvals maxpos s in
        if continue then rlev2_scan_loop fuel' T bs maxvals maxpos s' else Some s'
    end
  else Some s.

(** The part of [Integer_RLEv2] run by thread 0; every run has at least one
    value. *)
Definition rlev2_scan_runs (T : elem_type) (bs : orc_bytestream_s) (rle : orc_rlev2_state_s)
    (vals : arr) (maxvals : Z) : option rlev2_scan :=
  let maxpos := Z.min (len bs) (u32 (pos bs + (BYTESTREAM_BFRSZ - 8))) in
  rlev2_scan_loop (S (Z.to_nat maxvals)) T bs maxvals maxpos
    (mk_scan2 0 0 (pos bs) vals (runs_loc rle)).

(** What lane 0 of the warp broadcasts with [SHFL0] after it has parsed the
    header of its run. *)
Record rlev2_run := mk_run2 {
  r_base : Z;
  r_mode : Z;
  r_pos : Z;
  r_n : Z;
  r_w : Z
}.

(** [sizeof(T) > 4]. *)
Definition wide (T : elem_type) : bool := 4 <? sizeof T.

(** A read of [baseval.u32[r]] or [baseval.u64[r]]. *)
Definition baseval_read (T : elem_type) (rle : orc_rlev2_state_s) (r : Z) : Z :=
  if wide T then u64 (baseval rle r) else u32 (baseval rle r).

Definition set_baseval (rle : orc_rlev2_state_s) (r v : Z) : orc_rlev2_state_s :=
  mk_rlev2 (v2_num_runs rle) (v2_num_vals rle) (v2_fill_pos rle) (v2_fill_count rle)
    (upd (baseval rle) r v) (m2_pw_byte3 rle) (delta rle) (runs_loc rle).

Definition set_m2_pw_byte3 (rle : orc_rlev2_state_s) (r v : Z) : orc_rlev2_state_s :=
  mk_rlev2 (v2_num_runs rle) (v2_num_vals rle) (v2_fill_pos rle) (v2_fill_count rle)
    (baseval rle) (upd (m2_pw_byte3 rle) r v) (delta rle) (runs_loc rle).

Definition set_delta (rle : orc_rlev2_state_s) (r v : Z) : orc_rlev2_state_s :=
  mk_rlev2 (v2_num_runs rle) (v2_num_vals rle) (v2_fill_pos rle) (v2_fill_count rle)
    (baseval rle) (m2_pw_byte3 rle) (upd (delta rle) r v) (runs_loc rle).

(** The [if (tr == 0)] block of the run loop, for the run starting at the
    stream position [p0]; [r] is the warp. *)
Definition rlev2_run_header (T : elem_type) (bs : orc_bytestream_s)
    (rle : orc_rlev2_state_s) (r b p0 : Z) : orc_rlev2_state_s * rlev2_run :=
  let byte0 := bytestream_readbyte bs p0 in
  let p := u32 (p0 + 1) in
  let mode := Z.shiftr byte0 6 in
  if mode =? 0 then
    (* 00lllnnn: short repeat encoding *)
    let w := 8 + Z.land byte0 0x38 in
    let n := 3 + Z.land byte0 7 in
    let bv := bytestream_readbe T bs (u32 (p * 8)) w in
    (set_baseval rle r (if wide T then u64 bv else u32 bv), mk_run2 b mode p n w)
  else
    let w := rlev2_W (Z.land (Z.shiftr byte0 1) 0x1f) in
    let n := 1 + Z.shiftl (Z.land byte0 1) 8 + bytestream_readbyte bs p in
    let p := u32 (p + 1) in
    if 1 <? mode then
      if mode =? 2 then
        (* Patched base *)
        let byte2 := bytestream_readbyte bs p in
        let p := u32 (p + 1) in
        let byte3 := bytestream_readbyte bs p in
        let p := u32 (p + 1) in
        let bw := 1 + Z.shiftr byte2 5 in
        let pw := rlev2_W (Z.land byte2 0x1f) in
        let rle :=
          if wide T then
            let bv := bytestream_readbits64 bs (u32 (p * 8)) (bw * 8) in
            let mask := u64 (u64 (Z.shiftl 2 (bw * 8 - 1)) - 1) in
            set_baseval rle r (if mask <? bv then u64 (- s64 (Z.land bv mask)) else bv)
          else
            let bv := bytestream_readbits bs (u32 (p * 8)) (bw * 8) in
            let mask := u32 (u32 (Z.shiftl 1 (bw * 8 - 1)) - 1) in
            set_baseval rle r (if mask <? bv then u32 (- s32 (Z.land bv mask)) else bv) in
        let rle := set_m2_pw_byte3 rle r (u16 (Z.lor (Z.shiftl pw 8) byte3)) in
        (rle, mk_run2 b mode (u32 (p + bw)) n w)
      else
        (* Delta: the base through the template [decode_varint<T>].  The
           delta through the template as well: the argument
           [rle->delta.i32[r]] (or [i64]) is a volatile lvalue, to which
           the references of the zig-zag overloads cannot bind, so the
           varint is stored as it is read, converted to the signed type *)
        let '(p, bv) := decode_varint_u (wide T) bs p in
        let bv := wrapT T bv in
        let rle := set_baseval rle r (if wide T then u64 bv else u32 bv) in
        let '(p, d) := decode_varint_u (wide T) bs (u32 p) in
        (set_delta rle r (if wide T then s64 d else s32 d), mk_run2 b mode (u32 p) n w)
    else (rle, mk_run2 b mode p n w).

(** Delta runs: the unsigned offset [ofs] of the slot [i] before the sums.
    Slot 0 gets 0, slot 1 the magnitude of the delta, the slots from 2 on
    the bit-packed magnitudes (none when the width code stands for 1). *)
Definition rlev2_delta_ofs (T : elem_type) (bs : orc_bytestream_s) (run : rlev2_run)
    (d i : Z) : Z :=
  let p := r_pos run in
  let w := r_w run in
  if wide T then
    if 2 <=? i then
      (if 1 <? w then bytestream_readbits64 bs (u32 (p * 8 + (i - 2) * w)) w else 0)
    else if i =? 1 then u64 (Z.abs d) else 0
  else
    if 2 <=? i then
      (if 1 <? w then bytestream_readbits bs (u32 (p * 8 + (i - 2) * w)) w else 0)
    else if i =? 1 then u32 (Z.abs d) else 0.

(** The value written to [vals[base + i]] in the loop
    [for (i = tr; i < n; i += 32)]. *)
Definition rlev2_value (T : elem_type) (bs : orc_bytestream_s) (rle : orc_rlev2_state_s)
    (r : Z) (run : rlev2_run) (i : Z) : Z :=
  let p := r_pos run in
  let w := r_w run in
  let mode := r_mode run in
  if mode =? 0 then wrapT T (baseval_read T rle r)
  else if mode =? 1 then wrapT T (bytestream_readbe T bs (u32 (p * 8 + i * w)) w)
  else if mode =? 2 then
    if wide T then
      let ofs := u32 (bytestream_readbits64 bs (u32 (p * 8 + i * w)) w) in
      wrapT T (u64 (baseval_read T rle r + ofs))
    else
      let ofs := bytestream_readbits bs (u32 (p * 8 + i * w)) w in
      wrapT T (u32 (baseval_read T rle r + ofs))
  else
    let d := delta rle r in
    let ofs := rlev2_delta_ofs T bs run d i in
    wrapT T (if d <? 0 then (if wide T then u64 (- ofs) else u32 (- ofs)) else ofs).

(** The values of a run, written by the 32 lanes of its warp. *)
Definition rlev2_run_values (T : elem_type) (bs : orc_bytestream_s) (rle : orc_rlev2_state_s)
    (r : Z) (run : rlev2_run) (vals : arr) : arr :=
  fun k =>
    let i := k - r_base run in
    if (0 <=? i) && (i <? r_n run) then rlev2_value T bs rle r run i else vals k.

(** The patches of a patched-base run.  Every lane [tr < pll] reads the
    patch entry at the bit position [pos * 8 + n * w]; the gaps are summed
    over the lanes with shuffles; the lanes then patch their cells, here
    in increasing lane order. *)
Definition rlev2_patch (T : elem_type) (bs : orc_bytestream_s) (rle : orc_rlev2_state_s)
    (r : Z) (run : rlev2_run) (vals : arr) : option arr :=
  let p := r_pos run in
  let n := r_n run in
  let w := r_w run in
  let pw_byte3 := u16 (m2_pw_byte3 rle r) in
  let pw := Z.shiftr pw_byte3 8 in
  let pgw := 1 + Z.land (Z.shiftr pw_byte3 5) 7 in
  let pll := Z.land pw_byte3 0x1f in
  let read : arr := fun tr =>
    if tr <? pll then u32 (bytestream_readbits bs (u32 (p * 8 + n * w)) (pgw + pw) + 1)
    else 0 in
  let patch : arr := fun tr => Z.land (read tr) (u32 (u32 (Z.shiftl 1 pw) - 1)) in
  let patch_pos : arr := fun tr => Z.shiftr (read tr) pw in
  patch_pos <- scan_loop 32 U32 0 32 pll 1 patch_pos ;;
  Some (fold_left
          (fun v tr =>
             if (tr <? pll) && (patch_pos tr <? n)
             then upd v (r_base run + patch_pos tr)
                    (wrapT T (v (r_base run + patch_pos tr) + u32 (Z.shiftl (patch tr) w)))
             else v)
          lanes vals).

(** The end of a delta run: prefix sums over the run, then the base value. *)
Definition rlev2_delta_sums (T : elem_type) (rle : orc_rlev2_state_s) (r : Z)
    (run : rlev2_run) (vals : arr) : option arr :=
  let b := r_base run in
  let n := r_n run in
  vals <- scan_loop 32 T b n n 1 vals ;;
  let bv := wrapT T (baseval_read T rle r) in
  Some (fun k =>
          let j := k - b in
          if (0 <=? j) && (j <? n) then wrapT T (vals k + bv) else vals k).

(** The run [run] as the scan left it: warp, output index and stream
    position of its header. *)
Definition rlev2_run_warp (run : nat) : Z := Z.of_nat run mod NWARPS.
Definition rlev2_run_base (rle : orc_rlev2_state_s) (run : nat) : Z :=
  u16 (runs_loc rle (Z.of_nat run)).
Definition rlev2_run_start (rle : orc_rlev2_state_s) (vals : arr) (run : nat) : Z :=
  u32 (vals (rlev2_run_base rle run)).

(** One run, processed by the warp [run mod NWARPS]. *)
Definition rlev2_process_run (T : elem_type) (bs : orc_bytestream_s)
    (st : orc_rlev2_state_s * arr) (run : nat) : option (orc_rlev2_state_s * arr) :=
  let '(rle, vals) := st in
  let r := rlev2_run_warp run in
  let b := rlev2_run_base rle run in
  let p0 := rlev2_run_start rle vals run in
  let '(rle, hd) := rlev2_run_header T bs rle r b p0 in
  let vals := rlev2_run_values T bs rle r hd vals in
  vals <- (if r_mode hd =? 2 then rlev2_patch T bs rle r hd vals else Some vals) ;;
  vals <- (if r_mode hd =? 3 then rlev2_delta_sums T rle r hd vals else Some vals) ;;
  Some (rle, vals).

(** [Integer_RLEv2<T>]. *)
Definition Integer_RLEv2 (T : elem_type) (mem : arr) (bs : orc_bytestream_s)
    (rle : orc_rlev2_state_s) (vals : arr) (maxvals : Z)
  : option (orc_bytestream_s * orc_rlev2_state_s * arr * Z) :=
  s <- rlev2_scan_runs T bs rle vals maxvals ;;
  let '(bs', fc) := bytestream_flush_bytes bs (u32 (s2_lastpos s - pos bs)) in
  let rle := mk_rlev2 (s2_numruns s) (s2_numvals s) (pos bs) fc
               (baseval rle) (m2_pw_byte3 rle) (delta rle) (s2_runs_loc s) in
  '(rle, vals) <- ofold (rlev2_process_run T bs')
                    (seq 0 (Z.to_nat (v2_num_runs rle))) (rle, s2_vals s) ;;
  let bs' := bytestream_fill mem bs' (v2_fill_pos rle) (v2_fill_count rle) in
  Some (bs', rle, vals, v2_num_vals rle).

Definition rlev2_init : orc_rlev2_state_s :=
  mk_rlev2 0 0 0 0 (fun _ => 0) (fun _ => 0) (fun _ => 0) (fun _ => 0).

(** The values decoded from the bytes [l] when [maxvals] are asked for. *)
Definition rlev2_values (T : elem_type) (l : list Z) (maxvals : Z) : option (Z * list Z) :=
  '(_, _, vals, n) <- Integer_RLEv2 T (read_list l) (stream_of l) rlev2_init zero_arr maxvals ;;
  Some (n, prefix vals (Z.to_nat n)).

(** ** Column chunks *)

(** Modelled from the spec: the declarations of [orc_common.h] and
    [orc_gpu.h] ([TypeKind], the encoding kinds, the stream indices,
    [DictionaryEntry], [ColumnDesc]) are not part of the decoder source.
    The spec lists the physical types, the encodings "direct vs dictionary;
    RLEv1 vs RLEv2 generation", the streams PRESENT, DATA, SECONDARY/LENGTH
    and DICTIONARY and the fields of the chunk descriptor; the macros
    [IS_RLEv1], [IS_RLEv2] and [IS_DICTIONARY] of the source fix the
    encoding kinds to DIRECT = 0, DICTIONARY = 1, DIRECT_V2 = 2,
    DICTIONARY_V2 = 3. *)
Inductive TypeKind :=
  | BOOLEAN | BYTE | SHORT | INT | LONG | FLOAT | DOUBLE | STRING | BINARY
  | TIMESTAMP | LIST | MAP | STRUCT | UNION | DECIMAL | DATE | VARCHAR | CHAR.

Definition DIRECT : Z := 0.
Definition DICTIONARY : Z := 1.
Definition DIRECT_V2 : Z := 2.
Definition DICTIONARY_V2 : Z := 3.

Inductive StreamIndexType := CI_DATA | CI_DATA2 | CI_PRESENT | CI_DICTIONARY.

Definition IS_RLEv1 (encoding_mode : Z) : bool := encoding_mode <? DIRECT_V2.
Definition IS_RLEv2 (encoding_mode : Z) : bool := DIRECT_V2 <=? encoding_mode.
Definition IS_DICTIONARY (encoding_mode : Z) : bool := negb (Z.land encoding_mode 1 =? 0).

(** Modelled from the spec: [DictionaryEntry], a (byte-offset, byte-length)
    pair into the dictionary data. *)
Record DictionaryEntry := mk_entry {
  de_pos : Z;
  de_len : Z
}.

(** Modelled from the spec: [ColumnDesc], the chunk descriptor.  Pointers
    are addresses; [valid_map_base] counts 32-bit words and 0 is [NULL]. *)
Record ColumnDesc := mk_chunk {
  streams : StreamIndexType -> Z;
  strm_len : StreamIndexType -> Z;
  start_row : Z;
  num_rows : Z;
  dictionary_start : Z;
  dict_len : Z;
  null_count : Z;
  skip_count : Z;
  valid_map_base : Z;
  column_data_base : Z;
  encoding_kind : Z;
  type_kind : TypeKind
}.

Definition set_null_count (c : ColumnDesc) (v : Z) : ColumnDesc :=
  mk_chunk (streams c) (strm_len c) (start_row c) (num_rows c) (dictionary_start c)
    (dict_len c) v (skip_count c) (valid_map_base c) (column_data_base c)
    (encoding_kind c) (type_kind c).

Definition set_skip_count (c : ColumnDesc) (v : Z) : ColumnDesc :=
  mk_chunk (streams c) (strm_len c) (start_row c) (num_rows c) (dictionary_start c)
    (dict_len c) (null_count c) v (valid_map_base c) (column_data_base c)
    (encoding_kind c) (type_kind c).

Definition set_dictionary_start (c : ColumnDesc) (v : Z) : ColumnDesc :=
  mk_chunk (streams c) (strm_len c) (start_row c) (num_rows c) v
    (dict_len c) (null_count c) (skip_count c) (valid_map_base c) (column_data_base c)
    (encoding_kind c) (type_kind c).

(** The integer decoder of a chunk, [Integer_RLEv1] or [Integer_RLEv2]
    according to [IS_RLEv1(encoding_kind)].  The two decoder states share
    the storage of the union [u]; each decoder writes the part of its state
    that it reads, so the states are kept side by side. *)
Record rle_states := mk_rles {
  rlev1 : orc_rlev1_state_s;
  rlev2 : orc_rlev2_state_s
}.

Definition Integer_RLE (kind : Z) (T : elem_type) (mem : arr) (bs : orc_bytestream_s)
    (u : rle_states) (vals : arr) (maxvals : Z)
  : option (orc_bytestream_s * rle_states * arr * Z) :=
  if IS_RLEv1 kind then
    '(bs, r1, vals, n) <- Integer_RLEv1 T mem bs (rlev1 u) vals maxvals ;;
    Some (bs, mk_rles r1 (rlev2 u), vals, n)
  else
    '(bs, r2, vals, n) <- Integer_RLEv2 T mem bs (rlev2 u) vals maxvals ;;
    Some (bs, mk_rles (rlev1 u) r2, vals, n).

(** ** Byte RLE *)

(** [orc_byterle_state_s]. *)
Record orc_byterle_state_s := mk_rle8 {
  r8_num_runs : Z;
  r8_num_vals : Z;
  r8_fill_pos : Z;
  r8_fill_count : Z;
  r8_runs_loc : arr;
  r8_runs_pos : arr
}.

(** Local variables of thread 0 while it looks for the runs. *)
Record rle8_scan := mk_scan8 {
  s8_numvals : Z;
  s8_numruns : Z;
  s8_lastpos : Z;
  s8_runs_loc : arr;
  s8_runs_pos : arr
}.

(** One iteration of the [while] loop of thread 0 of [Byte_RLE]. *)
Definition rle8_scan_step (bs : orc_bytestream_s) (maxvals maxpos : Z)
    (s : rle8_scan) : rle8_scan * bool :=
  let numvals := s8_numvals s in
  let numruns := s8_numruns s in
  let p := s8_lastpos s in
  let rp := upd (s8_runs_pos s) numruns p in
  let rl := upd (s8_runs_loc s) numruns numvals in
  let n := bytestream_readbyte bs p in
  let p := u32 (p + 1) in
  let '(n, p) :=
    if n <=? 0x7f then (n + 3, u32 (p + 1))     (* Run *)
    else (0x100 - n, u32 (p + (0x100 - n)))     (* Literals *) in
  if (maxpos <? p) || (maxvals <? u32 (numvals + n))
  then (mk_scan8 numvals numruns (s8_lastpos s) rl rp, false)
  else (mk_scan8 (u32 (numvals + n)) (numruns + 1) p rl rp, true).

(** The loop [while (numvals < maxvals && numruns < NWARPS)]. *)
Fixpoint rle8_scan_loop (fuel : nat) (bs : orc_bytestream_s) (maxvals maxpos : Z)
    (s : rle8_scan) : option rle8_scan :=
  if (s8_numvals s <? maxvals) && (s8_numruns s <? NWARPS) then
    match fuel with
    | O => None
    | S fuel' =>
        let '(s', continue) := rle8_scan_step bs maxvals maxpos s in
        if continue then rle8_scan_loop fuel' bs maxvals maxpos s' else Some s'
    end
  else Some s.

(** One run expanded by its warp: a repeated byte or a copy of literals. *)
Definition rle8_expand_run (bs : orc_bytestream_s) (rle : orc_byterle_state_s)
    (vals : arr) (run : nat) : arr :=
  let p := r8_runs_pos rle (Z.of_nat run) in
  let loc := r8_runs_loc rle (Z.of_nat run) in
  let n := bytestream_readbyte bs p in
  let p := u32 (p + 1) in
  let '(literal_mask, n) :=
    if n <=? 0x7f then (0, n + 3) else (u32 (Z.lnot 0), 0x100 - n) in
  fun k =>
    let i := k - loc in
    if (0 <=? i) && (i <? n)
    then bytestream_readbyte bs (u32 (p + Z.land i literal_mask))
    else vals k.

(** [Byte_RLE]; at most [NWARPS] runs are taken, so that number of
    iterations (and the final test) is enough for thread 0. *)
Definition Byte_RLE (mem : arr) (bs : orc_bytestream_s) (rle : orc_byterle_state_s)
    (vals : arr) (maxvals : Z)
  : option (orc_bytestream_s * orc_byterle_state_s * arr * Z) :=
  let maxpos := Z.min (len bs) (u32 (pos bs + (BYTESTREAM_BFRSZ - 8))) in
  s <- rle8_scan_loop (S (Z.to_nat NWARPS)) bs maxvals maxpos
         (mk_scan8 0 0 (pos bs) (r8_runs_loc rle) (r8_runs_pos rle)) ;;
  let '(bs', fc) := bytestream_flush_bytes bs (u32 (s8_lastpos s - pos bs)) in
  let rle := mk_rle8 (s8_numruns s) (s8_numvals s) (pos bs) fc
               (s8_runs_loc s) (s8_runs_pos s) in
  let vals := fold_left (rle8_expand_run bs' rle) (seq 0 (Z.to_nat (r8_num_runs rle))) vals in
  let bs' := bytestream_fill mem bs' (r8_fill_pos rle) (r8_fill_count rle) in
  Some (bs', rle, vals, r8_num_vals rle).

Definition rle8_init : orc_byterle_state_s := mk_rle8 0 0 0 0 zero_arr zero_arr.

(** ** Null bitmaps *)

(** The 32-bit view [vals.u32] of the bytes of [vals] (little endian). *)
Definition vals_u32 (v : arr) (i : Z) : Z :=
  Z.lor (Z.lor (u8 (v (4 * i))) (Z.shiftl (u8 (v (4 * i + 1))) 8))
        (Z.lor (Z.shiftl (u8 (v (4 * i + 2))) 16) (Z.shiftl (u8 (v (4 * i + 3))) 24)).

(** A store to [vals.u32[i]]. *)
Definition set_vals_u32 (v : arr) (i x : Z) : arr :=
  fun k =>
    if (4 * i <=? k) && (k <? 4 * i + 4)
    then Z.land (Z.shiftr x (8 * (k - 4 * i))) 0xff
    else v k.

(** [rle8_read_u32]: the 32 bits from the bit position [bitpos]. *)
Definition rle8_read_u32 (v : arr) (bitpos : Z) : Z :=
  let a := vals_u32 v (Z.shiftr bitpos 5) in
  let b := vals_u32 v (Z.shiftr bitpos 5 + 1) in
  funnelshift_r a b (Z.land bitpos 0x1f).

(** The decoded validity bit [k] of a batch. *)
Definition source_bit (v : arr) (k : Z) : bool :=
  Z.testbit (vals_u32 v (Z.shiftr k 5)) (Z.land k 0x1f).

(** The bit [p] of the validity bitmap that starts at the word [b] of the
    word-addressed memory [vmem]. *)
Definition bitmap_bit (vmem : arr) (b p : Z) : bool :=
  Z.testbit (vmem (b + Z.shiftr p 5)) (Z.land p 0x1f).

(** [v += SHFL_XOR(v, m)] on the lanes of a warp. *)
Definition shfl_xor_add (v : arr) (m : Z) : arr :=
  fun t => u32 (v t + v (Z.lxor t m)).

(** The five-step reduction that leaves the sum of a warp in its lanes. *)
Definition warp_sum (v : arr) : arr :=
  shfl_xor_add (shfl_xor_add (shfl_xor_add (shfl_xor_add (shfl_xor_add v 1) 2) 4) 8) 16.

(** [orc_nulldec_state_s] with what the null loop works on: the PRESENT
    stream, the decoder state, the bytes of [vals], the per-thread register
    [null_count], the copy of the chunk in shared memory and the global
    memory of the bitmaps.  [nd_batches] is not in the source: it lists the
    batches (first row, number of rows, decoded bits). *)
Record nulldec_state := mk_nulldec {
  nd_row : Z;
  nd_bs : orc_bytestream_s;
  nd_rle8 : orc_byterle_state_s;
  nd_vals : arr;
  nd_null_count : arr;
  nd_chunk : ColumnDesc;
  nd_vmem : arr;
  nd_batches : list (Z * Z * arr)
}.

(** Decoding of the validity bits of a batch of at most [nrows_max] rows:
    the stream, the decoder state, the bytes and the number of rows. *)
Definition null_batch_decode (mem : arr) (present : bool) (bs : orc_bytestream_s)
    (rle : orc_byterle_state_s) (vals : arr) (nrows_max : Z)
  : option (orc_bytestream_s * orc_byterle_state_s * arr * Z) :=
  if present then
    '(bs, rle, vals, nbytes) <- Byte_RLE mem bs rle vals (Z.shiftr (nrows_max + 7) 3) ;;
    let nrows := Z.min nrows_max (u32 (nbytes * 8)) in
    if nrows =? 0 then
      (* Error: mark all remaining rows as null *)
      let nrows := nrows_max in
      Some (bs, rle,
            fold_left (fun v t => if t * 32 <? nrows then set_vals_u32 v t 0 else v)
              threads vals,
            nrows)
    else Some (bs, rle, vals, nrows)
  else Some (bs, rle, vals, nrows_max).

(** The geometry of the bitmap store of a batch: first bitmap bit
    [dst_pos], first batch bit [startbit] and number of bits [nbits]. *)
Definition null_window (row_in nrows first_row max_num_rows : Z) : Z * Z * Z :=
  let dst_row := s64 (row_in - first_row) in
  let dst_pos := Z.max dst_row 0 in
  let startbit := u32 (- s32 (Z.min dst_row 0)) in
  let nbits := u32 (nrows - Z.min startbit nrows) in
  let nbits :=
    if max_num_rows <? u64 (dst_pos + nbits)
    then u32 (max_num_rows - Z.min (u64 dst_pos) max_num_rows)
    else nbits in
  (dst_pos, startbit, nbits).

(** The bitmap store of a batch: thread 0 completes the first word when
    the store does not start on a word, then thread [t] stores the word
    [t] of what is left, whole or masked.  Returns the bitmap memory and
    the registers [null_count]. *)
Definition null_store (vals : arr) (vmb : Z) (w : Z * Z * Z) (vmem nc : arr) : arr * arr :=
  let '(dst_pos, startbit, nbits) := w in
  let valid := vmb + Z.shiftr dst_pos 5 in
  let bitpos := Z.land (u32 dst_pos) 0x1f in
  (* Store bits up to the next 32-bit aligned boundary *)
  let '(vmem, nc, nbits, startbit, valid) :=
    if negb (bitpos =? 0) then
      let n := Z.min (32 - bitpos) nbits in
      let mask := u32 (Z.shiftl (u32 (Z.shiftl 1 n) - 1) bitpos) in
      let bits := Z.land (u32 (Z.shiftl (rle8_read_u32 vals startbit) bitpos)) mask in
      let word := Z.lor (Z.land (vmem valid) (u32 (Z.lnot mask))) bits in
      (upd vmem valid word,
       upd nc 0 (u32 (nc 0 + popc (Z.land (u32 (Z.lnot bits)) mask))),
       nbits - n, u32 (startbit + n), valid + 1)
    else (vmem, nc, nbits, startbit, valid) in
  (* Store bits aligned *)
  let bits_of t := rle8_read_u32 vals (u32 (startbit + t * 32)) in
  let tail_mask t := u32 (u32 (Z.shiftl 1 (nbits - t * 32)) - 1) in
  let vmem' : arr := fun a =>
    let t := a - valid in
    if (0 <=? t) && (t <? NTHREADS) then
      if t * 32 + 32 <=? nbits then bits_of t
      else if t * 32 <? nbits then
        Z.lor (Z.land (vmem a) (u32 (Z.lnot (tail_mask t)))) (Z.land (bits_of t) (tail_mask t))
      else vmem a
    else vmem a in
  let nc' : arr := fun t =>
    if (0 <=? t) && (t <? NTHREADS) then
      if t * 32 + 32 <=? nbits then u32 (nc t + popc (u32 (Z.lnot (bits_of t))))
      else if t * 32 <? nbits then
        u32 (nc t + popc (Z.land (u32 (Z.lnot (Z.land (bits_of t) (tail_mask t))))
                            (tail_mask t)))
      else nc t
    else nc t in
  (vmem', nc').

(** The count of a lane [t < 32] in the block that counts the valid rows
    below [first_row]: the loop [for (i = 0; i < skippedrows; i += 32)]. *)
Definition skip_lane_count (vals : arr) (skippedrows : Z) : Z :=
  fold_left
    (fun acc k =>
       let i := 32 * Z.of_nat k in
       let bits := vals_u32 vals (Z.shiftr i 5) in
       let bits :=
         if skippedrows <? i + 32
         then Z.land bits (u32 (u32 (Z.shiftl 1 (skippedrows - i)) - 1))
         else bits in
       u32 (acc + popc bits))
    (seq 0 (Z.to_nat ((skippedrows + 31) / 32))) 0.

(** What is added to [s->chunk.skip_count] for a batch: the lanes of warp 0
    count, the counts are summed with [SHFL_XOR] and lane 0 adds the sum. *)
Definition null_skip_count (vals : arr) (row_in nrows first_row : Z) : Z :=
  if row_in <? first_row then
    let skippedrows := Z.min (u32 (first_row - row_in)) nrows in
    warp_sum (fun _ => skip_lane_count vals skippedrows) 0
  else 0.

(** One iteration of [while (s->top.nulls.row < s->chunk.num_rows)]. *)
Definition null_batch (mem : arr) (max_num_rows first_row : Z) (st : nulldec_state)
  : option nulldec_state :=
  let chunk := nd_chunk st in
  let nrows_max := Z.min (u32 (num_rows chunk - nd_row st)) (NTHREADS * 32) in
  '(bs, rle, vals, nrows) <-
    null_batch_decode mem (0 <? strm_len chunk CI_PRESENT) (nd_bs st) (nd_rle8 st)
      (nd_vals st) nrows_max ;;
  let row_in := u32 (start_row chunk + nd_row st) in
  let '(vmem, nc) :=
    if (first_row <? u64 (row_in + nrows)) && (row_in <? u64 (first_row + max_num_rows))
       && negb (valid_map_base chunk =? 0)
    then null_store vals (valid_map_base chunk)
           (null_window row_in nrows first_row max_num_rows) (nd_vmem st) (nd_null_count st)
    else (nd_vmem st, nd_null_count st) in
  (* We may have some valid values that are not decoded below first_row ->
     count these in skip_count, so that subsequent kernel can infer the
     correct row position *)
  let chunk := set_skip_count chunk
                 (u32 (skip_count chunk + null_skip_count vals row_in nrows first_row)) in
  Some (mk_nulldec (u32 (nd_row st + nrows)) bs rle vals nc chunk vmem
          (nd_batches st ++ [(row_in, nrows, vals)])).

Fixpoint null_loop (fuel : nat) (mem : arr) (max_num_rows first_row : Z)
    (st : nulldec_state) : option nulldec_state :=
  if nd_row st <? num_rows (nd_chunk st) then
    match fuel with
    | O => None
    | S fuel' =>
        st' <- null_batch mem max_num_rows first_row st ;;
        null_loop fuel' mem max_num_rows first_row st'
    end
  else Some st.

(** The sum of the registers [null_count] of the block: the warps sum
    their lanes, lane 0 of each warp stores the sum in
    [s->top.nulls.null_count], warp 0 sums these. *)
Definition null_count_total (nc : arr) : Z :=
  let warp_sums : arr := fun w => warp_sum nc (w * 32) in
  warp_sum (fun t => if t <? NWARPS then warp_sums t else 0) 0.

(** The null half of [gpuDecodeNullsAndStringDictionaries]
    ([blockIdx.y >= num_stripes]) for one chunk.  The result is what the
    kernel leaves in global memory: the chunk descriptor [chunks[chunk_id]],
    of which [null_count] alone is written, and the bitmaps; the final
    state of the block is returned with them.  Every batch has at least
    one row, so [num_rows] iterations are enough. *)
Definition decode_nulls (mem : arr) (chunk : ColumnDesc) (vmem : arr)
    (max_num_rows first_row : Z) (bs0 : orc_bytestream_s) (vals0 : arr)
  : option (ColumnDesc * arr * nulldec_state) :=
  let present := 0 <? strm_len chunk CI_PRESENT in
  let bs :=
    if present
    then bytestream_initbuf mem
           (bytestream_init bs0 (streams chunk CI_PRESENT) (strm_len chunk CI_PRESENT))
    else bs0 in
  let vals :=
    if present then vals0
    else (* No present stream: all rows are valid *)
      fold_left (fun v t => set_vals_u32 v t (u32 (Z.lnot 0))) threads vals0 in
  st <- null_loop (Z.to_nat (num_rows chunk)) mem max_num_rows first_row
          (mk_nulldec 0 bs rle8_init vals zero_arr chunk vmem []) ;;
  Some (set_null_count chunk (null_count_total (nd_null_count st)), nd_vmem st, st).

Definition rles_init : rle_states := mk_rles rlev1_init rlev2_init.
Definition empty_bs : orc_bytestream_s := mk_bs 0 0 0 zero_arr.

(** ** String dictionaries *)

(** [orc_strdict_state_s]; [local_dict] is an index into the global
    dictionary. *)
Record orc_strdict_state_s := mk_strdict {
  local_dict : Z;
  dict_pos : Z;
  top_dict_len : Z
}.

(** What the dictionary loop works on: the LENGTH stream, the decoder
    states, the values, the loop state and the global dictionary.
    [dd_lengths] is not in the source: it lists, batch after batch, the
    lengths for which an entry was written. *)
Record dictdec_state := mk_dictdec {
  dd_bs : orc_bytestream_s;
  dd_u : rle_states;
  dd_vals : arr;
  dd_top : orc_strdict_state_s;
  dd_dict : Z -> DictionaryEntry;
  dd_lengths : list Z
}.

(** One iteration of [while (s->top.dict.dict_len > 0)]. *)
Definition dict_batch (mem : arr) (kind : Z) (st : dictdec_state) : option dictdec_state :=
  let top := dd_top st in
  let numvals := Z.min (top_dict_len top) NTHREADS in
  '(bs, u, vals, numvals) <- Integer_RLE kind U32 mem (dd_bs st) (dd_u st) (dd_vals st) numvals ;;
  let len_ : arr := fun t => if t <? numvals then u32 (vals t) else 0 in
  vals <- lengths_to_positions U32 vals numvals ;;
  let '(numvals, vals) :=
    if numvals =? 0 then
      (* This is an error (ran out of data) *)
      (Z.min (top_dict_len top) NTHREADS,
       (fun t => if (0 <=? t) && (t <? NTHREADS) then 0 else vals t) : arr)
    else (numvals, vals) in
  let dict := fun k =>
    let t := k - local_dict top in
    if (0 <=? t) && (t <? NTHREADS) && (t <? numvals)
    then mk_entry (u32 (dict_pos top + u32 (vals t) - len_ t)) (len_ t)
    else dd_dict st k in
  let top := mk_strdict (local_dict top + numvals)
               (u32 (dict_pos top + u32 (vals (numvals - 1))))
               (u32 (top_dict_len top - numvals)) in
  Some (mk_dictdec bs u vals top dict
          (dd_lengths st ++ map len_ (map Z.of_nat (seq 0 (Z.to_nat numvals))))).

Fixpoint dict_loop (fuel : nat) (mem : arr) (kind : Z) (st : dictdec_state)
  : option dictdec_state :=
  if 0 <? top_dict_len (dd_top st) then
    match fuel with
    | O => None
    | S fuel' => st' <- dict_batch mem kind st ;; dict_loop fuel' mem kind st'
    end
  else Some st.

(** The dictionary half of [gpuDecodeNullsAndStringDictionaries]
    ([blockIdx.y < num_stripes]) for one chunk: the global dictionary
    after the kernel and the lengths decoded.  Every batch writes at least
    one entry, so [dict_len] iterations are enough. *)
Definition decode_string_dictionary (mem : arr) (chunk : ColumnDesc)
    (global_dictionary : Z -> DictionaryEntry) (bs0 : orc_bytestream_s) (u0 : rle_states)
    (vals0 : arr) : option ((Z -> DictionaryEntry) * list Z) :=
  let kind := encoding_kind chunk in
  if ((kind =? DICTIONARY) || (kind =? DICTIONARY_V2)) && (0 <? dict_len chunk) then
    let top := mk_strdict (dictionary_start chunk) 0 (dict_len chunk) in
    (* CI_DATA2 contains the LENGTH stream coding the length of individual
       dictionary entries *)
    let bs := bytestream_init bs0 (streams chunk CI_DATA2) (strm_len chunk CI_DATA2) in
    let bs := bytestream_initbuf mem bs in
    st <- dict_loop (Z.to_nat (dict_len chunk)) mem kind
            (mk_dictdec bs u0 vals0 top global_dictionary []) ;;
    Some (dd_dict st, dd_lengths st)
  else Some (global_dictionary, []).

(** The offset of the [k]-th entry of a dictionary with the lengths [l]. *)
Definition offset_before (l : list Z) (k : nat) : Z := fold_right Z.add 0 (firstn k l).

(** What the dictionary loop maintains, for a chunk whose slice of the
    global dictionary [g0] starts at [ds] and has [dl] entries. *)
Definition dict_inv (g0 : Z -> DictionaryEntry) (ds dl : Z) (st : dictdec_state) : Prop :=
  let n := length (dd_lengths st) in
  local_dict (dd_top st) = ds + Z.of_nat n /\
  top_dict_len (dd_top st) = dl - Z.of_nat n /\
  0 <= dl - Z.of_nat n /\
  dict_pos (dd_top st) = u32 (offset_before (dd_lengths st) n) /\
  (forall k, (k < n)%nat ->
     dd_dict st (ds + Z.of_nat k)
     = mk_entry (u32 (offset_before (dd_lengths st) k)) (nth k (dd_lengths st) 0)) /\
  (forall j, ~ ds <= j < ds + Z.of_nat n -> dd_dict st j = g0 j).

(** ** Column data *)

(** [lengths_to_positions<T>] called on the cells of an array from [lo] on. *)
Definition lengths_to_positions_at (T : elem_type) (lo : Z) (vals : arr) (numvals : Z)
  : option arr :=
  scan_loop 32 T lo (Z.min numvals NTHREADS) numvals 1 vals.

(** The typed views of the bytes of [vals]: the cell [base + i] of the view
    of type [T], and the bytes of an array of cells seen from [base]. *)
Definition le_bytes (sz : Z) (v : arr) (a : Z) : Z :=
  fold_right (fun k acc => Z.lor (Z.shiftl (u8 (v (a + Z.of_nat k))) (8 * Z.of_nat k)) acc)
    0 (seq 0 (Z.to_nat sz)).

Definition cells (T : elem_type) (v : arr) (b : Z) : arr :=
  fun i => wrapT T (le_bytes (sizeof T) v (sizeof T * (b + i))).

Definition store_cells (T : elem_type) (b : Z) (c : arr) : arr :=
  fun k => Z.land (Z.shiftr (c (k / sizeof T - b)) (8 * (k mod sizeof T))) 0xff.

(** The integer decoder of the chunk writing to [&vals.T[b]]. *)
Definition Integer_RLE_at (kind : Z) (T : elem_type) (mem : arr) (bs : orc_bytestream_s)
    (u : rle_states) (vals : arr) (b maxvals : Z)
  : option (orc_bytestream_s * rle_states * arr * Z) :=
  '(bs, u, c, n) <- Integer_RLE kind T mem bs u (cells T vals b) maxvals ;;
  Some (bs, u, store_cells T b c, n).

(** [orc_datadec_state_s]. *)
Record orc_datadec_state_s := mk_datadec {
  cur_row : Z;          (* starting row of current batch *)
  end_row : Z;          (* ending row of this chunk (start_row + num_rows) *)
  max_vals : Z;         (* max # of non-zero values to decode in this batch *)
  nrows : Z;            (* # of rows in current batch (up to NTHREADS) *)
  buffered_count : Z;   (* number of buffered values in the secondary data stream *)
  buffered_pos : Z;     (* position of buffered values in the secondary data stream *)
  row_ofs_plus1 : arr   (* 0=skip, >0: row position relative to cur_row *)
}.

Definition set_window (d : orc_datadec_state_s) (mv nr : Z) (ro : arr) : orc_datadec_state_s :=
  mk_datadec (cur_row d) (end_row d) mv nr (buffered_count d) (buffered_pos d) ro.

Definition set_batch (d : orc_datadec_state_s) (mv nr : Z) : orc_datadec_state_s :=
  mk_datadec (cur_row d) (end_row d) mv nr (buffered_count d) (buffered_pos d)
    (row_ofs_plus1 d).

Definition set_buffered (d : orc_datadec_state_s) (bc bp : Z) : orc_datadec_state_s :=
  mk_datadec (cur_row d) (end_row d) (max_vals d) (nrows d) bc bp (row_ofs_plus1 d).

(** A byte of the validity bitmap of the chunk, read through
    [valid_map_base] cast to a pointer to bytes. *)
Definition valid_map_byte (vmem : arr) (vmb k : Z) : Z :=
  Z.land (Z.shiftr (vmem (vmb + Z.shiftr k 2)) (8 * Z.land k 3)) 0xff.

(** The validity bit that thread [t] reads in the window of [n] rows. *)
Definition window_valid (vmem : arr) (vmb first_row : Z) (d : orc_datadec_state_s)
    (n t : Z) : Z :=
  let rmax := u32 (end_row d - Z.min (u32 first_row) (end_row d)) in
  let r := u32 (cur_row d + nrows d + t - first_row) in
  if (t <? n) && (r <? rmax)
  then Z.land (Z.shiftr (valid_map_byte vmem vmb (Z.shiftr r 3)) (Z.land r 7)) 1
  else 0.

(** The rank [nz_pos] of thread [t] among the valid rows of the window,
    read from the prefix sums [ro] that start at [lo]; 0 for a null row. *)
Definition window_nz_pos (valid : arr) (ro : arr) (lo t : Z) : Z :=
  if valid t =? 0 then 0 else u16 (ro (lo + t)).

(** A window of [n] rows of a chunk with a PRESENT stream. *)
Definition window_present (vmem : arr) (vmb first_row : Z) (d : orc_datadec_state_s)
    (n : Z) : option orc_datadec_state_s :=
  let valid := window_valid vmem vmb first_row d n in
  let lo := max_vals d in
  let ro : arr := fun k =>
    let t := k - lo in
    if (0 <=? t) && (t <? NTHREADS) && (t <? n) then u16 (valid t) else row_ofs_plus1 d k in
  ro <- lengths_to_positions_at U16 lo ro n ;;
  let mv := u32 (max_vals d + u16 (ro (lo + (n - 1)))) in
  let ro' :=
    fold_left
      (fun a t =>
         if valid t =? 0 then a
         else upd a (lo + (window_nz_pos valid ro lo t - 1)) (u16 (nrows d + t)))
      threads ro in
  if NTHREADS <? mv
  then Some (set_window d NTHREADS (u16 (ro' (NTHREADS - 1))) ro')
  else Some (set_window d mv (u32 (nrows d + n)) ro').

(** A window of [n] rows of a chunk without PRESENT stream: all values are
    valid. *)
Definition window_all_valid (d : orc_datadec_state_s) (n : Z) : orc_datadec_state_s :=
  let n := Z.min n (u32 (NTHREADS - max_vals d)) in
  let ro : arr := fun k =>
    let t := k - max_vals d in
    if (0 <=? t) && (t <? NTHREADS) && (t <? n)
    then u16 (nrows d + t + 1) else row_ofs_plus1 d k in
  set_window d (u32 (max_vals d + n)) (u32 (nrows d + n)) ro.

(** 1. Use the valid bits to compute non-null row positions until we get a
    full batch of values to decode: the inner [while] loop. *)
Fixpoint row_window (fuel : nat) (vmem : arr) (chunk : ColumnDesc) (first_row : Z)
    (d : orc_datadec_state_s) : option orc_datadec_state_s :=
  if (max_vals d <? NTHREADS) && (u32 (cur_row d + nrows d) <? end_row d)
     && (nrows d <? 0xfe00) then
    match fuel with
    | O => None
    | S fuel' =>
        let n := Z.min (u32 (end_row d - cur_row d))
                   (Z.min (u32 (0xfe00 - nrows d)) NTHREADS) in
        d' <- (if 0 <? strm_len chunk CI_PRESENT
               then window_present vmem (valid_map_base chunk) first_row d n
               else Some (window_all_valid d n)) ;;
        row_window fuel' vmem chunk first_row d'
    end
  else Some d.

(** The start of an iteration of the chunk loop: the slots of the values
    that were counted below [first_row] are marked as skipped. *)
Definition batch_start (chunk : ColumnDesc) (d : orc_datadec_state_s) : orc_datadec_state_s :=
  let mv := Z.min (skip_count chunk) NTHREADS in
  set_window d mv 0
    (fun t => if (0 <=? t) && (t <? NTHREADS) && (t <? mv) then 0 else row_ofs_plus1 d t).

Definition is_string_like (k : TypeKind) : bool :=
  match k with STRING | BINARY | VARCHAR | CHAR => true | _ => false end.

Definition has_secondary (k : TypeKind) : bool :=
  match k with
  | STRING | BINARY | VARCHAR | CHAR | TIMESTAMP | DECIMAL => true
  | _ => false
  end.

Definition is_timestamp (k : TypeKind) : bool :=
  match k with TIMESTAMP => true | _ => false end.

(** The adjustment of the window when fewer values were decoded:
    [if (numvals > 0 && numvals < max_vals)]. *)
Definition shrink (d : orc_datadec_state_s) (numvals : Z) : orc_datadec_state_s :=
  if (0 <? numvals) && (numvals <? max_vals d)
  then set_batch d numvals (u16 (row_ofs_plus1 d (numvals - 1)))
  else d.

(** What the decode step of an iteration works on. *)
Record decode_state := mk_decode {
  ds_bs : orc_bytestream_s;
  ds_u : rle_states;
  ds_rle8 : orc_byterle_state_s;
  ds_vals : arr;
  ds_top : orc_datadec_state_s
}.

(** The secondary stream of the string, timestamp and decimal types.  The
    stream decoded is [s->bs].  Returns the state and [numvals]. *)
Definition decode_secondary (mem : arr) (chunk : ColumnDesc) (st : decode_state)
  : option (decode_state * Z) :=
  let d := ds_top st in
  let numvals := max_vals d in
  let ofs := buffered_count d in
  let vals :=
    if is_timestamp (type_kind chunk) && (0 <? buffered_count d) then
      (* Restore buffered secondary stream values *)
      fold_left
        (fun v t => if t <? ofs then set_vals_u32 v t (vals_u32 (ds_vals st) (buffered_pos d + t))
                    else v)
        threads (ds_vals st)
    else ds_vals st in
  '(bs, u, vals, numvals) <-
    (if ofs <? numvals then
       '(bs, u, vals, n) <- Integer_RLE_at (encoding_kind chunk) U32 mem (ds_bs st) (ds_u st)
                              vals ofs (u32 (numvals - ofs)) ;;
       let numvals := u32 (ofs + n) in
       let vals :=
         if numvals <=? ofs then
           fold_left
             (fun v t => if (ofs <=? t) && (t <? max_vals d) then set_vals_u32 v t 0 else v)
             threads vals
         else vals in
       Some (bs, u, vals, numvals)
     else Some (ds_bs st, ds_u st, vals, numvals)) ;;
  (* For strings with direct encoding, we need to convert the lengths into
     an offset *)
  vals <-
    (if is_string_like (type_kind chunk) && negb (IS_DICTIONARY (encoding_kind chunk)) then
       let v1 :=
         fold_left
           (fun v t => set_vals_u32 v (NTHREADS + t) (if t <? numvals then vals_u32 vals t else 0))
           threads vals in
       c <- lengths_to_positions_at U32 NTHREADS (cells U32 v1 0) numvals ;;
       Some (store_cells U32 0 c)
     else Some vals) ;;
  Some (mk_decode bs u (ds_rle8 st) vals d, numvals).

(** The primary data stream, by physical type.  Returns the state and
    [numvals]. *)
Definition decode_primary (mem : arr) (chunk : ColumnDesc) (st : decode_state)
    (numvals : Z) : option (decode_state * Z) :=
  let d := ds_top st in
  match type_kind chunk with
  | INT | TIMESTAMP | DATE | SHORT =>
      let ofs := if is_timestamp (type_kind chunk) then NTHREADS else 0 in
      (* Signed int32 primary data stream *)
      '(bs, u, vals, numvals) <-
        Integer_RLE_at (encoding_kind chunk) I32 mem (ds_bs st) (ds_u st) (ds_vals st)
          ofs numvals ;;
      let prev_buffered_count := buffered_count d in
      let d := if is_timestamp (type_kind chunk)
               then set_buffered d 0 (buffered_pos d) else d in
      let d :=
        if (0 <? numvals) && (numvals <? max_vals d) then
          let d :=
            if is_timestamp (type_kind chunk) then
              (* Buffer secondary stream values between numvals and
                 s->top.data.max_vals *)
              set_buffered d (u32 (Z.max prev_buffered_count (max_vals d) - numvals)) numvals
            else d in
          set_batch d numvals (u16 (row_ofs_plus1 d (numvals - 1)))
        else d in
      Some (mk_decode bs u (ds_rle8 st) vals d, numvals)
  | BYTE =>
      '(bs, r8, vals, numvals) <- Byte_RLE mem (ds_bs st) (ds_rle8 st) (ds_vals st) numvals ;;
      Some (mk_decode bs (ds_u st) r8 vals d, numvals)
  | BOOLEAN =>
      '(bs, r8, vals, n) <-
        Byte_RLE mem (ds_bs st) (ds_rle8 st) (ds_vals st) (Z.shiftr (numvals + 7) 3) ;;
      Some (mk_decode bs (ds_u st) r8 vals d, Z.min (u32 (Z.shiftl n 3)) (max_vals d))
  | LONG =>
      '(bs, u, vals, numvals) <-
        Integer_RLE_at (encoding_kind chunk) I64 mem (ds_bs st) (ds_u st) (ds_vals st)
          0 numvals ;;
      Some (mk_decode bs u (ds_rle8 st) vals d, numvals)
  | FLOAT =>
      let numvals := Z.min numvals (Z.shiftr (BYTESTREAM_BFRSZ - 8) 2) in
      let bs := ds_bs st in
      let vals :=
        fold_left
          (fun v t => if t <? numvals
                      then set_vals_u32 v t (bytestream_readu32 bs (u32 (pos bs + t * 4)))
                      else v)
          threads (ds_vals st) in
      let '(bs', fc) := bytestream_flush_bytes bs (u32 (numvals * 4)) in
      let r8 := mk_rle8 (r8_num_runs (ds_rle8 st)) (r8_num_vals (ds_rle8 st)) (pos bs) fc
                  (r8_runs_loc (ds_rle8 st)) (r8_runs_pos (ds_rle8 st)) in
      Some (mk_decode (bytestream_fill mem bs' (pos bs) fc) (ds_u st) r8 vals d, numvals)
  | DOUBLE =>
      let numvals := Z.min numvals (Z.shiftr (BYTESTREAM_BFRSZ - 8) 3) in
      let bs := ds_bs st in
      let vals :=
        store_cells U64 0
          (fun t => if (0 <=? t) && (t <? NTHREADS) && (t <? numvals)
                    then bytestream_readu64 bs (u32 (pos bs + t * 8))
                    else cells U64 (ds_vals st) 0 t) in
      let '(bs', fc) := bytestream_flush_bytes bs (u32 (numvals * 8)) in
      let r8 := mk_rle8 (r8_num_runs (ds_rle8 st)) (r8_num_vals (ds_rle8 st)) (pos bs) fc
                  (r8_runs_loc (ds_rle8 st)) (r8_runs_pos (ds_rle8 st)) in
      Some (mk_decode (bytestream_fill mem bs' (pos bs) fc) (ds_u st) r8 vals d, numvals)
  | _ => Some (st, numvals)
  end.

(** 2. Decode data streams: the block [if (s->top.data.max_vals > 0)] up to
    the store of the values. *)
Definition decode_streams (mem : arr) (chunk : ColumnDesc) (st : decode_state)
  : option decode_state :=
  '(st, numvals) <-
    (if has_secondary (type_kind chunk) then decode_secondary mem chunk st
     else Some (st, max_vals (ds_top st))) ;;
  (* Adjust the maximum number of values *)
  let st := mk_decode (ds_bs st) (ds_u st) (ds_rle8 st) (ds_vals st)
              (shrink (ds_top st) numvals) in
  '(st, numvals) <- decode_primary mem chunk st numvals ;;
  Some (mk_decode (ds_bs st) (ds_u st) (ds_rle8 st) (ds_vals st)
          (shrink (ds_top st) numvals)).

(** The string descriptor [nvstrdesc_s] of the output of a string column. *)
Record nvstrdesc_s := mk_strdesc {
  ptr : Z;
  count : Z
}.

(** The sentinel pointer of an out-of-range string. *)
Definition sentinel : Z := 0xdeadbeef.

(** The descriptor that thread [t] stores for a string-like row, with the
    indices of the entries of the global dictionary that are read to
    produce it; no byte of the DICTIONARY or DATA stream is read.  With the
    direct encoding the local variable [count] is read before it is
    assigned; [count0] stands for the value it holds then. *)
Definition string_descriptor (chunk : ColumnDesc) (global_dictionary : Z -> DictionaryEntry)
    (vals : arr) (t count0 : Z) : nvstrdesc_s * list Z :=
  if IS_DICTIONARY (encoding_kind chunk) then
    let dict_idx := vals_u32 vals t in
    let p := streams chunk CI_DICTIONARY in
    if dict_idx <? dict_len chunk then
      let e := global_dictionary (u32 (dictionary_start chunk + dict_idx)) in
      (mk_strdesc (p + de_pos e) (de_len e), [u32 (dictionary_start chunk + dict_idx)])
    else (mk_strdesc sentinel 0, [])
  else
    let dict_idx := u32 (dictionary_start chunk + vals_u32 vals (NTHREADS + t) - count0) in
    let cnt := vals_u32 vals t in
    let p := streams chunk CI_DATA + dict_idx in
    if strm_len chunk CI_DATA <? u32 (dict_idx + cnt)
    then (mk_strdesc sentinel 0, [])
    else (mk_strdesc p cnt, []).

Definition kTimestampNanoScale : list Z :=
  [1; 100; 1000; 1000; 10000; 100000; 1000000; 10000000].

(** The output buffers of a column: the values of the numeric types by row,
    the descriptors of the string types by row. *)
Record column_out := mk_out {
  out_data : arr;
  out_str : Z -> nvstrdesc_s
}.

(** The store of thread [t] in the output row [row]. *)
Definition store_value (chunk : ColumnDesc) (global_dictionary : Z -> DictionaryEntry)
    (uninit : arr) (vals : arr) (out : column_out) (t row : Z) : column_out :=
  match type_kind chunk with
  | FLOAT | INT | DATE => mk_out (upd (out_data out) row (vals_u32 vals t)) (out_str out)
  | DOUBLE | LONG | DECIMAL => mk_out (upd (out_data out) row (cells U64 vals 0 t)) (out_str out)
  | SHORT => mk_out (upd (out_data out) row (u16 (vals_u32 vals t))) (out_str out)
  | BYTE => mk_out (upd (out_data out) row (u8 (vals t))) (out_str out)
  | BOOLEAN =>
      mk_out (upd (out_data out) row
                (Z.land (Z.shiftr (u8 (vals (Z.shiftr t 3))) (Z.land (Z.lnot t) 7)) 1))
        (out_str out)
  | STRING | BINARY | VARCHAR | CHAR =>
      mk_out (out_data out)
        (fun r => if r =? row
                  then fst (string_descriptor chunk global_dictionary vals t (uninit t))
                  else out_str out r)
  | TIMESTAMP =>
      let seconds := vals_u32 vals (NTHREADS + t) in
      let nanos := vals_u32 vals t in
      let nanos := u32 (Z.shiftr nanos 7
                        * nth (Z.to_nat (Z.land nanos 7)) kTimestampNanoScale 0) in
      mk_out (upd (out_data out) row (s64 (seconds * 1000000000 + nanos))) (out_str out)
  | _ => out
  end.

(** Store decoded values to output: thread [t < max_vals] with a non-zero
    row offset stores to the row [cur_row + row_ofs_plus1[t] - 1 - first_row]
    when it is below [max_num_rows]. *)
Definition scatter (chunk : ColumnDesc) (global_dictionary : Z -> DictionaryEntry)
    (uninit : arr) (max_num_rows first_row : Z) (d : orc_datadec_state_s) (vals : arr)
    (out : column_out) : column_out :=
  fold_left
    (fun o t =>
       if (t <? max_vals d) && negb (u16 (row_ofs_plus1 d t) =? 0) then
         let row := u64 (u32 (cur_row d + u16 (row_ofs_plus1 d t) - 1) - first_row) in
         if row <? max_num_rows
         then store_value chunk global_dictionary uninit vals o t row
         else o
       else o)
    threads out.

(** What the chunk loop works on. *)
Record datadec_state := mk_data {
  dc_chunk : ColumnDesc;
  dc_dec : decode_state;
  dc_out : column_out
}.

(** One iteration of [while (s->top.data.cur_row < s->top.data.end_row)];
    the boolean is [false] when the iteration leaves the loop with
    [break]. *)
Definition data_batch (mem vmem : arr) (global_dictionary : Z -> DictionaryEntry)
    (uninit : arr) (max_num_rows first_row : Z) (st : datadec_state)
  : option (datadec_state * bool) :=
  let chunk := dc_chunk st in
  let dec := dc_dec st in
  d <- row_window (Z.to_nat 0xfe00) vmem chunk first_row (batch_start chunk (ds_top dec)) ;;
  let dec := mk_decode (ds_bs dec) (ds_u dec) (ds_rle8 dec) (ds_vals dec) d in
  '(dec, out) <-
    (if 0 <? max_vals d then
       dec <- decode_streams mem chunk dec ;;
       Some (dec, scatter chunk global_dictionary uninit max_num_rows first_row
                    (ds_top dec) (ds_vals dec) (dc_out st))
     else Some (dec, dc_out st)) ;;
  let d := ds_top dec in
  let chunk := set_skip_count chunk
                 (u32 (skip_count chunk - Z.min (skip_count chunk) (max_vals d))) in
  let d' := mk_datadec (u32 (cur_row d + nrows d)) (end_row d) (max_vals d) (nrows d)
              (buffered_count d) (buffered_pos d) (row_ofs_plus1 d) in
  let chunk :=
    if is_string_like (type_kind chunk) && negb (IS_DICTIONARY (encoding_kind chunk))
       && (0 <? max_vals d)
    then set_dictionary_start chunk
           (u32 (dictionary_start chunk
                 + vals_u32 (ds_vals dec) (u32 (NTHREADS + max_vals d - 1))))
    else chunk in
  Some (mk_data chunk (mk_decode (ds_bs dec) (ds_u dec) (ds_rle8 dec) (ds_vals dec) d') out,
        negb ((max_vals d =? 0) && (nrows d =? 0))).

Fixpoint data_loop (fuel : nat) (mem vmem : arr) (global_dictionary : Z -> DictionaryEntry)
    (uninit : arr) (max_num_rows first_row : Z) (st : datadec_state)
  : option datadec_state :=
  if cur_row (ds_top (dc_dec st)) <? end_row (ds_top (dc_dec st)) then
    match fuel with
    | O => None
    | S fuel' =>
        '(st', continue) <-
          data_batch mem vmem global_dictionary uninit max_num_rows first_row st ;;
        if continue
        then data_loop fuel' mem vmem global_dictionary uninit max_num_rows first_row st'
        else Some st'
    end
  else Some st.

(** The state of the block of [gpuDecodeOrcColumnData] when it enters the
    chunk loop: the copy of [chunks[chunk_id]] in shared memory and the
    stream [s->bs] (the stream [s->bs2] is initialised and never read). *)
Definition data_init (mem : arr) (chunk : ColumnDesc) (max_num_rows first_row : Z)
    (bs0 : orc_bytestream_s) (vals0 : arr) (out0 : column_out) : datadec_state :=
  let er := u32 (start_row chunk + num_rows chunk) in
  let er := if u64 (first_row + max_num_rows) <? er
            then u32 (u64 (first_row + max_num_rows)) else er in
  let chunk := if IS_DICTIONARY (encoding_kind chunk) then chunk
               else set_dictionary_start chunk 0 in
  let bs := bytestream_initbuf mem
              (bytestream_init bs0 (streams chunk CI_DATA) (strm_len chunk CI_DATA)) in
  mk_data chunk
    (mk_decode bs rles_init rle8_init vals0
       (mk_datadec (start_row chunk) er 0 0 0 0 zero_arr))
    out0.

(** ** Notions used to state the properties of the delta runs *)

(** The offset of a slot with the sign of the delta. *)
Definition rlev2_delta_step (T : elem_type) (bs : orc_bytestream_s) (run : rlev2_run)
    (d i : Z) : Z :=
  if d <? 0 then - rlev2_delta_ofs T bs run d i else rlev2_delta_ofs T bs run d i.

(** The base and the delta of the delta run whose header is at [p0], as
    lane 0 keeps them: both are read with the template of [decode_varint],
    the delta into the signed field [delta.i32] or [delta.i64].  The varint
    of the delta is not zig-zag decoded. *)
Definition rlev2_delta_base (T : elem_type) (bs : orc_bytestream_s) (p0 : Z) : Z :=
  wrapT T (snd (decode_varint_u (wide T) bs (u32 (u32 (p0 + 1) + 1)))).

(** The varint that follows the base, unsigned. *)
Definition rlev2_delta_varint (T : elem_type) (bs : orc_bytestream_s) (p0 : Z) : Z :=
  snd (decode_varint_u (wide T) bs
         (u32 (fst (decode_varint_u (wide T) bs (u32 (u32 (p0 + 1) + 1)))))).

Definition rlev2_delta_delta (T : elem_type) (bs : orc_bytestream_s) (p0 : Z) : Z :=
  if wide T then s64 (rlev2_delta_varint T bs p0) else s32 (rlev2_delta_varint T bs p0).

(** ** Streams used in the worked examples *)

(** A literal block of two varints, the first one of two bytes
    ([0x80 0x01] is 128), followed by one more byte. *)
Definition rlev1_two_literals : list Z := [0xFE; 0x80; 0x01; 0x05; 0x07].

(** A run of five values from 7 with delta -1, then four literals. *)
Definition rlev1_run_then_literals : list Z := [0x02; 0xFF; 0x07; 0xFC; 3; 0; 7; 2].

(** A delta run of ten values with base 2 and the delta varint [0x01]
    (the zig-zag code of -1), followed by one byte. *)
Definition rlev2_delta_down : list Z := [0xc6; 0x09; 0x02; 0x01; 0x22; 0x42; 0x42; 0x46; 0].

(** The delta run of the ORC specification for the values 2, 3, 5, 7, 11,
    13, 17, 19, 23, 29: ten values of width 4, base 2, the delta varint
    [0x02] (the zig-zag code of +1), then the steps 2, 2, 4, 2, 4, 2, 4, 6;
    followed by one byte. *)
Definition rlev2_delta_up : list Z := [0xc6; 0x09; 0x02; 0x02; 0x22; 0x42; 0x42; 0x46; 0].

(** Modelled from the spec: the encoder is not part of the decoder source;
    [encode_varint] is the canonical base-128 little-endian encoding that
    the round-trip property of the spec refers to: seven bits per byte,
    least significant group first, the high bit set on every byte but the
    last. *)
Fixpoint encode_varint_fuel (n : nat) (v : Z) : list Z :=
  match n with
  | O => []
  | S n' =>
      if v <? 128 then [v]
      else Z.lor (Z.land v 0x7f) 0x80 :: encode_varint_fuel n' (Z.shiftr v 7)
  end.

Definition encode_varint (v : Z) : list Z := encode_varint_fuel 10 v.

(** Modelled from the spec: zig-zag encoding of a signed value of [bits]
    bits, the inverse of [(u >> 1) ^ -(u & 1)]. *)
Definition zigzag_encode (bits : Z) (x : Z) : Z :=
  Z.lxor (Z.shiftl x 1 mod 2 ^ bits) (if x <? 0 then 2 ^ bits - 1 else 0).

(** A dictionary-encoded chunk whose LENGTH stream, at address 0, is an
    RLE v1 literal block with the lengths 3, 0, 7 and 2; its dictionary
    slice starts at the entry 5 of the global dictionary. *)
Definition dict_lengths_stream : list Z := [0xFC; 3; 0; 7; 2].

Definition no_stream : StreamIndexType -> Z := fun _ => 0.

Definition dict_chunk : ColumnDesc :=
  mk_chunk no_stream
    (fun s => match s with CI_DATA2 => 5 | _ => 0 end)
    0 4 5 4 0 0 0 0 DICTIONARY STRING.

Definition no_dictionary : Z -> DictionaryEntry := fun _ => mk_entry 0 0.

(** A chunk of 37 rows with a PRESENT stream at address 0: a byte RLE
    literal block of five bytes, that is 40 validity bits of which the
    first 37 are rows.  Its bitmap starts at the word 1 of the bitmap
    memory. *)
Definition present_stream : list Z := [0xFB; 0xA7; 0x3C; 0xF1; 0x5E; 0x1B].

Definition present_chunk : ColumnDesc :=
  mk_chunk no_stream
    (fun s => match s with CI_PRESENT => 6 | _ => 0 end)
    0 37 0 0 0 0 1 0 DIRECT INT.

(** A bitmap memory with a recognisable pattern in every word. *)
Definition old_bitmaps : arr := fun _ => 0x55555555.

(** The entries 5 to 8 of the global dictionary and the lengths decoded for
    [dict_chunk]. *)
Definition dict_example : option (list DictionaryEntry * list Z) :=
  '(g, lens) <- decode_string_dictionary (read_list dict_lengths_stream) dict_chunk
                  no_dictionary empty_bs rles_init zero_arr ;;
  Some (map g [5; 6; 7; 8], lens).

(** An INT chunk of five rows without PRESENT stream, RLE v2 direct
    encoding of width 8: the values 10, 20, 30, 40 and 50 (zig-zag). *)
Definition int_stream : list Z := [0x4E; 0x04; 0x14; 0x28; 0x3c; 0x50; 0x64].

Definition int_chunk : ColumnDesc :=
  mk_chunk no_stream
    (fun s => match s with CI_DATA => 7 | _ => 0 end)
    0 5 0 0 0 0 0 0 DIRECT_V2 INT.

Definition no_out : column_out := mk_out zero_arr (fun _ => mk_strdesc 0 0).

(** The rows [rows] of the numeric output of the column data kernel for
    one chunk, with the final row counters. *)
Definition data_example (mem vmem : arr) (chunk : ColumnDesc) (max_num_rows first_row : Z)
    (fuel : nat) (rows : list Z) : option (list Z * Z * Z) :=
  st <- data_loop fuel mem vmem no_dictionary zero_arr max_num_rows first_row
          (data_init mem chunk max_num_rows first_row empty_bs zero_arr no_out) ;;
  Some (map (out_data (dc_out st)) rows,
        cur_row (ds_top (dc_dec st)), end_row (ds_top (dc_dec st))).

(** ** Notions used to state what the run-length decoders compute *)

(** *** The groups of a byte RLE stream, as [Byte_RLE] reads them

    A group starts with a control byte [n]: [n <= 0x7f] announces a run of
    [n + 3] copies of the next byte, a larger [n] announces [0x100 - n]
    literal bytes. *)
Definition rle8_group_len (bs : orc_bytestream_s) (p : Z) : Z :=
  let n := bytestream_readbyte bs p in
  if n <=? 0x7f then n + 3 else 0x100 - n.

(** The position after the group at [p]. *)
Definition rle8_group_end (bs : orc_bytestream_s) (p : Z) : Z :=
  let n := bytestream_readbyte bs p in
  if n <=? 0x7f then p + 2 else p + 1 + (0x100 - n).

(** The [i]-th byte of the group at [p]. *)
Definition rle8_group_byte (bs : orc_bytestream_s) (p i : Z) : Z :=
  let n := bytestream_readbyte bs p in
  if n <=? 0x7f then bytestream_readbyte bs (p + 1) else bytestream_readbyte bs (p + 1 + i).

(** The position of the [r]-th group after [p0], and the number of bytes
    of the groups before it. *)
Fixpoint rle8_group_pos (bs : orc_bytestream_s) (p0 : Z) (r : nat) : Z :=
  match r with
  | O => p0
  | S r' => rle8_group_end bs (rle8_group_pos bs p0 r')
  end.

Fixpoint rle8_group_loc (bs : orc_bytestream_s) (p0 : Z) (r : nat) : Z :=
  match r with
  | O => 0
  | S r' => rle8_group_loc bs p0 r' + rle8_group_len bs (rle8_group_pos bs p0 r')
  end.

(** What thread 0 of [Byte_RLE] has found after [k] groups. *)
Definition rle8_scan_inv (bs : orc_bytestream_s) (p0 maxvals maxpos : Z) (k : nat)
    (s : rle8_scan) : Prop :=
  s8_numruns s = Z.of_nat k /\ (k <= 32)%nat /\
  s8_numvals s = rle8_group_loc bs p0 k /\
  s8_lastpos s = rle8_group_pos bs p0 k /\
  s8_numvals s <= maxvals /\ p0 <= s8_lastpos s <= maxpos /\
  forall r, (r < k)%nat ->
    s8_runs_pos s (Z.of_nat r) = rle8_group_pos bs p0 r /\
    s8_runs_loc s (Z.of_nat r) = rle8_group_loc bs p0 r.

(** Why thread 0 stopped after [k] groups. *)
Definition rle8_scan_end (bs : orc_bytestream_s) (p0 maxvals maxpos : Z) (k : nat) : Prop :=
  maxvals <= rle8_group_loc bs p0 k \/ k = 32%nat \/
  maxpos < rle8_group_end bs (rle8_group_pos bs p0 k) \/
  maxvals < rle8_group_loc bs p0 k + rle8_group_len bs (rle8_group_pos bs p0 k).

(** *** The groups of an integer RLE v1 stream, as [Integer_RLEv1] reads them

    A group starts with a control byte [n]: [n <= 0x7f] announces a run of
    [n + 3] values given by a delta byte and a base varint; a larger [n]
    announces [0x100 - n] literal varints.  The search of thread 0 steps
    over a varint with [varint_length]. *)
Definition rlev1_is_run (bs : orc_bytestream_s) (p : Z) : bool :=
  bytestream_readbyte bs p <=? 0x7f.

Definition rlev1_group_len (bs : orc_bytestream_s) (p : Z) : Z :=
  if rlev1_is_run bs p then bytestream_readbyte bs p + 3
  else 0x100 - bytestream_readbyte bs p.

(** The position that the search assigns to the [i]-th of the varints that
    follow each other from [p] on. *)
Fixpoint rlev1_lit_pos (T : elem_type) (bs : orc_bytestream_s) (p : Z) (i : nat) : Z :=
  match i with
  | O => p
  | S i' => rlev1_lit_pos T bs (p + varint_length T bs p) i'
  end.

(** The position after the group at [p]. *)
Definition rlev1_group_end (T : elem_type) (bs : orc_bytestream_s) (p : Z) : Z :=
  if rlev1_is_run bs p then p + 2 + varint_length T bs (p + 2)
  else rlev1_lit_pos T bs (p + 1) (Z.to_nat (rlev1_group_len bs p)).

(** The [i]-th value of the group at [p]: the base plus [i] times the
    signed delta byte for a run, the varint found at its position for
    literals. *)
Definition rlev1_group_value (T : elem_type) (bs : orc_bytestream_s) (p i : Z) : Z :=
  if rlev1_is_run bs p
  then wrapT T (snd (decode_varint T bs (p + 2))
                + signed_byte (bytestream_readbyte bs (p + 1)) * i)
  else wrapT T (snd (decode_varint T bs (rlev1_lit_pos T bs (p + 1) (Z.to_nat i)))).

(** The position of the [r]-th group after [p0], the number of values of
    the groups before it, and the number of runs among them. *)
Fixpoint rlev1_group_pos (T : elem_type) (bs : orc_bytestream_s) (p0 : Z) (r : nat) : Z :=
  match r with
  | O => p0
  | S r' => rlev1_group_end T bs (rlev1_group_pos T bs p0 r')
  end.

Fixpoint rlev1_group_loc (T : elem_type) (bs : orc_bytestream_s) (p0 : Z) (r : nat) : Z :=
  match r with
  | O => 0
  | S r' => rlev1_group_loc T bs p0 r' + rlev1_group_len bs (rlev1_group_pos T bs p0 r')
  end.

Fixpoint rlev1_group_runs (T : elem_type) (bs : orc_bytestream_s) (p0 : Z) (r : nat) : Z :=
  match r with
  | O => 0
  | S r' => rlev1_group_runs T bs p0 r'
            + (if rlev1_is_run bs (rlev1_group_pos T bs p0 r') then 1 else 0)
  end.

(** What thread 0 of [Integer_RLEv1] has recorded after [k] groups. *)
Definition rlev1_groups_inv (T : elem_type) (bs : orc_bytestream_s)
    (p0 maxvals maxpos : Z) (vals0 : arr) (k : nat) (s : rlev1_scan) : Prop :=
  sc_numvals s = rlev1_group_loc T bs p0 k /\
  sc_lastpos s = rlev1_group_pos T bs p0 k /\
  sc_numruns s = rlev1_group_runs T bs p0 k /\
  sc_numvals s <= maxvals /\ p0 <= sc_lastpos s <= maxpos /\
  (forall r, (r < k)%nat ->
     let p := rlev1_group_pos T bs p0 r in
     if rlev1_is_run bs p then
       sc_run_data s (rlev1_group_runs T bs p0 r)
         = rlev1_pack (bytestream_readbyte bs (p + 1)) (rlev1_group_len bs p)
             (rlev1_group_loc T bs p0 r) /\
       sc_vals s (rlev1_group_loc T bs p0 r) = wrapT T (Z.land (p + 2) 0xffff)
     else
       forall i, (i < Z.to_nat (rlev1_group_len bs p))%nat ->
         sc_vals s (rlev1_group_loc T bs p0 r + Z.of_nat i)
         = wrapT T (Z.land (rlev1_lit_pos T bs (p + 1) i) 0xffff)) /\
  (forall j, ~ 0 <= j < maxvals -> sc_vals s j = vals0 j).

(** Why thread 0 stopped after [k] groups. *)
Definition rlev1_groups_end (T : elem_type) (bs : orc_bytestream_s)
    (p0 maxvals maxpos : Z) (k : nat) : Prop :=
  maxvals <= rlev1_group_loc T bs p0 k \/
  NWARPS * 12 <= rlev1_group_runs T bs p0 k \/
  maxpos < rlev1_group_end T bs (rlev1_group_pos T bs p0 k) \/
  maxvals < rlev1_group_loc T bs p0 k + rlev1_group_len bs (rlev1_group_pos T bs p0 k).

(** The word left in a cell of a group by the search and the expansion of
    the runs: the position of the varint in the low 16 bits, [i] times the
    delta above them. *)
Definition rlev1_cell (T : elem_type) (bs : orc_bytestream_s) (p i : Z) : Z :=
  if rlev1_is_run bs p
  then signed_byte (bytestream_readbyte bs (p + 1)) * i * 2 ^ 16 + (p + 2) mod 2 ^ 16
  else rlev1_lit_pos T bs (p + 1) (Z.to_nat i) mod 2 ^ 16.

(** The expansion of the [r]-th group: nothing for literals. *)
Definition rlev1_expand_group (T : elem_type) (bs : orc_bytestream_s) (p0 : Z)
    (v : arr) (r : nat) : arr :=
  let p := rlev1_group_pos T bs p0 r in
  if rlev1_is_run bs p
  then rlev1_expand_run T v
         (rlev1_pack (bytestream_readbyte bs (p + 1)) (rlev1_group_len bs p)
            (rlev1_group_loc T bs p0 r))
  else v.


(** ** Notions used to state what the kernels store *)

(** The row that thread [t] of [scatter] writes, if it writes. *)
Definition scatter_row (first_row : Z) (d : orc_datadec_state_s) (t : Z) : Z :=
  u64 (u32 (cur_row d + u16 (row_ofs_plus1 d t) - 1) - first_row).

(** The word that thread [t] leaves at [valid[t]] in the aligned part of
    the bitmap store. *)
Definition null_store_word (vals : arr) (startbit nbits : Z) (old t : Z) : Z :=
  let bits := rle8_read_u32 vals (u32 (startbit + t * 32)) in
  let tail_mask := u32 (u32 (Z.shiftl 1 (nbits - t * 32)) - 1) in
  if t * 32 + 32 <=? nbits then bits
  else if t * 32 <? nbits then
    Z.lor (Z.land old (u32 (Z.lnot tail_mask))) (Z.land bits tail_mask)
  else old.

(** The word that thread 0 leaves at [valid[0]] when the store does not
    start on a word. *)
Definition null_store_first (vals : arr) (startbit nbits bitpos old : Z) : Z :=
  let n := Z.min (32 - bitpos) nbits in
  let mask := u32 (Z.shiftl (u32 (Z.shiftl 1 n) - 1) bitpos) in
  let bits := Z.land (u32 (Z.shiftl (rle8_read_u32 vals startbit) bitpos)) mask in
  Z.lor (Z.land old (u32 (Z.lnot mask))) bits.



(** ** Notions used to state what the null kernel counts *)

(** The number of valid rows among the first [n] decoded validity bits. *)
Definition valid_count (vals : arr) (n : Z) : Z :=
  sum_below (fun k => Z.b2z (source_bit vals k)) n.

(** The number of null rows among the [n] decoded validity bits from the
    bit [s] on. *)
Definition null_rows (vals : arr) (s n : Z) : Z :=
  sum_below (fun k => 1 - Z.b2z (source_bit vals (s + k))) n.

(** The count that thread [t] adds in the aligned part of the store. *)
Definition null_store_zeros (vals : arr) (startbit nbits : Z) (t : Z) : Z :=
  let bits := rle8_read_u32 vals (u32 (startbit + t * 32)) in
  let tail_mask := u32 (u32 (Z.shiftl 1 (nbits - t * 32)) - 1) in
  if t * 32 + 32 <=? nbits then popc (u32 (Z.lnot bits))
  else if t * 32 <? nbits then
    popc (Z.land (u32 (Z.lnot (Z.land bits tail_mask))) tail_mask)
  else 0.

(** The count that thread 0 adds when the store does not start on a word. *)
Definition null_store_first_zeros (vals : arr) (startbit nbits bitpos : Z) : Z :=
  let n := Z.min (32 - bitpos) nbits in
  let mask := u32 (Z.shiftl (u32 (Z.shiftl 1 n) - 1) bitpos) in
  let bits := Z.land (u32 (Z.shiftl (rle8_read_u32 vals startbit) bitpos)) mask in
  popc (Z.land (u32 (Z.lnot bits)) mask).


(** ** Notions used to state what the bit readers return *)

(** The bit [k] of the stream, most significant bit of a byte first. *)
Definition stream_bit (bs : orc_bytestream_s) (k : Z) : bool :=
  Z.testbit (bytestream_readbyte bs (k / 8)) (7 - k mod 8).

(** The 32 bits from [bitpos] on, the first one highest, as both readers
    form them. *)
Definition be_word (bs : orc_bytestream_s) (bitpos : Z) : Z :=
  funnelshift_l
    (byte_swap (buf_u32 bs (Z.shiftr (Z.land (bitpos + 32) ((BYTESTREAM_BFRSZ - 1) * 8)) 5)))
    (byte_swap (buf_u32 bs (Z.shiftr (Z.land bitpos ((BYTESTREAM_BFRSZ - 1) * 8)) 5)))
    (Z.land bitpos 31).


(** *** The groups of an integer RLE v2 stream, as [Integer_RLEv2] reads them *)











(** *** The patch list of a patched base group, as [Integer_RLEv2] reads it *)

(** The fields that lane 0 keeps in [m2_pw_byte3]: the patch width, the
    width of the gaps and the length of the patch list. *)
Definition rlev2_patch_width (rle : orc_rlev2_state_s) (r : Z) : Z :=
  Z.shiftr (u16 (m2_pw_byte3 rle r)) 8.

Definition rlev2_patch_gap_width (rle : orc_rlev2_state_s) (r : Z) : Z :=
  1 + Z.land (Z.shiftr (u16 (m2_pw_byte3 rle r)) 5) 7.

Definition rlev2_patch_count (rle : orc_rlev2_state_s) (r : Z) : Z :=
  Z.land (u16 (m2_pw_byte3 rle r)) 0x1f.

(** What every lane below the length of the list reads: the bits of the
    first entry of the list, plus one. *)
Definition rlev2_patch_entry (bs : orc_bytestream_s) (rle : orc_rlev2_state_s) (r : Z)
    (run : rlev2_run) : Z :=
  u32 (bytestream_readbits bs (u32 (r_pos run * 8 + r_n run * r_w run))
         (rlev2_patch_gap_width rle r + rlev2_patch_width rle r) + 1).

(** The gap and the patch bits taken from it. *)
Definition rlev2_patch_gap (bs : orc_bytestream_s) (rle : orc_rlev2_state_s) (r : Z)
    (run : rlev2_run) : Z :=
  Z.shiftr (rlev2_patch_entry bs rle r run) (rlev2_patch_width rle r).

Definition rlev2_patch_bits (bs : orc_bytestream_s) (rle : orc_rlev2_state_s) (r : Z)
    (run : rlev2_run) : Z :=
  Z.land (rlev2_patch_entry bs rle r run)
    (u32 (u32 (Z.shiftl 1 (rlev2_patch_width rle r)) - 1)).

(** A patched base group of twenty values (the example of the ORC
    specification: base 2000, width 8, one patch of 12 bits with gap 3),
    then padding; the state and the run record that lane 0 leaves for it. *)
Definition rlev2_patched_base : list Z :=
  [0x8e; 0x13; 0x2b; 0x21; 0x07; 0xd0; 0x1e; 0x00; 0x14; 0x70; 0x28; 0x32; 0x3c; 0x46;
   0x50; 0x5a; 0x64; 0x6e; 0x78; 0x82; 0x8c; 0x96; 0xa0; 0xaa; 0xb4; 0xbe; 0xfc; 0xe8;
   0; 0; 0; 0].

Definition patched_base_state : orc_rlev2_state_s :=
  fst (rlev2_run_header I64 (stream_of rlev2_patched_base) rlev2_init 0 0 0).

Definition patched_base_run : rlev2_run :=
  snd (rlev2_run_header I64 (stream_of rlev2_patched_base) rlev2_init 0 0 0).


(** ** Notions used to state what the row windows compute *)

(** The number of valid rows among the rows [0 .. t] of a window. *)
Definition window_rank (valid : arr) (t : Z) : Z := sum_below valid (t + 1).

(** A window state at the start of a chunk of five rows, and a bitmap
    whose words hold the validity bits 1, 0, 1, 1, 0 (least significant
    first). *)
Definition window_start : orc_datadec_state_s := mk_datadec 0 5 0 0 0 0 zero_arr.

Definition window_bitmaps : arr := fun _ => 13.


(** ** Notions used to state what the null kernel does without PRESENT stream *)

(** The bytes of [vals] after every thread has stored [~0] in its word:
    what the null kernel sets up for a chunk without PRESENT stream. *)
Definition all_valid_vals (vals0 : arr) : arr :=
  fold_left (fun v t => set_vals_u32 v t (u32 (Z.lnot 0))) threads vals0.

(** The state of the null loop after the rows below [nd_row]. *)
Definition all_valid_inv (chunk : ColumnDesc) (vmem0 : arr) (max_num_rows first_row : Z)
    (vals0 : arr) (st : nulldec_state) : Prop :=
  nd_vals st = all_valid_vals vals0 /\
  strm_len (nd_chunk st) CI_PRESENT = strm_len chunk CI_PRESENT /\
  start_row (nd_chunk st) = start_row chunk /\
  num_rows (nd_chunk st) = num_rows chunk /\
  valid_map_base (nd_chunk st) = valid_map_base chunk /\
  0 <= nd_row st <= num_rows chunk /\
  (forall t, 0 <= nd_null_count st t < 2 ^ 32) /\
  sum_below (nd_null_count st) NTHREADS = 0 /\
  (forall p, 0 <= p ->
     bitmap_bit (nd_vmem st) (valid_map_base chunk) p
     = if (start_row chunk <=? first_row + p)
          && (first_row + p <? start_row chunk + nd_row st)
          && (p <? max_num_rows)
       then true
       else bitmap_bit vmem0 (valid_map_base chunk) p).

(** A chunk of 37 rows without PRESENT stream; its bitmap starts at the
    word 1 of the bitmap memory. *)
Definition plain_chunk : ColumnDesc :=
  mk_chunk no_stream (fun _ => 0) 0 37 0 0 0 0 1 0 DIRECT INT.

(** * Properties *)

(** ** Machine integers *)

Lemma u8_range (x : Z) : 0 <= u8 x < 256.
Proof. unfold u8. change (2 ^ 8) with 256. apply Z.mod_pos_bound. lia. Qed.

Lemma u32_range (x : Z) : 0 <= u32 x < 2 ^ 32.
Proof. unfold u32. apply Z.mod_pos_bound. lia. Qed.

Lemma u32_small (x : Z) : 0 <= x < 2 ^ 32 -> u32 x = x.
Proof. intros H. unfold u32. apply Z.mod_small. exact H. Qed.

Lemma u16_small (x : Z) : 0 <= x < 2 ^ 16 -> u16 x = x.
Proof. intros H. unfold u16. apply Z.mod_small. exact H. Qed.

Lemma s32_small (x : Z) : - 2 ^ 31 <= x < 2 ^ 31 -> s32 x = x.
Proof. intros H. unfold s32. rewrite Z.mod_small; lia. Qed.

Lemma s32_high (x : Z) : 2 ^ 31 <= x < 2 ^ 32 -> s32 x = x - 2 ^ 32.
Proof.
  intros H. unfold s32.
  replace (x + 2 ^ 31) with (x - 2 ^ 31 + 1 * 2 ^ 32) by lia.
  rewrite Z.mod_add by lia. rewrite Z.mod_small; lia.
Qed.

Lemma readbyte_range (bs : orc_bytestream_s) (p : Z) : 0 <= bytestream_readbyte bs p < 256.
Proof. unfold bytestream_readbyte, buf_u8. apply u8_range. Qed.

(** A field shifted above the bits of another one is added to it. *)
Lemma lor_shiftl_add (a b k : Z) :
  0 <= k -> 0 <= b < 2 ^ k -> Z.lor (Z.shiftl a k) b = a * 2 ^ k + b.
Proof.
  intros Hk Hb.
  assert (Hland : Z.land (Z.shiftl a k) b = 0).
  { apply Z.bits_inj'. intros i Hi.
    rewrite Z.land_spec, Z.bits_0.
    destruct (Z.lt_ge_cases i k) as [Hlt | Hge].
    - rewrite Z.shiftl_spec_low by lia. reflexivity.
    - rewrite <- (Z.mod_small b (2 ^ k)) by lia.
      rewrite Z.mod_pow2_bits_high by lia. apply andb_false_r. }
  rewrite <- Z.lxor_lor by exact Hland.
  rewrite <- Z.add_nocarry_lxor by exact Hland.
  rewrite Z.shiftl_mul_pow2 by lia. reflexivity.
Qed.

(** ** The [run_data] word of Integer RLE v1 *)

Lemma rlev1_pack_value (d n b : Z) :
  0 <= d < 256 -> 0 <= n < 256 -> 0 <= b < 2 ^ 16 ->
  rlev1_pack d n b = signed_byte d * 2 ^ 24 + n * 2 ^ 16 + b.
Proof.
  intros Hd Hn Hb. unfold rlev1_pack, signed_byte.
  assert (Hin : Z.lor (Z.shiftl (Z.lor (Z.shiftl d 8) n) 16) b
                = d * 2 ^ 24 + n * 2 ^ 16 + b).
  { rewrite (lor_shiftl_add d n 8) by lia.
    rewrite lor_shiftl_add by lia. lia. }
  replace (Z.lor (Z.shiftl d 24) (Z.shiftl n 16))
    with (Z.shiftl (Z.lor (Z.shiftl d 8) n) 16).
  2:{ rewrite Z.shiftl_lor, Z.shiftl_shiftl by lia. reflexivity. }
  rewrite Hin.
  destruct (d <? 128) eqn:E.
  - apply Z.ltb_lt in E. apply s32_small. lia.
  - apply Z.ltb_ge in E. rewrite s32_high; lia.
Qed.

Lemma rlev1_unpack_pack (d n b : Z) :
  0 <= d < 256 -> 0 <= n < 256 -> 0 <= b < 1024 ->
  rlev1_unpack_delta (rlev1_pack d n b) = signed_byte d /\
  rlev1_unpack_n (rlev1_pack d n b) = n /\
  rlev1_unpack_base (rlev1_pack d n b) = b.
Proof.
  intros Hd Hn Hb.
  rewrite rlev1_pack_value by lia.
  unfold rlev1_unpack_delta, rlev1_unpack_n, rlev1_unpack_base.
  change 0xff with (Z.ones 8). change 0x3ff with (Z.ones 10).
  rewrite !Z.land_ones by lia. rewrite !Z.shiftr_div_pow2 by lia.
  assert (Hs : -128 <= signed_byte d < 128).
  { unfold signed_byte. destruct (d <? 128) eqn:E;
      [apply Z.ltb_lt in E | apply Z.ltb_ge in E]; lia. }
  repeat split.
  - symmetry. apply (Z.div_unique _ _ _ (n * 2 ^ 16 + b)); lia.
  - replace ((signed_byte d * 2 ^ 24 + n * 2 ^ 16 + b) / 2 ^ 16)
      with (signed_byte d * 2 ^ 8 + n).
    + rewrite Z.add_comm, Z.mod_add by lia. apply Z.mod_small. lia.
    + apply (Z.div_unique _ _ _ b); lia.
  - replace (signed_byte d * 2 ^ 24 + n * 2 ^ 16 + b)
      with (b + (signed_byte d * 2 ^ 14 + n * 2 ^ 6) * 2 ^ 10) by lia.
    rewrite Z.mod_add by lia. apply Z.mod_small. lia.
Qed.

(** ** The run search of Integer RLE v1 *)

Ltac scan_proj :=
  repeat match goal with
  | |- context [sc_numvals (mk_scan1 ?a ?b ?c ?d ?e)] =>
      change (sc_numvals (mk_scan1 a b c d e)) with a
  | |- context [sc_numruns (mk_scan1 ?a ?b ?c ?d ?e)] =>
      change (sc_numruns (mk_scan1 a b c d e)) with b
  | |- context [sc_run_data (mk_scan1 ?a ?b ?c ?d ?e)] =>
      change (sc_run_data (mk_scan1 a b c d e)) with e
  end.

Section Rlev1Scan.
Variable T : elem_type.
Variable bs : orc_bytestream_s.
Variables maxvals maxpos : Z.
Hypothesis Hmax : 0 <= maxvals <= 1024.

Lemma rlev1_scan_step_inv (s s' : rlev1_scan) (c : bool) :
  rlev1_scan_inv maxvals s ->
  rlev1_scan_step T bs maxvals maxpos s = (s', c) ->
  rlev1_scan_inv maxvals s' /\
  (c = true -> sc_numvals s < sc_numvals s') /\
  (c = false -> sc_numvals s' = sc_numvals s /\ sc_numruns s' = sc_numruns s /\
                sc_run_data s' = sc_run_data s).
Proof.
  intros (Hnv & Hnr & Hruns) Hstep.
  assert (Hbreak : forall v,
    rlev1_scan_inv maxvals
      (mk_scan1 (sc_numvals s) (sc_numruns s) (sc_lastpos s) v (sc_run_data s))).
  { intros v. repeat split; cbn; auto; lia. }
  unfold rlev1_scan_step in Hstep.
  pose proof (readbyte_range bs (sc_lastpos s)) as Hb0.
  set (n0 := bytestream_readbyte bs (sc_lastpos s)) in *.
  destruct (n0 <=? 0x7f) eqn:Hrun.
  - apply Z.leb_le in Hrun.
    rewrite (u32_small (sc_numvals s + (n0 + 3))) in Hstep by lia.
    destruct (maxvals <? sc_numvals s + (n0 + 3)) eqn:Hfit.
    + apply pair_equal_spec in Hstep; destruct Hstep as [<- <-].
      split; [repeat split; auto; lia | split; [discriminate | auto]].
    + apply Z.ltb_ge in Hfit.
      match type of Hstep with
      | (if ?c then _ else _) = _ => destruct c
      end; apply pair_equal_spec in Hstep; destruct Hstep as [<- <-]; scan_proj.
      * split; [apply Hbreak | split; [discriminate | auto]].
      * split; [| split; [intros _; lia | discriminate]].
        unfold rlev1_scan_inv.
        scan_proj.
        split; [lia | split; [lia |]].
        intros r Hr. unfold upd.
        destruct (r =? sc_numruns s) eqn:E.
        -- pose proof (readbyte_range bs (u32 (sc_lastpos s + 1))) as Hd.
           eexists _, (n0 + 3), (sc_numvals s).
           repeat split; try reflexivity; lia.
        -- apply Z.eqb_neq in E. apply Hruns. lia.
  - apply Z.leb_gt in Hrun.
    rewrite (u32_small (sc_numvals s + (0x100 - n0))) in Hstep by lia.
    destruct (maxvals <? sc_numvals s + (0x100 - n0)) eqn:Hfit.
    + apply pair_equal_spec in Hstep; destruct Hstep as [<- <-].
      split; [repeat split; auto; lia | split; [discriminate | auto]].
    + apply Z.ltb_ge in Hfit.
      destruct (rlev1_literals T bs (Z.to_nat (0x100 - n0)) (sc_numvals s)
                  (u32 (sc_lastpos s + 1)) (sc_vals s)) as [p vals].
      destruct (maxpos <? p); apply pair_equal_spec in Hstep; destruct Hstep as [<- <-];
        scan_proj.
      * split; [apply Hbreak | split; [discriminate | auto]].
      * split; [| split; [intros _; lia | discriminate]].
        unfold rlev1_scan_inv.
        scan_proj.
        split; [lia | split; [lia | exact Hruns]].
Qed.

Lemma rlev1_scan_loop_inv (fuel : nat) (s : rlev1_scan) :
  rlev1_scan_inv maxvals s ->
  (Z.to_nat (maxvals - sc_numvals s) < fuel)%nat ->
  exists s', rlev1_scan_loop fuel T bs maxvals maxpos s = Some s' /\
             rlev1_scan_inv maxvals s'.
Proof.
  revert s. induction fuel as [| fuel IH]; intros s Hinv Hfuel; [lia |].
  cbn [rlev1_scan_loop].
  destruct ((sc_numvals s <? maxvals) && (sc_numruns s <? NWARPS * 12)) eqn:Hc.
  - destruct (rlev1_scan_step T bs maxvals maxpos s) as [s1 c] eqn:Hs.
    destruct (rlev1_scan_step_inv s s1 c Hinv Hs) as (Hinv1 & Hgo & Hstop).
    destruct c.
    + apply IH; [exact Hinv1 |].
      specialize (Hgo eq_refl). destruct Hinv1 as ((? & ?) & _). lia.
    + exists s1. split; [reflexivity | exact Hinv1].
  - exists s. split; [reflexivity | exact Hinv].
Qed.
End Rlev1Scan.

Lemma rlev1_scan_runs_inv (T : elem_type) (bs : orc_bytestream_s)
    (rle : orc_rlev1_state_s) (vals : arr) (maxvals : Z) :
  0 <= maxvals <= 1024 ->
  exists s, rlev1_scan_runs T bs rle vals maxvals = Some s /\
            rlev1_scan_inv maxvals s.
Proof.
  intros Hmax. unfold rlev1_scan_runs.
  apply rlev1_scan_loop_inv; [exact Hmax | |].
  - unfold rlev1_scan_inv; cbn. repeat split; try lia.
  - cbn. unfold rlev1_fuel. lia.
Qed.

(** [Integer_RLEv1] returns, and the count it returns is at most [maxvals]. *)
Lemma Integer_RLEv1_count (T : elem_type) (mem : arr) (bs : orc_bytestream_s)
    (rle : orc_rlev1_state_s) (vals : arr) (maxvals : Z) :
  0 <= maxvals <= 1024 ->
  exists bs' rle' vals' n,
    Integer_RLEv1 T mem bs rle vals maxvals = Some (bs', rle', vals', n) /\
    0 <= n <= maxvals /\ num_vals rle' = n.
Proof.
  intros Hmax.
  destruct (rlev1_scan_runs_inv T bs rle vals maxvals Hmax) as (s & Hs & Hinv).
  unfold Integer_RLEv1. rewrite Hs.
  destruct (bytestream_flush_bytes bs (u32 (sc_lastpos s - pos bs))) as [bs1 fc].
  cbn [num_vals num_runs run_data fill_pos fill_count].
  do 4 eexists. split; [reflexivity |].
  destruct Hinv as (Hnv & _). cbn. split; [exact Hnv | reflexivity].
Qed.

(** ** Conversions to [T] are reductions modulo a power of two *)

Lemma modulus_pos (T : elem_type) : 0 < modulus T.
Proof. destruct T; reflexivity. Qed.

Lemma wrapT_mod (T : elem_type) (x : Z) : wrapT T x mod modulus T = x mod modulus T.
Proof.
  destruct T; unfold wrapT, modulus, u16, u32, u64, s32, s64, sizeof;
    cbv beta iota;
    try (apply Z.mod_mod; lia).
  - change (8 * 4) with 32.
    rewrite <- Zminus_mod_idemp_l, Z.mod_mod by lia.
    rewrite Zminus_mod_idemp_l. f_equal. lia.
  - change (8 * 8) with 64.
    rewrite <- Zminus_mod_idemp_l, Z.mod_mod by lia.
    rewrite Zminus_mod_idemp_l. f_equal. lia.
Qed.

Lemma wrapT_eqm (T : elem_type) (x y : Z) :
  x mod modulus T = y mod modulus T -> wrapT T x = wrapT T y.
Proof.
  intros H.
  destruct T; unfold wrapT, modulus, u16, u32, u64, s32, s64, sizeof in *;
    cbv beta iota in *; try exact H.
  - change (8 * 4) with 32 in H. f_equal.
    rewrite <- (Zplus_mod_idemp_l x), H, Zplus_mod_idemp_l. reflexivity.
  - change (8 * 8) with 64 in H. f_equal.
    rewrite <- (Zplus_mod_idemp_l x), H, Zplus_mod_idemp_l. reflexivity.
Qed.

Lemma wrapT_idem (T : elem_type) (x : Z) : wrapT T (wrapT T x) = wrapT T x.
Proof. apply wrapT_eqm, wrapT_mod. Qed.

Lemma wrapT_add (T : elem_type) (x y : Z) :
  wrapT T (wrapT T x + wrapT T y) = wrapT T (x + y).
Proof.
  apply wrapT_eqm.
  rewrite Zplus_mod, !wrapT_mod, <- Zplus_mod. reflexivity.
Qed.

Lemma wrapT_add_l (T : elem_type) (x y : Z) : wrapT T (wrapT T x + y) = wrapT T (x + y).
Proof.
  apply wrapT_eqm.
  rewrite Zplus_mod, !wrapT_mod, <- Zplus_mod. reflexivity.
Qed.

Lemma wrapT_add_r (T : elem_type) (x y : Z) : wrapT T (x + wrapT T y) = wrapT T (x + y).
Proof. rewrite (Z.add_comm x), wrapT_add_l. f_equal. lia. Qed.

(** ** The parallel prefix sum of [lengths_to_positions] *)

Lemma block_start_mul (k t : Z) : 0 <= k -> block_start k t = t / 2 ^ k * 2 ^ k.
Proof.
  intros Hk. unfold block_start.
  rewrite Z.shiftl_mul_pow2, Z.shiftr_div_pow2 by lia. reflexivity.
Qed.

Lemma div_pow2_bit (k t : Z) :
  0 <= k -> t / 2 ^ k = 2 * (t / 2 ^ (k + 1)) + Z.b2z (Z.testbit t k).
Proof.
  intros Hk.
  rewrite Z.testbit_spec' by lia.
  rewrite Z.pow_add_r, <- Z.div_div by lia.
  change (2 ^ 1) with 2.
  apply Z.div_mod. lia.
Qed.

Lemma block_start_bit (k t : Z) :
  0 <= k ->
  block_start k t = block_start (k + 1) t + Z.b2z (Z.testbit t k) * 2 ^ k.
Proof.
  intros Hk. rewrite !block_start_mul by lia.
  rewrite (div_pow2_bit k t Hk), Z.pow_add_r by lia.
  change (2 ^ 1) with 2. ring.
Qed.

Lemma block_start_le (k t : Z) : 0 <= k -> 0 <= t -> 0 <= block_start k t <= t.
Proof.
  intros Hk Ht. rewrite block_start_mul by lia.
  assert (0 < 2 ^ k) by (apply Z.pow_pos_nonneg; lia).
  pose proof (Z.mul_div_le t (2 ^ k) ltac:(lia)).
  pose proof (Z.div_pos t (2 ^ k) ltac:(lia) ltac:(lia)).
  nia.
Qed.

Lemma block_start_small (k t : Z) : 0 <= k -> 0 <= t < 2 ^ k -> block_start k t = 0.
Proof.
  intros Hk Ht. rewrite block_start_mul by lia.
  rewrite Z.div_small by lia. reflexivity.
Qed.

(** The cell read by thread [t] in the round [n = 2^k]. *)
Lemma partner_value (k t : Z) :
  0 <= k -> 0 <= t ->
  Z.lor (Z.land t (Z.lnot (2 ^ k))) (2 ^ k - 1) = block_start (k + 1) t + 2 ^ k - 1.
Proof.
  intros Hk Ht.
  assert (Hpow : 0 < 2 ^ k) by (apply Z.pow_pos_nonneg; lia).
  replace (block_start (k + 1) t + 2 ^ k - 1)
    with (Z.lor (Z.shiftl (Z.shiftr t (k + 1)) (k + 1)) (2 ^ k - 1)).
  2:{ rewrite lor_shiftl_add.
      - unfold block_start. rewrite Z.shiftl_mul_pow2 by lia. lia.
      - lia.
      - rewrite Z.pow_add_r by lia. lia. }
  apply Z.bits_inj'. intros i Hi.
  rewrite !Z.lor_spec, Z.land_spec, Z.lnot_spec, Z.pow2_bits_eqb by lia.
  replace (2 ^ k - 1) with (Z.ones k) by (rewrite Z.ones_equiv; lia).
  rewrite Z.testbit_ones_nonneg by lia.
  destruct (Z.ltb_spec i k) as [Hlt | Hge].
  - rewrite !orb_true_r. reflexivity.
  - rewrite !orb_false_r.
    destruct (Z.eqb_spec k i) as [-> | Hne].
    + rewrite Z.shiftl_spec_low by lia. apply andb_false_r.
    + rewrite Z.shiftl_spec_high, Z.shiftr_spec by lia.
      cbn [negb]. rewrite andb_true_r. f_equal. lia.
Qed.

Lemma block_start_partner (k t : Z) :
  0 <= k -> 0 <= t ->
  block_start k (block_start (k + 1) t + 2 ^ k - 1) = block_start (k + 1) t.
Proof.
  intros Hk Ht.
  assert (Hpow : 0 < 2 ^ k) by (apply Z.pow_pos_nonneg; lia).
  rewrite (block_start_mul k) by lia.
  rewrite (block_start_mul (k + 1) t) by lia.
  rewrite Z.pow_add_r by lia. change (2 ^ 1) with 2.
  replace (t / (2 ^ k * 2) * (2 ^ k * 2) + 2 ^ k - 1)
    with ((2 ^ k - 1) + (t / (2 ^ k * 2) * 2) * 2 ^ k) by ring.
  rewrite Z.div_add by lia.
  rewrite Z.div_small by lia. ring.
Qed.

Lemma land_pow2_eqb (k t : Z) :
  0 <= k -> (Z.land t (2 ^ k) =? 0) = negb (Z.testbit t k).
Proof.
  intros Hk.
  destruct (Z.testbit t k) eqn:Hb; cbn [negb].
  - apply Z.eqb_neq. intros H0.
    assert (Hc : Z.testbit (Z.land t (2 ^ k)) k = true).
    { rewrite Z.land_spec, Hb, Z.pow2_bits_true by lia. reflexivity. }
    rewrite H0, Z.bits_0 in Hc. discriminate.
  - apply Z.eqb_eq. apply Z.bits_inj'. intros i Hi.
    rewrite Z.land_spec, Z.bits_0, Z.pow2_bits_eqb by lia.
    destruct (Z.eqb_spec k i) as [<- | Hne].
    + rewrite Hb. reflexivity.
    + apply andb_false_r.
Qed.

Lemma sum_below_succ (a : arr) (n : Z) :
  0 <= n -> sum_below a (n + 1) = sum_below a n + a n.
Proof.
  intros Hn. unfold sum_below.
  replace (Z.to_nat (n + 1)) with (S (Z.to_nat n)) by lia.
  cbn [sum_upto]. rewrite Z2Nat.id by lia. reflexivity.
Qed.

Section PrefixSum.
Variable T : elem_type.
Variable a : arr.
Variables lo m bound : Z.
Hypothesis Hm : 0 <= m <= bound.
Hypothesis Hbound : bound <= 2 ^ 31.

Lemma scan_inv_init : scan_inv T a lo m 0 a.
Proof.
  repeat split; auto.
  intros j Hj. f_equal.
  replace (block_start 0 j) with j.
  - rewrite sum_below_succ by lia. unfold shift_arr. lia.
  - unfold block_start. rewrite Z.shiftr_0_r, Z.shiftl_0_r. reflexivity.
Qed.

Lemma scan_round_inv (k : Z) (v : arr) :
  0 <= k ->
  scan_inv T a lo m k v ->
  scan_inv T a lo m (k + 1) (scan_round T lo m (2 ^ k) v).
Proof.
  intros Hk (Hsum & Hout & Hrange).
  assert (Hpow : 0 < 2 ^ k) by (apply Z.pow_pos_nonneg; lia).
  repeat split.
  - intros j Hj. unfold scan_round.
    replace (lo + j - lo) with j by lia.
    rewrite land_pow2_eqb, negb_involutive by lia.
    replace (0 <=? j) with true by (symmetry; apply Z.leb_le; lia).
    replace (j <? m) with true by (symmetry; apply Z.ltb_lt; lia).
    cbn [andb].
    pose proof (block_start_bit k j Hk) as Hbit.
    destruct (Z.testbit j k) eqn:Hb; cbn [Z.b2z] in Hbit.
    + rewrite partner_value by lia.
      set (p := block_start (k + 1) j + 2 ^ k - 1).
      pose proof (block_start_le k j Hk ltac:(lia)) as Hle.
      pose proof (block_start_le (k + 1) j ltac:(lia) ltac:(lia)) as Hle1.
      assert (Hp : 0 <= p < m) by (unfold p; lia).
      rewrite wrapT_idem, <- wrapT_add.
      rewrite (Hsum j Hj), (Hsum p Hp), wrapT_add.
      unfold p at 2. rewrite block_start_partner by lia.
      f_equal. replace (block_start k j) with (p + 1) by (unfold p; lia).
      lia.
    + rewrite (Hsum j Hj).
      replace (block_start k j) with (block_start (k + 1) j) by lia.
      reflexivity.
  - intros c Hc. unfold scan_round. cbv zeta.
    destruct ((0 <=? c - lo) && (c - lo <? m) && negb (Z.land (c - lo) (2 ^ k) =? 0)) eqn:E.
    + exfalso. apply Hc.
      apply andb_prop in E. destruct E as [E _].
      apply andb_prop in E. destruct E as [Hge Hlt].
      apply Z.leb_le in Hge. apply Z.ltb_lt in Hlt. lia.
    + apply Hout. exact Hc.
  - intros c Hc. unfold scan_round. cbv zeta.
    destruct ((0 <=? c - lo) && (c - lo <? m) && negb (Z.land (c - lo) (2 ^ k) =? 0)).
    + apply wrapT_idem.
    + apply Hrange. exact Hc.
Qed.

Lemma scan_loop_spec (fuel : nat) (k : Z) (v : arr) :
  0 <= k -> bound <= 2 ^ (k + Z.of_nat fuel) ->
  scan_inv T a lo m k v ->
  exists v' k', scan_loop fuel T lo m bound (2 ^ k) v = Some v' /\
                k <= k' /\ bound <= 2 ^ k' /\ scan_inv T a lo m k' v'.
Proof.
  revert k v. induction fuel as [| fuel IH]; intros k v Hk Hfuel Hinv.
  - cbn [scan_loop]. replace (k + Z.of_nat 0) with k in Hfuel by lia.
    replace (2 ^ k <? bound) with false by (symmetry; apply Z.ltb_ge; lia).
    exists v, k. repeat split; try lia; apply Hinv.
  - cbn [scan_loop].
    destruct (2 ^ k <? bound) eqn:E.
    + apply Z.ltb_lt in E.
      replace (u32 (Z.shiftl (2 ^ k) 1)) with (2 ^ (k + 1)).
      2:{ rewrite Z.shiftl_mul_pow2 by lia. change (2 ^ 1) with 2.
          rewrite Z.pow_add_r by lia. change (2 ^ 1) with 2.
          symmetry. apply u32_small.
          assert (0 < 2 ^ k) by (apply Z.pow_pos_nonneg; lia). lia. }
      destruct (IH (k + 1) (scan_round T lo m (2 ^ k) v))
        as (v' & k' & H1 & H2 & H3 & H4).
      * lia.
      * replace (k + 1 + Z.of_nat fuel) with (k + Z.of_nat (S fuel)) by lia.
        exact Hfuel.
      * apply scan_round_inv; assumption.
      * exists v', k'. repeat split; try assumption; try lia; apply H4.
    + apply Z.ltb_ge in E.
      exists v, k. repeat split; try lia; apply Hinv.
Qed.

(** The loop returns and leaves in every cell [lo + j], [j < m], the sum of
    the cells [lo .. lo + j], in the arithmetic of [T]; the other cells are
    not written. *)
Lemma scan_loop_sums :
  exists v',
    scan_loop 32 T lo m bound 1 a = Some v' /\
    (forall j, 0 <= j < m ->
       wrapT T (v' (lo + j)) = wrapT T (sum_below (shift_arr a lo) (j + 1))) /\
    (forall c, ~ 0 <= c - lo < m -> v' c = a c) /\
    (forall c, wrapT T (a c) = a c -> wrapT T (v' c) = v' c).
Proof.
  destruct (scan_loop_spec 32 0 a) as (v' & k' & H1 & H2 & H3 & Hs & Ho & Hr).
  - lia.
  - change (2 ^ (0 + Z.of_nat 32)) with 4294967296. lia.
  - apply scan_inv_init.
  - exists v'. split; [exact H1 |].
    split; [| split; assumption].
    intros j Hj. rewrite (Hs j Hj). f_equal.
    rewrite block_start_small; [cbn; lia | lia | lia].
Qed.
End PrefixSum.

(** [lengths_to_positions] returns and leaves in every cell [t < numvals]
    the sum of the cells [0 .. t], in the arithmetic of [T]; the other
    cells are not written. *)
Lemma lengths_to_positions_spec (T : elem_type) (a : arr) (numvals : Z) :
  0 <= numvals <= NTHREADS ->
  exists v',
    lengths_to_positions T a numvals = Some v' /\
    (forall t, 0 <= t < numvals -> wrapT T (v' t) = wrapT T (sum_below a (t + 1))) /\
    (forall t, ~ 0 <= t < numvals -> v' t = a t) /\
    (forall t, wrapT T (a t) = a t -> wrapT T (v' t) = v' t).
Proof.
  intros Hnum. assert (HN : NTHREADS = 1024) by reflexivity.
  unfold lengths_to_positions.
  rewrite Z.min_l by lia.
  destruct (scan_loop_sums T a 0 numvals numvals ltac:(lia) ltac:(lia))
    as (v' & H1 & H2 & H3 & H4).
  exists v'. split; [exact H1 |]. split; [| split].
  - intros t Ht. specialize (H2 t Ht). cbn in H2. exact H2.
  - intros t Ht. apply H3. lia.
  - exact H4.
Qed.

(** ** Delta runs of Integer RLE v2 *)

Lemma sum_below_wrap_ext (T : elem_type) (f g : arr) (n : Z) :
  (forall j, 0 <= j < n -> wrapT T (f j) = wrapT T (g j)) ->
  wrapT T (sum_below f n) = wrapT T (sum_below g n).
Proof.
  unfold sum_below. intros H.
  assert (Hn : forall k, (k <= Z.to_nat n)%nat ->
                         wrapT T (sum_upto f k) = wrapT T (sum_upto g k)).
  { induction k as [| k IH]; intros Hk; [reflexivity |].
    cbn [sum_upto].
    rewrite <- wrapT_add, IH, (H (Z.of_nat k)), wrapT_add by lia.
    reflexivity. }
  apply Hn. lia.
Qed.

Lemma wrapT_u64 (T : elem_type) (x : Z) : wrapT T (u64 x) = wrapT T x.
Proof.
  apply wrapT_eqm. unfold u64.
  destruct T; unfold modulus, sizeof; apply Z.mod_mod_divide;
    match goal with
    | |- (2 ^ ?a | 2 ^ 64) => exists (2 ^ (64 - a)); reflexivity
    end.
Qed.

Lemma wrapT_u32 (T : elem_type) (x : Z) : wide T = false -> wrapT T (u32 x) = wrapT T x.
Proof.
  intros Hw. apply wrapT_eqm. unfold u32.
  destruct T; try discriminate Hw; unfold modulus, sizeof; apply Z.mod_mod_divide;
    match goal with
    | |- (2 ^ ?a | 2 ^ 32) => exists (2 ^ (32 - a)); reflexivity
    end.
Qed.

(** What lane 0 leaves behind when the run is a delta run. *)
Lemma rlev2_header_delta (T : elem_type) (bs : orc_bytestream_s)
    (rle : orc_rlev2_state_s) (r b p0 : Z) :
  r_mode (snd (rlev2_run_header T bs rle r b p0)) = 3 ->
  r_base (snd (rlev2_run_header T bs rle r b p0)) = b /\
  1 <= r_n (snd (rlev2_run_header T bs rle r b p0)) <= 512 /\
  wrapT T (baseval_read T (fst (rlev2_run_header T bs rle r b p0)) r)
    = rlev2_delta_base T bs p0 /\
  delta (fst (rlev2_run_header T bs rle r b p0)) r = rlev2_delta_delta T bs p0.
Proof.
  unfold rlev2_run_header, rlev2_delta_base, rlev2_delta_delta.
  set (byte0 := bytestream_readbyte bs p0).
  set (mode := Z.shiftr byte0 6).
  pose proof (readbyte_range bs (u32 (p0 + 1))) as Hb1.
  set (byte1 := bytestream_readbyte bs (u32 (p0 + 1))) in *.
  assert (Hlow : 0 <= Z.land byte0 1 <= 1).
  { change 1 with (Z.ones 1). rewrite Z.land_ones by lia.
    pose proof (Z.mod_pos_bound byte0 (2 ^ 1) ltac:(lia)). cbn in *. lia. }
  destruct (mode =? 0) eqn:E0.
  { apply Z.eqb_eq in E0. cbn [snd r_mode]. intros H. rewrite E0 in H. discriminate H. }
  destruct (1 <? mode) eqn:E1.
  2:{ cbn [snd r_mode]. intros H. rewrite H in E1. discriminate E1. }
  destruct (mode =? 2) eqn:E2.
  { apply Z.eqb_eq in E2. cbn [snd r_mode]. intros H. rewrite E2 in H. discriminate H. }
  destruct (decode_varint_u (wide T) bs (u32 (u32 (p0 + 1) + 1))) as [p1 bv] eqn:Ebase.
  cbn [fst snd].
  unfold rlev2_delta_varint. rewrite Ebase. cbn [fst].
  destruct (decode_varint_u (wide T) bs (u32 p1)) as [p2 d] eqn:Edelta.
  cbn [fst snd r_mode r_base r_n]. intros _.
  split; [reflexivity |]. split.
  - rewrite Z.shiftl_mul_pow2 by lia. change (2 ^ 8) with 256. lia.
  - split; [| unfold set_delta, upd; cbn [delta]; rewrite Z.eqb_refl; reflexivity].
    unfold baseval_read, set_delta, set_baseval, upd. cbn [baseval].
    rewrite Z.eqb_refl.
    destruct (wide T) eqn:Ew.
    + rewrite !wrapT_u64. apply wrapT_idem.
    + rewrite !wrapT_u32 by exact Ew. apply wrapT_idem.
Qed.

(** The values before the sums are the signed offsets, in the arithmetic of [T]. *)
Lemma rlev2_value_delta (T : elem_type) (bs : orc_bytestream_s)
    (rle : orc_rlev2_state_s) (r : Z) (run : rlev2_run) (i : Z) :
  r_mode run = 3 ->
  rlev2_value T bs rle r run i
  = wrapT T (rlev2_delta_step T bs run (delta rle r) i).
Proof.
  intros Hmode. unfold rlev2_value, rlev2_delta_step. rewrite Hmode.
  cbn [Z.eqb Pos.eqb].
  destruct (delta rle r <? 0); [| reflexivity].
  destruct (wide T) eqn:Ew.
  - apply wrapT_u64.
  - apply wrapT_u32. exact Ew.
Qed.

Lemma sum_below_2 (f : arr) : sum_below f 2 = f 0 + f 1.
Proof. reflexivity. Qed.

Lemma sum_below_1 (f : arr) : sum_below f 1 = f 0.
Proof. reflexivity. Qed.

(** Delta runs as [Integer_RLEv2] processes them: with the base [b] and
    the delta [d] that lane 0 keeps (the varint after the base converted to
    the signed type, without zig-zag decoding), the run is processed to the
    end, the first value is [b], the second is [b + d], and the value of
    every slot [i] is [b] plus the sum over the slots [0 .. i] of the
    offsets (0 for slot 0, [|d|] for slot 1, the bit-packed magnitudes from
    slot 2 on), each offset negated when [d < 0]; all in the arithmetic of
    [T]. *)
Lemma rlev2_delta_run_values (T : elem_type) (bs : orc_bytestream_s)
    (rle : orc_rlev2_state_s) (vals : arr) (run : nat) :
  let p0 := rlev2_run_start rle vals run in
  let hd := snd (rlev2_run_header T bs rle (rlev2_run_warp run)
                   (rlev2_run_base rle run) p0) in
  let b := rlev2_delta_base T bs p0 in
  let d := rlev2_delta_delta T bs p0 in
  r_mode hd = 3 ->
  exists rle' vals',
    rlev2_process_run T bs (rle, vals) run = Some (rle', vals') /\
    vals' (r_base hd) = b /\
    (1 < r_n hd -> vals' (r_base hd + 1) = wrapT T (b + d)) /\
    (forall i, 0 <= i < r_n hd ->
       vals' (r_base hd + i)
       = wrapT T (b + sum_below (rlev2_delta_step T bs hd d) (i + 1))).
Proof.
  intros p0 hd b d Hmode.
  destruct (rlev2_header_delta T bs rle (rlev2_run_warp run) (rlev2_run_base rle run)
              p0 Hmode) as (Hbase & Hn & Hb & Hd).
  unfold rlev2_process_run. fold p0.
  unfold hd in *. clear hd.
  remember (rlev2_run_header T bs rle (rlev2_run_warp run) (rlev2_run_base rle run) p0)
    as hdr eqn:Ehdr.
  destruct hdr as [rle1 hd].
  cbn [fst snd] in *.
  rewrite Hmode. cbn [Z.eqb Pos.eqb obind].
  unfold rlev2_delta_sums.
  set (a := rlev2_run_values T bs rle1 (rlev2_run_warp run) hd vals).
  destruct (scan_loop_sums T a (r_base hd) (r_n hd) (r_n hd) ltac:(lia) ltac:(lia))
    as (v2 & Hloop & Hsum & _ & _).
  rewrite Hloop. cbn [obind].
  match goal with
  | |- exists _ _, Some (_, ?f) = _ /\ _ => set (vf := f)
  end.
  exists rle1, vf. split; [reflexivity |].
  assert (Hcell : forall i, 0 <= i < r_n hd ->
            vf (r_base hd + i)
            = wrapT T (b + sum_below (rlev2_delta_step T bs hd d) (i + 1))).
  { intros i Hi. unfold vf. cbv zeta.
    replace (r_base hd + i - r_base hd) with i by lia.
    replace (0 <=? i) with true by (symmetry; apply Z.leb_le; lia).
    replace (i <? r_n hd) with true by (symmetry; apply Z.ltb_lt; lia).
    cbn [andb]. rewrite Hb. fold b.
    rewrite <- wrapT_add_l, (Hsum i Hi), wrapT_add_l.
    rewrite Z.add_comm, <- wrapT_add_r.
    rewrite (sum_below_wrap_ext T (shift_arr a (r_base hd))
               (rlev2_delta_step T bs hd d) (i + 1)).
    - apply wrapT_add_r.
    - intros j Hj. unfold shift_arr, a, rlev2_run_values. cbv zeta.
      replace (r_base hd + j - r_base hd) with j by lia.
      replace (0 <=? j) with true by (symmetry; apply Z.leb_le; lia).
      replace (j <? r_n hd) with true by (symmetry; apply Z.ltb_lt; lia).
      cbn [andb]. rewrite rlev2_value_delta by exact Hmode.
      rewrite Hd. fold d. apply wrapT_idem. }
  clearbody vf.
  split; [| split].
  - replace (r_base hd) with (r_base hd + 0) by lia.
    rewrite (Hcell 0) by lia.
    rewrite sum_below_1. unfold rlev2_delta_step, rlev2_delta_ofs.
    cbn [Z.leb Z.eqb Z.compare].
    destruct (wide T); destruct (d <? 0); cbn [Z.opp];
      rewrite Z.add_0_r; unfold b, rlev2_delta_base; apply wrapT_idem.
  - intros H1. rewrite (Hcell 1) by lia.
    change (1 + 1) with 2. rewrite sum_below_2.
    unfold rlev2_delta_step, rlev2_delta_ofs.
    cbn [Z.leb Z.eqb Z.compare Pos.compare Pos.compare_cont Pos.eqb].
    destruct (d <? 0) eqn:Es;
      [apply Z.ltb_lt in Es | apply Z.ltb_ge in Es];
      destruct (wide T) eqn:Ew; cbn [Z.opp].
    + rewrite <- wrapT_add_r.
      replace (wrapT T (0 + - u64 (Z.abs d))) with (wrapT T d);
        [apply wrapT_add_r |].
      apply wrapT_eqm. unfold u64.
      replace (0 + - (Z.abs d mod 2 ^ 64)) with (0 - Z.abs d mod 2 ^ 64) by lia.
      rewrite <- (Z.mod_mod_divide (0 - _) (2 ^ 64) (modulus T)),
        Zminus_mod_idemp_r, Z.mod_mod_divide.
      * f_equal. lia.
      * destruct T; try discriminate Ew; [exists 1 | exists 1]; reflexivity.
      * destruct T; try discriminate Ew; [exists 1 | exists 1]; reflexivity.
    + rewrite <- wrapT_add_r.
      replace (wrapT T (0 + - u32 (Z.abs d))) with (wrapT T d);
        [apply wrapT_add_r |].
      apply wrapT_eqm. unfold u32.
      replace (0 + - (Z.abs d mod 2 ^ 32)) with (0 - Z.abs d mod 2 ^ 32) by lia.
      rewrite <- (Z.mod_mod_divide (0 - _) (2 ^ 32) (modulus T)),
        Zminus_mod_idemp_r, Z.mod_mod_divide.
      * f_equal. lia.
      * destruct T; try discriminate Ew;
          [exists (2 ^ 16) | exists 1 | exists 1]; reflexivity.
      * destruct T; try discriminate Ew;
          [exists (2 ^ 16) | exists 1 | exists 1]; reflexivity.
    + rewrite <- wrapT_add_r.
      replace (0 + u64 (Z.abs d)) with (u64 d) by (rewrite Z.abs_eq by lia; lia).
      rewrite wrapT_u64. apply wrapT_add_r.
    + rewrite <- wrapT_add_r.
      replace (0 + u32 (Z.abs d)) with (u32 d) by (rewrite Z.abs_eq by lia; lia).
      rewrite wrapT_u32 by exact Ew. apply wrapT_add_r.
  - exact Hcell.
Qed.

(** C2 fails on the code: the delta of a delta run is kept as the raw
    varint, not as the signed (zig-zag) varint of the claim.  In the delta
    run of the ORC specification for 2, 3, 5, 7, 11, 13, 17, 19, 23, 29 the
    base is 2 and the signed varint of the delta is +1 (the byte [0x02]);
    [Integer_RLEv2] keeps the delta 2 and returns 2, 4, 6, 8, ..., so the
    second value is 4 and not [b + |d| = 3].  In the run whose signed
    varint delta is -1 (the byte [0x01]) the delta kept is +1 and no
    magnitude is negated: the values go up, 2, 3, 5, 7, ... *)
Theorem rlev2_delta_not_zigzag :
  rlev2_delta_base U32 (stream_of rlev2_delta_up) 0 = 2 /\
  decode_varint I32 (stream_of rlev2_delta_up) 3 = (4, 1) /\
  rlev2_delta_delta U32 (stream_of rlev2_delta_up) 0 = 2 /\
  rlev2_values U32 rlev2_delta_up 10 = Some (10, [2; 4; 6; 8; 12; 14; 18; 20; 24; 30]) /\
  decode_varint I32 (stream_of rlev2_delta_down) 3 = (4, -1) /\
  rlev2_delta_delta I32 (stream_of rlev2_delta_down) 0 = 1 /\
  rlev2_values I32 rlev2_delta_down 10 = Some (10, [2; 3; 5; 7; 11; 13; 17; 19; 23; 29]).
Proof. repeat split; vm_compute; reflexivity. Qed.

(** ** Integer RLE v1: literal blocks *)

(** C1 at a literal block whose first varint takes two bytes: the stream is
    the control byte [0xFE] (two literals), the varint [0x80 0x01] = 128,
    the varint [0x05] and one more byte [0x07].  [varint_length] gives 3
    for the two-byte varint, the second literal is read one byte too far
    and the decoded values are 128 and 7, while the two varints that follow
    the control byte are 128 and 5. *)
Theorem Integer_RLEv1_literal_misread :
  varint_length U32 (stream_of rlev1_two_literals) 1 = 3 /\
  decode_varint U32 (stream_of rlev1_two_literals) 1 = (3, 128) /\
  decode_varint U32 (stream_of rlev1_two_literals) 3 = (4, 5) /\
  rlev1_values U32 rlev1_two_literals 2 = Some (2, [128; 7]).
Proof. repeat split; vm_compute; reflexivity. Qed.

(** ** Varints *)

(** C6 at [v = 2^32] for the 64-bit reader: the canonical encoding is
    [80 80 80 80 10]; the fifth byte is the last one and carries the bits
    28 to 34, of which the 32-bit accumulator keeps four: the decoded value
    is 0. *)
Theorem decode_varint_u64_loses_bits :
  encode_varint (2 ^ 32) = [0x80; 0x80; 0x80; 0x80; 0x10] /\
  decode_varint U64 (stream_of (encode_varint (2 ^ 32))) 0 = (5, 0) /\
  decode_varint I64 (stream_of (encode_varint (zigzag_encode 64 (2 ^ 31)))) 0 = (5, 0).
Proof. repeat split; vm_compute; reflexivity. Qed.

(** ** Integer RLE v2 returns *)

Lemma land_range (x k : Z) : 0 <= k -> 0 <= Z.land x (Z.ones k) < 2 ^ k.
Proof.
  intros Hk. rewrite Z.land_ones by lia. apply Z.mod_pos_bound.
  apply Z.pow_pos_nonneg; lia.
Qed.

Lemma rlev2_run_length_n (T : elem_type) (bs : orc_bytestream_s) (p0 : Z) :
  1 <= snd (fst (rlev2_run_length T bs p0)) <= 512.
Proof.
  unfold rlev2_run_length.
  pose proof (land_range (bytestream_readbyte bs p0) 3 ltac:(lia)) as H7.
  pose proof (land_range (bytestream_readbyte bs p0) 1 ltac:(lia)) as H1.
  change (Z.ones 3) with 7 in H7. change (Z.ones 1) with 1 in H1.
  pose proof (readbyte_range bs (u32 (p0 + 1))) as Hb1.
  assert (Hs : 0 <= Z.shiftl (Z.land (bytestream_readbyte bs p0) 1) 8 <= 256).
  { rewrite Z.shiftl_mul_pow2 by lia. change (2 ^ 8) with 256. cbn in H1. lia. }
  cbn in H7.
  destruct (Z.shiftr (bytestream_readbyte bs p0) 6 =? 0); [cbn [fst snd]; lia |].
  destruct (Z.shiftr (bytestream_readbyte bs p0) 6 =? 1); [cbn [fst snd]; lia |].
  destruct (Z.shiftr (bytestream_readbyte bs p0) 6 =? 2); cbn [fst snd]; lia.
Qed.

Section Rlev2Scan.
Variable T : elem_type.
Variable bs : orc_bytestream_s.
Variables maxvals maxpos : Z.
Hypothesis Hmax : 0 <= maxvals <= 1024.

Lemma rlev2_scan_step_inv (s s' : rlev2_scan) (c : bool) :
  0 <= s2_numvals s <= maxvals ->
  rlev2_scan_step T bs maxvals maxpos s = (s', c) ->
  0 <= s2_numvals s' <= maxvals /\
  (c = true -> s2_numvals s < s2_numvals s').
Proof.
  intros Hnv Hstep. unfold rlev2_scan_step in Hstep.
  pose proof (rlev2_run_length_n T bs (s2_lastpos s)) as Hn.
  destruct (rlev2_run_length T bs (s2_lastpos s)) as [[p n] l].
  cbn [fst snd] in Hn.
  rewrite (u32_small (s2_numvals s + n)) in Hstep by lia.
  destruct (maxvals <? s2_numvals s + n) eqn:Hfit.
  - apply pair_equal_spec in Hstep. destruct Hstep as [<- <-].
    cbn [s2_numvals]. split; [lia | discriminate].
  - apply Z.ltb_ge in Hfit.
    destruct (maxpos <? u32 (p + l));
      apply pair_equal_spec in Hstep; destruct Hstep as [<- <-]; cbn [s2_numvals].
    + split; [lia | discriminate].
    + split; [lia | intros _; lia].
Qed.

Lemma rlev2_scan_loop_inv (fuel : nat) (s : rlev2_scan) :
  0 <= s2_numvals s <= maxvals ->
  (Z.to_nat (maxvals - s2_numvals s) < fuel)%nat ->
  exists s', rlev2_scan_loop fuel T bs maxvals maxpos s = Some s' /\
             0 <= s2_numvals s' <= maxvals.
Proof.
  revert s. induction fuel as [| fuel IH]; intros s Hinv Hfuel; [lia |].
  cbn [rlev2_scan_loop].
  destruct (s2_numvals s <? maxvals) eqn:Hc.
  - destruct (rlev2_scan_step T bs maxvals maxpos s) as [s1 c] eqn:Hs.
    destruct (rlev2_scan_step_inv s s1 c Hinv Hs) as (Hinv1 & Hgo).
    destruct c.
    + apply IH; [exact Hinv1 |]. specialize (Hgo eq_refl). lia.
    + exists s1. split; [reflexivity | exact Hinv1].
  - exists s. split; [reflexivity | exact Hinv].
Qed.
End Rlev2Scan.

(** The round loop returns whatever number of cells takes part in it. *)
Lemma scan_loop_total (T : elem_type) (lo m bound : Z) (fuel : nat) :
  bound <= 2 ^ 31 ->
  forall (k : Z) (v : arr),
    0 <= k -> bound <= 2 ^ (k + Z.of_nat fuel) ->
    exists v', scan_loop fuel T lo m bound (2 ^ k) v = Some v'.
Proof.
  intros Hbound. induction fuel as [| fuel IH]; intros k v Hk Hfuel.
  - cbn [scan_loop]. replace (k + Z.of_nat 0) with k in Hfuel by lia.
    replace (2 ^ k <? bound) with false by (symmetry; apply Z.ltb_ge; lia).
    exists v. reflexivity.
  - cbn [scan_loop].
    destruct (2 ^ k <? bound) eqn:E; [| exists v; reflexivity].
    apply Z.ltb_lt in E.
    replace (u32 (Z.shiftl (2 ^ k) 1)) with (2 ^ (k + 1)).
    2:{ rewrite Z.shiftl_mul_pow2 by lia. change (2 ^ 1) with 2.
        rewrite Z.pow_add_r by lia. change (2 ^ 1) with 2.
        symmetry. apply u32_small.
        assert (0 < 2 ^ k) by (apply Z.pow_pos_nonneg; lia). lia. }
    apply IH; [lia |].
    replace (k + 1 + Z.of_nat fuel) with (k + Z.of_nat (S fuel)) by lia.
    exact Hfuel.
Qed.

Lemma rlev2_header_n (T : elem_type) (bs : orc_bytestream_s)
    (rle : orc_rlev2_state_s) (r b p0 : Z) :
  1 <= r_n (snd (rlev2_run_header T bs rle r b p0)) <= 512.
Proof.
  unfold rlev2_run_header.
  pose proof (land_range (bytestream_readbyte bs p0) 3 ltac:(lia)) as H7.
  pose proof (land_range (bytestream_readbyte bs p0) 1 ltac:(lia)) as H1.
  change (Z.ones 3) with 7 in H7. change (Z.ones 1) with 1 in H1.
  pose proof (readbyte_range bs (u32 (p0 + 1))) as Hb1.
  assert (Hs : 0 <= Z.shiftl (Z.land (bytestream_readbyte bs p0) 1) 8 <= 256).
  { rewrite Z.shiftl_mul_pow2 by lia. change (2 ^ 8) with 256. cbn in H1. lia. }
  cbn in H7.
  destruct (Z.shiftr (bytestream_readbyte bs p0) 6 =? 0); [cbn [fst snd r_n]; lia |].
  destruct (1 <? Z.shiftr (bytestream_readbyte bs p0) 6); [| cbn [fst snd r_n]; lia].
  destruct (Z.shiftr (bytestream_readbyte bs p0) 6 =? 2); [cbn [fst snd r_n]; lia |].
  destruct (decode_varint_u (wide T) bs (u32 (u32 (p0 + 1) + 1))) as [p1 bv].
  destruct (decode_varint_u (wide T) bs (u32 p1)) as [p2 d].
  cbn [fst snd r_n]. lia.
Qed.

Lemma rlev2_process_run_total (T : elem_type) (bs : orc_bytestream_s)
    (st : orc_rlev2_state_s * arr) (run : nat) :
  exists st', rlev2_process_run T bs st run = Some st'.
Proof.
  destruct st as [rle vals]. unfold rlev2_process_run.
  pose proof (rlev2_header_n T bs rle (rlev2_run_warp run) (rlev2_run_base rle run)
                (rlev2_run_start rle vals run)) as Hn.
  destruct (rlev2_run_header T bs rle (rlev2_run_warp run) (rlev2_run_base rle run)
              (rlev2_run_start rle vals run)) as [rle1 hd].
  cbn [snd] in Hn.
  set (v1 := rlev2_run_values T bs rle1 (rlev2_run_warp run) hd vals).
  assert (Hpatch : exists v2,
            (if r_mode hd =? 2 then rlev2_patch T bs rle1 (rlev2_run_warp run) hd v1
             else Some v1) = Some v2).
  { destruct (r_mode hd =? 2); [| exists v1; reflexivity].
    unfold rlev2_patch.
    match goal with
    | |- context [scan_loop 32 U32 0 32 ?pll 1 ?pp] =>
        destruct (scan_loop_total U32 0 32 pll 32) with (k := 0) (v := pp) as (pp' & Hpp)
    end.
    - pose proof (land_range (u16 (m2_pw_byte3 rle1 (rlev2_run_warp run))) 5 ltac:(lia)) as H.
      change (Z.ones 5) with 0x1f in H. cbn in H |- *. lia.
    - lia.
    - pose proof (land_range (u16 (m2_pw_byte3 rle1 (rlev2_run_warp run))) 5 ltac:(lia)) as H.
      change (Z.ones 5) with 0x1f in H. cbn in H |- *. lia.
    - change (2 ^ 0) with 1 in Hpp. rewrite Hpp. cbn [obind]. eexists. reflexivity. }
  destruct Hpatch as (v2 & ->). cbn [obind].
  destruct (r_mode hd =? 3); [| cbn [obind]; eexists; reflexivity].
  unfold rlev2_delta_sums.
  destruct (scan_loop_total T (r_base hd) (r_n hd) (r_n hd) 32) with (k := 0) (v := v2)
    as (v3 & Hv3).
  - lia.
  - lia.
  - cbn. lia.
  - change (2 ^ 0) with 1 in Hv3. rewrite Hv3. cbn [obind]. eexists. reflexivity.
Qed.

Lemma ofold_total {A B : Type} (f : A -> B -> option A) (l : list B) :
  (forall a b, exists a', f a b = Some a') ->
  forall a, exists a', ofold f l a = Some a'.
Proof.
  intros Hf. induction l as [| b l IH]; intros a; cbn [ofold].
  - exists a. reflexivity.
  - destruct (Hf a b) as (a1 & ->). cbn [obind]. apply IH.
Qed.

(** Processing the runs changes [baseval], [m2_pw_byte3] and [delta] only. *)
Lemma rlev2_header_fields (T : elem_type) (bs : orc_bytestream_s)
    (rle : orc_rlev2_state_s) (r b p0 : Z) :
  v2_num_vals (fst (rlev2_run_header T bs rle r b p0)) = v2_num_vals rle /\
  v2_fill_pos (fst (rlev2_run_header T bs rle r b p0)) = v2_fill_pos rle /\
  v2_fill_count (fst (rlev2_run_header T bs rle r b p0)) = v2_fill_count rle.
Proof.
  unfold rlev2_run_header.
  destruct (Z.shiftr (bytestream_readbyte bs p0) 6 =? 0); [cbn; auto |].
  destruct (1 <? Z.shiftr (bytestream_readbyte bs p0) 6); [| cbn; auto].
  destruct (Z.shiftr (bytestream_readbyte bs p0) 6 =? 2).
  - destruct (wide T); cbn; auto.
  - destruct (decode_varint_u (wide T) bs (u32 (u32 (p0 + 1) + 1))) as [p1 bv].
    destruct (decode_varint_u (wide T) bs (u32 p1)) as [p2 d].
    cbn; auto.
Qed.

Lemma rlev2_process_run_fields (T : elem_type) (bs : orc_bytestream_s)
    (rle rle' : orc_rlev2_state_s) (vals vals' : arr) (run : nat) :
  rlev2_process_run T bs (rle, vals) run = Some (rle', vals') ->
  v2_num_vals rle' = v2_num_vals rle /\
  v2_fill_pos rle' = v2_fill_pos rle /\
  v2_fill_count rle' = v2_fill_count rle.
Proof.
  unfold rlev2_process_run.
  pose proof (rlev2_header_fields T bs rle (rlev2_run_warp run) (rlev2_run_base rle run)
                (rlev2_run_start rle vals run)) as H.
  destruct (rlev2_run_header T bs rle (rlev2_run_warp run) (rlev2_run_base rle run)
              (rlev2_run_start rle vals run)) as [rle1 hd].
  cbn [fst] in H.
  destruct (if r_mode hd =? 2 then _ else _) as [v2 |]; cbn [obind]; [| discriminate].
  destruct (if r_mode hd =? 3 then _ else _) as [v3 |]; cbn [obind]; [| discriminate].
  intros E. injection E as <- _. exact H.
Qed.

Lemma rlev2_runs_fields (T : elem_type) (bs : orc_bytestream_s) (l : list nat) :
  forall (rle rle' : orc_rlev2_state_s) (vals vals' : arr),
    ofold (rlev2_process_run T bs) l (rle, vals) = Some (rle', vals') ->
    v2_num_vals rle' = v2_num_vals rle /\
    v2_fill_pos rle' = v2_fill_pos rle /\
    v2_fill_count rle' = v2_fill_count rle.
Proof.
  induction l as [| run l IH]; intros rle rle' vals vals' H; cbn [ofold] in H.
  - injection H as <- _. auto.
  - destruct (rlev2_process_run T bs (rle, vals) run) as [[rle1 vals1] |] eqn:E;
      cbn [obind] in H; [| discriminate].
    destruct (rlev2_process_run_fields T bs rle rle1 vals vals1 run E) as (H1 & H2 & H3).
    destruct (IH rle1 rle' vals1 vals' H) as (H4 & H5 & H6).
    repeat split; congruence.
Qed.

(** [Integer_RLEv2] returns, and the count it returns is at most [maxvals]. *)
Lemma Integer_RLEv2_count (T : elem_type) (mem : arr) (bs : orc_bytestream_s)
    (rle : orc_rlev2_state_s) (vals : arr) (maxvals : Z) :
  0 <= maxvals <= 1024 ->
  exists bs' rle' vals' n,
    Integer_RLEv2 T mem bs rle vals maxvals = Some (bs', rle', vals', n) /\
    0 <= n <= maxvals.
Proof.
  intros Hmax. unfold Integer_RLEv2, rlev2_scan_runs.
  destruct (rlev2_scan_loop_inv T bs maxvals
              (Z.min (len bs) (u32 (pos bs + (BYTESTREAM_BFRSZ - 8)))) Hmax
              (S (Z.to_nat maxvals)) (mk_scan2 0 0 (pos bs) vals (runs_loc rle)))
    as (s & Hs & Hnv).
  - cbn. lia.
  - cbn. lia.
  - rewrite Hs. cbn [obind].
    destruct (bytestream_flush_bytes bs (u32 (s2_lastpos s - pos bs))) as [bs1 fc].
    match goal with
    | |- context [ofold ?f ?l ?a] =>
        destruct (ofold_total f l (rlev2_process_run_total T bs1) a) as ([rle2 vals2] & Hfold)
    end.
    rewrite Hfold. cbn [obind].
    do 4 eexists. split; [reflexivity |].
    apply rlev2_runs_fields in Hfold. destruct Hfold as (-> & _ & _).
    cbn [v2_num_vals]. exact Hnv.
Qed.

(** The integer decoder of a chunk returns at most [maxvals] values. *)
Lemma Integer_RLE_count (kind : Z) (T : elem_type) (mem : arr) (bs : orc_bytestream_s)
    (u : rle_states) (vals : arr) (maxvals : Z) :
  0 <= maxvals <= 1024 ->
  exists bs' u' vals' n,
    Integer_RLE kind T mem bs u vals maxvals = Some (bs', u', vals', n) /\
    0 <= n <= maxvals.
Proof.
  intros Hmax. unfold Integer_RLE.
  destruct (IS_RLEv1 kind).
  - destruct (Integer_RLEv1_count T mem bs (rlev1 u) vals maxvals Hmax)
      as (bs' & r1 & vals' & n & -> & Hn & _).
    cbn [obind]. do 4 eexists. split; [reflexivity | exact Hn].
  - destruct (Integer_RLEv2_count T mem bs (rlev2 u) vals maxvals Hmax)
      as (bs' & r2 & vals' & n & -> & Hn).
    cbn [obind]. do 4 eexists. split; [reflexivity | exact Hn].
Qed.

(** ** String dictionaries *)

Lemma sum_list_seq (f : arr) (t : nat) :
  fold_right Z.add 0 (map f (map Z.of_nat (seq 0 t))) = sum_upto f t.
Proof.
  induction t as [| t IH]; [reflexivity |].
  rewrite seq_S, !map_app, fold_right_app. cbn [sum_upto map fold_right Nat.add].
  rewrite <- IH. generalize (map f (map Z.of_nat (seq 0 t))).
  induction l as [| x l IHl]; cbn [fold_right]; lia.
Qed.

Lemma firstn_seq_le (t : nat) :
  forall s m : nat, (t <= m)%nat -> firstn t (seq s m) = seq s t.
Proof.
  induction t as [| t IH]; intros s m H; [reflexivity |].
  destruct m as [| m]; [lia |].
  cbn [seq firstn]. f_equal. apply IH. lia.
Qed.

Lemma firstn_map_seq (f : arr) (t m : nat) :
  (t <= m)%nat ->
  firstn t (map f (map Z.of_nat (seq 0 m))) = map f (map Z.of_nat (seq 0 t)).
Proof.
  intros H. rewrite !firstn_map, firstn_seq_le by exact H. reflexivity.
Qed.

Lemma offset_before_app (l l2 : list Z) (t : nat) :
  offset_before (l ++ l2) (length l + t)
  = offset_before l (length l) + offset_before l2 t.
Proof.
  unfold offset_before.
  rewrite firstn_app_2, firstn_all, fold_right_app.
  generalize (fold_right Z.add 0 (firstn t l2)). intros z.
  induction l as [| x l IH]; cbn [fold_right]; lia.
Qed.

Lemma offset_before_app_l (l l2 : list Z) (k : nat) :
  (k <= length l)%nat -> offset_before (l ++ l2) k = offset_before l k.
Proof.
  intros H. unfold offset_before. rewrite firstn_app.
  replace (k - length l)%nat with 0%nat by lia.
  cbn [firstn]. rewrite app_nil_r. reflexivity.
Qed.

Lemma offset_before_batch (f : arr) (t m : nat) :
  (t <= m)%nat ->
  offset_before (map f (map Z.of_nat (seq 0 m))) t = sum_upto f t.
Proof.
  intros H. unfold offset_before. rewrite firstn_map_seq by exact H.
  apply sum_list_seq.
Qed.

Lemma nth_batch (f : arr) (t m : nat) :
  (t < m)%nat -> nth t (map f (map Z.of_nat (seq 0 m))) 0 = f (Z.of_nat t).
Proof.
  intros H. rewrite map_map.
  rewrite nth_indep with (d' := f (Z.of_nat 0)) by (rewrite length_map, length_seq; lia).
  rewrite (map_nth (fun x => f (Z.of_nat x)) (seq 0 m) 0%nat), seq_nth by lia.
  reflexivity.
Qed.

Lemma u32_idem (x : Z) : u32 (u32 x) = u32 x.
Proof. unfold u32. apply Z.mod_mod. lia. Qed.

Lemma u32_add_l (x y : Z) : u32 (u32 x + y) = u32 (x + y).
Proof. unfold u32. apply Zplus_mod_idemp_l. Qed.

Lemma u32_add_r (x y : Z) : u32 (x + u32 y) = u32 (x + y).
Proof. unfold u32. apply Zplus_mod_idemp_r. Qed.

Lemma u32_sub_r (x y : Z) : u32 (x - u32 y) = u32 (x - y).
Proof. unfold u32. apply Zminus_mod_idemp_r. Qed.

Section Dictionary.
Variable g0 : Z -> DictionaryEntry.
Variables ds dl : Z.
Hypothesis Hdl : 0 <= dl < 2 ^ 32.

(** Appending the entries of a batch of [nv] lengths. *)
Lemma dict_inv_step (st : dictdec_state) (nv : Z) (len_ v3 : arr)
    (bs : orc_bytestream_s) (u : rle_states) :
  dict_inv g0 ds dl st ->
  1 <= nv <= top_dict_len (dd_top st) -> nv <= NTHREADS ->
  (forall t, 0 <= t < nv -> u32 (v3 t) = u32 (sum_below len_ (t + 1))) ->
  dict_inv g0 ds dl
    (mk_dictdec bs u v3
       (mk_strdict (local_dict (dd_top st) + nv)
          (u32 (dict_pos (dd_top st) + u32 (v3 (nv - 1))))
          (u32 (top_dict_len (dd_top st) - nv)))
       (fun k =>
          let t := k - local_dict (dd_top st) in
          if (0 <=? t) && (t <? NTHREADS) && (t <? nv)
          then mk_entry (u32 (dict_pos (dd_top st) + u32 (v3 t) - len_ t)) (len_ t)
          else dd_dict st k)
       (dd_lengths st ++ map len_ (map Z.of_nat (seq 0 (Z.to_nat nv))))).
Proof.
  intros (Hloc & Hlen & Hrem & Hpos & Hent & Hout) Hnv HN Hsum.
  set (L := dd_lengths st) in *.
  set (B := map len_ (map Z.of_nat (seq 0 (Z.to_nat nv)))).
  assert (HB : length B = Z.to_nat nv)
    by (unfold B; rewrite !length_map, length_seq; reflexivity).
  unfold dict_inv.
  cbn [dd_lengths dd_top dd_dict local_dict top_dict_len dict_pos].
  fold B. rewrite length_app, HB.
  assert (Hoff : forall t, (t <= Z.to_nat nv)%nat ->
            offset_before (L ++ B) (length L + t)
            = offset_before L (length L) + sum_upto len_ t).
  { intros t Ht. rewrite offset_before_app. f_equal.
    unfold B. apply offset_before_batch. exact Ht. }
  split; [lia |]. split; [rewrite u32_small by lia; lia |]. split; [lia |].
  split; [| split].
  - rewrite Hoff by lia.
    rewrite Hpos, (Hsum (nv - 1)) by lia.
    rewrite u32_add_l, u32_add_r. f_equal. f_equal.
    unfold sum_below. f_equal. lia.
  - intros k Hk. cbv zeta.
    rewrite Hloc.
    destruct (Nat.lt_ge_cases k (length L)) as [Hlt | Hge].
    + replace (0 <=? ds + Z.of_nat k - (ds + Z.of_nat (length L))) with false
        by (symmetry; apply Z.leb_gt; lia).
      cbn [andb]. rewrite (Hent k Hlt).
      rewrite offset_before_app_l by lia. rewrite app_nth1 by lia. reflexivity.
    + set (t := (k - length L)%nat).
      replace (ds + Z.of_nat k - (ds + Z.of_nat (length L))) with (Z.of_nat t)
        by (unfold t; lia).
      replace (0 <=? Z.of_nat t) with true by (symmetry; apply Z.leb_le; lia).
      replace (Z.of_nat t <? NTHREADS) with true by (symmetry; apply Z.ltb_lt; lia).
      replace (Z.of_nat t <? nv) with true by (symmetry; apply Z.ltb_lt; lia).
      cbn [andb].
      replace (offset_before (L ++ B) k) with (offset_before (L ++ B) (length L + t))
        by (f_equal; unfold t; lia).
      replace (nth k (L ++ B) 0) with (nth (length L + t) (L ++ B) 0)
        by (f_equal; unfold t; lia).
      rewrite Hoff by (unfold t; lia).
      rewrite app_nth2_plus. unfold B at 1. rewrite nth_batch by lia.
      f_equal.
      rewrite Hpos, (Hsum (Z.of_nat t)) by lia.
      rewrite sum_below_succ by lia.
      replace (u32 (offset_before L (length L))
               + u32 (sum_below len_ (Z.of_nat t) + len_ (Z.of_nat t))
               - len_ (Z.of_nat t))
        with (u32 (offset_before L (length L))
              + (u32 (sum_below len_ (Z.of_nat t) + len_ (Z.of_nat t))
                 + - len_ (Z.of_nat t))) by lia.
      rewrite u32_add_l, <- u32_add_r, u32_add_l, u32_add_r.
      f_equal. unfold sum_below. rewrite Nat2Z.id. lia.
  - intros j Hj. cbv zeta. rewrite Hloc.
    destruct ((0 <=? j - (ds + Z.of_nat (length L)))
              && (j - (ds + Z.of_nat (length L)) <? NTHREADS)
              && (j - (ds + Z.of_nat (length L)) <? nv)) eqn:E.
    + exfalso. apply Hj.
      apply andb_prop in E. destruct E as [E Hlt].
      apply andb_prop in E. destruct E as [Hge _].
      apply Z.leb_le in Hge. apply Z.ltb_lt in Hlt. lia.
    + apply Hout. lia.
Qed.

Lemma dict_batch_inv (mem : arr) (kind : Z) (st : dictdec_state) :
  dict_inv g0 ds dl st ->
  0 < top_dict_len (dd_top st) ->
  exists st',
    dict_batch mem kind st = Some st' /\
    dict_inv g0 ds dl st' /\
    (length (dd_lengths st) < length (dd_lengths st'))%nat.
Proof.
  intros Hinv Hpos.
  assert (HN : NTHREADS = 1024) by reflexivity.
  unfold dict_batch.
  set (nv0 := Z.min (top_dict_len (dd_top st)) NTHREADS).
  assert (Hnv0 : 1 <= nv0 <= 1024) by (unfold nv0; lia).
  destruct (Integer_RLE_count kind U32 mem (dd_bs st) (dd_u st) (dd_vals st) nv0)
    as (bs' & u' & vals1 & n & -> & Hn); [lia |].
  cbn [obind].
  destruct (lengths_to_positions_spec U32 vals1 n ltac:(lia)) as (vals2 & -> & Hsum & _ & _).
  cbn [obind].
  destruct (n =? 0) eqn:En.
  - apply Z.eqb_eq in En. subst n.
    eexists. split; [reflexivity |]. split.
    + apply dict_inv_step; [exact Hinv | unfold nv0; lia | unfold nv0; lia |].
      intros t Ht.
      replace (0 <=? t) with true by (symmetry; apply Z.leb_le; lia).
      replace (t <? NTHREADS) with true by (symmetry; apply Z.ltb_lt; unfold nv0 in Ht; lia).
      cbn [andb].
      rewrite (sum_below_wrap_ext U32 _ (fun _ => 0)).
      * cbn [wrapT]. f_equal. unfold sum_below.
        generalize (Z.to_nat (t + 1)). induction n as [| n IHn]; cbn [sum_upto]; lia.
      * intros j Hj. replace (j <? 0) with false by (symmetry; apply Z.ltb_ge; lia).
        reflexivity.
    + cbn [dd_lengths]. rewrite length_app, !length_map, length_seq. fold nv0. lia.
  - apply Z.eqb_neq in En.
    eexists. split; [reflexivity |]. split.
    + apply dict_inv_step; [exact Hinv | unfold nv0 in Hn; lia | unfold nv0 in Hn; lia |].
      * intros t Ht. specialize (Hsum t Ht). cbn [wrapT] in Hsum. rewrite Hsum.
        apply (sum_below_wrap_ext U32).
        intros j Hj. cbn [wrapT].
        replace (j <? n) with true by (symmetry; apply Z.ltb_lt; lia).
        rewrite u32_idem. reflexivity.
    + cbn [dd_lengths]. rewrite length_app, !length_map, length_seq. lia.
Qed.

Lemma dict_loop_inv (mem : arr) (kind : Z) (fuel : nat) (st : dictdec_state) :
  dict_inv g0 ds dl st ->
  (Z.to_nat (top_dict_len (dd_top st)) <= fuel)%nat ->
  exists st',
    dict_loop fuel mem kind st = Some st' /\
    dict_inv g0 ds dl st' /\ top_dict_len (dd_top st') = 0.
Proof.
  revert st. induction fuel as [| fuel IH]; intros st Hinv Hfuel; cbn [dict_loop].
  - pose proof Hinv as (_ & H2 & H3 & _).
    replace (0 <? top_dict_len (dd_top st)) with false
      by (symmetry; apply Z.ltb_ge; lia).
    exists st. split; [reflexivity | split; [exact Hinv | lia]].
  - destruct (0 <? top_dict_len (dd_top st)) eqn:E.
    + apply Z.ltb_lt in E.
      destruct (dict_batch_inv mem kind st Hinv E) as (st1 & -> & Hinv1 & Hgrow).
      cbn [obind]. apply IH; [exact Hinv1 |].
      destruct Hinv as (_ & H2 & _). destruct Hinv1 as (_ & H2' & _). lia.
    + apply Z.ltb_ge in E. pose proof Hinv as (_ & H2 & H3 & _).
      exists st. split; [reflexivity | split; [exact Hinv | lia]].
Qed.
End Dictionary.

(** The dictionary loop as a whole: for a dictionary-encoded chunk the
    dictionary half of the kernel returns after it has written [dict_len]
    entries; with [lens] the lengths of the entries written, batch after
    batch, the [k]-th entry is (sum of the lengths before it, length) at the
    index [dictionary_start + k] of the global dictionary (the sum in
    32-bit arithmetic); the entries outside the slice of the chunk are
    untouched. *)
Lemma dictionary_loop_entries (mem : arr) (chunk : ColumnDesc)
    (g0 : Z -> DictionaryEntry) (bs0 : orc_bytestream_s) (u0 : rle_states) (vals0 : arr) :
  encoding_kind chunk = DICTIONARY \/ encoding_kind chunk = DICTIONARY_V2 ->
  0 <= dict_len chunk < 2 ^ 32 ->
  exists g lens,
    decode_string_dictionary mem chunk g0 bs0 u0 vals0 = Some (g, lens) /\
    Z.of_nat (length lens) = dict_len chunk /\
    (forall k, (k < length lens)%nat ->
       g (dictionary_start chunk + Z.of_nat k)
       = mk_entry (u32 (offset_before lens k)) (nth k lens 0)) /\
    (forall j, ~ dictionary_start chunk <= j < dictionary_start chunk + dict_len chunk ->
       g j = g0 j).
Proof.
  intros Hkind Hlen. unfold decode_string_dictionary.
  replace ((encoding_kind chunk =? DICTIONARY) || (encoding_kind chunk =? DICTIONARY_V2))
    with true by (destruct Hkind as [-> | ->]; reflexivity).
  cbn [andb].
  destruct (0 <? dict_len chunk) eqn:E.
  - match goal with
    | |- context [dict_loop ?f ?m ?k ?st] =>
        destruct (dict_loop_inv g0 (dictionary_start chunk) (dict_len chunk) Hlen m k f st)
          as (st' & -> & Hinv & Hend)
    end.
    + unfold dict_inv. cbn.
      split; [lia |]. split; [lia |]. split; [lia |]. split; [reflexivity |].
      split; [intros k Hk; lia | intros j _; reflexivity].
    + cbn. lia.
    + cbn [obind]. exists (dd_dict st'), (dd_lengths st').
      destruct Hinv as (H1 & H2 & H3 & H4 & H5 & H6).
      split; [reflexivity |]. split; [lia |]. split; [exact H5 |].
      intros j Hj. apply H6. lia.
  - apply Z.ltb_ge in E. exists g0, []. cbn [length].
    split; [reflexivity |]. split; [cbn; lia |].
    split; [intros k Hk; lia | intros j _; reflexivity].
Qed.

(** The dictionary whose entry lengths are 3, 0, 7 and 2: the entries
    written are (0,3), (3,0), (3,7) and (10,2). *)
Lemma dictionary_entries_example :
  dict_example = Some ([mk_entry 0 3; mk_entry 3 0; mk_entry 3 7; mk_entry 10 2], [3; 0; 7; 2]).
Proof. vm_compute. reflexivity. Qed.

(** ** Bounds on the varint readers *)

Lemma ffs_from_range (n : nat) :
  forall i x, 0 <= i -> 0 <= ffs_from n i x <= i + Z.of_nat n.
Proof.
  induction n as [| n IH]; intros i x Hi; cbn [ffs_from]; [lia |].
  destruct (Z.testbit x i); [lia |].
  specialize (IH (i + 1) x ltac:(lia)). lia.
Qed.

Lemma ffs_shift_range (x : Z) : 0 <= Z.shiftr (ffs x) 3 <= 4.
Proof.
  pose proof (ffs_from_range 32 0 x ltac:(lia)) as H. fold (ffs x) in H.
  rewrite Z.shiftr_div_pow2 by lia. change (2 ^ 3) with 8.
  split; [apply Z.div_pos; lia |].
  apply Z.div_le_upper_bound; lia.
Qed.

Lemma varint_length_range (T : elem_type) (bs : orc_bytestream_s) (p : Z) :
  1 <= varint_length T bs p <= 9.
Proof.
  unfold varint_length.
  destruct (0x7f <? bytestream_readbyte bs p); [| lia].
  pose proof (ffs_shift_range (Z.land (u32 (Z.lnot (bytestream_readu32 bs p))) 0x80808080)).
  pose proof (ffs_shift_range
                (Z.land (u32 (Z.lnot (bytestream_readu32 bs (p + 4)))) 0x80808080)).
  destruct ((4 <? sizeof T) && (_ =? 5)); lia.
Qed.

(** ** Stream positions of Integer RLE v1 *)

Lemma rlev1_literals_pos (T : elem_type) (bs : orc_bytestream_s) (k : nat) :
  forall idx p vals,
    0 <= p -> p + 9 * Z.of_nat k < 2 ^ 32 ->
    p + Z.of_nat k <= fst (rlev1_literals T bs k idx p vals) <= p + 9 * Z.of_nat k.
Proof.
  induction k as [| k IH]; intros idx p vals Hp Hk; cbn [rlev1_literals fst]; [lia |].
  pose proof (varint_length_range T bs p) as Hv.
  rewrite (u32_small (p + varint_length T bs p)) by lia.
  specialize (IH (idx + 1) (p + varint_length T bs p)
                (upd vals idx (wrapT T (Z.land p 65535))) ltac:(lia) ltac:(lia)).
  lia.
Qed.

Section Rlev1Pos.
Variable T : elem_type.
Variable bs : orc_bytestream_s.
Variables maxvals maxpos pos0 : Z.
Hypothesis Hmax : 0 <= maxvals <= 1024.
Hypothesis Hmaxpos : maxpos + 8192 <= 2 ^ 32.

Lemma rlev1_scan_step_pos (s s' : rlev1_scan) (c : bool) :
  0 <= sc_numvals s <= maxvals ->
  0 <= sc_lastpos s <= maxpos ->
  rlev1_scan_step T bs maxvals maxpos s = (s', c) ->
  (c = true -> sc_lastpos s < sc_lastpos s' <= maxpos) /\
  (c = false -> sc_lastpos s' = sc_lastpos s).
Proof.
  intros Hnv Hlp Hstep. unfold rlev1_scan_step in Hstep.
  pose proof (readbyte_range bs (sc_lastpos s)) as Hb0.
  set (n0 := bytestream_readbyte bs (sc_lastpos s)) in *.
  rewrite (u32_small (sc_lastpos s + 1)) in Hstep by lia.
  destruct (n0 <=? 0x7f) eqn:Hrun.
  - destruct (maxvals <? u32 (sc_numvals s + (n0 + 3))).
    + apply pair_equal_spec in Hstep. destruct Hstep as [<- <-].
      split; [discriminate | reflexivity].
    + rewrite (u32_small (sc_lastpos s + 1 + 1)) in Hstep by lia.
      pose proof (varint_length_range T bs (sc_lastpos s + 1 + 1)) as Hv.
      rewrite (u32_small (sc_lastpos s + 1 + 1 + _)) in Hstep by lia.
      destruct (maxpos <? sc_lastpos s + 1 + 1 + varint_length T bs (sc_lastpos s + 1 + 1))
        eqn:E; apply pair_equal_spec in Hstep; destruct Hstep as [<- <-];
        cbn [sc_lastpos].
      * split; [discriminate | reflexivity].
      * apply Z.ltb_ge in E. split; [intros _; lia | discriminate].
  - apply Z.leb_gt in Hrun.
    destruct (maxvals <? u32 (sc_numvals s + (0x100 - n0))).
    + apply pair_equal_spec in Hstep. destruct Hstep as [<- <-].
      split; [discriminate | reflexivity].
    + pose proof (rlev1_literals_pos T bs (Z.to_nat (0x100 - n0)) (sc_numvals s)
                    (sc_lastpos s + 1) (sc_vals s) ltac:(lia) ltac:(lia)) as Hl.
      destruct (rlev1_literals T bs (Z.to_nat (0x100 - n0)) (sc_numvals s)
                  (sc_lastpos s + 1) (sc_vals s)) as [p vals].
      cbn [fst] in Hl.
      destruct (maxpos <? p) eqn:E; apply pair_equal_spec in Hstep;
        destruct Hstep as [<- <-]; cbn [sc_lastpos].
      * split; [discriminate | reflexivity].
      * apply Z.ltb_ge in E. split; [intros _; lia | discriminate].
Qed.

Lemma rlev1_scan_loop_pos (fuel : nat) (s s' : rlev1_scan) :
  rlev1_scan_inv maxvals s ->
  pos0 <= sc_lastpos s <= maxpos -> 0 <= pos0 ->
  (0 < sc_numvals s -> pos0 < sc_lastpos s) ->
  rlev1_scan_loop fuel T bs maxvals maxpos s = Some s' ->
  pos0 <= sc_lastpos s' <= maxpos /\
  (0 < sc_numvals s' -> pos0 < sc_lastpos s').
Proof.
  revert s. induction fuel as [| fuel IH]; intros s Hinv Hlp Hp0 Hprog Hloop;
    cbn [rlev1_scan_loop] in Hloop.
  - destruct ((sc_numvals s <? maxvals) && (sc_numruns s <? NWARPS * 12));
      [discriminate |]. injection Hloop as <-. auto.
  - destruct ((sc_numvals s <? maxvals) && (sc_numruns s <? NWARPS * 12)).
    2:{ injection Hloop as <-. auto. }
    destruct (rlev1_scan_step T bs maxvals maxpos s) as [s1 c] eqn:Hs.
    pose proof Hinv as (Hnv & _).
    destruct (rlev1_scan_step_inv T bs maxvals maxpos Hmax s s1 c Hinv Hs)
      as (Hinv1 & _ & Hstop).
    destruct (rlev1_scan_step_pos s s1 c Hnv ltac:(lia) Hs) as (Hgo & Hsame).
    destruct c.
    + specialize (Hgo eq_refl).
      apply (IH s1); try assumption; try lia; intros _; lia.
    + injection Hloop as <-. specialize (Hsame eq_refl).
      destruct (Hstop eq_refl) as (Hnv' & _). rewrite Hsame, Hnv'. auto.
Qed.
End Rlev1Pos.

(** The buffer window: [maxpos] lies between the position and the length. *)
Lemma maxpos_range (bs : orc_bytestream_s) :
  0 <= pos bs <= len bs -> len bs + 8192 <= 2 ^ 32 ->
  pos bs <= Z.min (len bs) (u32 (pos bs + (BYTESTREAM_BFRSZ - 8))) <= len bs /\
  Z.min (len bs) (u32 (pos bs + (BYTESTREAM_BFRSZ - 8))) <= pos bs + 8184.
Proof.
  intros Hp Hl. change (BYTESTREAM_BFRSZ - 8) with 8184.
  rewrite u32_small by lia. lia.
Qed.

(** Flushing the bytes up to a position of the window moves there. *)
Lemma flush_to (bs : orc_bytestream_s) (lastpos : Z) :
  0 <= pos bs <= lastpos -> lastpos <= len bs -> len bs < 2 ^ 32 ->
  fst (bytestream_flush_bytes bs (u32 (lastpos - pos bs))) = set_pos bs lastpos.
Proof.
  intros Hp Hl Hlen. unfold bytestream_flush_bytes. cbn [fst].
  rewrite (u32_small (lastpos - pos bs)) by lia.
  replace (pos bs + (lastpos - pos bs)) with lastpos by lia.
  rewrite u32_small by lia. rewrite Z.min_l by lia. reflexivity.
Qed.

Lemma fill_fields (mem : arr) (bs : orc_bytestream_s) (p c : Z) :
  pos (bytestream_fill mem bs p c) = pos bs /\
  len (bytestream_fill mem bs p c) = len bs /\
  base (bytestream_fill mem bs p c) = base bs.
Proof. unfold bytestream_fill, set_buf. cbn. auto. Qed.

(** [Integer_RLEv1] and the stream: the count, the position and the length. *)
Lemma Integer_RLEv1_stream (T : elem_type) (mem : arr) (bs : orc_bytestream_s)
    (rle : orc_rlev1_state_s) (vals : arr) (maxvals : Z) :
  0 <= maxvals <= 1024 ->
  0 <= pos bs <= len bs -> len bs + 8192 <= 2 ^ 32 ->
  exists bs' rle' vals' n,
    Integer_RLEv1 T mem bs rle vals maxvals = Some (bs', rle', vals', n) /\
    0 <= n <= maxvals /\
    pos bs <= pos bs' <= len bs /\ pos bs' <= pos bs + 8184 /\
    len bs' = len bs /\ base bs' = base bs /\
    (0 < n -> pos bs < pos bs').
Proof.
  intros Hmax Hp Hl.
  destruct (maxpos_range bs Hp Hl) as (Hmp & Hmp2).
  destruct (rlev1_scan_runs_inv T bs rle vals maxvals Hmax) as (s & Hs & Hinv).
  pose proof Hs as Hs'. unfold rlev1_scan_runs in Hs'.
  set (mp := Z.min (len bs) (u32 (pos bs + (BYTESTREAM_BFRSZ - 8)))) in *.
  apply (rlev1_scan_loop_pos T bs maxvals mp (pos bs) Hmax ltac:(lia)) in Hs'.
  2:{ unfold rlev1_scan_inv; cbn. repeat split; try lia; intros r Hr; lia. }
  2:{ cbn. lia. }
  2:{ lia. }
  2:{ cbn. lia. }
  destruct Hs' as (Hlp & Hprog).
  unfold Integer_RLEv1. rewrite Hs.
  pose proof (flush_to bs (sc_lastpos s) ltac:(lia) ltac:(lia) ltac:(lia)) as Hf.
  destruct (bytestream_flush_bytes bs (u32 (sc_lastpos s - pos bs))) as [bs1 fc].
  cbn [fst] in Hf. subst bs1.
  cbn [num_vals num_runs run_data fill_pos fill_count].
  do 4 eexists. split; [reflexivity |].
  destruct Hinv as (Hnv & _).
  destruct (fill_fields mem (set_pos bs (sc_lastpos s)) (pos bs) fc) as (-> & -> & ->).
  cbn [set_pos pos len base]. repeat split; try lia; exact Hprog.
Qed.

(** ** Stream positions of Integer RLE v2 *)

Lemma rlev2_W_range (c : Z) : 0 <= c < 32 -> 1 <= rlev2_W c <= 64.
Proof.
  intros Hc. unfold rlev2_W.
  assert (Hk : (Z.to_nat c < 32)%nat) by lia.
  generalize dependent (Z.to_nat c). intros k Hk.
  unfold kRLEv2_W.
  do 32 (destruct k as [| k]; [cbn [nth]; lia |]). lia.
Qed.

Lemma shiftr3_le (x b : Z) : 0 <= x <= 8 * b + 7 -> 0 <= Z.shiftr x 3 <= b.
Proof.
  intros H. rewrite Z.shiftr_div_pow2 by lia. change (2 ^ 3) with 8.
  split; [apply Z.div_pos; lia |].
  assert (x / 8 < b + 1) by (apply Z.div_lt_upper_bound; lia). lia.
Qed.

Lemma shiftr_byte_range (x k : Z) : 0 <= x < 256 -> 0 <= k -> 0 <= Z.shiftr x k <= 255.
Proof.
  intros Hx Hk. rewrite Z.shiftr_div_pow2 by lia.
  assert (0 < 2 ^ k) by (apply Z.pow_pos_nonneg; lia).
  split; [apply Z.div_pos; lia |].
  assert (x / 2 ^ k < 256) by (apply Z.div_lt_upper_bound; nia). lia.
Qed.

Lemma shiftr5_byte (x : Z) : 0 <= x < 256 -> 0 <= Z.shiftr x 5 <= 7.
Proof.
  intros Hx. rewrite Z.shiftr_div_pow2 by lia. change (2 ^ 5) with 32.
  split; [apply Z.div_pos; lia |].
  assert (x / 32 < 8) by (apply Z.div_lt_upper_bound; lia). lia.
Qed.

Lemma rlev2_run_length_pos (T : elem_type) (bs : orc_bytestream_s) (p0 : Z) :
  0 <= p0 -> p0 + 8192 <= 2 ^ 32 ->
  p0 < fst (fst (rlev2_run_length T bs p0)) <= p0 + 4 /\
  0 <= snd (rlev2_run_length T bs p0) <= 4500.
Proof.
  intros Hp0 Hw. unfold rlev2_run_length.
  set (byte0 := bytestream_readbyte bs p0).
  pose proof (readbyte_range bs p0) as Hb0. fold byte0 in Hb0.
  rewrite (u32_small (p0 + 1)) by lia.
  pose proof (land_range (Z.shiftr byte0 3) 3 ltac:(lia)) as H3.
  change (Z.ones 3) with 7 in H3. change (2 ^ 3) with 8 in H3.
  destruct (Z.shiftr byte0 6 =? 0); [cbn [fst snd]; lia |].
  pose proof (land_range (Z.shiftr byte0 1) 5 ltac:(lia)) as H5.
  change (Z.ones 5) with 0x1f in H5. change (2 ^ 5) with 32 in H5.
  pose proof (rlev2_W_range _ H5) as HW.
  set (W := rlev2_W (Z.land (Z.shiftr byte0 1) 31)) in *.
  pose proof (land_range byte0 1 ltac:(lia)) as H1.
  change (Z.ones 1) with 1 in H1. change (2 ^ 1) with 2 in H1.
  pose proof (readbyte_range bs (p0 + 1)) as Hb1.
  set (n := 1 + Z.shiftl (Z.land byte0 1) 8 + bytestream_readbyte bs (p0 + 1)).
  assert (Hn : 1 <= n <= 512).
  { unfold n. rewrite Z.shiftl_mul_pow2 by lia. change (2 ^ 8) with 256. lia. }
  rewrite (u32_small (p0 + 1 + 1)) by lia.
  assert (Hl : 0 <= Z.shiftr (W * n + 7) 3 <= 4096) by (apply shiftr3_le; nia).
  destruct (Z.shiftr byte0 6 =? 1); [cbn [fst snd]; lia |].
  destruct (Z.shiftr byte0 6 =? 2).
  - rewrite (u32_small (p0 + 1 + 1 + 1)) by lia.
    rewrite (u32_small (p0 + 1 + 1 + 1 + 1)) by lia.
    cbn [fst snd].
    pose proof (readbyte_range bs (p0 + 1 + 1)) as Hb2.
    pose proof (readbyte_range bs (p0 + 1 + 1 + 1)) as Hb3.
    pose proof (shiftr5_byte _ Hb2) as Hbw.
    pose proof (shiftr5_byte _ Hb3) as Hpgw.
    pose proof (land_range (bytestream_readbyte bs (p0 + 1 + 1)) 5 ltac:(lia)) as Hc.
    change (Z.ones 5) with 0x1f in Hc. change (2 ^ 5) with 32 in Hc.
    pose proof (rlev2_W_range _ Hc) as Hpw.
    pose proof (land_range (bytestream_readbyte bs (p0 + 1 + 1 + 1)) 5 ltac:(lia)) as Hpll.
    change (Z.ones 5) with 0x1f in Hpll. change (2 ^ 5) with 32 in Hpll.
    set (pll := Z.land (bytestream_readbyte bs (p0 + 1 + 1 + 1)) 31) in *.
    set (pgw := 1 + Z.shiftr (bytestream_readbyte bs (p0 + 1 + 1 + 1)) 5) in *.
    set (pw := rlev2_W (Z.land (bytestream_readbyte bs (p0 + 1 + 1)) 31)) in *.
    assert (Hpl : 0 <= Z.shiftr (pll * (pgw + pw) + 7) 3 <= 279)
      by (apply shiftr3_le; unfold pgw; nia).
    lia.
  - cbn [fst snd].
    pose proof (varint_length_range T bs (p0 + 1 + 1)) as Hv1.
    pose proof (varint_length_range T bs
                  (u32 (p0 + 1 + 1 + varint_length T bs (p0 + 1 + 1)))) as Hv2.
    destruct (1 <? W); lia.
Qed.

Section Rlev2Pos.
Variable T : elem_type.
Variable bs : orc_bytestream_s.
Variables maxvals maxpos pos0 : Z.
Hypothesis Hmax : 0 <= maxvals <= 1024.
Hypothesis Hmaxpos : maxpos + 8192 <= 2 ^ 32.

Lemma rlev2_scan_step_pos (s s' : rlev2_scan) (c : bool) :
  0 <= s2_lastpos s <= maxpos ->
  rlev2_scan_step T bs maxvals maxpos s = (s', c) ->
  (c = true -> s2_lastpos s < s2_lastpos s' <= maxpos) /\
  (c = false -> s2_lastpos s' = s2_lastpos s /\ s2_numvals s' = s2_numvals s).
Proof.
  intros Hlp Hstep. unfold rlev2_scan_step in Hstep.
  pose proof (rlev2_run_length_pos T bs (s2_lastpos s) ltac:(lia) ltac:(lia)) as Hrl.
  destruct (rlev2_run_length T bs (s2_lastpos s)) as [[p n] l].
  cbn [fst snd] in Hrl.
  destruct (maxvals <? u32 (s2_numvals s + n)).
  - apply pair_equal_spec in Hstep. destruct Hstep as [<- <-].
    split; [discriminate | auto].
  - rewrite (u32_small (p + l)) in Hstep by lia.
    destruct (maxpos <? p + l) eqn:E;
      apply pair_equal_spec in Hstep; destruct Hstep as [<- <-]; cbn [s2_lastpos s2_numvals].
    + split; [discriminate | auto].
    + apply Z.ltb_ge in E. split; [intros _; lia | discriminate].
Qed.

Lemma rlev2_scan_loop_pos (fuel : nat) (s s' : rlev2_scan) :
  0 <= s2_numvals s <= maxvals ->
  pos0 <= s2_lastpos s <= maxpos -> 0 <= pos0 ->
  (0 < s2_numvals s -> pos0 < s2_lastpos s) ->
  rlev2_scan_loop fuel T bs maxvals maxpos s = Some s' ->
  pos0 <= s2_lastpos s' <= maxpos /\
  (0 < s2_numvals s' -> pos0 < s2_lastpos s').
Proof.
  revert s. induction fuel as [| fuel IH]; intros s Hnv Hlp Hp0 Hprog Hloop;
    cbn [rlev2_scan_loop] in Hloop.
  - destruct (s2_numvals s <? maxvals); [discriminate |].
    injection Hloop as <-. auto.
  - destruct (s2_numvals s <? maxvals).
    2:{ injection Hloop as <-. auto. }
    destruct (rlev2_scan_step T bs maxvals maxpos s) as [s1 c] eqn:Hs.
    destruct (rlev2_scan_step_inv T bs maxvals maxpos Hmax s s1 c Hnv Hs) as (Hnv1 & _).
    destruct (rlev2_scan_step_pos s s1 c ltac:(lia) Hs) as (Hgo & Hsame).
    destruct c.
    + specialize (Hgo eq_refl).
      apply (IH s1); try assumption; try lia; intros _; lia.
    + injection Hloop as <-. destruct (Hsame eq_refl) as (E1 & E2).
      rewrite E1, E2. auto.
Qed.
End Rlev2Pos.

(** [Integer_RLEv2] and the stream: the count, the position and the length. *)
Lemma Integer_RLEv2_stream (T : elem_type) (mem : arr) (bs : orc_bytestream_s)
    (rle : orc_rlev2_state_s) (vals : arr) (maxvals : Z) :
  0 <= maxvals <= 1024 ->
  0 <= pos bs <= len bs -> len bs + 8192 <= 2 ^ 32 ->
  exists bs' rle' vals' n,
    Integer_RLEv2 T mem bs rle vals maxvals = Some (bs', rle', vals', n) /\
    0 <= n <= maxvals /\
    pos bs <= pos bs' <= len bs /\ pos bs' <= pos bs + 8184 /\
    len bs' = len bs /\ base bs' = base bs /\
    (0 < n -> pos bs < pos bs').
Proof.
  intros Hmax Hp Hl.
  destruct (maxpos_range bs Hp Hl) as (Hmp & Hmp2).
  unfold Integer_RLEv2, rlev2_scan_runs.
  set (mp := Z.min (len bs) (u32 (pos bs + (BYTESTREAM_BFRSZ - 8)))) in *.
  destruct (rlev2_scan_loop_inv T bs maxvals mp Hmax
              (S (Z.to_nat maxvals)) (mk_scan2 0 0 (pos bs) vals (runs_loc rle)))
    as (s & Hs & Hnv).
  { cbn. lia. }
  { cbn. lia. }
  pose proof Hs as Hs'.
  apply (rlev2_scan_loop_pos T bs maxvals mp (pos bs) Hmax ltac:(lia)) in Hs'.
  2:{ cbn. lia. }
  2:{ cbn. lia. }
  2:{ lia. }
  2:{ cbn. lia. }
  destruct Hs' as (Hlp & Hprog).
  rewrite Hs. cbn [obind].
  pose proof (flush_to bs (s2_lastpos s) ltac:(lia) ltac:(lia) ltac:(lia)) as Hf.
  destruct (bytestream_flush_bytes bs (u32 (s2_lastpos s - pos bs))) as [bs1 fc].
  cbn [fst] in Hf. subst bs1.
  match goal with
  | |- context [ofold ?f ?l ?a] =>
      destruct (ofold_total f l (rlev2_process_run_total T (set_pos bs (s2_lastpos s))) a)
        as ([rle2 vals2] & Hfold)
  end.
  rewrite Hfold. cbn [obind].
  do 4 eexists. split; [reflexivity |].
  apply rlev2_runs_fields in Hfold. destruct Hfold as (-> & -> & ->).
  cbn [v2_num_vals v2_fill_pos v2_fill_count].
  destruct (fill_fields mem (set_pos bs (s2_lastpos s)) (pos bs) fc) as (-> & -> & ->).
  cbn [set_pos pos len base]. repeat split; try lia; exact Hprog.
Qed.

(** ** Little-endian words *)

Lemma le32_value (b0 b1 b2 b3 : Z) :
  0 <= b0 < 256 -> 0 <= b1 < 256 -> 0 <= b2 < 256 -> 0 <= b3 < 256 ->
  Z.lor (Z.lor b0 (Z.shiftl b1 8)) (Z.lor (Z.shiftl b2 16) (Z.shiftl b3 24))
  = b0 + b1 * 2 ^ 8 + b2 * 2 ^ 16 + b3 * 2 ^ 24.
Proof.
  intros H0 H1 H2 H3.
  rewrite (Z.lor_comm b0), (lor_shiftl_add b1 b0 8) by lia.
  replace (Z.lor (Z.shiftl b2 16) (Z.shiftl b3 24))
    with (Z.shiftl (Z.lor (Z.shiftl b3 8) b2) 16).
  2:{ rewrite Z.shiftl_lor, Z.shiftl_shiftl by lia. apply Z.lor_comm. }
  rewrite (lor_shiftl_add b3 b2 8) by lia.
  rewrite Z.lor_comm, lor_shiftl_add by lia. lia.
Qed.

Lemma vals_u32_value (v : arr) (i : Z) :
  vals_u32 v i
  = u8 (v (4 * i)) + u8 (v (4 * i + 1)) * 2 ^ 8 + u8 (v (4 * i + 2)) * 2 ^ 16
    + u8 (v (4 * i + 3)) * 2 ^ 24.
Proof. unfold vals_u32. apply le32_value; apply u8_range. Qed.

Lemma vals_u32_range (v : arr) (i : Z) : 0 <= vals_u32 v i < 2 ^ 32.
Proof.
  rewrite vals_u32_value.
  pose proof (u8_range (v (4 * i))). pose proof (u8_range (v (4 * i + 1))).
  pose proof (u8_range (v (4 * i + 2))). pose proof (u8_range (v (4 * i + 3))).
  lia.
Qed.

(** ** The circular buffer *)

Lemma land_mask (p : Z) : Z.land p (BYTESTREAM_BFRSZ - 1) = p mod 8192.
Proof. change (BYTESTREAM_BFRSZ - 1) with (Z.ones 13). rewrite Z.land_ones by lia. reflexivity. Qed.

Lemma shiftr3 (p : Z) : Z.shiftr p 3 = p / 8.
Proof. rewrite Z.shiftr_div_pow2 by lia. reflexivity. Qed.

(** The buffer after the slots [p/8 .. p/8 + n) have been filled by the
    threads [0 .. n). *)
Lemma fill_fold (mem : arr) (base_addr p count : Z) (b : arr) (n : nat) (i : Z) :
  (n <= 1024)%nat ->
  fold_left (bytestream_fill_thread mem base_addr p count) (map Z.of_nat (seq 0 n)) b i
  = if (0 <=? i) && (i <? 8192) && ((i / 8 - p / 8) mod 1024 <? Z.min count (Z.of_nat n))
    then mem (base_addr + (p / 8 + (i / 8 - p / 8) mod 1024) * 8 + i mod 8)
    else b i.
Proof.
  induction n as [| n IH]; intros Hn.
  - cbn [seq map fold_left].
    pose proof (Z.mod_pos_bound (i / 8 - p / 8) 1024 ltac:(lia)).
    replace ((i / 8 - p / 8) mod 1024 <? Z.min count (Z.of_nat 0)) with false
      by (symmetry; apply Z.ltb_ge; lia).
    rewrite andb_false_r. reflexivity.
  - rewrite seq_S, map_app, fold_left_app. cbn [plus map fold_left].
    unfold bytestream_fill_thread at 1.
    pose proof (Z.mod_pos_bound (i / 8 - p / 8) 1024 ltac:(lia)) as Hm.
    set (tm := (i / 8 - p / 8) mod 1024) in *.
    destruct (Z.of_nat n <? count) eqn:Et; [apply Z.ltb_lt in Et | apply Z.ltb_ge in Et].
    + rewrite shiftr3.
      change (Z.shiftr BYTESTREAM_BFRSZ 3 - 1) with (Z.ones 10).
      rewrite Z.land_ones by lia. change (2 ^ 10) with 1024.
      set (slot := (p / 8 + Z.of_nat n) mod 1024).
      pose proof (Z.mod_pos_bound (p / 8 + Z.of_nat n) 1024 ltac:(lia)) as Hs.
      fold slot in Hs.
      destruct ((slot * 8 <=? i) && (i <? slot * 8 + 8)) eqn:Ei.
      * apply andb_true_iff in Ei. destruct Ei as [E1 E2].
        apply Z.leb_le in E1. apply Z.ltb_lt in E2.
        assert (Hi8 : i / 8 = slot).
        { symmetry. apply (Z.div_unique i 8 slot (i - slot * 8)); lia. }
        assert (Hi : i mod 8 = i - slot * 8).
        { symmetry. apply (Z.mod_unique i 8 slot (i - slot * 8)); lia. }
        assert (Htm : tm = Z.of_nat n).
        { unfold tm. rewrite Hi8. unfold slot.
          rewrite Zminus_mod_idemp_l.
          replace (p / 8 + Z.of_nat n - p / 8) with (Z.of_nat n) by lia.
          apply Z.mod_small. lia. }
        replace (0 <=? i) with true by (symmetry; apply Z.leb_le; lia).
        replace (i <? 8192) with true by (symmetry; apply Z.ltb_lt; lia).
        replace (tm <? Z.min count (Z.of_nat (S n))) with true
          by (symmetry; apply Z.ltb_lt; lia).
        cbn [andb]. rewrite Htm, Hi. f_equal; lia.
      * rewrite IH by lia. fold tm.
        destruct ((0 <=? i) && (i <? 8192)) eqn:Er; cbn [andb]; [| reflexivity].
        apply andb_true_iff in Er. destruct Er as [E1 E2].
        apply Z.leb_le in E1. apply Z.ltb_lt in E2.
        assert (Hne : tm <> Z.of_nat n).
        { intros Htm.
          assert (Hi8 : i / 8 = slot).
          { unfold slot. rewrite <- Htm. unfold tm.
            rewrite Zplus_mod_idemp_r.
            replace (p / 8 + (i / 8 - p / 8)) with (i / 8) by lia.
            symmetry. apply Z.mod_small.
            split; [apply Z.div_pos; lia | apply Z.div_lt_upper_bound; lia]. }
          pose proof (Z.div_mod i 8 ltac:(lia)) as Hd.
          pose proof (Z.mod_pos_bound i 8 ltac:(lia)) as Hb.
          rewrite Hi8 in Hd.
          apply andb_false_iff in Ei.
          destruct Ei as [Ei | Ei]; [apply Z.leb_gt in Ei | apply Z.ltb_ge in Ei]; lia. }
        destruct (tm <? Z.min count (Z.of_nat n)) eqn:E3;
          [apply Z.ltb_lt in E3 | apply Z.ltb_ge in E3].
        -- replace (tm <? Z.min count (Z.of_nat (S n))) with true
             by (symmetry; apply Z.ltb_lt; lia). reflexivity.
        -- replace (tm <? Z.min count (Z.of_nat (S n))) with false
             by (symmetry; apply Z.ltb_ge; lia). reflexivity.
    + rewrite IH by lia. fold tm.
      replace (Z.min count (Z.of_nat (S n))) with (Z.min count (Z.of_nat n)) by lia.
      reflexivity.
Qed.

(** The buffer after [bytestream_fill]: the slots [p/8 .. p/8 + count) hold
    the bytes of the stream at their positions (for at most [NTHREADS]
    slots; a larger count fills [NTHREADS] slots only). *)
Lemma fill_buf (mem : arr) (bs : orc_bytestream_s) (p count : Z) (i : Z) :
  buf (bytestream_fill mem bs p count) i
  = if (0 <=? i) && (i <? 8192) && ((i / 8 - p / 8) mod 1024 <? Z.min count 1024)
    then mem (base bs + (p / 8 + (i / 8 - p / 8) mod 1024) * 8 + i mod 8)
    else buf bs i.
Proof.
  unfold bytestream_fill, set_buf. cbn [buf]. unfold threads.
  change (Z.to_nat NTHREADS) with 1024%nat.
  rewrite fill_fold by lia. reflexivity.
Qed.

Lemma land_align8 (x : Z) : 0 <= x < 2 ^ 32 -> Z.land x (u32 (Z.lnot 7)) = 8 * (x / 8).
Proof.
  intros Hx.
  change (u32 (Z.lnot 7)) with (Z.shiftl (Z.ones 29) 3).
  replace (8 * (x / 8)) with (Z.shiftl (Z.shiftr x 3) 3)
    by (rewrite Z.shiftl_mul_pow2, Z.shiftr_div_pow2 by lia; change (2 ^ 3) with 8; lia).
  apply Z.bits_inj'. intros n Hn.
  rewrite Z.land_spec.
  destruct (Z.ltb_spec n 3) as [H3 | H3].
  - rewrite !Z.shiftl_spec_low by lia. apply andb_false_r.
  - rewrite !Z.shiftl_spec by lia. rewrite Z.shiftr_spec by lia.
    replace (n - 3 + 3) with n by lia.
    rewrite Z.testbit_ones_nonneg by lia.
    destruct (Z.ltb_spec (n - 3) 29) as [H | H].
    + apply andb_true_r.
    + rewrite andb_false_r. symmetry.
      apply Z.bits_above_log2; [lia |].
      destruct (Z.eq_dec x 0) as [-> | Hnz]; [cbn; lia |].
      apply Z.log2_lt_pow2; [lia |].
      apply Z.lt_le_trans with (2 ^ 32); [lia |].
      apply Z.pow_le_mono_r; lia.
Qed.

Lemma init_fields (bs : orc_bytestream_s) (base_addr length : Z) :
  0 <= base_addr -> 0 <= length -> length + 14 < 2 ^ 32 ->
  base (bytestream_init bs base_addr length) = 8 * (base_addr / 8) /\
  pos (bytestream_init bs base_addr length) = (if 0 <? length then base_addr mod 8 else 0) /\
  len (bytestream_init bs base_addr length) = 8 * ((length + base_addr mod 8 + 7) / 8).
Proof.
  intros Hb Hl Hlen. unfold bytestream_init. cbn [base pos len].
  rewrite Z.land_comm. change 7 with (Z.ones 3) at 1 2 3.
  rewrite Z.land_ones by lia. change (2 ^ 3) with 8.
  pose proof (Z.mod_pos_bound base_addr 8 ltac:(lia)) as Hm.
  pose proof (Z.div_mod base_addr 8 ltac:(lia)) as Hd.
  split; [lia |]. split; [reflexivity |].
  change (Z.ones 3) with 7.
  rewrite (u32_small (length + base_addr mod 8 + 7)) by lia.
  apply land_align8. lia.
Qed.

Lemma mod_buf_add (p k : Z) :
  0 <= p mod 8192 + k < 8192 -> (p + k) mod 8192 = p mod 8192 + k.
Proof.
  intros H. rewrite <- Zplus_mod_idemp_l. apply Z.mod_small. exact H.
Qed.

Lemma mod_buf_4 (p : Z) : (p mod 8192) mod 4 = p mod 4.
Proof. apply Z.mod_mod_divide. exists 2048. reflexivity. Qed.

Lemma buf_u32_value (bs : orc_bytestream_s) (w : Z) :
  buf_u32 bs w
  = buf_u8 bs (4 * w) + buf_u8 bs (4 * w + 1) * 2 ^ 8 + buf_u8 bs (4 * w + 2) * 2 ^ 16
    + buf_u8 bs (4 * w + 3) * 2 ^ 24.
Proof. unfold buf_u32. apply le32_value; apply u8_range. Qed.

Lemma funnelshift_r_value (lo hi r : Z) :
  0 <= lo < 2 ^ 32 -> 0 <= hi -> 0 <= r < 4 ->
  funnelshift_r lo hi (r * 8) = ((hi * 2 ^ 32 + lo) / 2 ^ (8 * r)) mod 2 ^ 32.
Proof.
  intros Hlo Hhi Hr. unfold funnelshift_r, u32.
  rewrite lor_shiftl_add by lia.
  replace (Z.land (r * 8) 31) with (8 * r).
  2:{ assert (r = 0 \/ r = 1 \/ r = 2 \/ r = 3) as [-> | [-> | [-> | ->]]] by lia; reflexivity. }
  rewrite Z.shiftr_div_pow2 by lia. reflexivity.
Qed.

(** [bytestream_readu32] returns the four bytes at the positions
    [p .. p + 3], the first one lowest. *)
Lemma readu32_bytes (bs : orc_bytestream_s) (p : Z) :
  bytestream_readu32 bs p
  = bytestream_readbyte bs p + bytestream_readbyte bs (p + 1) * 2 ^ 8
    + bytestream_readbyte bs (p + 2) * 2 ^ 16 + bytestream_readbyte bs (p + 3) * 2 ^ 24.
Proof.
  unfold bytestream_readu32, bytestream_readbyte. cbv zeta.
  rewrite !land_mask.
  change 3 with (Z.ones 2) at 1. rewrite Z.land_ones by lia. change (2 ^ 2) with 4.
  rewrite !Z.shiftr_div_pow2 by lia. change (2 ^ 2) with 4.
  pose proof (Z.mod_pos_bound p 8192 ltac:(lia)) as Hm.
  pose proof (Z.mod_pos_bound (p + 4) 8192 ltac:(lia)) as Hm'.
  pose proof (mod_buf_4 p) as Hr.
  pose proof (mod_buf_4 (p + 4)) as Hr'.
  replace ((p + 4) mod 4) with (p mod 4) in Hr'
    by (replace (p + 4) with (p + 1 * 4) by lia; rewrite Z.mod_add by lia; reflexivity).
  pose proof (Z.mod_pos_bound p 4 ltac:(lia)) as Hr4.
  pose proof (Z.div_mod (p mod 8192) 4 ltac:(lia)) as Hd.
  pose proof (Z.div_mod ((p + 4) mod 8192) 4 ltac:(lia)) as Hd'.
  rewrite Hr in Hd. rewrite Hr' in Hd'.
  set (w := p mod 8192 / 4) in *. set (w' := (p + 4) mod 8192 / 4) in *.
  set (r := p mod 4) in *.
  rewrite !buf_u32_value.
  pose proof (u8_range (buf bs (4 * w))) as A0. pose proof (u8_range (buf bs (4 * w + 1))) as A1.
  pose proof (u8_range (buf bs (4 * w + 2))) as A2. pose proof (u8_range (buf bs (4 * w + 3))) as A3.
  pose proof (u8_range (buf bs (4 * w'))) as B0. pose proof (u8_range (buf bs (4 * w' + 1))) as B1.
  pose proof (u8_range (buf bs (4 * w' + 2))) as B2. pose proof (u8_range (buf bs (4 * w' + 3))) as B3.
  fold (buf_u8 bs (4 * w)) in A0. fold (buf_u8 bs (4 * w + 1)) in A1.
  fold (buf_u8 bs (4 * w + 2)) in A2. fold (buf_u8 bs (4 * w + 3)) in A3.
  fold (buf_u8 bs (4 * w')) in B0. fold (buf_u8 bs (4 * w' + 1)) in B1.
  fold (buf_u8 bs (4 * w' + 2)) in B2. fold (buf_u8 bs (4 * w' + 3)) in B3.
  rewrite funnelshift_r_value by lia.
  assert (Hk : forall k, 0 <= k < 4 -> r + k < 4 -> (p + k) mod 8192 = 4 * w + (r + k)).
  { intros k Hkr H. rewrite mod_buf_add; lia. }
  assert (Hk' : forall k, 0 <= k < 4 -> 4 <= r + k -> (p + k) mod 8192 = 4 * w' + (r + k - 4)).
  { intros k Hkr H. replace (p + k) with (p + 4 + (k - 4)) by lia. rewrite mod_buf_add; lia. }
  assert (H0 : p mod 8192 = 4 * w + r) by lia.
  assert (r = 0 \/ r = 1 \/ r = 2 \/ r = 3) as [E | [E | [E | E]]] by lia; rewrite E in *.
  - rewrite H0, (Hk 1), (Hk 2), (Hk 3) by lia.
    replace (4 * w + 0) with (4 * w) by lia.
    replace (4 * w + (0 + 1)) with (4 * w + 1) by lia.
    replace (4 * w + (0 + 2)) with (4 * w + 2) by lia.
    replace (4 * w + (0 + 3)) with (4 * w + 3) by lia.
    change (2 ^ (8 * 0)) with 1. rewrite Z.div_1_r.
    symmetry.
    apply (Z.mod_unique _ _ (buf_u8 bs (4 * w') + buf_u8 bs (4 * w' + 1) * 2 ^ 8
                             + buf_u8 bs (4 * w' + 2) * 2 ^ 16
                             + buf_u8 bs (4 * w' + 3) * 2 ^ 24)); lia.
  - rewrite H0, (Hk 1), (Hk 2), (Hk' 3) by lia.
    replace (4 * w + (1 + 1)) with (4 * w + 2) by lia.
    replace (4 * w + (1 + 2)) with (4 * w + 3) by lia.
    replace (4 * w' + (1 + 3 - 4)) with (4 * w') by lia.
    symmetry.
    apply (Z.mod_unique _ _ (buf_u8 bs (4 * w' + 1) + buf_u8 bs (4 * w' + 2) * 2 ^ 8
                             + buf_u8 bs (4 * w' + 3) * 2 ^ 16)); [lia |].
    symmetry.
    apply (Z.div_unique _ _ _ (buf_u8 bs (4 * w))); lia.
  - rewrite H0, (Hk 1), (Hk' 2), (Hk' 3) by lia.
    replace (4 * w + (2 + 1)) with (4 * w + 3) by lia.
    replace (4 * w' + (2 + 2 - 4)) with (4 * w') by lia.
    replace (4 * w' + (2 + 3 - 4)) with (4 * w' + 1) by lia.
    symmetry.
    apply (Z.mod_unique _ _ (buf_u8 bs (4 * w' + 2) + buf_u8 bs (4 * w' + 3) * 2 ^ 8)); [lia |].
    symmetry.
    apply (Z.div_unique _ _ _ (buf_u8 bs (4 * w) + buf_u8 bs (4 * w + 1) * 2 ^ 8)); lia.
  - rewrite H0, (Hk' 1), (Hk' 2), (Hk' 3) by lia.
    replace (4 * w' + (3 + 1 - 4)) with (4 * w') by lia.
    replace (4 * w' + (3 + 2 - 4)) with (4 * w' + 1) by lia.
    replace (4 * w' + (3 + 3 - 4)) with (4 * w' + 2) by lia.
    symmetry.
    apply (Z.mod_unique _ _ (buf_u8 bs (4 * w' + 3))); [lia |].
    symmetry.
    apply (Z.div_unique _ _ _ (buf_u8 bs (4 * w) + buf_u8 bs (4 * w + 1) * 2 ^ 8
                               + buf_u8 bs (4 * w + 2) * 2 ^ 16)); lia.
Qed.

Lemma readbyte_fill (mem : arr) (bs : orc_bytestream_s) (p count q : Z) :
  0 <= q < 8192 -> 0 <= p ->
  p / 8 <= q / 8 < p / 8 + Z.min count 1024 ->
  bytestream_readbyte (bytestream_fill mem bs p count) q = u8 (mem (base bs + q)).
Proof.
  intros Hq Hp Hs. unfold bytestream_readbyte, buf_u8.
  rewrite land_mask, Z.mod_small by lia.
  rewrite fill_buf.
  replace (0 <=? q) with true by (symmetry; apply Z.leb_le; lia).
  replace (q <? 8192) with true by (symmetry; apply Z.ltb_lt; lia).
  rewrite (Z.mod_small (q / 8 - p / 8)) by lia.
  replace (q / 8 - p / 8 <? Z.min count 1024) with true by (symmetry; apply Z.ltb_lt; lia).
  cbn [andb]. f_equal. f_equal.
  pose proof (Z.div_mod q 8 ltac:(lia)). lia.
Qed.

Lemma readbyte_fill_other (mem : arr) (bs : orc_bytestream_s) (p count q : Z) :
  0 <= q < 8192 -> 0 <= p ->
  ~ p / 8 <= q / 8 < p / 8 + Z.min count 1024 ->
  p / 8 + Z.min count 1024 <= 1024 ->
  bytestream_readbyte (bytestream_fill mem bs p count) q = bytestream_readbyte bs q.
Proof.
  intros Hq Hp Hs Hc. unfold bytestream_readbyte, buf_u8.
  rewrite land_mask, Z.mod_small by lia.
  rewrite fill_buf.
  replace (0 <=? q) with true by (symmetry; apply Z.leb_le; lia).
  replace (q <? 8192) with true by (symmetry; apply Z.ltb_lt; lia).
  cbn [andb].
  assert (H8 : 0 <= q / 8 < 1024).
  { split; [apply Z.div_pos; lia | apply Z.div_lt_upper_bound; lia]. }
  assert (Hp8 : 0 <= p / 8) by (apply Z.div_pos; lia).
  set (q8 := q / 8) in *. set (p8 := p / 8) in *. clearbody q8 p8.
  destruct (Z.ltb_spec ((q8 - p8) mod 1024) (Z.min count 1024)) as [H | H];
    [| reflexivity].
  exfalso. apply Hs.
  destruct (Z.le_gt_cases p8 q8) as [Hle | Hgt].
  - rewrite Z.mod_small in H by lia. lia.
  - pose proof (Z.mod_pos_bound (q8 - p8) 1024 ltac:(lia)) as Hmb.
    assert (Hmin : 0 < Z.min count 1024) by lia.
    replace (q8 - p8) with (q8 - p8 + 1024 + (-1) * 1024) in H by lia.
    rewrite Z.mod_add in H by lia.
    rewrite Z.mod_small in H by lia. lia.
Qed.

Lemma initbuf_bytes (mem : arr) (bs : orc_bytestream_s) (q : Z) :
  0 <= q < 8 * (Z.min (len bs) BYTESTREAM_BFRSZ / 8) ->
  bytestream_readbyte (bytestream_initbuf mem bs) q = u8 (mem (base bs + q)).
Proof.
  intros Hq. unfold bytestream_initbuf. rewrite shiftr3.
  change BYTESTREAM_BFRSZ with 8192 in *.
  assert (Hc : Z.min (len bs) 8192 / 8 <= 1024)
    by (apply Z.div_le_upper_bound; lia).
  apply readbyte_fill; try lia.
  change (0 / 8) with 0.
  split; [apply Z.div_pos; lia |].
  rewrite Z.min_l by lia.
  apply Z.div_lt_upper_bound; lia.
Qed.


(** ** Varints *)

Lemma varint_step (v b s : Z) :
  0 <= s <= 28 -> 0 <= b ->
  Z.lor (Z.land v (Z.ones s)) (u32 (Z.shiftl b s)) = v mod 2 ^ s + (b mod 2 ^ (32 - s)) * 2 ^ s.
Proof.
  intros Hs Hb. rewrite Z.land_ones by lia.
  assert (E : u32 (Z.shiftl b s) = Z.shiftl (b mod 2 ^ (32 - s)) s).
  { unfold u32. rewrite !Z.shiftl_mul_pow2 by lia.
    replace (2 ^ 32) with (2 ^ (32 - s) * 2 ^ s)
      by (rewrite <- Z.pow_add_r by lia; f_equal; lia).
    rewrite Z.mul_mod_distr_r; [reflexivity | | ]; apply Z.pow_nonzero; lia. }
  rewrite E, Z.lor_comm. rewrite lor_shiftl_add; [lia | lia |].
  apply Z.mod_pos_bound. apply Z.pow_pos_nonneg; lia.
Qed.

Lemma land_7f (b : Z) : Z.land b 0x7f = b mod 128.
Proof. change 0x7f with (Z.ones 7). rewrite Z.land_ones by lia. reflexivity. Qed.

Lemma decode_varint_narrow (bs : orc_bytestream_s) (p k : Z) :
  1 <= k <= 5 ->
  (forall i, 0 <= i < k - 1 -> 0x7f < bytestream_readbyte bs (p + i)) ->
  (k < 5 -> bytestream_readbyte bs (p + (k - 1)) <= 0x7f) ->
  decode_varint_u false bs p = (p + k, u32 (varint_sum bs p (Z.to_nat k))).
Proof.
  intros Hk Hc Hl. unfold decode_varint_u. cbv zeta.
  replace (p + 1 + 1) with (p + 2) by lia.
  replace (p + 2 + 1) with (p + 3) by lia.
  replace (p + 3 + 1) with (p + 4) by lia.
  replace (p + 4 + 1) with (p + 5) by lia.
  change 0x7f with (Z.ones 7). change 0x3fff with (Z.ones 14).
  change 0x1fffff with (Z.ones 21). change 0x0fffffff with (Z.ones 28).
  cbn [andb].
  pose proof (readbyte_range bs p) as R0. pose proof (readbyte_range bs (p + 1)) as R1.
  pose proof (readbyte_range bs (p + 2)) as R2. pose proof (readbyte_range bs (p + 3)) as R3.
  pose proof (readbyte_range bs (p + 4)) as R4.
  rewrite !varint_step by lia.
  assert (k = 1 \/ k = 2 \/ k = 3 \/ k = 4 \/ k = 5) as [E | [E | [E | [E | E]]]] by lia;
    subst k.
  - specialize (Hl ltac:(lia)). replace (p + (1 - 1)) with p in Hl by lia.
    change (Z.ones 7) with 0x7f in *.
    replace (127 <? bytestream_readbyte bs p) with false by (symmetry; apply Z.ltb_ge; lia).
    f_equal. change (Z.to_nat 1) with 1%nat. cbn [varint_sum].
    rewrite land_7f. rewrite Z.mod_small by lia. rewrite u32_small; lia.
  - specialize (Hl ltac:(lia)). replace (p + (2 - 1)) with (p + 1) in Hl by lia.
    pose proof (Hc 0 ltac:(lia)) as C0. replace (p + 0) with p in C0 by lia.
    change (Z.ones 7) with 0x7f in *.
    replace (127 <? bytestream_readbyte bs p) with true by (symmetry; apply Z.ltb_lt; lia).
    replace (127 <? bytestream_readbyte bs (p + 1)) with false
      by (symmetry; apply Z.ltb_ge; lia).
    f_equal. change (Z.to_nat 2) with 2%nat. cbn [varint_sum].
    rewrite !land_7f. unfold u32. cbn [Z.sub Z.add Z.opp Z.pos_sub Pos.pred_double].
    Z.div_mod_to_equations. lia.
  - specialize (Hl ltac:(lia)). replace (p + (3 - 1)) with (p + 2) in Hl by lia.
    pose proof (Hc 0 ltac:(lia)) as C0. replace (p + 0) with p in C0 by lia.
    pose proof (Hc 1 ltac:(lia)) as C1.
    change (Z.ones 7) with 0x7f in *.
    replace (127 <? bytestream_readbyte bs p) with true by (symmetry; apply Z.ltb_lt; lia).
    replace (127 <? bytestream_readbyte bs (p + 1)) with true
      by (symmetry; apply Z.ltb_lt; lia).
    replace (127 <? bytestream_readbyte bs (p + 2)) with false
      by (symmetry; apply Z.ltb_ge; lia).
    f_equal. change (Z.to_nat 3) with 3%nat. cbn [varint_sum].
    replace (p + 1 + 1) with (p + 2) by lia.
    rewrite !land_7f. unfold u32.
    Z.div_mod_to_equations. lia.
  - specialize (Hl ltac:(lia)). replace (p + (4 - 1)) with (p + 3) in Hl by lia.
    pose proof (Hc 0 ltac:(lia)) as C0. replace (p + 0) with p in C0 by lia.
    pose proof (Hc 1 ltac:(lia)) as C1. pose proof (Hc 2 ltac:(lia)) as C2.
    change (Z.ones 7) with 0x7f in *.
    replace (127 <? bytestream_readbyte bs p) with true by (symmetry; apply Z.ltb_lt; lia).
    replace (127 <? bytestream_readbyte bs (p + 1)) with true
      by (symmetry; apply Z.ltb_lt; lia).
    replace (127 <? bytestream_readbyte bs (p + 2)) with true
      by (symmetry; apply Z.ltb_lt; lia).
    replace (127 <? bytestream_readbyte bs (p + 3)) with false
      by (symmetry; apply Z.ltb_ge; lia).
    f_equal. change (Z.to_nat 4) with 4%nat. cbn [varint_sum].
    replace (p + 1 + 1) with (p + 2) by lia. replace (p + 2 + 1) with (p + 3) by lia.
    rewrite !land_7f. unfold u32.
    Z.div_mod_to_equations. lia.
  - pose proof (Hc 0 ltac:(lia)) as C0. replace (p + 0) with p in C0 by lia.
    pose proof (Hc 1 ltac:(lia)) as C1. pose proof (Hc 2 ltac:(lia)) as C2.
    pose proof (Hc 3 ltac:(lia)) as C3.
    change (Z.ones 7) with 0x7f in *.
    replace (127 <? bytestream_readbyte bs p) with true by (symmetry; apply Z.ltb_lt; lia).
    replace (127 <? bytestream_readbyte bs (p + 1)) with true
      by (symmetry; apply Z.ltb_lt; lia).
    replace (127 <? bytestream_readbyte bs (p + 2)) with true
      by (symmetry; apply Z.ltb_lt; lia).
    replace (127 <? bytestream_readbyte bs (p + 3)) with true
      by (symmetry; apply Z.ltb_lt; lia).
    f_equal. change (Z.to_nat 5) with 5%nat. cbn [varint_sum].
    replace (p + 1 + 1) with (p + 2) by lia. replace (p + 2 + 1) with (p + 3) by lia.
    replace (p + 3 + 1) with (p + 4) by lia.
    rewrite !land_7f. unfold u32.
    Z.div_mod_to_equations. lia.
Qed.

Lemma lor_low (v b s : Z) :
  0 <= s <= 28 -> 0 <= b -> 0 <= v < 2 ^ s ->
  Z.lor v (u32 (Z.shiftl b s)) = v + (b mod 2 ^ (32 - s)) * 2 ^ s.
Proof.
  intros Hs Hb Hv.
  rewrite <- (Z.mod_small v (2 ^ s)) at 1 by lia.
  rewrite <- Z.land_ones by lia. rewrite varint_step by lia.
  rewrite Z.mod_small by lia. reflexivity.
Qed.

Lemma land_7 (x : Z) : Z.land x 7 = x mod 8.
Proof. change 7 with (Z.ones 3). rewrite Z.land_ones by lia. reflexivity. Qed.

Ltac cont_true H :=
  match type of H with
  | 127 < ?x => replace (127 <? x) with true by (symmetry; apply Z.ltb_lt; exact H)
  end.
Ltac cont_false H :=
  match type of H with
  | ?x <= 127 => replace (127 <? x) with false by (symmetry; apply Z.ltb_ge; exact H)
  end.

Lemma decode_varint_wide (bs : orc_bytestream_s) (p k : Z) :
  1 <= k <= 10 ->
  (forall i, 0 <= i < k - 1 -> 0x7f < bytestream_readbyte bs (p + i)) ->
  (k < 10 -> bytestream_readbyte bs (p + (k - 1)) <= 0x7f) ->
  decode_varint_u true bs p
  = (p + k,
     if k =? 5 then u32 (varint_sum bs p 5)
     else if k =? 10 then varint_sum bs p 9 + 2 ^ 63
     else varint_sum bs p (Z.to_nat k)).
Proof.
  intros Hk Hc Hl. unfold decode_varint_u. cbv zeta.
  replace (p + 1 + 1) with (p + 2) by lia.
  replace (p + 2 + 1) with (p + 3) by lia.
  replace (p + 3 + 1) with (p + 4) by lia.
  replace (p + 4 + 1) with (p + 5) by lia.
  replace (p + 5 + 1) with (p + 6) by lia.
  replace (p + 6 + 1) with (p + 7) by lia.
  replace (p + 7 + 1) with (p + 8) by lia.
  replace (p + 8 + 1) with (p + 9) by lia.
  replace (p + 9 + 1) with (p + 10) by lia.
  change 0x7f with (Z.ones 7).
  change 0x3fff with (Z.ones 14).
  change 0x1fffff with (Z.ones 21). change 0x0fffffff with (Z.ones 28).
  change 0x3ff with (Z.ones 10). change 0x1ffff with (Z.ones 17).
  change 0xffffff with (Z.ones 24).
  cbn [andb].
  pose proof (readbyte_range bs p) as R0. pose proof (readbyte_range bs (p + 1)) as R1.
  pose proof (readbyte_range bs (p + 2)) as R2. pose proof (readbyte_range bs (p + 3)) as R3.
  pose proof (readbyte_range bs (p + 4)) as R4. pose proof (readbyte_range bs (p + 5)) as R5.
  pose proof (readbyte_range bs (p + 6)) as R6. pose proof (readbyte_range bs (p + 7)) as R7.
  pose proof (readbyte_range bs (p + 8)) as R8.
  rewrite !varint_step by lia.
  assert (Hhi : 0 <= Z.land (Z.shiftr (bytestream_readbyte bs (p + 4)) 4) 7 < 2 ^ 3).
  { rewrite land_7. apply Z.mod_pos_bound. lia. }
  rewrite (lor_low _ _ 3) by lia.
  change (Z.ones 7) with 127 in *.
  rewrite land_7. clear Hhi.
  rewrite Z.shiftr_div_pow2 by lia.
  change (32 - 7) with 25. change (32 - 14) with 18. change (32 - 21) with 11.
  change (32 - 28) with 4. change (32 - 3) with 29. change (32 - 10) with 22.
  change (32 - 17) with 15. change (32 - 24) with 8.
  set (b0 := bytestream_readbyte bs p) in *.
  set (b1 := bytestream_readbyte bs (p + 1)) in *.
  set (b2 := bytestream_readbyte bs (p + 2)) in *.
  set (b3 := bytestream_readbyte bs (p + 3)) in *.
  set (b4 := bytestream_readbyte bs (p + 4)) in *.
  set (b5 := bytestream_readbyte bs (p + 5)) in *.
  set (b6 := bytestream_readbyte bs (p + 6)) in *.
  set (b7 := bytestream_readbyte bs (p + 7)) in *.
  set (b8 := bytestream_readbyte bs (p + 8)) in *.
  assert (S10 : varint_sum bs p 10
                = b0 mod 128 + 128 * (b1 mod 128 + 128 * (b2 mod 128 + 128 * (b3 mod 128
                  + 128 * (b4 mod 128 + 128 * (b5 mod 128 + 128 * (b6 mod 128
                  + 128 * (b7 mod 128 + 128 * (b8 mod 128
                  + 128 * (bytestream_readbyte bs (p + 9) mod 128 + 128 * 0)))))))))).
  { cbn [varint_sum]. rewrite !land_7f.
    replace (p + 1 + 1) with (p + 2) by lia.
    replace (p + 2 + 1) with (p + 3) by lia.
    replace (p + 3 + 1) with (p + 4) by lia.
    replace (p + 4 + 1) with (p + 5) by lia.
    replace (p + 5 + 1) with (p + 6) by lia.
    replace (p + 6 + 1) with (p + 7) by lia.
    replace (p + 7 + 1) with (p + 8) by lia.
    replace (p + 8 + 1) with (p + 9) by lia.
    reflexivity. }
  assert (C : forall i, 0 <= i < k - 1 -> 127 < bytestream_readbyte bs (p + i)) by exact Hc.
  assert (k = 1 \/ k = 2 \/ k = 3 \/ k = 4 \/ k = 5 \/ k = 6 \/ k = 7 \/ k = 8 \/ k = 9 \/ k = 10)
    as Ek by lia.
  cbn [varint_sum] in S10 |- *.
  rewrite !land_7f.
  replace (p + 1 + 1) with (p + 2) by lia.
  replace (p + 2 + 1) with (p + 3) by lia.
  replace (p + 3 + 1) with (p + 4) by lia.
  replace (p + 4 + 1) with (p + 5) by lia.
  replace (p + 5 + 1) with (p + 6) by lia.
  replace (p + 6 + 1) with (p + 7) by lia.
  replace (p + 7 + 1) with (p + 8) by lia.
  fold b1 b2 b3 b4 b5 b6 b7 b8.
  clear S10.
  destruct Ek as [E | [E | [E | [E | [E | [E | [E | [E | [E | E]]]]]]]]]; subst k;
    cbn [Z.eqb Pos.eqb];
    match goal with |- context [Z.to_nat ?n] =>
      let m := eval cbv in (Z.to_nat n) in change (Z.to_nat n) with m | _ => idtac end;
    cbn [varint_sum]; rewrite ?land_7f;
    repeat match goal with
    | |- context [p + 1 + 1] => replace (p + 1 + 1) with (p + 2) by lia
    | |- context [p + 2 + 1] => replace (p + 2 + 1) with (p + 3) by lia
    | |- context [p + 3 + 1] => replace (p + 3 + 1) with (p + 4) by lia
    | |- context [p + 4 + 1] => replace (p + 4 + 1) with (p + 5) by lia
    | |- context [p + 5 + 1] => replace (p + 5 + 1) with (p + 6) by lia
    | |- context [p + 6 + 1] => replace (p + 6 + 1) with (p + 7) by lia
    | |- context [p + 7 + 1] => replace (p + 7 + 1) with (p + 8) by lia
    end;
    fold b0 b1 b2 b3 b4 b5 b6 b7 b8.
  all: try (pose proof (C 0 ltac:(lia)) as C0; replace (p + 0) with p in C0 by lia;
            fold b0 in C0).
  all: try (pose proof (C 1 ltac:(lia)) as C1; fold b1 in C1).
  all: try (pose proof (C 2 ltac:(lia)) as C2; fold b2 in C2).
  all: try (pose proof (C 3 ltac:(lia)) as C3; fold b3 in C3).
  all: try (pose proof (C 4 ltac:(lia)) as C4; fold b4 in C4).
  all: try (pose proof (C 5 ltac:(lia)) as C5; fold b5 in C5).
  all: try (pose proof (C 6 ltac:(lia)) as C6; fold b6 in C6).
  all: try (pose proof (C 7 ltac:(lia)) as C7; fold b7 in C7).
  all: try (pose proof (C 8 ltac:(lia)) as C8; fold b8 in C8).
  all: try (specialize (Hl ltac:(lia));
            match type of Hl with
            | bytestream_readbyte _ (?q + (?a - 1)) <= _ =>
                let m := eval cbv in (a - 1) in
                replace (q + (a - 1)) with (q + m) in Hl by lia
            end;
            rewrite ?Z.add_0_r in Hl;
            fold b0 b1 b2 b3 b4 b5 b6 b7 b8 in Hl).
  all: repeat match goal with
       | H : 127 < ?x |- context [127 <? ?x] => cont_true H
       | H : ?x <= 127 |- context [127 <? ?x] => cont_false H
       end.
  all: cbv beta iota.
  all: f_equal.
  all: try rewrite lor_shiftl_add by
         (try lia; unfold u32; Z.div_mod_to_equations; lia).
  all: unfold u32.
  all: Z.div_mod_to_equations; lia.
Qed.

Lemma zigzag_value (u : Z) :
  zigzag u = if Z.even u then u / 2 else - (u / 2) - 1.
Proof.
  unfold zigzag. rewrite Z.shiftr_div_pow2 by lia. change (2 ^ 1) with 2.
  change 1 with (Z.ones 1) at 1. rewrite Z.land_ones by lia. change (2 ^ 1) with 2.
  rewrite Zmod_even. destruct (Z.even u).
  - change (- 0) with 0. apply Z.lxor_0_r.
  - change (- 1) with (-1). rewrite Z.lxor_m1_r. unfold Z.lnot. lia.
Qed.

Lemma zigzag_s32 (u : Z) :
  0 <= u < 2 ^ 32 -> s32 (zigzag u) = if Z.even u then u / 2 else - (u / 2) - 1.
Proof.
  intros Hu. rewrite zigzag_value.
  assert (0 <= u / 2 < 2 ^ 31)
    by (split; [apply Z.div_pos; lia | apply Z.div_lt_upper_bound; lia]).
  destruct (Z.even u); apply s32_small; lia.
Qed.

Lemma s64_small (x : Z) : - 2 ^ 63 <= x < 2 ^ 63 -> s64 x = x.
Proof. intros H. unfold s64. rewrite Z.mod_small; lia. Qed.

Lemma zigzag_s64 (u : Z) :
  0 <= u < 2 ^ 64 -> s64 (zigzag u) = if Z.even u then u / 2 else - (u / 2) - 1.
Proof.
  intros Hu. rewrite zigzag_value.
  assert (0 <= u / 2 < 2 ^ 63)
    by (split; [apply Z.div_pos; lia | apply Z.div_lt_upper_bound; lia]).
  destruct (Z.even u); apply s64_small; lia.
Qed.

Lemma zigzag_code_value (x : Z) : zigzag (zigzag_code x) = x.
Proof.
  rewrite zigzag_value. unfold zigzag_code.
  destruct (Z.leb_spec 0 x) as [H | H].
  - rewrite Z.even_mul. cbn [Z.even orb].
    rewrite (Z.mul_comm 2), Z.div_mul by lia. reflexivity.
  - replace (- 2 * x - 1) with (1 + 2 * (- x - 1)) by lia.
    rewrite Z.even_add_mul_2. cbn [Z.even].
    rewrite (Z.mul_comm 2), Z.div_add by lia. change (1 / 2) with 0. lia.
Qed.

Lemma zigzag_code_inv (u : Z) : 0 <= u -> zigzag_code (zigzag u) = u.
Proof.
  intros Hu. rewrite zigzag_value. unfold zigzag_code.
  pose proof (Zmod_even u) as He. pose proof (Z.div_mod u 2 ltac:(lia)) as Hd.
  assert (0 <= u / 2) by (apply Z.div_pos; lia).
  destruct (Z.even u).
  - replace (0 <=? u / 2) with true by (symmetry; apply Z.leb_le; lia). lia.
  - replace (0 <=? - (u / 2) - 1) with false by (symmetry; apply Z.leb_gt; lia). lia.
Qed.

Lemma varint_sum_range (bs : orc_bytestream_s) (k : nat) (p : Z) :
  0 <= varint_sum bs p k < 128 ^ Z.of_nat k.
Proof.
  revert p. induction k as [| k IH]; intros p.
  - cbn. lia.
  - cbn [varint_sum]. rewrite land_7f.
    pose proof (Z.mod_pos_bound (bytestream_readbyte bs p) 128 ltac:(lia)).
    specialize (IH (p + 1)).
    rewrite Nat2Z.inj_succ, Z.pow_succ_r by lia. lia.
Qed.

Lemma stream_holds_tail (bs : orc_bytestream_s) (p b : Z) (l : list Z) :
  stream_holds bs p (b :: l) ->
  bytestream_readbyte bs p = b /\ stream_holds bs (p + 1) l.
Proof.
  intros H. split.
  - specialize (H 0%nat ltac:(cbn; lia)). cbn in H. rewrite Z.add_0_r in H. exact H.
  - intros i Hi. specialize (H (S i) ltac:(cbn; lia)). cbn [nth] in H.
    rewrite <- H. f_equal. lia.
Qed.

Lemma encode_varint_stream (n : nat) :
  forall (v : Z) (bs : orc_bytestream_s) (p : Z),
    (1 <= n)%nat -> 0 <= v < 128 ^ Z.of_nat n ->
    stream_holds bs p (encode_varint_fuel n v) ->
    let k := Z.of_nat (length (encode_varint_fuel n v)) in
    1 <= k <= Z.of_nat n /\
    (forall i, 0 <= i < k - 1 -> 0x7f < bytestream_readbyte bs (p + i)) /\
    bytestream_readbyte bs (p + (k - 1)) <= 0x7f /\
    varint_sum bs p (length (encode_varint_fuel n v)) = v /\
    (k = 1 \/ 128 ^ (k - 1) <= v).
Proof.
  induction n as [| n IH]; intros v bs p Hn Hv Hs; cbv zeta.
  - lia.
  - cbn [encode_varint_fuel] in *.
    destruct (Z.ltb_spec v 128) as [Hlt | Hge].
    + apply stream_holds_tail in Hs. destruct Hs as [Hb _].
      cbn [length]. change (Z.of_nat 1) with 1.
      split; [lia |]. split; [intros i Hi; lia |].
      replace (p + (1 - 1)) with p by lia. rewrite Hb.
      split; [lia |]. split; [| left; reflexivity].
      cbn [varint_sum]. rewrite Hb, land_7f, Z.mod_small by lia. lia.
    + apply stream_holds_tail in Hs. destruct Hs as [Hb Hs].
      assert (Hbv : Z.lor (Z.land v 127) 128 = v mod 128 + 128).
      { rewrite land_7f, Z.lor_comm.
        change 128 with (Z.shiftl 1 7) at 1.
        rewrite lor_shiftl_add; [lia | lia |]. apply Z.mod_pos_bound. lia. }
      rewrite Hbv in Hb.
      pose proof (Z.mod_pos_bound v 128 ltac:(lia)) as Hm.
      pose proof (Z.div_mod v 128 ltac:(lia)) as Hd.
      rewrite Nat2Z.inj_succ, Z.pow_succ_r in Hv by lia.
      assert (Hv' : 0 <= Z.shiftr v 7 < 128 ^ Z.of_nat n).
      { rewrite Z.shiftr_div_pow2 by lia. change (2 ^ 7) with 128.
        split; [apply Z.div_pos; lia | apply Z.div_lt_upper_bound; lia]. }
      assert (Hn' : (1 <= n)%nat).
      { destruct n; [change (128 ^ Z.of_nat 0) with 1 in Hv; lia | lia]. }
      specialize (IH (Z.shiftr v 7) bs (p + 1) Hn' Hv' Hs). cbv zeta in IH.
      destruct IH as (Hk & Hc & Hl & Hsum & Hlow).
      cbn [length]. rewrite Nat2Z.inj_succ.
      set (k := Z.of_nat (length (encode_varint_fuel n (Z.shiftr v 7)))) in *.
      split; [lia |].
      split.
      { intros i Hi. destruct (Z.eq_dec i 0) as [-> | Hne].
        - rewrite Z.add_0_r, Hb. lia.
        - replace (p + i) with (p + 1 + (i - 1)) by lia. apply Hc. lia. }
      split.
      { replace (p + (Z.succ k - 1)) with (p + 1 + (k - 1)) by lia. exact Hl. }
      split.
      { cbn [varint_sum]. rewrite Hsum, Hb, land_7f.
        replace (v mod 128 + 128) with (v mod 128 + 1 * 128) by lia.
        rewrite Z.mod_add, Z.mod_mod by lia.
        rewrite Z.shiftr_div_pow2 by lia. change (2 ^ 7) with 128. lia. }
      right. replace (Z.succ k - 1) with (Z.succ (k - 1)) by lia.
      rewrite Z.pow_succ_r by lia.
      rewrite Z.shiftr_div_pow2 in Hlow by lia. change (2 ^ 7) with 128 in Hlow.
      destruct Hlow as [H1 | Hlow].
      * rewrite H1. change (1 - 1) with 0. change (128 ^ 0) with 1. lia.
      * lia.
Qed.

Lemma encode_varint_length (n : nat) :
  forall (v : Z) (j : nat),
    (1 <= j)%nat -> 0 <= v < 128 ^ Z.of_nat j ->
    (length (encode_varint_fuel n v) <= j)%nat.
Proof.
  induction n as [| n IH]; intros v j Hj Hv.
  - cbn. lia.
  - cbn [encode_varint_fuel].
    destruct (Z.ltb_spec v 128) as [Hlt | Hge]; [cbn; lia |].
    cbn [length].
    destruct j as [| j]; [lia |].
    destruct j as [| j]; [change (128 ^ Z.of_nat 1) with 128 in Hv; lia |].
    apply le_n_S. apply IH; [lia |].
    rewrite Nat2Z.inj_succ, Z.pow_succ_r in Hv by lia.
    rewrite Z.shiftr_div_pow2 by lia. change (2 ^ 7) with 128.
    split; [apply Z.div_pos; lia | apply Z.div_lt_upper_bound; lia].
Qed.

Lemma decode_varint_u_encode (w : bool) (bs : orc_bytestream_s) (p v : Z) :
  0 <= v < (if w then 2 ^ 64 else 2 ^ 32) ->
  (w = true -> ~ 2 ^ 32 <= v < 2 ^ 35) ->
  stream_holds bs p (encode_varint v) ->
  decode_varint_u w bs p = (p + Z.of_nat (length (encode_varint v)), v).
Proof.
  intros Hv Hgap Hs. unfold encode_varint in *.
  destruct (encode_varint_stream 10 v bs p) as (Hk & Hc & Hl & Hsum & Hlow);
    [lia | change (128 ^ Z.of_nat 10) with (2 ^ 70); destruct w; lia | exact Hs |].
  set (l := encode_varint_fuel 10 v) in *.
  set (k := Z.of_nat (length l)) in *.
  destruct w.
  - rewrite (decode_varint_wide bs p k); [| lia | exact Hc | intros _; exact Hl].
    f_equal.
    destruct (Z.eqb_spec k 5) as [E5 | N5]; [| destruct (Z.eqb_spec k 10) as [E10 | N10]].
    + assert (E : length l = 5%nat) by lia. rewrite E in Hsum. rewrite Hsum.
      pose proof (varint_sum_range bs 5 p) as Hr. rewrite Hsum in Hr.
      change (128 ^ Z.of_nat 5) with (2 ^ 35) in Hr.
      apply u32_small. specialize (Hgap eq_refl). lia.
    + assert (E : length l = 10%nat) by lia. rewrite E in Hsum.
      destruct Hlow as [H1 | Hlow]; [lia |].
      rewrite E10 in Hlow. change (128 ^ (10 - 1)) with (2 ^ 63) in Hlow.
      pose proof (varint_sum_range bs 9 p) as Hr.
      change (128 ^ Z.of_nat 9) with (2 ^ 63) in Hr.
      assert (Hsplit : forall q, varint_sum bs q 10
                = varint_sum bs q 9 + 2 ^ 63 * Z.land (bytestream_readbyte bs (q + 9)) 127).
      { intros q. cbn [varint_sum].
        replace (q + 1 + 1 + 1 + 1 + 1 + 1 + 1 + 1 + 1) with (q + 9) by lia. lia. }
      rewrite Hsplit in Hsum.
      rewrite land_7f in Hsum.
      pose proof (Z.mod_pos_bound (bytestream_readbyte bs (p + 9)) 128 ltac:(lia)). lia.
    + unfold k. rewrite Nat2Z.id. exact Hsum.
  - assert (Hlen : (length l <= 5)%nat).
    { apply encode_varint_length; [lia |]. change (128 ^ Z.of_nat 5) with (2 ^ 35). lia. }
    rewrite (decode_varint_narrow bs p k); [| lia | exact Hc | intros _; exact Hl].
    unfold k at 2. rewrite Nat2Z.id, Hsum. f_equal. apply u32_small. lia.
Qed.

(** The continuation bits of a little-endian word. *)
Lemma word_bit7 (b0 b1 b2 b3 : Z) :
  0 <= b0 < 256 -> 0 <= b1 < 256 -> 0 <= b2 < 256 -> 0 <= b3 < 256 ->
  let w := b0 + b1 * 2 ^ 8 + b2 * 2 ^ 16 + b3 * 2 ^ 24 in
  Z.testbit w 7 = (127 <? b0) /\ Z.testbit w 15 = (127 <? b1) /\
  Z.testbit w 23 = (127 <? b2) /\ Z.testbit w 31 = (127 <? b3).
Proof.
  intros H0 H1 H2 H3 w.
  assert (Hbit : forall n b, 0 <= n -> (b = true <-> (w / 2 ^ n) mod 2 = 1) ->
                 Z.testbit w n = b).
  { intros n b Hn Hb. rewrite Z.testbit_odd, Z.shiftr_div_pow2 by lia.
    rewrite Zodd_mod.
    pose proof (Z.mod_pos_bound (w / 2 ^ n) 2 ltac:(lia)) as Hm.
    destruct b.
    - apply Z.eqb_eq. apply Hb. reflexivity.
    - apply Z.eqb_neq. intros E. apply Hb in E. discriminate. }
  subst w.
  repeat split; apply Hbit; try lia.
  - destruct (Z.ltb_spec 127 b0); split; try discriminate; try reflexivity; intros E;
      [clear E | exfalso; revert E]; Z.div_mod_to_equations; lia.
  - destruct (Z.ltb_spec 127 b1); split; try discriminate; try reflexivity; intros E;
      [clear E | exfalso; revert E]; Z.div_mod_to_equations; lia.
  - destruct (Z.ltb_spec 127 b2); split; try discriminate; try reflexivity; intros E;
      [clear E | exfalso; revert E]; Z.div_mod_to_equations; lia.
  - destruct (Z.ltb_spec 127 b3); split; try discriminate; try reflexivity; intros E;
      [clear E | exfalso; revert E]; Z.div_mod_to_equations; lia.
Qed.

Lemma ffs_mask (x : Z) :
  ffs (Z.land x 0x80808080)
  = if Z.testbit x 7 then 8 else if Z.testbit x 15 then 16
    else if Z.testbit x 23 then 24 else if Z.testbit x 31 then 32 else 0.
Proof.
  unfold ffs. cbn [ffs_from]. rewrite !Z.land_spec.
  repeat match goal with
  | |- context [Z.testbit 2155905152 ?i] =>
      let b := eval vm_compute in (Z.testbit 2155905152 i) in
      change (Z.testbit 2155905152 i) with b
  end.
  rewrite ?andb_false_r, ?andb_true_r. cbv iota.
  reflexivity.
Qed.

Lemma testbit_not32 (w n : Z) :
  0 <= n < 32 -> Z.testbit (u32 (Z.lnot w)) n = negb (Z.testbit w n).
Proof.
  intros Hn. unfold u32. rewrite Z.mod_pow2_bits_low by lia.
  apply Z.lnot_spec. lia.
Qed.

(** The number of bytes found by the probe of [varint_length]: the index,
    counted from 1, of the first of the four bytes at [p] without
    continuation bit, 0 when all four have it. *)
Lemma varint_probe (bs : orc_bytestream_s) (p : Z) :
  Z.shiftr (ffs (Z.land (u32 (Z.lnot (bytestream_readu32 bs p))) 0x80808080)) 3
  = if 127 <? bytestream_readbyte bs p then
      if 127 <? bytestream_readbyte bs (p + 1) then
        if 127 <? bytestream_readbyte bs (p + 2) then
          if 127 <? bytestream_readbyte bs (p + 3) then 0 else 4
        else 3
      else 2
    else 1.
Proof.
  rewrite ffs_mask, !testbit_not32 by lia.
  rewrite readu32_bytes.
  destruct (word_bit7 _ _ _ _ (readbyte_range bs p) (readbyte_range bs (p + 1))
              (readbyte_range bs (p + 2)) (readbyte_range bs (p + 3)))
    as (E0 & E1 & E2 & E3).
  rewrite E0, E1, E2, E3.
  destruct (127 <? bytestream_readbyte bs p); [| reflexivity].
  destruct (127 <? bytestream_readbyte bs (p + 1)); [| reflexivity].
  destruct (127 <? bytestream_readbyte bs (p + 2)); [| reflexivity].
  destruct (127 <? bytestream_readbyte bs (p + 3)); reflexivity.
Qed.

Lemma varint_length_value (T : elem_type) (bs : orc_bytestream_s) (p k : Z) :
  1 <= k ->
  (forall i, 0 <= i < k - 1 -> 0x7f < bytestream_readbyte bs (p + i)) ->
  bytestream_readbyte bs (p + (k - 1)) <= 0x7f ->
  (k = 1 -> varint_length T bs p = 1) /\
  (2 <= k <= 3 -> varint_length T bs p = k + 1) /\
  (k = 4 -> if wide T then 5 <= varint_length T bs p <= 9 else varint_length T bs p = 5) /\
  (5 <= k -> varint_length T bs p = 1).
Proof.
  intros Hk Hc Hl. unfold varint_length. cbv zeta. rewrite !varint_probe.
  fold (wide T).
  assert (C : forall i, 0 <= i < k - 1 -> 127 < bytestream_readbyte bs (p + i)) by exact Hc.
  change 0x7f with 127 in *.
  assert (L : forall j, k = j + 1 -> bytestream_readbyte bs (p + j) <= 127).
  { intros j ->. replace (p + (j + 1 - 1)) with (p + j) in Hl by lia. exact Hl. }
  split; [| split; [| split]].
  - intros ->. pose proof (L 0 ltac:(lia)) as L0. rewrite Z.add_0_r in L0.
    cont_false L0. reflexivity.
  - intros H. pose proof (C 0 ltac:(lia)) as C0. rewrite Z.add_0_r in C0.
    cont_true C0.
    assert (k = 2 \/ k = 3) as [-> | ->] by lia.
    + pose proof (L 1 ltac:(lia)) as L1. cont_false L1. cbn [Z.add Z.eqb Pos.add Pos.eqb Pos.succ].
      rewrite andb_false_r. reflexivity.
    + pose proof (C 1 ltac:(lia)) as C1. cont_true C1.
      pose proof (L 2 ltac:(lia)) as L2. cont_false L2.
      cbn [Z.add Z.eqb Pos.add Pos.eqb Pos.succ].
      rewrite andb_false_r. reflexivity.
  - intros ->. pose proof (C 0 ltac:(lia)) as C0. rewrite Z.add_0_r in C0.
    pose proof (C 1 ltac:(lia)) as C1. pose proof (C 2 ltac:(lia)) as C2.
    pose proof (L 3 ltac:(lia)) as L3.
    cont_true C0. cont_true C1. cont_true C2. cont_false L3.
    change (1 + 4 =? 5) with true. rewrite andb_true_r.
    destruct (wide T); [| reflexivity].
    destruct (127 <? bytestream_readbyte bs (p + 4)); [| lia].
    destruct (127 <? bytestream_readbyte bs (p + 4 + 1)); [| lia].
    destruct (127 <? bytestream_readbyte bs (p + 4 + 2)); [| lia].
    destruct (127 <? bytestream_readbyte bs (p + 4 + 3)); lia.
  - intros H. pose proof (C 0 ltac:(lia)) as C0. rewrite Z.add_0_r in C0.
    pose proof (C 1 ltac:(lia)) as C1. pose proof (C 2 ltac:(lia)) as C2.
    pose proof (C 3 ltac:(lia)) as C3.
    cont_true C0. cont_true C1. cont_true C2. cont_true C3.
    change (1 + 0 =? 5) with false. rewrite andb_false_r. reflexivity.
Qed.

(** ** What [Byte_RLE] computes *)

Lemma rle8_group_len_range (bs : orc_bytestream_s) (p : Z) :
  1 <= rle8_group_len bs p <= 130.
Proof.
  unfold rle8_group_len. cbv zeta. pose proof (readbyte_range bs p).
  destruct (Z.leb_spec (bytestream_readbyte bs p) 0x7f); lia.
Qed.

Lemma rle8_group_end_range (bs : orc_bytestream_s) (p : Z) :
  p + 2 <= rle8_group_end bs p <= p + 129.
Proof.
  unfold rle8_group_end. cbv zeta. pose proof (readbyte_range bs p).
  destruct (Z.leb_spec (bytestream_readbyte bs p) 0x7f); lia.
Qed.

Lemma rle8_group_loc_mono (bs : orc_bytestream_s) (p0 : Z) (r k : nat) :
  (r <= k)%nat -> rle8_group_loc bs p0 r <= rle8_group_loc bs p0 k.
Proof.
  induction 1 as [| k Hle IH]; [lia |].
  cbn [rle8_group_loc]. pose proof (rle8_group_len_range bs (rle8_group_pos bs p0 k)). lia.
Qed.

Lemma rle8_group_loc_nonneg (bs : orc_bytestream_s) (p0 : Z) (k : nat) :
  0 <= rle8_group_loc bs p0 k.
Proof. apply (rle8_group_loc_mono bs p0 0 k). lia. Qed.

Section Rle8Scan.
Variable bs : orc_bytestream_s.
Variables p0 maxvals maxpos : Z.
Hypothesis Hmaxvals : 0 <= maxvals <= 2 ^ 31.
Hypothesis Hmaxpos : 0 <= p0 /\ maxpos + 256 <= 2 ^ 32.

Lemma rle8_scan_step_inv (k : nat) (s : rle8_scan) :
  rle8_scan_inv bs p0 maxvals maxpos k s -> (k < 32)%nat ->
  (snd (rle8_scan_step bs maxvals maxpos s) = true /\
   rle8_scan_inv bs p0 maxvals maxpos (S k) (fst (rle8_scan_step bs maxvals maxpos s))) \/
  (snd (rle8_scan_step bs maxvals maxpos s) = false /\
   rle8_scan_inv bs p0 maxvals maxpos k (fst (rle8_scan_step bs maxvals maxpos s)) /\
   rle8_scan_end bs p0 maxvals maxpos k).
Proof.
  intros (Hruns & Hk & Hvals & Hpos & Hle & Hrange & Hrec) Hlt.
  unfold rle8_scan_step. cbv zeta.
  pose proof (readbyte_range bs (s8_lastpos s)) as Hb.
  pose proof (rle8_group_loc_nonneg bs p0 k) as Hnn.
  assert (Hlen : rle8_group_len bs (rle8_group_pos bs p0 k)
                 = if bytestream_readbyte bs (s8_lastpos s) <=? 0x7f
                   then bytestream_readbyte bs (s8_lastpos s) + 3
                   else 0x100 - bytestream_readbyte bs (s8_lastpos s)).
  { unfold rle8_group_len. rewrite <- Hpos. reflexivity. }
  assert (Hend : rle8_group_end bs (rle8_group_pos bs p0 k)
                 = if bytestream_readbyte bs (s8_lastpos s) <=? 0x7f
                   then s8_lastpos s + 2
                   else s8_lastpos s + 1 + (0x100 - bytestream_readbyte bs (s8_lastpos s))).
  { unfold rle8_group_end. rewrite <- Hpos. reflexivity. }
  rewrite (u32_small (s8_lastpos s + 1)) by lia.
  set (n := if bytestream_readbyte bs (s8_lastpos s) <=? 0x7f
            then bytestream_readbyte bs (s8_lastpos s) + 3
            else 0x100 - bytestream_readbyte bs (s8_lastpos s)) in *.
  set (e := if bytestream_readbyte bs (s8_lastpos s) <=? 0x7f
            then s8_lastpos s + 2
            else s8_lastpos s + 1 + (0x100 - bytestream_readbyte bs (s8_lastpos s))) in *.
  assert (Hpair : (if bytestream_readbyte bs (s8_lastpos s) <=? 0x7f
                   then (bytestream_readbyte bs (s8_lastpos s) + 3, u32 (s8_lastpos s + 1 + 1))
                   else (0x100 - bytestream_readbyte bs (s8_lastpos s),
                         u32 (s8_lastpos s + 1
                              + (0x100 - bytestream_readbyte bs (s8_lastpos s)))))
                  = (n, e)).
  { subst n e. destruct (Z.leb_spec (bytestream_readbyte bs (s8_lastpos s)) 0x7f).
    - rewrite u32_small by lia. f_equal. lia.
    - rewrite u32_small by lia. reflexivity. }
  rewrite Hpair.
  assert (Hn : 1 <= n <= 130)
    by (subst n; destruct (Z.leb_spec (bytestream_readbyte bs (s8_lastpos s)) 0x7f); lia).
  assert (He : s8_lastpos s + 2 <= e <= s8_lastpos s + 129)
    by (subst e; destruct (Z.leb_spec (bytestream_readbyte bs (s8_lastpos s)) 0x7f); lia).
  rewrite (u32_small (s8_numvals s + n)) by lia.
  assert (Hupd : forall r, (r < k)%nat ->
            upd (s8_runs_pos s) (s8_numruns s) (s8_lastpos s) (Z.of_nat r)
              = rle8_group_pos bs p0 r /\
            upd (s8_runs_loc s) (s8_numruns s) (s8_numvals s) (Z.of_nat r)
              = rle8_group_loc bs p0 r).
  { intros r Hr. unfold upd.
    replace (Z.of_nat r =? s8_numruns s) with false by (symmetry; apply Z.eqb_neq; lia).
    apply Hrec. exact Hr. }
  destruct ((maxpos <? e) || (maxvals <? s8_numvals s + n)) eqn:Estop.
  - right. cbn [fst snd]. split; [reflexivity |]. split.
    + unfold rle8_scan_inv. cbn [s8_numruns s8_numvals s8_lastpos s8_runs_pos s8_runs_loc].
      repeat (split; [assumption || lia |]). exact Hupd.
    + unfold rle8_scan_end. rewrite Hend, Hlen, <- Hvals.
      apply orb_true_iff in Estop. destruct Estop as [E | E]; apply Z.ltb_lt in E; lia.
  - left. cbn [fst snd]. split; [reflexivity |].
    apply orb_false_iff in Estop. destruct Estop as [E1 E2].
    apply Z.ltb_ge in E1. apply Z.ltb_ge in E2.
    unfold rle8_scan_inv. cbn [s8_numruns s8_numvals s8_lastpos s8_runs_pos s8_runs_loc].
    cbn [rle8_group_loc rle8_group_pos]. rewrite Hend, Hlen, <- Hvals.
    split; [lia |]. split; [lia |]. split; [reflexivity |]. split; [reflexivity |].
    split; [lia |]. split; [lia |].
    intros r Hr. destruct (Nat.eq_dec r k) as [-> | Hne].
    + unfold upd. rewrite Hruns, Z.eqb_refl. split; [exact Hpos | exact Hvals].
    + apply Hupd. lia.
Qed.

Lemma rle8_scan_loop_inv (fuel : nat) :
  forall (k : nat) (s : rle8_scan),
    rle8_scan_inv bs p0 maxvals maxpos k s -> (32 - k < fuel)%nat ->
    exists s' k',
      rle8_scan_loop fuel bs maxvals maxpos s = Some s' /\
      rle8_scan_inv bs p0 maxvals maxpos k' s' /\
      rle8_scan_end bs p0 maxvals maxpos k'.
Proof.
  induction fuel as [| fuel IH]; intros k s Hinv Hfuel; [lia |].
  pose proof Hinv as (Hruns & Hk & Hvals & Hpos & Hle & Hrange & Hrec).
  cbn [rle8_scan_loop].
  destruct ((s8_numvals s <? maxvals) && (s8_numruns s <? NWARPS)) eqn:Econd.
  - apply andb_true_iff in Econd. destruct Econd as [E1 E2].
    apply Z.ltb_lt in E1. apply Z.ltb_lt in E2. change NWARPS with 32 in E2.
    assert (Hlt : (k < 32)%nat) by lia.
    destruct (rle8_scan_step_inv k s Hinv Hlt) as [(Hc & Hinv') | (Hc & Hinv' & Hend)];
      destruct (rle8_scan_step bs maxvals maxpos s) as [s1 c]; cbn [fst snd] in *; subst c.
    + apply (IH (S k) s1 Hinv'). lia.
    + exists s1, k. auto.
  - exists s, k. split; [reflexivity |]. split; [exact Hinv |].
    apply andb_false_iff in Econd. unfold rle8_scan_end.
    destruct Econd as [E | E]; apply Z.ltb_ge in E.
    + left. lia.
    + right. left. change NWARPS with 32 in E. lia.
Qed.

End Rle8Scan.

Lemma rle8_expand_run_spec (bs : orc_bytestream_s) (rle : orc_byterle_state_s)
    (vals : arr) (run : nat) (j : Z) :
  0 <= r8_runs_pos rle (Z.of_nat run) -> r8_runs_pos rle (Z.of_nat run) + 256 <= 2 ^ 32 ->
  rle8_expand_run bs rle vals run j
  = let p := r8_runs_pos rle (Z.of_nat run) in
    let i := j - r8_runs_loc rle (Z.of_nat run) in
    if (0 <=? i) && (i <? rle8_group_len bs p) then rle8_group_byte bs p i else vals j.
Proof.
  intros Hp0 Hp1. unfold rle8_expand_run, rle8_group_len, rle8_group_byte. cbv zeta.
  set (p := r8_runs_pos rle (Z.of_nat run)) in *.
  set (loc := r8_runs_loc rle (Z.of_nat run)).
  pose proof (readbyte_range bs p) as Hb.
  rewrite (u32_small (p + 1)) by lia.
  destruct (Z.leb_spec (bytestream_readbyte bs p) 0x7f) as [Hrun | Hlit].
  - destruct ((0 <=? j - loc) && (j - loc <? bytestream_readbyte bs p + 3)); [| reflexivity].
    rewrite Z.land_0_r, Z.add_0_r, u32_small by lia. reflexivity.
  - destruct ((0 <=? j - loc) && (j - loc <? 256 - bytestream_readbyte bs p)) eqn:E;
      [| reflexivity].
    apply andb_true_iff in E. destruct E as [E1 E2].
    apply Z.leb_le in E1. apply Z.ltb_lt in E2.
    change (u32 (Z.lnot 0)) with (Z.ones 32).
    rewrite Z.land_ones, Z.mod_small by lia.
    rewrite u32_small by lia. reflexivity.
Qed.

(** The values after the first [k] groups have been expanded. *)
Lemma rle8_expand_groups (bs : orc_bytestream_s) (rle : orc_byterle_state_s) (p0 : Z)
    (vals : arr) (n : nat) :
  forall k, (k <= n)%nat ->
  (forall r, (r < n)%nat ->
     r8_runs_pos rle (Z.of_nat r) = rle8_group_pos bs p0 r /\
     r8_runs_loc rle (Z.of_nat r) = rle8_group_loc bs p0 r /\
     0 <= rle8_group_pos bs p0 r /\ rle8_group_pos bs p0 r + 256 <= 2 ^ 32) ->
  let v := fold_left (rle8_expand_run bs rle) (seq 0 k) vals in
  (forall r i, (r < k)%nat -> 0 <= i < rle8_group_len bs (rle8_group_pos bs p0 r) ->
     v (rle8_group_loc bs p0 r + i) = rle8_group_byte bs (rle8_group_pos bs p0 r) i) /\
  (forall j, ~ 0 <= j < rle8_group_loc bs p0 k -> v j = vals j).
Proof.
  induction k as [| k IH]; intros Hk Hrec; cbv zeta.
  - cbn [seq fold_left]. split; [intros r i Hr; lia | reflexivity].
  - rewrite seq_S, fold_left_app. cbn [plus fold_left].
    destruct (IH ltac:(lia) Hrec) as (Hin & Hout). clear IH.
    set (v := fold_left (rle8_expand_run bs rle) (seq 0 k) vals) in *.
    destruct (Hrec k ltac:(lia)) as (Ep & El & Hp0 & Hp1).
    assert (Hspec : forall j, rle8_expand_run bs rle v k j
              = if (0 <=? j - rle8_group_loc bs p0 k)
                   && (j - rle8_group_loc bs p0 k <? rle8_group_len bs (rle8_group_pos bs p0 k))
                then rle8_group_byte bs (rle8_group_pos bs p0 k) (j - rle8_group_loc bs p0 k)
                else v j).
    { intros j. rewrite rle8_expand_run_spec by (rewrite Ep; assumption).
      cbv zeta. rewrite Ep, El. reflexivity. }
    pose proof (rle8_group_len_range bs (rle8_group_pos bs p0 k)) as Hlen.
    split.
    + intros r i Hr Hi. rewrite Hspec.
      destruct (Nat.eq_dec r k) as [-> | Hne].
      * replace (rle8_group_loc bs p0 k + i - rle8_group_loc bs p0 k) with i by lia.
        replace (0 <=? i) with true by (symmetry; apply Z.leb_le; lia).
        replace (i <? rle8_group_len bs (rle8_group_pos bs p0 k)) with true
          by (symmetry; apply Z.ltb_lt; lia).
        reflexivity.
      * assert (Hlt : (r < k)%nat) by lia.
        pose proof (rle8_group_loc_mono bs p0 (S r) k ltac:(lia)) as Hm.
        cbn [rle8_group_loc] in Hm.
        replace (0 <=? rle8_group_loc bs p0 r + i - rle8_group_loc bs p0 k) with false
          by (symmetry; apply Z.leb_gt; lia).
        cbn [andb]. apply Hin; assumption.
    + intros j Hj. cbn [rle8_group_loc] in Hj. rewrite Hspec.
      pose proof (rle8_group_loc_nonneg bs p0 k) as Hnn.
      destruct ((0 <=? j - rle8_group_loc bs p0 k)
                && (j - rle8_group_loc bs p0 k <? rle8_group_len bs (rle8_group_pos bs p0 k)))
        eqn:E.
      * apply andb_true_iff in E. destruct E as [E1 E2].
        apply Z.leb_le in E1. apply Z.ltb_lt in E2. lia.
      * apply Hout. lia.
Qed.

Lemma rle8_group_pos_set_pos (bs : orc_bytestream_s) (q p0 : Z) (r : nat) :
  rle8_group_pos (set_pos bs q) p0 r = rle8_group_pos bs p0 r.
Proof.
  induction r as [| r IH]; [reflexivity |].
  cbn [rle8_group_pos]. rewrite IH. reflexivity.
Qed.

Lemma rle8_group_loc_set_pos (bs : orc_bytestream_s) (q p0 : Z) (r : nat) :
  rle8_group_loc (set_pos bs q) p0 r = rle8_group_loc bs p0 r.
Proof.
  induction r as [| r IH]; [reflexivity |].
  cbn [rle8_group_loc]. rewrite IH, rle8_group_pos_set_pos. reflexivity.
Qed.

Lemma Byte_RLE_spec (mem : arr) (bs : orc_bytestream_s) (rle : orc_byterle_state_s)
    (vals : arr) (maxvals : Z) :
  0 <= maxvals <= 2 ^ 31 ->
  0 <= pos bs <= len bs -> len bs + 8192 <= 2 ^ 32 ->
  let maxpos := Z.min (len bs) (pos bs + (BYTESTREAM_BFRSZ - 8)) in
  exists bs' rle' vals' (k : nat),
    Byte_RLE mem bs rle vals maxvals
      = Some (bs', rle', vals', rle8_group_loc bs (pos bs) k) /\
    (k <= 32)%nat /\
    rle8_group_loc bs (pos bs) k <= maxvals /\
    pos bs' = rle8_group_pos bs (pos bs) k /\ pos bs' <= maxpos /\
    len bs' = len bs /\ base bs' = base bs /\
    (forall r i, (r < k)%nat ->
       0 <= i < rle8_group_len bs (rle8_group_pos bs (pos bs) r) ->
       vals' (rle8_group_loc bs (pos bs) r + i)
       = rle8_group_byte bs (rle8_group_pos bs (pos bs) r) i) /\
    (forall j, ~ 0 <= j < rle8_group_loc bs (pos bs) k -> vals' j = vals j) /\
    rle8_scan_end bs (pos bs) maxvals maxpos k.
Proof.
  intros Hmax Hp Hlen. cbv zeta. unfold Byte_RLE.
  destruct (maxpos_range bs Hp Hlen) as (Hmp1 & Hmp2).
  change (BYTESTREAM_BFRSZ - 8) with 8184 in *.
  rewrite (u32_small (pos bs + 8184)) in * by lia.
  set (maxpos := Z.min (len bs) (pos bs + 8184)) in *.
  set (s0 := mk_scan8 0 0 (pos bs) (r8_runs_loc rle) (r8_runs_pos rle)).
  assert (Hinv0 : rle8_scan_inv bs (pos bs) maxvals maxpos 0 s0).
  { unfold rle8_scan_inv, s0. cbn [s8_numruns s8_numvals s8_lastpos s8_runs_pos s8_runs_loc
      rle8_group_loc rle8_group_pos].
    split; [reflexivity |]. split; [lia |]. split; [reflexivity |]. split; [reflexivity |].
    split; [lia |]. split; [lia |]. intros r Hr. lia. }
  destruct (rle8_scan_loop_inv bs (pos bs) maxvals maxpos Hmax ltac:(lia)
              (S (Z.to_nat NWARPS)) 0%nat s0 Hinv0)
    as (s & k & Hloop & Hinv & Hend).
  { change (Z.to_nat NWARPS) with 32%nat. lia. }
  rewrite Hloop. cbn [obind].
  destruct Hinv as (Hruns & Hk & Hvals & Hpos & Hle & Hrange & Hrec).
  pose proof (flush_to bs (s8_lastpos s) ltac:(lia) ltac:(lia) ltac:(lia)) as Hflush.
  destruct (bytestream_flush_bytes bs (u32 (s8_lastpos s - pos bs))) as [bs1 fc].
  cbn [fst] in Hflush. subst bs1.
  cbn [r8_num_runs r8_num_vals r8_fill_pos r8_fill_count].
  rewrite Hruns, Nat2Z.id.
  set (rle' := mk_rle8 (Z.of_nat k) (s8_numvals s) (pos bs) fc (s8_runs_loc s) (s8_runs_pos s)).
  assert (Hgp : forall r, (r <= k)%nat ->
            pos bs <= rle8_group_pos bs (pos bs) r <= s8_lastpos s).
  { intros r Hr. rewrite Hpos. clear - Hr. induction Hr as [| m Hle IH].
    - split; [| lia]. induction r as [| r IHr]; [cbn; lia |].
      cbn [rle8_group_pos].
      pose proof (rle8_group_end_range bs (rle8_group_pos bs (pos bs) r)). lia.
    - cbn [rle8_group_pos].
      pose proof (rle8_group_end_range bs (rle8_group_pos bs (pos bs) m)). lia. }
  destruct (rle8_expand_groups (set_pos bs (s8_lastpos s)) rle' (pos bs) vals k k
              ltac:(lia)) as (Hin & Hout).
  { intros r Hr. cbn [r8_runs_pos r8_runs_loc rle'].
    destruct (Hrec r Hr) as (E1 & E2).
    pose proof (Hgp r ltac:(lia)) as Hg.
    rewrite rle8_group_pos_set_pos, rle8_group_loc_set_pos.
    split; [exact E1 |]. split; [exact E2 |]. lia. }
  assert (Hin' : forall r i, (r < k)%nat ->
            0 <= i < rle8_group_len bs (rle8_group_pos bs (pos bs) r) ->
            fold_left (rle8_expand_run (set_pos bs (s8_lastpos s)) rle') (seq 0 k) vals
              (rle8_group_loc bs (pos bs) r + i)
            = rle8_group_byte bs (rle8_group_pos bs (pos bs) r) i).
  { intros r i Hr Hi. specialize (Hin r i Hr).
    rewrite rle8_group_pos_set_pos, rle8_group_loc_set_pos in Hin. apply Hin. exact Hi. }
  assert (Hout' : forall j, ~ 0 <= j < rle8_group_loc bs (pos bs) k ->
            fold_left (rle8_expand_run (set_pos bs (s8_lastpos s)) rle') (seq 0 k) vals j
            = vals j).
  { intros j Hj. apply Hout. rewrite rle8_group_loc_set_pos. exact Hj. }
  exists (bytestream_fill mem (set_pos bs (s8_lastpos s)) (pos bs) fc), rle',
         (fold_left (rle8_expand_run (set_pos bs (s8_lastpos s)) rle') (seq 0 k) vals), k.
  destruct (fill_fields mem (set_pos bs (s8_lastpos s)) (pos bs) fc) as (F1 & F2 & F3).
  rewrite F1, F2, F3. cbn [pos len base set_pos].
  split; [rewrite Hvals; reflexivity |].
  split; [exact Hk |]. split; [lia |]. split; [exact Hpos |]. split; [lia |].
  split; [reflexivity |]. split; [reflexivity |].
  split; [exact Hin' |]. split; [exact Hout' | exact Hend].
Qed.

(** ** What [Integer_RLEv1] computes *)

Lemma rlev1_group_len_range (bs : orc_bytestream_s) (p : Z) :
  1 <= rlev1_group_len bs p <= 130.
Proof.
  unfold rlev1_group_len, rlev1_is_run. pose proof (readbyte_range bs p).
  destruct (Z.leb_spec (bytestream_readbyte bs p) 0x7f); lia.
Qed.

Lemma rlev1_lit_pos_range (T : elem_type) (bs : orc_bytestream_s) (i : nat) :
  forall p, p + Z.of_nat i <= rlev1_lit_pos T bs p i <= p + 9 * Z.of_nat i.
Proof.
  induction i as [| i IH]; intros p; cbn [rlev1_lit_pos]; [lia |].
  pose proof (varint_length_range T bs p).
  specialize (IH (p + varint_length T bs p)). lia.
Qed.

Lemma rlev1_lit_pos_succ (T : elem_type) (bs : orc_bytestream_s) (i : nat) :
  forall p, rlev1_lit_pos T bs p (S i)
            = rlev1_lit_pos T bs p i + varint_length T bs (rlev1_lit_pos T bs p i).
Proof.
  induction i as [| i IH]; intros p; [reflexivity |].
  change (rlev1_lit_pos T bs p (S (S i)))
    with (rlev1_lit_pos T bs (p + varint_length T bs p) (S i)).
  rewrite IH. reflexivity.
Qed.

Lemma rlev1_group_end_range (T : elem_type) (bs : orc_bytestream_s) (p : Z) :
  p + 2 <= rlev1_group_end T bs p <= p + 1153.
Proof.
  unfold rlev1_group_end, rlev1_group_len, rlev1_is_run.
  pose proof (readbyte_range bs p) as Hb.
  destruct (Z.leb_spec (bytestream_readbyte bs p) 0x7f).
  - pose proof (varint_length_range T bs (p + 2)). lia.
  - pose proof (rlev1_lit_pos_range T bs (Z.to_nat (0x100 - bytestream_readbyte bs p))
                  (p + 1)). lia.
Qed.

Lemma rlev1_group_loc_mono (T : elem_type) (bs : orc_bytestream_s) (p0 : Z) (r k : nat) :
  (r <= k)%nat -> rlev1_group_loc T bs p0 r <= rlev1_group_loc T bs p0 k.
Proof.
  induction 1 as [| k Hle IH]; [lia |].
  cbn [rlev1_group_loc].
  pose proof (rlev1_group_len_range bs (rlev1_group_pos T bs p0 k)). lia.
Qed.

Lemma rlev1_group_loc_nonneg (T : elem_type) (bs : orc_bytestream_s) (p0 : Z) (k : nat) :
  0 <= rlev1_group_loc T bs p0 k.
Proof. apply (rlev1_group_loc_mono T bs p0 0 k). lia. Qed.

Lemma rlev1_group_runs_mono (T : elem_type) (bs : orc_bytestream_s) (p0 : Z) (r k : nat) :
  (r <= k)%nat -> rlev1_group_runs T bs p0 r <= rlev1_group_runs T bs p0 k.
Proof.
  induction 1 as [| k Hle IH]; [lia |].
  cbn [rlev1_group_runs]. destruct (rlev1_is_run bs (rlev1_group_pos T bs p0 k)); lia.
Qed.

Lemma rlev1_group_pos_mono (T : elem_type) (bs : orc_bytestream_s) (p0 : Z) (r k : nat) :
  (r <= k)%nat -> rlev1_group_pos T bs p0 r <= rlev1_group_pos T bs p0 k.
Proof.
  induction 1 as [| k Hle IH]; [lia |].
  cbn [rlev1_group_pos].
  pose proof (rlev1_group_end_range T bs (rlev1_group_pos T bs p0 k)). lia.
Qed.

(** The literal loop records the positions of [k] varints. *)
Lemma rlev1_literals_spec (T : elem_type) (bs : orc_bytestream_s) (k : nat) :
  forall idx p vals,
    0 <= p -> p + 9 * Z.of_nat k < 2 ^ 32 ->
    fst (rlev1_literals T bs k idx p vals) = rlev1_lit_pos T bs p k /\
    (forall i, (i < k)%nat ->
       snd (rlev1_literals T bs k idx p vals) (idx + Z.of_nat i)
       = wrapT T (Z.land (rlev1_lit_pos T bs p i) 0xffff)) /\
    (forall j, ~ idx <= j < idx + Z.of_nat k ->
       snd (rlev1_literals T bs k idx p vals) j = vals j).
Proof.
  induction k as [| k IH]; intros idx p vals Hp Hk.
  - cbn [rlev1_literals rlev1_lit_pos fst snd].
    split; [reflexivity |]. split; [intros i Hi; lia | reflexivity].
  - cbn [rlev1_literals rlev1_lit_pos].
    pose proof (varint_length_range T bs p) as Hv.
    rewrite (u32_small (p + varint_length T bs p)) by lia.
    destruct (IH (idx + 1) (p + varint_length T bs p)
                (upd vals idx (wrapT T (Z.land p 65535))) ltac:(lia) ltac:(lia))
      as (Hfst & Hin & Hout).
    split; [exact Hfst |]. split.
    + intros i Hi. destruct i as [| i].
      * rewrite Z.add_0_r, Hout by lia. unfold upd. rewrite Z.eqb_refl. reflexivity.
      * replace (idx + Z.of_nat (S i)) with (idx + 1 + Z.of_nat i) by lia.
        rewrite Hin by lia. reflexivity.
    + intros j Hj. rewrite Hout by lia. unfold upd.
      replace (j =? idx) with false by (symmetry; apply Z.eqb_neq; lia). reflexivity.
Qed.

Section Rlev1Groups.
Variable T : elem_type.
Variable bs : orc_bytestream_s.
Variables p0 maxvals maxpos : Z.
Variable vals0 : arr.
Hypothesis Hmax : 0 <= maxvals <= 1024.
Hypothesis Hp0 : 0 <= p0.
Hypothesis Hmaxpos : maxpos + 8192 <= 2 ^ 32.

Lemma rlev1_groups_keep (k : nat) (s : rlev1_scan) (v : arr) :
  rlev1_groups_inv T bs p0 maxvals maxpos vals0 k s ->
  (forall j, ~ sc_numvals s <= j < maxvals -> v j = sc_vals s j) ->
  rlev1_groups_inv T bs p0 maxvals maxpos vals0 k
    (mk_scan1 (sc_numvals s) (sc_numruns s) (sc_lastpos s) v (sc_run_data s)).
Proof.
  intros (Hnv & Hlp & Hnr & Hle & Hrange & Hrec & Hframe) Hv.
  unfold rlev1_groups_inv. cbn [sc_numvals sc_numruns sc_lastpos sc_vals sc_run_data].
  split; [exact Hnv |]. split; [exact Hlp |]. split; [exact Hnr |].
  split; [exact Hle |]. split; [exact Hrange |].
  pose proof (rlev1_group_loc_nonneg T bs p0 k) as Hnn.
  split.
  - intros r Hr. specialize (Hrec r Hr). cbv zeta in Hrec |- *.
    pose proof (rlev1_group_loc_mono T bs p0 (S r) k ltac:(lia)) as Hm.
    cbn [rlev1_group_loc] in Hm.
    pose proof (rlev1_group_len_range bs (rlev1_group_pos T bs p0 r)) as Hl.
    pose proof (rlev1_group_loc_nonneg T bs p0 r) as Hnr0.
    destruct (rlev1_is_run bs (rlev1_group_pos T bs p0 r)).
    + destruct Hrec as (H1 & H2). split; [exact H1 |].
      rewrite Hv by lia. exact H2.
    + intros i Hi. rewrite Hv by lia. apply Hrec. exact Hi.
  - intros j Hj. rewrite Hv by lia. apply Hframe. exact Hj.
Qed.

Lemma rlev1_groups_step (k : nat) (s s' : rlev1_scan) (c : bool) :
  rlev1_groups_inv T bs p0 maxvals maxpos vals0 k s ->
  rlev1_scan_step T bs maxvals maxpos s = (s', c) ->
  (c = true -> rlev1_groups_inv T bs p0 maxvals maxpos vals0 (S k) s') /\
  (c = false -> rlev1_groups_inv T bs p0 maxvals maxpos vals0 k s' /\
                rlev1_groups_end T bs p0 maxvals maxpos k).
Proof.
  intros Hinv Hstep.
  pose proof Hinv as (Hnv & Hlp & Hnr & Hle & Hrange & Hrec & Hframe).
  pose proof (rlev1_group_loc_nonneg T bs p0 k) as Hnn.
  unfold rlev1_scan_step in Hstep.
  pose proof (readbyte_range bs (sc_lastpos s)) as Hb0.
  assert (Hlen : rlev1_group_len bs (rlev1_group_pos T bs p0 k)
                 = if bytestream_readbyte bs (sc_lastpos s) <=? 0x7f
                   then bytestream_readbyte bs (sc_lastpos s) + 3
                   else 0x100 - bytestream_readbyte bs (sc_lastpos s)).
  { unfold rlev1_group_len, rlev1_is_run. rewrite <- Hlp. reflexivity. }
  assert (Hisrun : rlev1_is_run bs (rlev1_group_pos T bs p0 k)
                   = (bytestream_readbyte bs (sc_lastpos s) <=? 0x7f)).
  { unfold rlev1_is_run. rewrite <- Hlp. reflexivity. }
  assert (Hgend : rlev1_group_end T bs (rlev1_group_pos T bs p0 k)
                  = if bytestream_readbyte bs (sc_lastpos s) <=? 0x7f
                    then sc_lastpos s + 2 + varint_length T bs (sc_lastpos s + 2)
                    else rlev1_lit_pos T bs (sc_lastpos s + 1)
                           (Z.to_nat (0x100 - bytestream_readbyte bs (sc_lastpos s)))).
  { unfold rlev1_group_end, rlev1_group_len, rlev1_is_run. rewrite <- Hlp.
    destruct (bytestream_readbyte bs (sc_lastpos s) <=? 0x7f); reflexivity. }
  set (n0 := bytestream_readbyte bs (sc_lastpos s)) in *.
  rewrite (u32_small (sc_lastpos s + 1)) in Hstep by lia.
  destruct (n0 <=? 0x7f) eqn:Hrun.
  - (* a run *)
    apply Z.leb_le in Hrun.
    rewrite (u32_small (sc_numvals s + (n0 + 3))) in Hstep by lia.
    destruct (maxvals <? sc_numvals s + (n0 + 3)) eqn:Efit.
    + apply Z.ltb_lt in Efit.
      apply pair_equal_spec in Hstep. destruct Hstep as [<- <-].
      split; [discriminate |]. intros _. split; [exact Hinv |].
      unfold rlev1_groups_end. rewrite Hlen, <- Hnv. lia.
    + apply Z.ltb_ge in Efit.
      rewrite (u32_small (sc_lastpos s + 1 + 1)) in Hstep by lia.
      pose proof (varint_length_range T bs (sc_lastpos s + 1 + 1)) as Hv.
      rewrite (u32_small (sc_lastpos s + 1 + 1 + _)) in Hstep by lia.
      replace (sc_lastpos s + 1 + 1) with (sc_lastpos s + 2) in * by lia.
      assert (Hkeep : rlev1_groups_inv T bs p0 maxvals maxpos vals0 k
                (mk_scan1 (sc_numvals s) (sc_numruns s) (sc_lastpos s)
                   (upd (sc_vals s) (sc_numvals s) (wrapT T (Z.land (sc_lastpos s + 2) 65535)))
                   (sc_run_data s))).
      { apply rlev1_groups_keep; [exact Hinv |].
        intros j Hj. unfold upd.
        replace (j =? sc_numvals s) with false by (symmetry; apply Z.eqb_neq; lia).
        reflexivity. }
      destruct (maxpos <? sc_lastpos s + 2 + varint_length T bs (sc_lastpos s + 2)) eqn:E;
        apply pair_equal_spec in Hstep; destruct Hstep as [<- <-].
      * apply Z.ltb_lt in E. split; [discriminate |]. intros _.
        split; [exact Hkeep |].
        unfold rlev1_groups_end. rewrite Hgend. lia.
      * apply Z.ltb_ge in E. split; [| discriminate]. intros _.
        destruct Hkeep as (_ & _ & _ & _ & _ & Hrec' & Hframe').
        cbn [sc_numvals sc_numruns sc_lastpos sc_vals sc_run_data] in Hrec', Hframe'.
        unfold rlev1_groups_inv.
        cbn [sc_numvals sc_numruns sc_lastpos sc_vals sc_run_data].
        cbn [rlev1_group_loc rlev1_group_pos rlev1_group_runs].
        rewrite Hgend, Hlen, Hisrun, <- Hnv, <- Hnr.
        split; [reflexivity |]. split; [reflexivity |]. split; [reflexivity |].
        split; [lia |]. split; [lia |].
        split; [| exact Hframe'].
        intros r Hr. cbv zeta.
        destruct (Nat.eq_dec r k) as [-> | Hne].
        -- rewrite Hisrun, Hlen, <- Hnr, <- Hnv, <- Hlp.
           split.
           ++ unfold upd. rewrite Z.eqb_refl.
              replace (sc_lastpos s + 1) with (sc_lastpos s + 1) by lia. reflexivity.
           ++ unfold upd. rewrite Z.eqb_refl. reflexivity.
        -- assert (Hlt : (r < k)%nat) by lia.
           specialize (Hrec' r Hlt). cbv zeta in Hrec'.
           destruct (rlev1_is_run bs (rlev1_group_pos T bs p0 r)) eqn:Er.
           ++ destruct Hrec' as (H1 & H2). split; [| exact H2].
              pose proof (rlev1_group_runs_mono T bs p0 (S r) k ltac:(lia)) as Hm.
              cbn [rlev1_group_runs] in Hm. rewrite Er in Hm.
              unfold upd.
              replace (rlev1_group_runs T bs p0 r =? sc_numruns s) with false
                by (symmetry; apply Z.eqb_neq; lia).
              exact H1.
           ++ exact Hrec'.
  - (* literals *)
    apply Z.leb_gt in Hrun.
    rewrite (u32_small (sc_numvals s + (0x100 - n0))) in Hstep by lia.
    destruct (maxvals <? sc_numvals s + (0x100 - n0)) eqn:Efit.
    + apply Z.ltb_lt in Efit.
      apply pair_equal_spec in Hstep. destruct Hstep as [<- <-].
      split; [discriminate |]. intros _. split; [exact Hinv |].
      unfold rlev1_groups_end. rewrite Hlen, <- Hnv. lia.
    + apply Z.ltb_ge in Efit.
      destruct (rlev1_literals_spec T bs (Z.to_nat (0x100 - n0)) (sc_numvals s)
                  (sc_lastpos s + 1) (sc_vals s) ltac:(lia) ltac:(lia))
        as (Hfst & Hin & Hout).
      destruct (rlev1_literals T bs (Z.to_nat (0x100 - n0)) (sc_numvals s)
                  (sc_lastpos s + 1) (sc_vals s)) as [p vals].
      cbn [fst snd] in Hfst, Hin, Hout. subst p.
      assert (Hkeep : rlev1_groups_inv T bs p0 maxvals maxpos vals0 k
                (mk_scan1 (sc_numvals s) (sc_numruns s) (sc_lastpos s) vals (sc_run_data s))).
      { apply rlev1_groups_keep; [exact Hinv |].
        intros j Hj. apply Hout. lia. }
      destruct (maxpos <? rlev1_lit_pos T bs (sc_lastpos s + 1) (Z.to_nat (0x100 - n0)))
        eqn:E; apply pair_equal_spec in Hstep; destruct Hstep as [<- <-].
      * apply Z.ltb_lt in E. split; [discriminate |]. intros _.
        split; [exact Hkeep |].
        unfold rlev1_groups_end. rewrite Hgend. lia.
      * apply Z.ltb_ge in E. split; [| discriminate]. intros _.
        destruct Hkeep as (_ & _ & _ & _ & _ & Hrec' & Hframe').
        cbn [sc_numvals sc_numruns sc_lastpos sc_vals sc_run_data] in Hrec', Hframe'.
        pose proof (rlev1_lit_pos_range T bs (Z.to_nat (0x100 - n0)) (sc_lastpos s + 1))
          as Hlr.
        unfold rlev1_groups_inv.
        cbn [sc_numvals sc_numruns sc_lastpos sc_vals sc_run_data].
        cbn [rlev1_group_loc rlev1_group_pos rlev1_group_runs].
        rewrite Hgend, Hlen, Hisrun, <- Hnv, <- Hnr.
        split; [reflexivity |]. split; [reflexivity |]. split; [lia |].
        split; [lia |]. split; [lia |].
        split; [| exact Hframe'].
        intros r Hr. cbv zeta.
        destruct (Nat.eq_dec r k) as [-> | Hne].
        -- rewrite Hisrun, Hlen, <- Hnv, <- Hlp.
           intros i Hi. apply Hin. exact Hi.
        -- assert (Hlt : (r < k)%nat) by lia.
           apply (Hrec' r Hlt).
Qed.

Lemma rlev1_groups_loop (fuel : nat) :
  forall (k : nat) (s : rlev1_scan),
    rlev1_groups_inv T bs p0 maxvals maxpos vals0 k s ->
    (Z.to_nat (maxvals - sc_numvals s) < fuel)%nat ->
    exists s' k',
      rlev1_scan_loop fuel T bs maxvals maxpos s = Some s' /\
      rlev1_groups_inv T bs p0 maxvals maxpos vals0 k' s' /\
      rlev1_groups_end T bs p0 maxvals maxpos k'.
Proof.
  induction fuel as [| fuel IH]; intros k s Hinv Hfuel; [lia |].
  pose proof Hinv as (Hnv & Hlp & Hnr & Hle & Hrange & Hrec & Hframe).
  cbn [rlev1_scan_loop].
  destruct ((sc_numvals s <? maxvals) && (sc_numruns s <? NWARPS * 12)) eqn:Econd.
  - destruct (rlev1_scan_step T bs maxvals maxpos s) as [s1 c] eqn:Hs.
    destruct (rlev1_groups_step k s s1 c Hinv Hs) as (Hgo & Hstop).
    destruct c.
    + specialize (Hgo eq_refl). apply (IH (S k) s1 Hgo).
      destruct Hgo as (Hnv1 & _). rewrite Hnv1. cbn [rlev1_group_loc].
      pose proof (rlev1_group_len_range bs (rlev1_group_pos T bs p0 k)).
      rewrite Hnv in Hfuel, Hle. lia.
    + destruct (Hstop eq_refl) as (Hinv1 & Hend). exists s1, k. auto.
  - exists s, k. split; [reflexivity |]. split; [exact Hinv |].
    apply andb_false_iff in Econd. unfold rlev1_groups_end.
    destruct Econd as [E | E]; apply Z.ltb_ge in E.
    + left. lia.
    + right. left. lia.
Qed.

End Rlev1Groups.

Lemma readbyte_shift (bs : orc_bytestream_s) (p m : Z) :
  bytestream_readbyte bs (p + m * 8192) = bytestream_readbyte bs p.
Proof.
  unfold bytestream_readbyte. rewrite !land_mask, Z.mod_add by lia. reflexivity.
Qed.

(** The value of a varint does not depend on the bits of the position
    above the size of the buffer. *)
Lemma decode_varint_u_shift (w : bool) (bs : orc_bytestream_s) (p m : Z) :
  snd (decode_varint_u w bs (p + m * 8192)) = snd (decode_varint_u w bs p).
Proof.
  assert (H : forall j, bytestream_readbyte bs (p + m * 8192 + j)
                        = bytestream_readbyte bs (p + j)).
  { intros j. replace (p + m * 8192 + j) with (p + j + m * 8192) by lia.
    apply readbyte_shift. }
  unfold decode_varint_u. cbv zeta.
  set (q := p + m * 8192) in *.
  assert (E0 : bytestream_readbyte bs q = bytestream_readbyte bs p).
  { specialize (H 0). rewrite !Z.add_0_r in H. exact H. }
  assert (E1 : bytestream_readbyte bs (q + 1) = bytestream_readbyte bs (p + 1)) by apply H.
  assert (E2 : bytestream_readbyte bs (q + 1 + 1) = bytestream_readbyte bs (p + 1 + 1)).
  { replace (q + 1 + 1) with (q + 2) by lia. rewrite H. f_equal. lia. }
  assert (E3 : bytestream_readbyte bs (q + 1 + 1 + 1) = bytestream_readbyte bs (p + 1 + 1 + 1)).
  { replace (q + 1 + 1 + 1) with (q + 3) by lia. rewrite H. f_equal. lia. }
  assert (E4 : bytestream_readbyte bs (q + 1 + 1 + 1 + 1)
               = bytestream_readbyte bs (p + 1 + 1 + 1 + 1)).
  { replace (q + 1 + 1 + 1 + 1) with (q + 4) by lia. rewrite H. f_equal. lia. }
  assert (E5 : bytestream_readbyte bs (q + 1 + 1 + 1 + 1 + 1)
               = bytestream_readbyte bs (p + 1 + 1 + 1 + 1 + 1)).
  { replace (q + 1 + 1 + 1 + 1 + 1) with (q + 5) by lia. rewrite H. f_equal. lia. }
  assert (E6 : bytestream_readbyte bs (q + 1 + 1 + 1 + 1 + 1 + 1)
               = bytestream_readbyte bs (p + 1 + 1 + 1 + 1 + 1 + 1)).
  { replace (q + 1 + 1 + 1 + 1 + 1 + 1) with (q + 6) by lia. rewrite H. f_equal. lia. }
  assert (E7 : bytestream_readbyte bs (q + 1 + 1 + 1 + 1 + 1 + 1 + 1)
               = bytestream_readbyte bs (p + 1 + 1 + 1 + 1 + 1 + 1 + 1)).
  { replace (q + 1 + 1 + 1 + 1 + 1 + 1 + 1) with (q + 7) by lia. rewrite H. f_equal. lia. }
  assert (E8 : bytestream_readbyte bs (q + 1 + 1 + 1 + 1 + 1 + 1 + 1 + 1)
               = bytestream_readbyte bs (p + 1 + 1 + 1 + 1 + 1 + 1 + 1 + 1)).
  { replace (q + 1 + 1 + 1 + 1 + 1 + 1 + 1 + 1) with (q + 8) by lia. rewrite H.
    f_equal. lia. }
  rewrite E0, E1, E2, E3, E4, E5, E6, E7, E8.
  clearbody q. clear H E0 E1 E2 E3 E4 E5 E6 E7 E8.
  destruct w; cbn [andb];
    repeat match goal with
    | |- context [if ?c then _ else _] => destruct c
    end; reflexivity.
Qed.

Lemma decode_varint_shift (T : elem_type) (bs : orc_bytestream_s) (p m : Z) :
  snd (decode_varint T bs (p + m * 8192)) = snd (decode_varint T bs p).
Proof.
  unfold decode_varint.
  destruct T;
    try apply decode_varint_u_shift;
    pose proof (decode_varint_u_shift false bs p m) as Hn;
    pose proof (decode_varint_u_shift true bs p m) as Hw;
    destruct (decode_varint_u false bs (p + m * 8192));
    destruct (decode_varint_u false bs p);
    destruct (decode_varint_u true bs (p + m * 8192));
    destruct (decode_varint_u true bs p);
    cbn [snd] in *; congruence.
Qed.

Lemma wrapT_small (T : elem_type) (x : Z) :
  T <> U16 -> 0 <= x < 2 ^ 16 -> wrapT T x = x.
Proof.
  intros HT Hx. destruct T; try congruence; cbn [wrapT].
  - apply u32_small. lia.
  - apply s32_small. lia.
  - unfold u64. apply Z.mod_small. lia.
  - unfold s64. rewrite Z.mod_small; lia.
Qed.

Lemma s32_wrapT_u32 (T : elem_type) (y : Z) :
  T <> U16 -> - 2 ^ 31 <= y < 2 ^ 31 -> s32 (wrapT T (u32 y)) = y.
Proof.
  intros HT Hy.
  assert (Hs : s32 (u32 y) = y).
  { unfold s32, u32. rewrite Zplus_mod_idemp_l. rewrite Z.mod_small; lia. }
  pose proof (u32_range y) as Hr.
  destruct T; try congruence; cbn [wrapT].
  - rewrite u32_idem. exact Hs.
  - rewrite Hs. apply s32_small. exact Hy.
  - unfold u64. rewrite Z.mod_small by lia. exact Hs.
  - unfold s64. rewrite Z.mod_small by lia.
    replace (u32 y + 2 ^ 63 - 2 ^ 63) with (u32 y) by lia. exact Hs.
Qed.

Lemma signed_byte_range (d : Z) : 0 <= d < 256 -> -128 <= signed_byte d < 128.
Proof.
  intros Hd. unfold signed_byte.
  destruct (d <? 128) eqn:E; [apply Z.ltb_lt in E | apply Z.ltb_ge in E]; lia.
Qed.

(** Decoding a cell gives the value of the group. *)
Lemma rlev1_decode_cell (T : elem_type) (bs : orc_bytestream_s) (p i v : Z) :
  T <> U16 -> 0 <= i < rlev1_group_len bs p ->
  s32 v = rlev1_cell T bs p i ->
  (let '(_, x) := decode_varint T bs (s32 v) in wrapT T (x + Z.shiftr (s32 v) 16))
  = rlev1_group_value T bs p i.
Proof.
  intros HT Hi Hv. rewrite Hv. clear Hv.
  unfold rlev1_cell, rlev1_group_value.
  pose proof (rlev1_group_len_range bs p) as Hl.
  destruct (rlev1_is_run bs p).
  - pose proof (signed_byte_range _ (readbyte_range bs (p + 1))) as Hs.
    set (sd := signed_byte (bytestream_readbyte bs (p + 1))) in *.
    pose proof (Z.mod_pos_bound (p + 2) (2 ^ 16) ltac:(lia)) as Hm.
    pose proof (Z.div_mod (p + 2) (2 ^ 16) ltac:(lia)) as Hd.
    assert (Hsh : Z.shiftr (sd * i * 2 ^ 16 + (p + 2) mod 2 ^ 16) 16 = sd * i).
    { rewrite Z.shiftr_div_pow2 by lia.
      rewrite Z.div_add_l by lia. rewrite Z.div_small by lia. lia. }
    rewrite Hsh.
    replace (sd * i * 2 ^ 16 + (p + 2) mod 2 ^ 16)
      with (p + 2 + (8 * sd * i - 8 * ((p + 2) / 2 ^ 16)) * 8192) by lia.
    pose proof (decode_varint_shift T bs (p + 2) (8 * sd * i - 8 * ((p + 2) / 2 ^ 16))) as Hc.
    destruct (decode_varint T bs (p + 2 + (8 * sd * i - 8 * ((p + 2) / 2 ^ 16)) * 8192))
      as [q x].
    cbn [snd] in Hc. rewrite Hc. reflexivity.
  - set (q := rlev1_lit_pos T bs (p + 1) (Z.to_nat i)).
    pose proof (Z.mod_pos_bound q (2 ^ 16) ltac:(lia)) as Hm.
    pose proof (Z.div_mod q (2 ^ 16) ltac:(lia)) as Hd.
    assert (Hsh : Z.shiftr (q mod 2 ^ 16) 16 = 0).
    { rewrite Z.shiftr_div_pow2 by lia. apply Z.div_small. lia. }
    rewrite Hsh.
    replace (q mod 2 ^ 16) with (q + (- 8 * (q / 2 ^ 16)) * 8192) by lia.
    pose proof (decode_varint_shift T bs q (- 8 * (q / 2 ^ 16))) as Hc.
    destruct (decode_varint T bs (q + - 8 * (q / 2 ^ 16) * 8192)) as [q' x].
    cbn [snd] in Hc. rewrite Hc, Z.add_0_r. reflexivity.
Qed.

Lemma rlev1_group_runs_nonneg (T : elem_type) (bs : orc_bytestream_s) (p0 : Z) (k : nat) :
  0 <= rlev1_group_runs T bs p0 k.
Proof. apply (rlev1_group_runs_mono T bs p0 0 k). lia. Qed.

(** Expanding the recorded runs in order is expanding the groups in order. *)
Lemma rlev1_expand_by_groups (T : elem_type) (bs : orc_bytestream_s) (p0 : Z)
    (rd vals : arr) (n : nat) :
  (forall r, (r < n)%nat ->
     rlev1_is_run bs (rlev1_group_pos T bs p0 r) = true ->
     rd (rlev1_group_runs T bs p0 r)
     = rlev1_pack (bytestream_readbyte bs (rlev1_group_pos T bs p0 r + 1))
         (rlev1_group_len bs (rlev1_group_pos T bs p0 r)) (rlev1_group_loc T bs p0 r)) ->
  forall k, (k <= n)%nat ->
    rlev1_expand T (rlev1_group_runs T bs p0 k) rd vals
    = fold_left (rlev1_expand_group T bs p0) (seq 0 k) vals.
Proof.
  intros Hrd. unfold rlev1_expand.
  induction k as [| k IH]; intros Hk; [reflexivity |].
  rewrite seq_S, fold_left_app. cbn [plus fold_left].
  rewrite <- IH by lia. cbn [rlev1_group_runs].
  pose proof (rlev1_group_runs_nonneg T bs p0 k) as Hnn.
  unfold rlev1_expand_group at 1. cbv zeta.
  destruct (rlev1_is_run bs (rlev1_group_pos T bs p0 k)) eqn:Er.
  - replace (Z.to_nat (rlev1_group_runs T bs p0 k + 1))
      with (S (Z.to_nat (rlev1_group_runs T bs p0 k))) by lia.
    rewrite seq_S, fold_left_app. cbn [plus fold_left].
    rewrite Z2Nat.id by lia. rewrite Hrd by (lia || exact Er). reflexivity.
  - rewrite Z.add_0_r. reflexivity.
Qed.

Lemma rlev1_expand_run_cell (T : elem_type) (v : arr) (d n b x j : Z) :
  0 <= d < 256 -> 0 <= n < 256 -> 0 <= b < 1024 ->
  0 <= x < 2 ^ 16 -> v b = x ->
  rlev1_expand_run T v (rlev1_pack d n b) j
  = if (1 <=? j - b) && (j - b <? n)
    then wrapT T (u32 (signed_byte d * (j - b) * 2 ^ 16 + x))
    else v j.
Proof.
  intros Hd Hn Hb Hx Hv. unfold rlev1_expand_run. cbv zeta.
  destruct (rlev1_unpack_pack d n b Hd Hn Hb) as (E1 & E2 & E3).
  rewrite E1, E2, E3, Hv.
  change 0xffff with (Z.ones 16). rewrite Z.land_ones, Z.mod_small by lia.
  rewrite (u32_small x) by lia.
  rewrite lor_shiftl_add by lia. reflexivity.
Qed.

Section Rlev1Expand.
Variable T : elem_type.
Variable bs : orc_bytestream_s.
Variables p0 maxvals : Z.
Variable vals : arr.
Variable n : nat.
Hypothesis HT : T <> U16.
Hypothesis Hmax : 0 <= maxvals <= 1024.
Hypothesis Hfit : rlev1_group_loc T bs p0 n <= maxvals.
Hypothesis Hcells : forall r, (r < n)%nat ->
  let p := rlev1_group_pos T bs p0 r in
  if rlev1_is_run bs p then
    vals (rlev1_group_loc T bs p0 r) = wrapT T (Z.land (p + 2) 0xffff)
  else
    forall i, (i < Z.to_nat (rlev1_group_len bs p))%nat ->
      vals (rlev1_group_loc T bs p0 r + Z.of_nat i)
      = wrapT T (Z.land (rlev1_lit_pos T bs (p + 1) i) 0xffff).

Lemma rlev1_expand_cells :
  forall k, (k <= n)%nat ->
  let v := fold_left (rlev1_expand_group T bs p0) (seq 0 k) vals in
  (forall r i, (r < k)%nat -> 0 <= i < rlev1_group_len bs (rlev1_group_pos T bs p0 r) ->
     s32 (v (rlev1_group_loc T bs p0 r + i))
     = rlev1_cell T bs (rlev1_group_pos T bs p0 r) i) /\
  (forall j, ~ 0 <= j < rlev1_group_loc T bs p0 k -> v j = vals j).
Proof.
  induction k as [| k IH]; intros Hk; cbv zeta.
  - cbn [seq fold_left]. split; [intros r i Hr; lia | reflexivity].
  - rewrite seq_S, fold_left_app. cbn [plus fold_left].
    destruct (IH ltac:(lia)) as (Hin & Hout). clear IH.
    set (v := fold_left (rlev1_expand_group T bs p0) (seq 0 k) vals) in *.
    pose proof (rlev1_group_len_range bs (rlev1_group_pos T bs p0 k)) as Hlen.
    pose proof (rlev1_group_loc_nonneg T bs p0 k) as Hnn.
    pose proof (rlev1_group_loc_mono T bs p0 (S k) n ltac:(lia)) as Hm.
    cbn [rlev1_group_loc] in Hm.
    pose proof (Hcells k ltac:(lia)) as Hc. cbv zeta in Hc.
    set (p := rlev1_group_pos T bs p0 k) in *.
    set (b := rlev1_group_loc T bs p0 k) in *.
    pose proof (Z.mod_pos_bound (p + 2) (2 ^ 16) ltac:(lia)) as Hx.
    assert (Hspec : forall j, rlev1_expand_group T bs p0 v k j
              = if rlev1_is_run bs p && (1 <=? j - b) && (j - b <? rlev1_group_len bs p)
                then wrapT T (u32 (signed_byte (bytestream_readbyte bs (p + 1)) * (j - b)
                                   * 2 ^ 16 + (p + 2) mod 2 ^ 16))
                else v j).
    { intros j. unfold rlev1_expand_group. cbv zeta. fold p b.
      destruct (rlev1_is_run bs p) eqn:Er; [| reflexivity].
      cbn [andb].
      rewrite (rlev1_expand_run_cell T v _ _ b ((p + 2) mod 2 ^ 16));
        [reflexivity | apply readbyte_range | lia | lia | exact Hx |].
      rewrite Hout by lia. rewrite Hc.
      change 0xffff with (Z.ones 16). rewrite Z.land_ones by lia.
      apply wrapT_small; assumption. }
    split.
    + intros r i Hr Hi. rewrite Hspec.
      destruct (Nat.eq_dec r k) as [-> | Hne].
      * fold p b in Hi |- *. replace (b + i - b) with i by lia.
        unfold rlev1_cell.
        destruct (rlev1_is_run bs p) eqn:Er; cbn [andb].
        -- pose proof (signed_byte_range _ (readbyte_range bs (p + 1))) as Hs.
           destruct (Z.eq_dec i 0) as [-> | Hi0].
           ++ cbn [Z.leb Z.compare andb]. rewrite Z.add_0_r, Hout by lia.
              rewrite Hc. change 0xffff with (Z.ones 16). rewrite Z.land_ones by lia.
              rewrite wrapT_small by assumption.
              rewrite s32_small by lia. lia.
           ++ replace (1 <=? i) with true by (symmetry; apply Z.leb_le; lia).
              replace (i <? rlev1_group_len bs p) with true
                by (symmetry; apply Z.ltb_lt; lia).
              cbn [andb]. apply s32_wrapT_u32; [assumption |]. nia.
        -- rewrite Hout by lia.
           replace (b + i) with (b + Z.of_nat (Z.to_nat i)) by lia.
           rewrite Hc by lia.
           change 0xffff with (Z.ones 16). rewrite Z.land_ones by lia.
           pose proof (Z.mod_pos_bound (rlev1_lit_pos T bs (p + 1) (Z.to_nat i)) (2 ^ 16)
                         ltac:(lia)).
           rewrite wrapT_small by assumption. apply s32_small. lia.
      * assert (Hlt : (r < k)%nat) by lia.
        pose proof (rlev1_group_loc_mono T bs p0 (S r) k ltac:(lia)) as Hm'.
        cbn [rlev1_group_loc] in Hm'. fold b in Hm'.
        replace (1 <=? rlev1_group_loc T bs p0 r + i - b) with false
          by (symmetry; apply Z.leb_gt; lia).
        rewrite andb_false_r. cbn [andb]. apply Hin; assumption.
    + intros j Hj. cbn [rlev1_group_loc] in Hj. fold p b in Hj. rewrite Hspec.
      destruct (rlev1_is_run bs p && (1 <=? j - b) && (j - b <? rlev1_group_len bs p)) eqn:E.
      * apply andb_true_iff in E. destruct E as [E E2].
        apply andb_true_iff in E. destruct E as [_ E1].
        apply Z.leb_le in E1. apply Z.ltb_lt in E2. lia.
      * apply Hout. lia.
Qed.

End Rlev1Expand.

Lemma decode_varint_set_pos (T : elem_type) (bs : orc_bytestream_s) (q p : Z) :
  decode_varint T (set_pos bs q) p = decode_varint T bs p.
Proof. reflexivity. Qed.

Lemma Integer_RLEv1_spec (T : elem_type) (mem : arr) (bs : orc_bytestream_s)
    (rle : orc_rlev1_state_s) (vals : arr) (maxvals : Z) :
  T <> U16 ->
  0 <= maxvals <= 1024 ->
  0 <= pos bs <= len bs -> len bs + 8192 <= 2 ^ 32 ->
  let maxpos := Z.min (len bs) (pos bs + (BYTESTREAM_BFRSZ - 8)) in
  exists bs' rle' vals' (k : nat),
    Integer_RLEv1 T mem bs rle vals maxvals
      = Some (bs', rle', vals', rlev1_group_loc T bs (pos bs) k) /\
    rlev1_group_loc T bs (pos bs) k <= maxvals /\
    pos bs' = rlev1_group_pos T bs (pos bs) k /\ pos bs' <= maxpos /\
    (forall r i, (r < k)%nat ->
       0 <= i < rlev1_group_len bs (rlev1_group_pos T bs (pos bs) r) ->
       vals' (rlev1_group_loc T bs (pos bs) r + i)
       = rlev1_group_value T bs (rlev1_group_pos T bs (pos bs) r) i) /\
    (forall j, ~ 0 <= j < maxvals -> vals' j = vals j) /\
    rlev1_groups_end T bs (pos bs) maxvals maxpos k.
Proof.
  intros HT Hmax Hp Hlen. cbv zeta. unfold Integer_RLEv1, rlev1_scan_runs.
  destruct (maxpos_range bs Hp Hlen) as (Hmp1 & Hmp2).
  change (BYTESTREAM_BFRSZ - 8) with 8184 in *.
  rewrite (u32_small (pos bs + 8184)) in * by lia.
  set (maxpos := Z.min (len bs) (pos bs + 8184)) in *.
  set (s0 := mk_scan1 0 0 (pos bs) vals (run_data rle)).
  assert (Hinv0 : rlev1_groups_inv T bs (pos bs) maxvals maxpos vals 0 s0).
  { unfold rlev1_groups_inv, s0.
    cbn [sc_numvals sc_numruns sc_lastpos sc_vals sc_run_data
         rlev1_group_loc rlev1_group_pos rlev1_group_runs].
    split; [reflexivity |]. split; [reflexivity |]. split; [reflexivity |].
    split; [lia |]. split; [lia |]. split; [intros r Hr; lia | reflexivity]. }
  destruct (rlev1_groups_loop T bs (pos bs) maxvals maxpos vals Hmax ltac:(lia) ltac:(lia)
              (rlev1_fuel maxvals) 0%nat s0 Hinv0)
    as (s & k & Hloop & Hinv & Hend).
  { unfold rlev1_fuel, s0. cbn [sc_numvals]. lia. }
  rewrite Hloop.
  destruct Hinv as (Hnv & Hlp & Hnr & Hle & Hrange & Hrec & Hframe).
  pose proof (flush_to bs (sc_lastpos s) ltac:(lia) ltac:(lia) ltac:(lia)) as Hflush.
  destruct (bytestream_flush_bytes bs (u32 (sc_lastpos s - pos bs))) as [bs1 fc].
  cbn [fst] in Hflush. subst bs1.
  cbn [num_runs num_vals fill_pos fill_count run_data].
  rewrite Hnr.
  rewrite (rlev1_expand_by_groups T bs (pos bs) (sc_run_data s) (sc_vals s) k) by
    (try lia; intros r Hr Er; specialize (Hrec r Hr); cbv zeta in Hrec;
     rewrite Er in Hrec; apply Hrec).
  destruct (rlev1_expand_cells T bs (pos bs) maxvals (sc_vals s) k HT Hmax
              ltac:(lia)) with (k := k) as (Hin & Hout).
  { intros r Hr. specialize (Hrec r Hr). cbv zeta in Hrec |- *.
    destruct (rlev1_is_run bs (rlev1_group_pos T bs (pos bs) r)); [apply Hrec | exact Hrec]. }
  { lia. }
  set (v := fold_left (rlev1_expand_group T bs (pos bs)) (seq 0 k) (sc_vals s)) in *.
  eexists _, _, _, k.
  split; [rewrite Hnv; reflexivity |].
  destruct (fill_fields mem (set_pos bs (sc_lastpos s)) (pos bs) fc) as (F1 & F2 & F3).
  rewrite F1. cbn [pos set_pos].
  split; [lia |]. split; [exact Hlp |]. split; [lia |].
  split; [| split; [| exact Hend]].
  - intros r i Hr Hi.
    pose proof (rlev1_group_loc_mono T bs (pos bs) (S r) k ltac:(lia)) as Hm.
    cbn [rlev1_group_loc] in Hm.
    pose proof (rlev1_group_loc_nonneg T bs (pos bs) r) as Hnn.
    unfold rlev1_decode. try rewrite <- Hnv.
    replace (0 <=? rlev1_group_loc T bs (pos bs) r + i) with true
      by (symmetry; apply Z.leb_le; lia).
    replace (rlev1_group_loc T bs (pos bs) r + i <? NTHREADS) with true
      by (symmetry; apply Z.ltb_lt; change NTHREADS with 1024; lia).
    replace (rlev1_group_loc T bs (pos bs) r + i <? sc_numvals s) with true
      by (symmetry; apply Z.ltb_lt; lia).
    cbn [andb]. cbv zeta. rewrite decode_varint_set_pos.
    apply rlev1_decode_cell; [assumption | exact Hi |].
    apply Hin; assumption.
  - intros j Hj. unfold rlev1_decode. try rewrite <- Hnv.
    destruct ((0 <=? j) && (j <? NTHREADS) && (j <? sc_numvals s)) eqn:E.
    + apply andb_true_iff in E. destruct E as [E E3].
      apply andb_true_iff in E. destruct E as [E1 E2].
      apply Z.leb_le in E1. apply Z.ltb_lt in E3. lia.
    + rewrite Hout by lia. apply Hframe. exact Hj.
Qed.

(** ** The stores of the column data kernel *)

Lemma store_value_other (chunk : ColumnDesc) (g : Z -> DictionaryEntry)
    (uninit vals : arr) (out : column_out) (t row r : Z) :
  r <> row ->
  out_data (store_value chunk g uninit vals out t row) r = out_data out r /\
  out_str (store_value chunk g uninit vals out t row) r = out_str out r.
Proof.
  intros Hr. unfold store_value.
  assert (E : (r =? row) = false) by (apply Z.eqb_neq; exact Hr).
  destruct (type_kind chunk); cbn [out_data out_str]; unfold upd; rewrite ?E; auto.
Qed.

Lemma scatter_fold (chunk : ColumnDesc) (g : Z -> DictionaryEntry) (uninit : arr)
    (max_num_rows first_row : Z) (d : orc_datadec_state_s) (vals : arr) (r : Z)
    (l : list Z) :
  forall out,
    (forall t, In t l -> t < max_vals d -> u16 (row_ofs_plus1 d t) <> 0 ->
       scatter_row first_row d t < max_num_rows -> scatter_row first_row d t <> r) ->
    let out' :=
      fold_left
        (fun o t =>
           if (t <? max_vals d) && negb (u16 (row_ofs_plus1 d t) =? 0) then
             let row := u64 (u32 (cur_row d + u16 (row_ofs_plus1 d t) - 1) - first_row) in
             if row <? max_num_rows
             then store_value chunk g uninit vals o t row
             else o
           else o) l out in
    out_data out' r = out_data out r /\ out_str out' r = out_str out r.
Proof.
  induction l as [| t l IH]; intros out Hl; cbv zeta; cbn [fold_left]; [auto |].
  match goal with
  | |- out_data (fold_left ?f l ?o1) r = _ /\ _ =>
      destruct (IH o1) as (H1 & H2);
        [intros t' Ht'; apply Hl; right; exact Ht' |];
        cbv zeta in H1, H2; rewrite H1, H2; clear H1 H2
  end.
  destruct (t <? max_vals d) eqn:E1; cbn [andb]; [| auto].
  destruct (u16 (row_ofs_plus1 d t) =? 0) eqn:E2; cbn [negb]; [auto |].
  cbv zeta.
  destruct (u64 (u32 (cur_row d + u16 (row_ofs_plus1 d t) - 1) - first_row) <? max_num_rows)
    eqn:E3; [| auto].
  apply store_value_other.
  apply Z.ltb_lt in E1. apply Z.eqb_neq in E2. apply Z.ltb_lt in E3.
  intros ->. apply (Hl t); [left; reflexivity | exact E1 | exact E2 | exact E3 | reflexivity].
Qed.


(** ** The bitmap store of the null kernel *)

Lemma land_31 (x : Z) : Z.land x 0x1f = x mod 32.
Proof. change 0x1f with (Z.ones 5). rewrite Z.land_ones by lia. reflexivity. Qed.

Lemma shiftr5 (x : Z) : Z.shiftr x 5 = x / 32.
Proof. rewrite Z.shiftr_div_pow2 by lia. reflexivity. Qed.

Lemma testbit_u32 (x i : Z) : 0 <= i < 32 -> Z.testbit (u32 x) i = Z.testbit x i.
Proof. intros Hi. unfold u32. apply Z.mod_pow2_bits_low. lia. Qed.

Lemma testbit_u32_high (x i : Z) : 32 <= i -> Z.testbit (u32 x) i = false.
Proof. intros Hi. unfold u32. apply Z.mod_pow2_bits_high. lia. Qed.

Lemma testbit_word_high (x i : Z) : 0 <= x < 2 ^ 32 -> 32 <= i -> Z.testbit x i = false.
Proof. intros Hx Hi. rewrite <- (u32_small x Hx). apply testbit_u32_high. exact Hi. Qed.

(** The bits of a double word. *)
Lemma testbit_dword (lo hi j : Z) :
  0 <= lo < 2 ^ 32 -> 0 <= j ->
  Z.testbit (Z.lor (Z.shiftl hi 32) lo) j
  = if j <? 32 then Z.testbit lo j else Z.testbit hi (j - 32).
Proof.
  intros Hlo Hj. rewrite Z.lor_spec.
  destruct (Z.ltb_spec j 32) as [H | H].
  - rewrite Z.shiftl_spec_low by lia. reflexivity.
  - rewrite Z.shiftl_spec by lia. rewrite (testbit_word_high lo j) by lia.
    apply orb_false_r.
Qed.

Lemma funnelshift_r_bit (lo hi s i : Z) :
  0 <= lo < 2 ^ 32 -> 0 <= s < 32 -> 0 <= i < 32 ->
  Z.testbit (funnelshift_r lo hi s) i
  = if i + s <? 32 then Z.testbit lo (i + s) else Z.testbit hi (i + s - 32).
Proof.
  intros Hlo Hs Hi. unfold funnelshift_r.
  rewrite testbit_u32 by lia.
  replace (Z.land s 31) with s by (rewrite land_31, Z.mod_small by lia; reflexivity).
  rewrite Z.shiftr_spec by lia.
  apply testbit_dword; lia.
Qed.

(** [rle8_read_u32] returns the 32 decoded bits from [bitpos] on. *)
Lemma rle8_read_u32_bit (v : arr) (bitpos i : Z) :
  0 <= bitpos -> 0 <= i < 32 ->
  Z.testbit (rle8_read_u32 v bitpos) i = source_bit v (bitpos + i).
Proof.
  intros Hb Hi. unfold rle8_read_u32, source_bit. cbv zeta.
  rewrite !land_31, !shiftr5.
  pose proof (Z.mod_pos_bound bitpos 32 ltac:(lia)) as Hm.
  pose proof (Z.div_mod bitpos 32 ltac:(lia)) as Hd.
  rewrite funnelshift_r_bit by (try lia; apply vals_u32_range).
  destruct (Z.ltb_spec (i + bitpos mod 32) 32) as [H | H].
  - replace ((bitpos + i) / 32) with (bitpos / 32)
      by (apply (Z.div_unique _ _ _ (i + bitpos mod 32)); lia).
    replace ((bitpos + i) mod 32) with (i + bitpos mod 32)
      by (apply (Z.mod_unique _ _ (bitpos / 32)); lia).
    reflexivity.
  - replace ((bitpos + i) / 32) with (bitpos / 32 + 1)
      by (apply (Z.div_unique _ _ _ (i + bitpos mod 32 - 32)); lia).
    replace ((bitpos + i) mod 32) with (i + bitpos mod 32 - 32)
      by (apply (Z.mod_unique _ _ (bitpos / 32 + 1)); lia).
    reflexivity.
Qed.

Lemma rle8_read_u32_range (v : arr) (bitpos : Z) : 0 <= rle8_read_u32 v bitpos < 2 ^ 32.
Proof. unfold rle8_read_u32, funnelshift_r. apply u32_range. Qed.

(** The mask [((1 << n) - 1) << b] of the code. *)
Lemma mask_bit (n b j : Z) :
  0 <= n -> 0 <= b -> n + b <= 32 -> n < 32 -> 0 <= j < 32 ->
  Z.testbit (u32 (Z.shiftl (u32 (Z.shiftl 1 n) - 1) b)) j = (b <=? j) && (j <? b + n).
Proof.
  intros Hn Hb Hnb Hn32 Hj.
  rewrite testbit_u32 by lia.
  rewrite Z.shiftl_1_l.
  rewrite (u32_small (2 ^ n)) by (split; [lia | apply Z.pow_lt_mono_r; lia]).
  replace (2 ^ n - 1) with (Z.ones n) by (rewrite Z.ones_equiv; lia).
  rewrite Z.shiftl_spec by lia.
  rewrite Z.testbit_ones by lia.
  destruct (Z.leb_spec b j), (Z.leb_spec 0 (j - b)), (Z.ltb_spec (j - b) n),
    (Z.ltb_spec j (b + n)); cbn [andb]; try reflexivity; lia.
Qed.

Lemma tail_mask_bit (n j : Z) :
  0 <= n < 32 -> 0 <= j < 32 ->
  Z.testbit (u32 (u32 (Z.shiftl 1 n) - 1)) j = (j <? n).
Proof.
  intros Hn Hj.
  pose proof (mask_bit n 0 j ltac:(lia) ltac:(lia) ltac:(lia) ltac:(lia) Hj) as H.
  rewrite Z.shiftl_0_r in H. rewrite H.
  replace (0 <=? j) with true by (symmetry; apply Z.leb_le; lia).
  reflexivity.
Qed.

(** A masked store [atomicAnd(p, ~mask); atomicOr(p, bits)] with
    [bits] inside the mask. *)
Lemma masked_store_bit (old mask bits j : Z) :
  0 <= j < 32 ->
  Z.testbit (Z.lor (Z.land old (u32 (Z.lnot mask))) bits) j
  = if Z.testbit mask j then Z.testbit bits j
    else Z.testbit old j || Z.testbit bits j.
Proof.
  intros Hj. rewrite Z.lor_spec, Z.land_spec, testbit_not32 by lia.
  destruct (Z.testbit mask j); cbn [negb]; [rewrite andb_false_r | rewrite andb_true_r];
    reflexivity.
Qed.

Lemma null_store_word_bit (vals : arr) (startbit nbits old t j : Z) :
  0 <= startbit -> 0 <= t -> startbit + t * 32 < 2 ^ 32 -> 0 <= j < 32 ->
  Z.testbit (null_store_word vals startbit nbits old t) j
  = if t * 32 + j <? nbits then source_bit vals (startbit + t * 32 + j)
    else Z.testbit old j.
Proof.
  intros Hs Ht Hw Hj. unfold null_store_word. cbv zeta.
  rewrite (u32_small (startbit + t * 32)) by lia.
  destruct (Z.leb_spec (t * 32 + 32) nbits) as [Hfull | Hpart].
  - replace (t * 32 + j <? nbits) with true by (symmetry; apply Z.ltb_lt; lia).
    apply rle8_read_u32_bit; lia.
  - destruct (Z.ltb_spec (t * 32) nbits) as [Htail | Hnone].
    + rewrite masked_store_bit by lia.
      rewrite Z.land_spec, tail_mask_bit by lia.
      rewrite rle8_read_u32_bit by lia.
      destruct (Z.ltb_spec j (nbits - t * 32)) as [H | H].
      * replace (t * 32 + j <? nbits) with true by (symmetry; apply Z.ltb_lt; lia).
        apply andb_true_r.
      * replace (t * 32 + j <? nbits) with false by (symmetry; apply Z.ltb_ge; lia).
        rewrite andb_false_r. apply orb_false_r.
    + replace (t * 32 + j <? nbits) with false by (symmetry; apply Z.ltb_ge; lia).
      reflexivity.
Qed.

Lemma null_store_first_bit (vals : arr) (startbit nbits bitpos old j : Z) :
  0 <= startbit -> 0 <= nbits -> 0 < bitpos < 32 -> 0 <= j < 32 ->
  Z.testbit (null_store_first vals startbit nbits bitpos old) j
  = if (bitpos <=? j) && (j - bitpos <? nbits) then source_bit vals (startbit + (j - bitpos))
    else Z.testbit old j.
Proof.
  intros Hs Hn Hb Hj. unfold null_store_first. cbv zeta.
  set (n := Z.min (32 - bitpos) nbits).
  rewrite masked_store_bit by lia.
  rewrite Z.land_spec, mask_bit by lia.
  rewrite testbit_u32, Z.shiftl_spec by lia.
  destruct (Z.leb_spec bitpos j) as [Hge | Hlt]; cbn [andb].
  - destruct (Z.ltb_spec j (bitpos + n)) as [Hin | Hout].
    + replace (j - bitpos <? nbits) with true by (symmetry; apply Z.ltb_lt; lia).
      rewrite andb_true_r. apply rle8_read_u32_bit; lia.
    + replace (j - bitpos <? nbits) with false by (symmetry; apply Z.ltb_ge; lia).
      rewrite andb_false_r. apply orb_false_r.
  - rewrite andb_false_r. apply orb_false_r.
Qed.

(** [null_store] in terms of the two kinds of words. *)
Lemma null_store_words (vals : arr) (vmb dst_pos startbit nbits : Z) (vmem nc : arr) (a : Z) :
  let valid := vmb + Z.shiftr dst_pos 5 in
  let bitpos := Z.land (u32 dst_pos) 0x1f in
  fst (null_store vals vmb (dst_pos, startbit, nbits) vmem nc) a
  = if bitpos =? 0 then
      if (0 <=? a - valid) && (a - valid <? NTHREADS)
      then null_store_word vals startbit nbits (vmem a) (a - valid)
      else vmem a
    else
      let n := Z.min (32 - bitpos) nbits in
      let vmem1 := upd vmem valid (null_store_first vals startbit nbits bitpos (vmem valid)) in
      if (0 <=? a - (valid + 1)) && (a - (valid + 1) <? NTHREADS)
      then null_store_word vals (u32 (startbit + n)) (nbits - n) (vmem1 a) (a - (valid + 1))
      else vmem1 a.
Proof.
  cbv zeta. unfold null_store.
  destruct (Z.land (u32 dst_pos) 31 =? 0); cbn [negb fst]; reflexivity.
Qed.

Lemma null_store_bit (vals : arr) (vmb dst_pos startbit nbits : Z) (vmem nc : arr) (p : Z) :
  0 <= dst_pos -> 0 <= startbit -> startbit + 2 ^ 16 <= 2 ^ 32 ->
  0 <= nbits <= NTHREADS * 32 -> 0 <= p ->
  bitmap_bit (fst (null_store vals vmb (dst_pos, startbit, nbits) vmem nc)) vmb p
  = if (dst_pos <=? p) && (p <? dst_pos + nbits)
    then source_bit vals (startbit + (p - dst_pos))
    else bitmap_bit vmem vmb p.
Proof.
  intros Hd Hs Hs32 Hn Hp. change (NTHREADS * 32) with 32768 in Hn.
  unfold bitmap_bit. rewrite null_store_words. cbv zeta.
  rewrite !land_31, !shiftr5.
  replace (u32 dst_pos mod 32) with (dst_pos mod 32)
    by (unfold u32; symmetry; apply Z.mod_mod_divide; exists (2 ^ 27); reflexivity).
  pose proof (Z.div_mod dst_pos 32 ltac:(lia)) as Ed.
  pose proof (Z.mod_pos_bound dst_pos 32 ltac:(lia)) as Hbp.
  pose proof (Z.div_mod p 32 ltac:(lia)) as Ep.
  pose proof (Z.mod_pos_bound p 32 ltac:(lia)) as Hj.
  set (D := dst_pos / 32) in *. set (bp := dst_pos mod 32) in *.
  set (P := p / 32) in *. set (j := p mod 32) in *.
  change NTHREADS with 1024.
  replace (vmb + P - (vmb + D)) with (P - D) by lia.
  replace (vmb + P - (vmb + D + 1)) with (P - D - 1) by lia.
  destruct (Z.eqb_spec bp 0) as [Hz | Hnz].
  - destruct ((0 <=? P - D) && (P - D <? 1024)) eqn:Et.
    + apply andb_true_iff in Et. destruct Et as [E1 E2].
      apply Z.leb_le in E1. apply Z.ltb_lt in E2.
      rewrite null_store_word_bit by lia.
      replace (dst_pos <=? p) with true by (symmetry; apply Z.leb_le; lia).
      cbn [andb].
      destruct (Z.ltb_spec ((P - D) * 32 + j) nbits) as [H | H].
      * replace (p <? dst_pos + nbits) with true by (symmetry; apply Z.ltb_lt; lia).
        f_equal. lia.
      * replace (p <? dst_pos + nbits) with false by (symmetry; apply Z.ltb_ge; lia).
        reflexivity.
    + replace ((dst_pos <=? p) && (p <? dst_pos + nbits)) with false; [reflexivity |].
      symmetry. apply andb_false_iff.
      apply andb_false_iff in Et. destruct Et as [E | E].
      * left. apply Z.leb_gt in E. apply Z.leb_gt. lia.
      * right. apply Z.ltb_ge in E. apply Z.ltb_ge. lia.
  - set (n := Z.min (32 - bp) nbits).
    rewrite (u32_small (startbit + n)) by lia.
    destruct ((0 <=? P - D - 1) && (P - D - 1 <? 1024)) eqn:Et.
    + apply andb_true_iff in Et. destruct Et as [E1 E2].
      apply Z.leb_le in E1. apply Z.ltb_lt in E2.
      rewrite null_store_word_bit by lia.
      unfold upd.
      replace (vmb + P =? vmb + D) with false by (symmetry; apply Z.eqb_neq; lia).
      replace (dst_pos <=? p) with true by (symmetry; apply Z.leb_le; lia).
      cbn [andb].
      destruct (Z.ltb_spec ((P - D - 1) * 32 + j) (nbits - n)) as [H | H].
      * replace (p <? dst_pos + nbits) with true by (symmetry; apply Z.ltb_lt; lia).
        f_equal. lia.
      * replace (p <? dst_pos + nbits) with false by (symmetry; apply Z.ltb_ge; lia).
        reflexivity.
    + unfold upd.
      destruct (Z.eqb_spec (vmb + P) (vmb + D)) as [Eq | Ne].
      * assert (HP : P = D) by lia.
        rewrite null_store_first_bit by lia.
        replace (vmb + D) with (vmb + P) by lia.
        destruct (Z.leb_spec bp j) as [H1 | H1]; cbn [andb].
        -- replace (dst_pos <=? p) with true by (symmetry; apply Z.leb_le; lia).
           cbn [andb].
           destruct (Z.ltb_spec (j - bp) nbits) as [H2 | H2].
           ++ replace (p <? dst_pos + nbits) with true by (symmetry; apply Z.ltb_lt; lia).
              f_equal. lia.
           ++ replace (p <? dst_pos + nbits) with false by (symmetry; apply Z.ltb_ge; lia).
              reflexivity.
        -- replace (dst_pos <=? p) with false by (symmetry; apply Z.leb_gt; lia).
           reflexivity.
      * replace ((dst_pos <=? p) && (p <? dst_pos + nbits)) with false; [reflexivity |].
        symmetry. apply andb_false_iff.
        apply andb_false_iff in Et. destruct Et as [E | E].
        -- left. apply Z.leb_gt in E. apply Z.leb_gt. lia.
        -- right. apply Z.ltb_ge in E. apply Z.ltb_ge. lia.
Qed.

Lemma null_window_value (row_in nrows first_row max_num_rows : Z) :
  0 <= row_in < 2 ^ 32 -> 0 <= nrows <= NTHREADS * 32 ->
  0 <= first_row < 2 ^ 31 -> 0 <= max_num_rows < 2 ^ 63 ->
  null_window row_in nrows first_row max_num_rows
  = (Z.max (row_in - first_row) 0,
     Z.max (first_row - row_in) 0,
     Z.max 0 (Z.min (row_in + nrows) (first_row + max_num_rows)
              - Z.max row_in first_row)).
Proof.
  intros Hr Hn Hf Hm. change (NTHREADS * 32) with 32768 in Hn.
  unfold null_window. cbv zeta.
  assert (E1 : s64 (row_in - first_row) = row_in - first_row).
  { unfold s64. rewrite Z.mod_small; lia. }
  rewrite E1.
  assert (E2 : u32 (- s32 (Z.min (row_in - first_row) 0)) = Z.max (first_row - row_in) 0).
  { rewrite s32_small by lia. rewrite u32_small by lia. lia. }
  rewrite E2.
  set (dp := Z.max (row_in - first_row) 0). set (sb := Z.max (first_row - row_in) 0).
  rewrite (u32_small (nrows - Z.min sb nrows)) by lia.
  assert (E3 : u64 (dp + (nrows - Z.min sb nrows)) = dp + (nrows - Z.min sb nrows)).
  { unfold u64. apply Z.mod_small. lia. }
  assert (E4 : u64 dp = dp) by (unfold u64; apply Z.mod_small; lia).
  rewrite E3, E4.
  destruct (Z.ltb_spec max_num_rows (dp + (nrows - Z.min sb nrows))) as [H | H].
  - assert (Hs : 0 <= max_num_rows - Z.min dp max_num_rows < 2 ^ 32) by lia.
    rewrite u32_small by exact Hs. f_equal. lia.
  - f_equal. lia.
Qed.



(** ** The counts of the null kernel *)

Lemma lxor_lane (w l m r : Z) :
  0 <= l < 32 -> 0 <= m < 32 -> r = Z.lxor l m ->
  Z.lxor (32 * w + l) m = 32 * w + r.
Proof.
  intros Hl Hm ->.
  assert (Hr : 0 <= Z.lxor l m < 32).
  { split; [apply Z.lxor_nonneg; lia |].
    destruct (Z.eq_dec (Z.lxor l m) 0) as [-> | Hnz]; [lia |].
    assert (Hpos : 0 < Z.lxor l m) by (pose proof (proj2 (Z.lxor_nonneg l m)); lia).
    change 32 with (2 ^ 5).
    apply Z.log2_lt_pow2; [exact Hpos |].
    apply Z.le_lt_trans with (Z.max (Z.log2 l) (Z.log2 m)); [apply Z.log2_lxor; lia |].
    assert (Z.log2 l < 5).
    { destruct (Z.eq_dec l 0) as [-> | ?]; [cbn; lia | apply Z.log2_lt_pow2; lia]. }
    assert (Z.log2 m < 5).
    { destruct (Z.eq_dec m 0) as [-> | ?]; [cbn; lia | apply Z.log2_lt_pow2; lia]. }
    lia. }
  replace (32 * w + l) with (Z.lor (Z.shiftl w 5) l)
    by (rewrite lor_shiftl_add by lia; lia).
  replace (32 * w + Z.lxor l m) with (Z.lor (Z.shiftl w 5) (Z.lxor l m))
    by (rewrite lor_shiftl_add by lia; lia).
  apply Z.bits_inj'. intros n Hn.
  rewrite Z.lxor_spec, !Z.lor_spec, Z.lxor_spec.
  destruct (Z.ltb_spec n 5) as [H | H].
  - rewrite Z.shiftl_spec_low by lia. reflexivity.
  - assert (Hb : forall x, 0 <= x < 32 -> Z.testbit x n = false).
    { intros x Hx. destruct (Z.eq_dec x 0) as [-> | ?]; [apply Z.bits_0 |].
      apply Z.bits_above_log2; [lia |].
      apply Z.lt_le_trans with 5; [apply Z.log2_lt_pow2; lia | lia]. }
    rewrite (Hb l Hl), (Hb m Hm). cbn [xorb orb].
    rewrite !orb_false_r, xorb_false_r. reflexivity.
Qed.

Lemma u32_add (x y : Z) : u32 (u32 x + u32 y) = u32 (x + y).
Proof. rewrite u32_add_l, u32_add_r. reflexivity. Qed.

Lemma shfl_xor_add_u32 (g G : arr) (m : Z) :
  (forall t, g t = u32 (G t)) ->
  forall t, shfl_xor_add g m t = u32 (G t + G (Z.lxor t m)).
Proof. intros H t. unfold shfl_xor_add. rewrite !H. apply u32_add. Qed.

(** The reduction leaves in every lane of warp [w] the sum of the lanes. *)
Lemma warp_sum_lanes (v : arr) (w l : Z) :
  0 <= l < 32 ->
  warp_sum v (32 * w + l) = u32 (sum_below (shift_arr v (32 * w)) 32).
Proof.
  intros Hl. unfold warp_sum.
  rewrite (shfl_xor_add_u32 _ _ 16
             (shfl_xor_add_u32 _ _ 8
                (shfl_xor_add_u32 _ _ 4
                   (shfl_xor_add_u32 _ _ 2 (fun t => eq_refl (shfl_xor_add v 1 t)))))).
  f_equal.
  assert (l = 0 \/ l = 1 \/ l = 2 \/ l = 3 \/ l = 4 \/ l = 5 \/ l = 6 \/ l = 7 \/
          l = 8 \/ l = 9 \/ l = 10 \/ l = 11 \/ l = 12 \/ l = 13 \/ l = 14 \/ l = 15 \/
          l = 16 \/ l = 17 \/ l = 18 \/ l = 19 \/ l = 20 \/ l = 21 \/ l = 22 \/ l = 23 \/
          l = 24 \/ l = 25 \/ l = 26 \/ l = 27 \/ l = 28 \/ l = 29 \/ l = 30 \/ l = 31)
    as Hcase by lia.
  unfold sum_below, shift_arr. change (Z.to_nat 32) with 32%nat.
  cbn [sum_upto Z.of_nat Pos.of_succ_nat Pos.succ].
  repeat (destruct Hcase as [-> | Hcase]); [.. | subst l];
    repeat match goal with
    | |- context [Z.lxor (32 * w + ?a) ?m] =>
        let r := eval vm_compute in (Z.lxor a m) in
        rewrite (lxor_lane w a m r) by (try lia; reflexivity)
    end;
    lia.
Qed.

Lemma sum_below_app (a : arr) (m : Z) (n : nat) :
  0 <= m ->
  sum_below a (m + Z.of_nat n) = sum_below a m + sum_below (shift_arr a m) (Z.of_nat n).
Proof.
  intros Hm. induction n as [| n IH].
  - rewrite Z.add_0_r. unfold sum_below at 3. cbn. lia.
  - rewrite Nat2Z.inj_succ.
    replace (m + Z.succ (Z.of_nat n)) with (m + Z.of_nat n + 1) by lia.
    replace (Z.succ (Z.of_nat n)) with (Z.of_nat n + 1) by lia.
    rewrite !sum_below_succ by lia. rewrite IH. unfold shift_arr. lia.
Qed.

Lemma sum_below_blocks (a : arr) (k : nat) :
  sum_below (fun t => sum_below (shift_arr a (32 * t)) 32) (Z.of_nat k)
  = sum_below a (32 * Z.of_nat k).
Proof.
  induction k as [| k IH]; [reflexivity |].
  rewrite Nat2Z.inj_succ.
  replace (Z.succ (Z.of_nat k)) with (Z.of_nat k + 1) by lia.
  rewrite sum_below_succ by lia. rewrite IH.
  replace (32 * (Z.of_nat k + 1)) with (32 * Z.of_nat k + Z.of_nat 32) by lia.
  rewrite sum_below_app by lia. reflexivity.
Qed.

Lemma warp_sum_lane0 (g : arr) : warp_sum g 0 = u32 (sum_below g 32).
Proof.
  pose proof (warp_sum_lanes g 0 0 ltac:(lia)) as H.
  change (32 * 0 + 0) with 0 in H. rewrite H. f_equal.
Qed.

Lemma warp_sums_lane (nc : arr) (j : Z) :
  0 <= j < 32 ->
  u32 (if j <? NWARPS then warp_sum nc (j * 32) else 0)
  = u32 (sum_below (shift_arr nc (32 * j)) 32).
Proof.
  intros Hj.
  replace (j <? NWARPS) with true by (symmetry; apply Z.ltb_lt; change NWARPS with 32; lia).
  replace (j * 32) with (32 * j + 0) by lia.
  rewrite warp_sum_lanes by lia. apply u32_idem.
Qed.

Lemma sum_below_1024 (nc : arr) :
  sum_below (fun t => sum_below (shift_arr nc (32 * t)) 32) 32 = sum_below nc NTHREADS.
Proof.
  pose proof (sum_below_blocks nc 32) as Hb.
  assert (E1 : Z.of_nat 32 = 32) by reflexivity.
  assert (E2 : 32 * 32 = NTHREADS) by reflexivity.
  rewrite E1, E2 in Hb. exact Hb.
Qed.

Lemma sum_below_u32_ext (f g : arr) (n : Z) :
  (forall j, 0 <= j < n -> u32 (f j) = u32 (g j)) ->
  u32 (sum_below f n) = u32 (sum_below g n).
Proof. intros H. exact (sum_below_wrap_ext U32 f g n H). Qed.

Lemma null_count_total_value (nc : arr) :
  null_count_total nc = u32 (sum_below nc NTHREADS).
Proof.
  unfold null_count_total. cbv zeta.
  rewrite warp_sum_lane0, <- sum_below_1024.
  apply (sum_below_u32_ext
           (fun t => if t <? NWARPS then warp_sum nc (t * 32) else 0)
           (fun t => sum_below (shift_arr nc (32 * t)) 32) 32).
  intros j Hj. exact (warp_sums_lane nc j Hj).
Qed.

(** What lane 0 adds to [skip_count] for a batch, as the code has it: 32
    times the count of one lane. *)
Lemma null_skip_count_value (vals : arr) (row_in nrows first_row : Z) :
  row_in < first_row ->
  null_skip_count vals row_in nrows first_row
  = u32 (32 * skip_lane_count vals (Z.min (u32 (first_row - row_in)) nrows)).
Proof.
  intros H. unfold null_skip_count.
  replace (row_in <? first_row) with true by (symmetry; apply Z.ltb_lt; exact H).
  cbv zeta. rewrite warp_sum_lane0. f_equal.
  set (c := skip_lane_count vals (Z.min (u32 (first_row - row_in)) nrows)).
  unfold sum_below. change (Z.to_nat 32) with 32%nat.
  cbn [sum_upto]. lia.
Qed.

Lemma sum_below_ext (f g : arr) (n : Z) :
  (forall j, 0 <= j < n -> f j = g j) -> sum_below f n = sum_below g n.
Proof.
  unfold sum_below. intros H.
  assert (Hk : forall k, (k <= Z.to_nat n)%nat -> sum_upto f k = sum_upto g k).
  { induction k as [| k IH]; intros Hle; [reflexivity |].
    cbn [sum_upto]. rewrite IH by lia. rewrite H by lia. reflexivity. }
  apply Hk. lia.
Qed.

Lemma sum_below_zero (n : Z) : sum_below (fun _ => 0) n = 0.
Proof.
  unfold sum_below. induction (Z.to_nat n) as [| k IH]; [reflexivity |].
  cbn [sum_upto]. rewrite IH. reflexivity.
Qed.

Lemma sum_below_range (f : arr) (n : Z) :
  (forall j, 0 <= j < n -> 0 <= f j <= 1) -> 0 <= sum_below f n <= Z.max n 0.
Proof.
  unfold sum_below. intros H.
  assert (Hk : forall k, (k <= Z.to_nat n)%nat -> 0 <= sum_upto f k <= Z.of_nat k).
  { induction k as [| k IH]; intros Hle; [cbn; lia |].
    cbn [sum_upto]. specialize (IH ltac:(lia)). specialize (H (Z.of_nat k) ltac:(lia)). lia. }
  specialize (Hk (Z.to_nat n) ltac:(lia)). lia.
Qed.

(** A sum cut at [n]. *)
Lemma sum_below_cut (f : arr) (n m : Z) :
  0 <= n <= m ->
  sum_below (fun j => if j <? n then f j else 0) m = sum_below f n.
Proof.
  intros H.
  replace m with (n + Z.of_nat (Z.to_nat (m - n))) by lia.
  rewrite sum_below_app by lia.
  rewrite (sum_below_ext (fun j => if j <? n then f j else 0) f n).
  2:{ intros j Hj. cbv beta.
      replace (j <? n) with true by (symmetry; apply Z.ltb_lt; lia).
      reflexivity. }
  rewrite (sum_below_ext (shift_arr (fun j => if j <? n then f j else 0) n) (fun _ => 0)).
  2:{ intros j Hj. unfold shift_arr. cbv beta.
      replace (n + j <? n) with false by (symmetry; apply Z.ltb_ge; lia). reflexivity. }
  rewrite sum_below_zero. lia.
Qed.

Lemma popc_from_sum (x : Z) (n : nat) :
  forall i, popc_from n i x = sum_below (fun j => Z.b2z (Z.testbit x (i + j))) (Z.of_nat n).
Proof.
  induction n as [| n IH]; intros i; [reflexivity |].
  cbn [popc_from]. rewrite IH.
  rewrite Nat2Z.inj_succ.
  replace (Z.succ (Z.of_nat n)) with (1 + Z.of_nat n) by lia.
  rewrite (sum_below_app _ 1 n) by lia.
  rewrite sum_below_1, Z.add_0_r. f_equal.
  apply sum_below_ext. intros j Hj. unfold shift_arr. f_equal. f_equal. lia.
Qed.

Lemma popc_sum (x : Z) : popc x = sum_below (fun j => Z.b2z (Z.testbit x j)) 32.
Proof. unfold popc. rewrite popc_from_sum. reflexivity. Qed.

Lemma source_bit_word (vals : arr) (m j : Z) :
  0 <= j < 32 ->
  source_bit vals (32 * m + j) = Z.testbit (vals_u32 vals m) j.
Proof.
  intros Hj. unfold source_bit. rewrite land_31, shiftr5.
  replace ((32 * m + j) / 32) with m by (apply (Z.div_unique _ _ _ j); lia).
  replace ((32 * m + j) mod 32) with j by (apply (Z.mod_unique _ _ m); lia).
  reflexivity.
Qed.

(** The count of a lane after [m] words. *)
Lemma skip_lane_words (vals : arr) (s : Z) (m : nat) :
  0 <= s <= NTHREADS * 32 -> 32 * Z.of_nat m < s + 32 ->
  fold_left
    (fun acc k =>
       let i := 32 * Z.of_nat k in
       let bits := vals_u32 vals (Z.shiftr i 5) in
       let bits :=
         if s <? i + 32
         then Z.land bits (u32 (u32 (Z.shiftl 1 (s - i)) - 1))
         else bits in
       u32 (acc + popc bits))
    (seq 0 m) 0
  = valid_count vals (Z.min (32 * Z.of_nat m) s).
Proof.
  intros Hs. change (NTHREADS * 32) with 32768 in Hs.
  match goal with |- _ -> fold_left ?f _ _ = _ => set (step := f) end.
  induction m as [| m IH]; intros Hm.
  - cbn [seq fold_left]. rewrite Z.min_l by lia. reflexivity.
  - rewrite seq_S, fold_left_app.
    change (fold_left step [(0 + m)%nat] (fold_left step (seq 0 m) 0))
      with (step (fold_left step (seq 0 m) 0) m).
    rewrite IH by lia. clear IH.
    unfold step. cbv zeta. rewrite shiftr5.
    replace (32 * Z.of_nat m / 32) with (Z.of_nat m)
      by (symmetry; rewrite Z.mul_comm; apply Z.div_mul; lia).
    rewrite Nat2Z.inj_succ in *.
    set (M := Z.of_nat m) in *.
    rewrite Z.min_l by lia.
    assert (Hvc : 0 <= valid_count vals (32 * M) <= 32 * M).
    { unfold valid_count.
      pose proof (sum_below_range (fun k => Z.b2z (source_bit vals k)) (32 * M)) as Hr.
      assert (Hb : forall j, 0 <= j < 32 * M -> 0 <= Z.b2z (source_bit vals j) <= 1)
        by (intros j _; destruct (source_bit vals j); cbn; lia).
      specialize (Hr Hb). lia. }
    assert (Hword : forall x,
              (forall j, 0 <= j < 32 ->
                 Z.testbit x j = source_bit vals (32 * M + j) && (32 * M + j <? s)) ->
              u32 (valid_count vals (32 * M) + popc x)
              = valid_count vals (Z.min (32 * Z.succ M) s)).
    { intros x Hx. rewrite popc_sum.
      rewrite (sum_below_ext _ (fun j => if j <? Z.min 32 (s - 32 * M)
                                         then Z.b2z (source_bit vals (32 * M + j)) else 0)).
      2:{ intros j Hj. rewrite Hx by lia.
          destruct (Z.ltb_spec (32 * M + j) s) as [H1 | H1];
            destruct (Z.ltb_spec j (Z.min 32 (s - 32 * M))) as [H2 | H2]; try lia.
          - rewrite andb_true_r. reflexivity.
          - rewrite andb_false_r. reflexivity. }
      rewrite sum_below_cut by lia.
      replace (Z.min (32 * Z.succ M) s)
        with (32 * M + Z.of_nat (Z.to_nat (Z.min 32 (s - 32 * M)))) by lia.
      unfold valid_count at 2. rewrite sum_below_app by lia.
      fold (valid_count vals (32 * M)).
      rewrite Z2Nat.id by lia.
      pose proof (sum_below_range
                    (shift_arr (fun k => Z.b2z (source_bit vals k)) (32 * M))
                    (Z.min 32 (s - 32 * M))) as Hr.
      assert (Hb : forall j, 0 <= j < Z.min 32 (s - 32 * M) ->
                0 <= shift_arr (fun k => Z.b2z (source_bit vals k)) (32 * M) j <= 1)
        by (intros j _; unfold shift_arr; destruct (source_bit vals (32 * M + j)); cbn; lia).
      specialize (Hr Hb).
      change (fun j : Z => Z.b2z (source_bit vals (32 * M + j)))
        with (shift_arr (fun k => Z.b2z (source_bit vals k)) (32 * M)).
      rewrite u32_small by lia. reflexivity. }
    apply Hword. intros j Hj.
    destruct (Z.ltb_spec s (32 * M + 32)) as [Hpart | Hfull].
    + rewrite Z.land_spec, tail_mask_bit by lia.
      rewrite source_bit_word by lia. f_equal.
      destruct (Z.ltb_spec j (s - 32 * M)), (Z.ltb_spec (32 * M + j) s); try reflexivity; lia.
    + rewrite source_bit_word by lia.
      replace (32 * M + j <? s) with true by (symmetry; apply Z.ltb_lt; lia).
      rewrite andb_true_r. reflexivity.
Qed.

Lemma skip_lane_count_value (vals : arr) (s : Z) :
  0 <= s <= NTHREADS * 32 -> skip_lane_count vals s = valid_count vals s.
Proof.
  intros Hs. unfold skip_lane_count.
  pose proof (Z.div_mod (s + 31) 32 ltac:(lia)) as Hd.
  pose proof (Z.mod_pos_bound (s + 31) 32 ltac:(lia)) as Hm.
  assert (H0 : 0 <= (s + 31) / 32) by (apply Z.div_pos; lia).
  rewrite skip_lane_words; [| exact Hs | lia].
  f_equal. lia.
Qed.

Lemma sum_below_add (f g : arr) (n : Z) :
  sum_below (fun j => f j + g j) n = sum_below f n + sum_below g n.
Proof.
  unfold sum_below. induction (Z.to_nat n) as [| k IH]; [reflexivity |].
  cbn [sum_upto]. rewrite IH. lia.
Qed.

Lemma sum_below_nonneg (f : arr) (n : Z) :
  (forall j, 0 <= j < n -> 0 <= f j) -> 0 <= sum_below f n.
Proof.
  unfold sum_below. intros H.
  assert (Hk : forall k, (k <= Z.to_nat n)%nat -> 0 <= sum_upto f k).
  { induction k as [| k IH]; intros Hle; [cbn; lia |].
    cbn [sum_upto]. specialize (IH ltac:(lia)). specialize (H (Z.of_nat k) ltac:(lia)). lia. }
  apply Hk. lia.
Qed.

Lemma sum_below_term (f : arr) (n i : Z) :
  (forall j, 0 <= j < n -> 0 <= f j) -> 0 <= i < n -> f i <= sum_below f n.
Proof.
  intros H Hi. unfold sum_below.
  assert (Hk : forall k, (k <= Z.to_nat n)%nat ->
            0 <= sum_upto f k /\ (i < Z.of_nat k -> f i <= sum_upto f k)).
  { induction k as [| k IH]; intros Hle; [cbn; lia |].
    cbn [sum_upto]. specialize (IH ltac:(lia)). destruct IH as (IH0 & IH1).
    pose proof (H (Z.of_nat k) ltac:(lia)) as Hf.
    split; [lia |]. intros Hlt.
    destruct (Z.eq_dec i (Z.of_nat k)) as [-> | Hne]; [lia |].
    specialize (IH1 ltac:(lia)). lia. }
  apply Hk; lia.
Qed.

Lemma sum_below_upd (a : arr) (n i v : Z) :
  0 <= i < n -> sum_below (upd a i v) n = sum_below a n - a i + v.
Proof.
  intros Hi. unfold sum_below.
  assert (Hk : forall k, (k <= Z.to_nat n)%nat ->
            sum_upto (upd a i v) k
            = sum_upto a k + (if i <? Z.of_nat k then v - a i else 0)).
  { induction k as [| k IH]; intros Hle.
    - cbn [sum_upto]. replace (i <? Z.of_nat 0) with false
        by (symmetry; apply Z.ltb_ge; lia). reflexivity.
    - cbn [sum_upto]. rewrite IH by lia. unfold upd.
      destruct (Z.eqb_spec (Z.of_nat k) i) as [E | E];
        destruct (Z.ltb_spec i (Z.of_nat k)); destruct (Z.ltb_spec i (Z.of_nat (S k)));
        try lia. subst i. lia. }
  rewrite Hk by lia.
  replace (i <? Z.of_nat (Z.to_nat n)) with true by (symmetry; apply Z.ltb_lt; lia).
  lia.
Qed.

Lemma popc_range (x : Z) : 0 <= popc x <= 32.
Proof.
  rewrite popc_sum.
  pose proof (sum_below_range (fun j => Z.b2z (Z.testbit x j)) 32) as H.
  assert (Hb : forall j, 0 <= j < 32 -> 0 <= Z.b2z (Z.testbit x j) <= 1)
    by (intros j _; destruct (Z.testbit x j); cbn; lia).
  specialize (H Hb). lia.
Qed.

Lemma null_store_zeros_value (vals : arr) (startbit nbits t : Z) :
  0 <= startbit -> 0 <= t -> startbit + t * 32 < 2 ^ 32 ->
  null_store_zeros vals startbit nbits t
  = sum_below (fun j => if 32 * t + j <? nbits
                        then 1 - Z.b2z (source_bit vals (startbit + (32 * t + j))) else 0) 32.
Proof.
  intros Hs Ht Hw. unfold null_store_zeros. cbv zeta.
  rewrite (u32_small (startbit + t * 32)) by lia.
  destruct (Z.leb_spec (t * 32 + 32) nbits) as [Hfull | Hpart].
  - rewrite popc_sum. apply sum_below_ext. intros j Hj. cbv beta.
    replace (32 * t + j <? nbits) with true by (symmetry; apply Z.ltb_lt; lia).
    rewrite testbit_not32, rle8_read_u32_bit by lia.
    replace (startbit + t * 32 + j) with (startbit + (32 * t + j)) by lia.
    destruct (source_bit vals (startbit + (32 * t + j))); reflexivity.
  - destruct (Z.ltb_spec (t * 32) nbits) as [Htail | Hnone].
    + rewrite popc_sum. apply sum_below_ext. intros j Hj. cbv beta.
      rewrite Z.land_spec, testbit_not32, Z.land_spec, tail_mask_bit by lia.
      rewrite rle8_read_u32_bit by lia.
      replace (startbit + t * 32 + j) with (startbit + (32 * t + j)) by lia.
      destruct (Z.ltb_spec j (nbits - t * 32)) as [H | H].
      * replace (32 * t + j <? nbits) with true by (symmetry; apply Z.ltb_lt; lia).
        destruct (source_bit vals (startbit + (32 * t + j))); reflexivity.
      * replace (32 * t + j <? nbits) with false by (symmetry; apply Z.ltb_ge; lia).
        rewrite andb_false_r. reflexivity.
    + rewrite (sum_below_ext _ (fun _ => 0)); [rewrite sum_below_zero; reflexivity |].
      intros j Hj. cbv beta.
      replace (32 * t + j <? nbits) with false by (symmetry; apply Z.ltb_ge; lia).
      reflexivity.
Qed.

(** The zeros counted by the threads of the aligned part are the null rows
    of the bits stored. *)
Lemma null_store_zeros_sum (vals : arr) (startbit nbits : Z) :
  0 <= startbit -> startbit + 2 ^ 16 <= 2 ^ 32 -> 0 <= nbits <= NTHREADS * 32 ->
  sum_below (null_store_zeros vals startbit nbits) NTHREADS = null_rows vals startbit nbits.
Proof.
  intros Hs Hs32 Hn. change (NTHREADS * 32) with 32768 in Hn.
  rewrite (sum_below_ext _
             (fun t => sum_below
                (shift_arr (fun q => if q <? nbits
                                     then 1 - Z.b2z (source_bit vals (startbit + q))
                                     else 0) (32 * t)) 32)).
  2:{ intros t Ht. change NTHREADS with 1024 in Ht.
      rewrite null_store_zeros_value by lia. reflexivity. }
  set (a := fun q => if q <? nbits
                     then 1 - Z.b2z (source_bit vals (startbit + q)) else 0).
  pose proof (sum_below_blocks a 1024) as Hb.
  assert (E1 : Z.of_nat 1024 = NTHREADS) by reflexivity.
  rewrite E1 in Hb. rewrite Hb. clear Hb E1.
  unfold null_rows, a. apply sum_below_cut. change NTHREADS with 1024. lia.
Qed.

Lemma null_rows_range (vals : arr) (s n : Z) : 0 <= null_rows vals s n <= Z.max n 0.
Proof.
  unfold null_rows. apply sum_below_range.
  intros j _. destruct (source_bit vals (s + j)); cbn; lia.
Qed.

Lemma null_rows_app (vals : arr) (s n m : Z) :
  0 <= n -> 0 <= m ->
  null_rows vals s (n + m) = null_rows vals s n + null_rows vals (s + n) m.
Proof.
  intros Hn Hm. unfold null_rows.
  replace m with (Z.of_nat (Z.to_nat m)) by lia.
  rewrite sum_below_app by lia. f_equal.
  apply sum_below_ext. intros j Hj. unfold shift_arr. f_equal. f_equal. f_equal. lia.
Qed.

Lemma null_store_first_zeros_value (vals : arr) (startbit nbits bitpos : Z) :
  0 <= startbit -> 0 <= nbits -> 0 < bitpos < 32 ->
  null_store_first_zeros vals startbit nbits bitpos
  = null_rows vals startbit (Z.min (32 - bitpos) nbits).
Proof.
  intros Hs Hn Hb. unfold null_store_first_zeros. cbv zeta.
  set (n := Z.min (32 - bitpos) nbits).
  rewrite popc_sum.
  rewrite (sum_below_ext _
             (fun j => if j <? bitpos then 0
                       else if j - bitpos <? n
                            then 1 - Z.b2z (source_bit vals (startbit + (j - bitpos)))
                            else 0)).
  2:{ intros j Hj. cbv beta.
      rewrite Z.land_spec, testbit_not32, Z.land_spec, mask_bit by lia.
      rewrite testbit_u32, Z.shiftl_spec by lia.
      destruct (Z.ltb_spec j bitpos) as [H | H].
      - replace (bitpos <=? j) with false by (symmetry; apply Z.leb_gt; lia).
        cbn [andb]. rewrite andb_false_r. reflexivity.
      - replace (bitpos <=? j) with true by (symmetry; apply Z.leb_le; lia).
        cbn [andb].
        rewrite rle8_read_u32_bit by lia.
        destruct (Z.ltb_spec j (bitpos + n)) as [H2 | H2].
        + replace (j - bitpos <? n) with true by (symmetry; apply Z.ltb_lt; lia).
          destruct (source_bit vals (startbit + (j - bitpos))); reflexivity.
        + replace (j - bitpos <? n) with false by (symmetry; apply Z.ltb_ge; lia).
          rewrite andb_false_r. reflexivity. }
  replace 32 with (bitpos + Z.of_nat (Z.to_nat (32 - bitpos))) at 1 by lia.
  rewrite sum_below_app by lia.
  rewrite (sum_below_ext _ (fun _ => 0) bitpos).
  2:{ intros j Hj. cbv beta.
      replace (j <? bitpos) with true by (symmetry; apply Z.ltb_lt; lia). reflexivity. }
  rewrite sum_below_zero, Z.add_0_l.
  rewrite Z2Nat.id by lia.
  rewrite (sum_below_ext _
             (fun q => if q <? n then 1 - Z.b2z (source_bit vals (startbit + q)) else 0)).
  2:{ intros q Hq. unfold shift_arr.
      replace (bitpos + q <? bitpos) with false by (symmetry; apply Z.ltb_ge; lia).
      replace (bitpos + q - bitpos) with q by lia. reflexivity. }
  unfold null_rows. apply sum_below_cut. lia.
Qed.

(** The registers [null_count] after [null_store]. *)
Lemma null_store_counts (vals : arr) (vmb dst_pos startbit nbits : Z) (vmem nc : arr) (t : Z) :
  (forall t, 0 <= nc t < 2 ^ 32) ->
  let bitpos := Z.land (u32 dst_pos) 0x1f in
  snd (null_store vals vmb (dst_pos, startbit, nbits) vmem nc) t
  = if bitpos =? 0 then
      if (0 <=? t) && (t <? NTHREADS)
      then u32 (nc t + null_store_zeros vals startbit nbits t)
      else nc t
    else
      let n := Z.min (32 - bitpos) nbits in
      let nc1 := upd nc 0 (u32 (nc 0 + null_store_first_zeros vals startbit nbits bitpos)) in
      if (0 <=? t) && (t <? NTHREADS)
      then u32 (nc1 t + null_store_zeros vals (u32 (startbit + n)) (nbits - n) t)
      else nc1 t.
Proof.
  intros Hnc. cbv zeta. unfold null_store, null_store_zeros, null_store_first_zeros.
  destruct (Z.land (u32 dst_pos) 31 =? 0); cbn [negb snd].
  - destruct ((0 <=? t) && (t <? NTHREADS)); [| reflexivity].
    destruct (t * 32 + 32 <=? nbits); [reflexivity |].
    destruct (t * 32 <? nbits); [reflexivity |].
    rewrite Z.add_0_r. symmetry. apply u32_small. apply Hnc.
  - cbv zeta.
    destruct ((0 <=? t) && (t <? NTHREADS)); [| reflexivity].
    match goal with
    | |- context [if ?c then _ else _] => destruct c; [reflexivity |]
    end.
    match goal with
    | |- context [if ?c then _ else _] => destruct c; [reflexivity |]
    end.
    rewrite Z.add_0_r. symmetry. apply u32_small.
    unfold upd. destruct (t =? 0); [apply u32_range | apply Hnc].
Qed.

Lemma null_store_zeros_range (vals : arr) (startbit nbits t : Z) :
  0 <= null_store_zeros vals startbit nbits t <= 32.
Proof.
  unfold null_store_zeros. cbv zeta.
  destruct (t * 32 + 32 <=? nbits); [apply popc_range |].
  destruct (t * 32 <? nbits); [apply popc_range | lia].
Qed.

Lemma aligned_counts_sum (vals : arr) (startbit nbits : Z) (nc : arr) :
  0 <= startbit -> startbit + 2 ^ 16 <= 2 ^ 32 -> 0 <= nbits <= NTHREADS * 32 ->
  (forall t, 0 <= nc t < 2 ^ 32) -> sum_below nc NTHREADS + 32 < 2 ^ 32 ->
  sum_below (fun t => if (0 <=? t) && (t <? NTHREADS)
                      then u32 (nc t + null_store_zeros vals startbit nbits t)
                      else nc t) NTHREADS
  = sum_below nc NTHREADS + null_rows vals startbit nbits.
Proof.
  intros Hs Hs32 Hn Hnc Hsum.
  rewrite <- (null_store_zeros_sum vals startbit nbits Hs Hs32 Hn).
  rewrite <- sum_below_add.
  apply sum_below_ext. intros t Ht. cbv beta.
  replace (0 <=? t) with true by (symmetry; apply Z.leb_le; lia).
  replace (t <? NTHREADS) with true by (symmetry; apply Z.ltb_lt; lia).
  cbn [andb].
  pose proof (sum_below_term nc NTHREADS t ltac:(intros; apply Hnc) Ht) as Hle.
  pose proof (null_store_zeros_range vals startbit nbits t) as Hz.
  pose proof (Hnc t). apply u32_small. lia.
Qed.

Lemma null_store_count_sum (vals : arr) (vmb dst_pos startbit nbits : Z) (vmem nc : arr) :
  0 <= dst_pos -> 0 <= startbit -> startbit + 2 ^ 17 <= 2 ^ 32 ->
  0 <= nbits <= NTHREADS * 32 ->
  (forall t, 0 <= nc t < 2 ^ 32) -> sum_below nc NTHREADS + 64 < 2 ^ 32 ->
  sum_below (snd (null_store vals vmb (dst_pos, startbit, nbits) vmem nc)) NTHREADS
  = sum_below nc NTHREADS + null_rows vals startbit nbits /\
  (forall t, 0 <= snd (null_store vals vmb (dst_pos, startbit, nbits) vmem nc) t < 2 ^ 32).
Proof.
  intros Hd Hs Hs32 Hn Hnc Hsum.
  assert (Hrange : forall t,
            0 <= snd (null_store vals vmb (dst_pos, startbit, nbits) vmem nc) t < 2 ^ 32).
  { intros t. rewrite null_store_counts by exact Hnc. cbv zeta.
    destruct (Z.land (u32 dst_pos) 31 =? 0).
    - destruct ((0 <=? t) && (t <? NTHREADS)); [apply u32_range | apply Hnc].
    - destruct ((0 <=? t) && (t <? NTHREADS)); [apply u32_range |].
      unfold upd. destruct (t =? 0); [apply u32_range | apply Hnc]. }
  split; [| exact Hrange].
  rewrite (sum_below_ext _ _ NTHREADS
             (fun t _ => null_store_counts vals vmb dst_pos startbit nbits vmem nc t Hnc)).
  cbv zeta. rewrite land_31.
  replace (u32 dst_pos mod 32) with (dst_pos mod 32)
    by (unfold u32; symmetry; apply Z.mod_mod_divide; exists (2 ^ 27); reflexivity).
  pose proof (Z.mod_pos_bound dst_pos 32 ltac:(lia)) as Hbp.
  set (bp := dst_pos mod 32) in *.
  change (NTHREADS * 32) with 32768 in Hn.
  destruct (Z.eqb_spec bp 0) as [Hz | Hnz].
  - apply aligned_counts_sum; try assumption; try lia.
  - set (n := Z.min (32 - bp) nbits).
    rewrite (u32_small (startbit + n)) by lia.
    rewrite null_store_first_zeros_value by lia. fold n.
    pose proof (null_rows_range vals startbit n) as Hfz.
    pose proof (sum_below_term nc NTHREADS 0 ltac:(intros; apply Hnc)
                  ltac:(change NTHREADS with 1024; lia)) as H0.
    pose proof (Hnc 0) as Hnc0.
    rewrite (u32_small (nc 0 + null_rows vals startbit n)) by lia.
    set (nc1 := upd nc 0 (nc 0 + null_rows vals startbit n)).
    assert (Hnc1 : forall t, 0 <= nc1 t < 2 ^ 32).
    { intros t. unfold nc1, upd. destruct (t =? 0); [lia | apply Hnc]. }
    assert (Hsum1 : sum_below nc1 NTHREADS = sum_below nc NTHREADS + null_rows vals startbit n).
    { unfold nc1. rewrite sum_below_upd by (change NTHREADS with 1024; lia). lia. }
    rewrite aligned_counts_sum; try assumption; try lia.
    + rewrite Hsum1.
      pose proof (null_rows_app vals startbit n (nbits - n) ltac:(lia) ltac:(lia)) as Happ.
      replace (n + (nbits - n)) with nbits in Happ by lia. lia.
    + change (NTHREADS * 32) with 32768. lia.
Qed.


(** ** The big-endian bit readers *)

Lemma byte_bit (b j : Z) :
  0 <= b < 256 -> Z.testbit b j = if (0 <=? j) && (j <? 8) then Z.testbit b j else false.
Proof.
  intros Hb. destruct (Z.leb_spec 0 j) as [H0 | H0]; cbn [andb].
  - destruct (Z.ltb_spec j 8) as [H8 | H8]; [reflexivity |].
    rewrite <- (Z.mod_small b (2 ^ 8)) by (change (2 ^ 8) with 256; lia).
    apply Z.mod_pow2_bits_high. lia.
  - apply Z.testbit_neg_r. lia.
Qed.

Lemma land_255_bit (x j : Z) :
  Z.testbit (Z.land x 255) j = if (0 <=? j) && (j <? 8) then Z.testbit x j else false.
Proof.
  change 255 with (Z.ones 8). rewrite Z.land_ones by lia.
  destruct (Z.leb_spec 0 j) as [H0 | H0]; cbn [andb].
  - destruct (Z.ltb_spec j 8) as [H8 | H8].
    + apply Z.mod_pow2_bits_low. lia.
    + apply Z.mod_pow2_bits_high. lia.
  - apply Z.testbit_neg_r. lia.
Qed.

Lemma div_mod_8 (i c : Z) : 8 * c <= i < 8 * c + 8 -> i / 8 = c /\ i mod 8 = i - 8 * c.
Proof.
  intros H. split.
  - symmetry. apply (Z.div_unique i 8 c (i - 8 * c)); lia.
  - symmetry. apply (Z.mod_unique i 8 c (i - 8 * c)); lia.
Qed.

Ltac bool_range :=
  repeat match goal with
  | |- context [?a <=? ?b] =>
      first [ replace (a <=? b) with true by (symmetry; apply Z.leb_le; lia)
            | replace (a <=? b) with false by (symmetry; apply Z.leb_gt; lia) ]
  | |- context [?a <? ?b] =>
      first [ replace (a <? b) with true by (symmetry; apply Z.ltb_lt; lia)
            | replace (a <? b) with false by (symmetry; apply Z.ltb_ge; lia) ]
  end.

(** The bits of a word of the buffer: byte [i / 8] of the word, bit [i mod 8]. *)
Lemma buf_u32_bit (bs : orc_bytestream_s) (w i : Z) :
  0 <= i < 32 ->
  Z.testbit (buf_u32 bs w) i = Z.testbit (buf_u8 bs (4 * w + i / 8)) (i mod 8).
Proof.
  intros Hi. unfold buf_u32.
  rewrite !Z.lor_spec, !Z.shiftl_spec by lia.
  rewrite (byte_bit (buf_u8 bs (4 * w)) i) by apply u8_range.
  rewrite (byte_bit (buf_u8 bs (4 * w + 1)) (i - 8)) by apply u8_range.
  rewrite (byte_bit (buf_u8 bs (4 * w + 2)) (i - 16)) by apply u8_range.
  rewrite (byte_bit (buf_u8 bs (4 * w + 3)) (i - 24)) by apply u8_range.
  assert (Hc : 0 <= i < 8 \/ 8 <= i < 16 \/ 16 <= i < 24 \/ 24 <= i < 32) by lia.
  destruct Hc as [Hc | [Hc | [Hc | Hc]]].
  - destruct (div_mod_8 i 0 ltac:(lia)) as [-> ->]. bool_range. cbn [andb orb].
    rewrite !orb_false_r. f_equal; [f_equal; lia | lia].
  - destruct (div_mod_8 i 1 ltac:(lia)) as [-> ->]. bool_range. cbn [andb orb].
    rewrite !orb_false_r. f_equal; lia.
  - destruct (div_mod_8 i 2 ltac:(lia)) as [-> ->]. bool_range. cbn [andb orb].
    rewrite !orb_false_r. f_equal; lia.
  - destruct (div_mod_8 i 3 ltac:(lia)) as [-> ->]. bool_range. cbn [andb orb].
    f_equal; lia.
Qed.

(** [__byte_perm(x, 0, 0x0123)] reverses the four bytes of the word. *)
Lemma byte_swap_bit (x i : Z) :
  0 <= i ->
  Z.testbit (byte_swap x) i
  = if i <? 32 then Z.testbit x (8 * (3 - i / 8) + i mod 8) else false.
Proof.
  intros Hi. unfold byte_swap.
  rewrite !Z.lor_spec, !Z.shiftl_spec by lia.
  rewrite !land_255_bit.
  assert (Hc : 0 <= i < 8 \/ 8 <= i < 16 \/ 16 <= i < 24 \/ 24 <= i < 32 \/ 32 <= i) by lia.
  destruct Hc as [Hc | [Hc | [Hc | [Hc | Hc]]]].
  - destruct (div_mod_8 i 0 ltac:(lia)) as [-> ->]. bool_range. cbn [andb orb].
    rewrite Z.shiftr_spec by lia. f_equal; lia.
  - destruct (div_mod_8 i 1 ltac:(lia)) as [-> ->]. bool_range. cbn [andb orb].
    rewrite !orb_false_r. rewrite Z.shiftr_spec by lia. f_equal; lia.
  - destruct (div_mod_8 i 2 ltac:(lia)) as [-> ->]. bool_range. cbn [andb orb].
    rewrite !orb_false_r. rewrite Z.shiftr_spec by lia. f_equal; lia.
  - destruct (div_mod_8 i 3 ltac:(lia)) as [-> ->]. bool_range. cbn [andb orb].
    rewrite !orb_false_r. f_equal; lia.
  - bool_range. cbn [andb orb]. reflexivity.
Qed.

(** [__funnelshift_l(lo, hi, s)]: the bits of [hi:lo] from the bit
    [32 - s] on. *)
Lemma funnelshift_l_bit (lo hi s i : Z) :
  (forall j, 32 <= j -> Z.testbit lo j = false) -> 0 <= s < 32 -> 0 <= i < 32 ->
  Z.testbit (funnelshift_l lo hi s) i
  = if s <=? i then Z.testbit hi (i - s) else Z.testbit lo (i + 32 - s).
Proof.
  intros Hlo Hs Hi. unfold funnelshift_l.
  rewrite testbit_u32 by lia.
  replace (Z.land s 31) with s by (rewrite land_31, Z.mod_small by lia; reflexivity).
  rewrite Z.shiftr_spec, Z.shiftl_spec, Z.lor_spec, Z.shiftl_spec by lia.
  destruct (Z.leb_spec s i) as [H | H].
  - rewrite (Hlo (i + 32 - s)) by lia. rewrite orb_false_r. f_equal. lia.
  - rewrite (Z.testbit_neg_r hi) by lia. reflexivity.
Qed.

(** The index of the word that holds the bit [bitpos]. *)
Lemma word_index (bitpos : Z) :
  0 <= bitpos ->
  Z.shiftr (Z.land bitpos ((BYTESTREAM_BFRSZ - 1) * 8)) 5 = (bitpos / 32) mod 2048.
Proof.
  intros Hb. apply Z.bits_inj'. intros n Hn.
  rewrite Z.shiftr_spec, Z.land_spec by lia.
  change ((BYTESTREAM_BFRSZ - 1) * 8) with (Z.shiftl (Z.ones 13) 3).
  rewrite Z.shiftl_spec by lia.
  rewrite Z.testbit_ones_nonneg by lia.
  change 2048 with (2 ^ 11). change 32 with (2 ^ 5).
  destruct (Z.ltb_spec n 11) as [H | H].
  - rewrite Z.mod_pow2_bits_low by lia.
    rewrite Z.div_pow2_bits by lia.
    replace (n + 5 - 3 <? 13) with true by (symmetry; apply Z.ltb_lt; lia).
    apply andb_true_r.
  - rewrite Z.mod_pow2_bits_high by lia.
    replace (n + 5 - 3 <? 13) with false by (symmetry; apply Z.ltb_ge; lia).
    apply andb_false_r.
Qed.

(** The byte-swapped word [q] of the buffer holds the stream bits
    [32 * q .. 32 * q + 31], the first one highest. *)
Lemma swapped_word_bit (bs : orc_bytestream_s) (q t : Z) :
  0 <= q -> 0 <= t < 32 ->
  Z.testbit (byte_swap (buf_u32 bs (q mod 2048))) (31 - t) = stream_bit bs (32 * q + t).
Proof.
  intros Hq Ht. rewrite byte_swap_bit by lia.
  replace (31 - t <? 32) with true by (symmetry; apply Z.ltb_lt; lia).
  assert (Hc : 0 <= t < 8 \/ 8 <= t < 16 \/ 16 <= t < 24 \/ 24 <= t < 32) by lia.
  assert (Hw : forall c, 0 <= c < 4 -> (4 * q + c) mod 8192 = 4 * (q mod 2048) + c).
  { intros c Hc'. pose proof (Z.div_mod q 2048 ltac:(lia)) as Hd.
    pose proof (Z.mod_pos_bound q 2048 ltac:(lia)) as Hm.
    symmetry. apply (Z.mod_unique _ _ (q / 2048)); lia. }
  unfold stream_bit, bytestream_readbyte. rewrite land_mask.
  assert (Hgen : forall c, 0 <= c < 4 -> 8 * c <= t < 8 * c + 8 ->
            Z.testbit (buf_u32 bs (q mod 2048)) (8 * (3 - (31 - t) / 8) + (31 - t) mod 8)
            = Z.testbit (buf_u8 bs (((32 * q + t) / 8) mod 8192)) (7 - (32 * q + t) mod 8)).
  { intros c Hc4 Hct.
    destruct (div_mod_8 (31 - t) (3 - c) ltac:(lia)) as [-> ->].
    destruct (div_mod_8 (32 * q + t) (4 * q + c) ltac:(lia)) as [-> ->].
    rewrite Hw by lia.
    rewrite buf_u32_bit by lia.
    destruct (div_mod_8 (8 * (3 - (3 - c)) + (31 - t - 8 * (3 - c))) c ltac:(lia)) as [-> ->].
    f_equal. lia. }
  destruct Hc as [Hc | [Hc | [Hc | Hc]]].
  - apply (Hgen 0); lia.
  - apply (Hgen 1); lia.
  - apply (Hgen 2); lia.
  - apply (Hgen 3); lia.
Qed.

Lemma byte_swap_high (x j : Z) : 32 <= j -> Z.testbit (byte_swap x) j = false.
Proof.
  intros Hj. rewrite byte_swap_bit by lia.
  replace (j <? 32) with false by (symmetry; apply Z.ltb_ge; lia). reflexivity.
Qed.

Lemma be_word_bit (bs : orc_bytestream_s) (bitpos j : Z) :
  0 <= bitpos -> 0 <= j < 32 ->
  Z.testbit (be_word bs bitpos) (31 - j) = stream_bit bs (bitpos + j).
Proof.
  intros Hb Hj. unfold be_word.
  rewrite !word_index by lia.
  change 31 with 0x1f at 1. rewrite land_31.
  pose proof (Z.mod_pos_bound bitpos 32 ltac:(lia)) as Hm.
  pose proof (Z.div_mod bitpos 32 ltac:(lia)) as Hd.
  assert (Hq : 0 <= bitpos / 32) by (apply Z.div_pos; lia).
  replace ((bitpos + 32) / 32) with (bitpos / 32 + 1)
    by (apply (Z.div_unique _ _ _ (bitpos mod 32)); lia).
  rewrite funnelshift_l_bit by (try lia; intros; apply byte_swap_high; assumption).
  destruct (Z.leb_spec (bitpos mod 32) (31 - j)) as [H | H].
  - replace (31 - j - bitpos mod 32) with (31 - (bitpos mod 32 + j)) by lia.
    rewrite swapped_word_bit by lia. f_equal. lia.
  - replace (31 - j + 32 - bitpos mod 32) with (31 - (bitpos mod 32 + j - 32)) by lia.
    rewrite swapped_word_bit by lia. f_equal. lia.
Qed.

Lemma be_word_range (bs : orc_bytestream_s) (bitpos : Z) : 0 <= be_word bs bitpos < 2 ^ 32.
Proof. unfold be_word, funnelshift_l. apply u32_range. Qed.

Lemma readbits_shr (bs : orc_bytestream_s) (bitpos numbits : Z) :
  bytestream_readbits bs bitpos numbits = shr_u32 (be_word bs bitpos) (u32 (32 - numbits)).
Proof. reflexivity. Qed.

Lemma readbits_be_word (bs : orc_bytestream_s) (bitpos numbits : Z) :
  0 <= numbits <= 32 ->
  bytestream_readbits bs bitpos numbits = Z.shiftr (be_word bs bitpos) (32 - numbits).
Proof.
  intros Hn. rewrite readbits_shr. unfold shr_u32. rewrite u32_small by lia.
  destruct (Z.ltb_spec (32 - numbits) 32) as [H | H]; [reflexivity |].
  replace (32 - numbits) with 32 by lia.
  pose proof (be_word_range bs bitpos) as Hr.
  rewrite Z.shiftr_div_pow2 by lia. symmetry. apply Z.div_small. exact Hr.
Qed.

(** Whatever the number of bits asked for, the result is a [uint32_t]. *)
Lemma readbits_range (bs : orc_bytestream_s) (bitpos numbits : Z) :
  0 <= bytestream_readbits bs bitpos numbits < 2 ^ 32.
Proof.
  rewrite readbits_shr. unfold shr_u32.
  pose proof (be_word_range bs bitpos) as Hr.
  destruct (u32 (32 - numbits) <? 32) eqn:E; [| lia].
  pose proof (u32_range (32 - numbits)) as Hu.
  rewrite Z.shiftr_div_pow2 by lia.
  split; [apply Z.div_pos; lia |].
  apply Z.div_lt_upper_bound; [lia |].
  assert (1 <= 2 ^ u32 (32 - numbits)) by (apply Z.pow_le_mono_r with (b := 0); lia).
  nia.
Qed.

Lemma readbits64_be_word (bs : orc_bytestream_s) (bitpos numbits : Z) :
  bytestream_readbits64 bs bitpos numbits
  = Z.shiftr (Z.lor (Z.shiftl (be_word bs bitpos) 32) (be_word bs (bitpos + 32)))
      (64 - numbits).
Proof.
  unfold bytestream_readbits64, be_word. cbv zeta.
  replace (Z.land (bitpos + 32) 31) with (Z.land bitpos 31).
  2:{ change 31 with 0x1f. rewrite !land_31.
      rewrite <- (Z.add_mod_idemp_r bitpos 32 32) by lia.
      change (32 mod 32) with 0. rewrite Z.add_0_r. reflexivity. }
  replace (bitpos + 32 + 32) with (bitpos + 64) by lia. reflexivity.
Qed.

Lemma shiftr_range (x a n : Z) :
  0 <= x < 2 ^ a -> 0 <= n <= a -> 0 <= Z.shiftr x (a - n) < 2 ^ n.
Proof.
  intros Hx Hn. rewrite Z.shiftr_div_pow2 by lia.
  split; [apply Z.div_pos; lia |].
  apply Z.div_lt_upper_bound; [lia |].
  rewrite <- Z.pow_add_r by lia. replace (a - n + n) with a by lia. lia.
Qed.


(** ** The groups of [Integer_RLEv2] *)




Section Rlev2Groups.
Variable T : elem_type.
Variable bs : orc_bytestream_s.
Variables p0 maxvals maxpos : Z.
Variable vals0 : arr.
Hypothesis Hmax : 0 <= maxvals <= 1024.
Hypothesis Hp0 : 0 <= p0.
Hypothesis Hmaxpos : maxpos + 8192 <= 2 ^ 32.



End Rlev2Groups.





























(** ** The patch list of [Integer_RLEv2] *)

Lemma sum_below_const (f : arr) (g n : Z) :
  0 <= n -> (forall j, 0 <= j < n -> f j = g) -> sum_below f n = n * g.
Proof.
  intros Hn Hf. unfold sum_below.
  assert (H : forall k, (k <= Z.to_nat n)%nat -> sum_upto f k = Z.of_nat k * g).
  { induction k as [| k IH]; intros Hk; cbn [sum_upto]; [lia |].
    rewrite IH by lia. rewrite Hf by lia. lia. }
  rewrite H by lia. rewrite Z2Nat.id by lia. reflexivity.
Qed.

(** The shuffles sum the gaps of the lanes: lane [tr] of a list of [pll]
    equal gaps [g] ends with [(tr + 1) * g]. *)
Lemma patch_positions (a : arr) (g pll : Z) :
  0 <= g -> 32 * g < 2 ^ 32 -> 0 <= pll < 32 ->
  (forall tr, 0 <= tr < pll -> a tr = g) ->
  (forall tr, 0 <= a tr < 2 ^ 32) ->
  exists pp,
    scan_loop 32 U32 0 32 pll 1 a = Some pp /\
    forall tr, 0 <= tr < pll -> pp tr = (tr + 1) * g.
Proof.
  intros Hg Hg32 Hpll Ha Hr.
  destruct (scan_loop_spec U32 a 0 32 pll ltac:(lia) 32 0 a ltac:(lia))
    as (pp & k' & Hloop & Hk & Hb & Hs & _ & Hw).
  - change (2 ^ (0 + Z.of_nat 32)) with 4294967296. lia.
  - apply scan_inv_init.
  - change (2 ^ 0) with 1 in Hloop.
    exists pp. split; [exact Hloop |].
    intros tr Htr.
    specialize (Hs tr ltac:(lia)). cbn [wrapT] in Hs, Hw.
    replace (0 + tr) with tr in Hs by lia.
    rewrite (Hw tr) in Hs by (apply u32_small, Hr).
    rewrite block_start_small in Hs by lia.
    change (sum_below (shift_arr a 0) 0) with 0 in Hs.
    rewrite Z.sub_0_r in Hs.
    rewrite (sum_below_const (shift_arr a 0) g (tr + 1)) in Hs.
    + rewrite Hs. apply u32_small. nia.
    + lia.
    + intros j Hj. unfold shift_arr. rewrite Z.add_0_l. apply Ha. lia.
Qed.

Lemma fold_upd_other (P : Z -> bool) (idx : Z -> Z) (val : arr -> Z -> Z) (j : Z)
    (l : list Z) :
  (forall tr, In tr l -> P tr = true -> idx tr <> j) ->
  forall v, fold_left (fun v tr => if P tr then upd v (idx tr) (val v tr) else v) l v j = v j.
Proof.
  induction l as [| tr l IH]; intros H v; cbn [fold_left]; [reflexivity |].
  rewrite IH by (intros t Ht; apply H; right; exact Ht).
  destruct (P tr) eqn:E; [| reflexivity].
  unfold upd. replace (j =? idx tr) with false; [reflexivity |].
  symmetry. apply Z.eqb_neq. intros ->. exact (H tr (or_introl eq_refl) E eq_refl).
Qed.

(** Updates at distinct cells: each cell receives its update. *)
Lemma fold_upd_distinct (P : Z -> bool) (idx : Z -> Z) (val : arr -> Z -> Z) (l : list Z) :
  NoDup l ->
  (forall t t', In t l -> In t' l -> P t = true -> P t' = true -> idx t = idx t' -> t = t') ->
  (forall v v' tr, v (idx tr) = v' (idx tr) -> val v tr = val v' tr) ->
  forall v tr, In tr l -> P tr = true ->
    fold_left (fun v tr => if P tr then upd v (idx tr) (val v tr) else v) l v (idx tr)
    = val v tr.
Proof.
  intros Hnd. induction Hnd as [| t l Hnotin Hnd IH]; intros Hinj Hval v tr Hin HP;
    [destruct Hin |].
  cbn [fold_left]. destruct Hin as [-> | Hin].
  - rewrite HP. rewrite fold_upd_other.
    + unfold upd. rewrite Z.eqb_refl. reflexivity.
    + intros t' Ht' HP' E. apply Hnotin.
      rewrite <- (Hinj t' tr (or_intror Ht') (or_introl eq_refl) HP' HP E). exact Ht'.
  - rewrite IH; try assumption.
    + apply Hval. destruct (P t) eqn:Et; [| reflexivity].
      unfold upd. replace (idx tr =? idx t) with false; [reflexivity |].
      symmetry. apply Z.eqb_neq. intros E. apply Hnotin.
      rewrite (Hinj t tr (or_introl eq_refl) (or_intror Hin) Et HP (eq_sym E)). exact Hin.
    + intros a b Ha Hb. apply Hinj; right; assumption.
Qed.

Lemma lanes_in (t : Z) : In t lanes <-> 0 <= t < 32.
Proof.
  unfold lanes. rewrite in_map_iff. split.
  - intros (k & <- & Hk). apply in_seq in Hk. lia.
  - intros Ht. exists (Z.to_nat t). split; [lia |]. apply in_seq. lia.
Qed.

Lemma lanes_nodup : NoDup lanes.
Proof.
  unfold lanes. generalize (seq_NoDup 32 0). generalize (seq 0 32).
  induction 1 as [| k l Hk Hnd IH]; cbn [map]; constructor; [| exact IH].
  rewrite in_map_iff. intros (k' & E & Hk'). apply Nat2Z.inj in E. subst k'. exact (Hk Hk').
Qed.

Lemma patch_gap_bound (x pw pgw : Z) :
  0 <= pw -> 1 <= pgw <= 8 -> 0 <= x < 2 ^ (pgw + pw) -> pgw + pw <= 32 ->
  0 <= Z.shiftr (u32 (x + 1)) pw <= 256.
Proof.
  intros Hpw Hpgw Hx Hle.
  assert (H32 : 2 ^ (pgw + pw) <= 2 ^ 32) by (apply Z.pow_le_mono_r; lia).
  pose proof (u32_range (x + 1)) as Hr.
  assert (He : u32 (x + 1) <= 2 ^ (pgw + pw)).
  { destruct (Z.eq_dec (x + 1) (2 ^ 32)) as [E | E].
    - rewrite E. change (u32 (2 ^ 32)) with 0. lia.
    - rewrite u32_small by lia. lia. }
  rewrite Z.shiftr_div_pow2 by lia.
  assert (Hpos : 0 < 2 ^ pw) by (apply Z.pow_pos_nonneg; lia).
  split; [apply Z.div_pos; lia |].
  assert (H8 : 2 ^ pgw <= 2 ^ 8) by (apply Z.pow_le_mono_r; lia).
  change (2 ^ 8) with 256 in H8.
  rewrite Z.pow_add_r in He by lia.
  assert (u32 (x + 1) / 2 ^ pw <= 2 ^ pgw); [| lia].
  apply Z.div_le_upper_bound; [lia |]. lia.
Qed.

(** The patches of a patched base group all come from the first entry of
    the patch list. *)
Lemma rlev2_patch_spec (T : elem_type) (bs : orc_bytestream_s)
    (rle : orc_rlev2_state_s) (r : Z) (run : rlev2_run) (vals : arr) :
  let pll := rlev2_patch_count rle r in
  let g := rlev2_patch_gap bs rle r run in
  let patch := rlev2_patch_bits bs rle r run in
  rlev2_patch_gap_width rle r + rlev2_patch_width rle r <= 32 ->
  1 <= g ->
  exists vals',
    rlev2_patch T bs rle r run vals = Some vals' /\
    (forall tr, 0 <= tr < pll -> (tr + 1) * g < r_n run ->
       vals' (r_base run + (tr + 1) * g)
       = wrapT T (vals (r_base run + (tr + 1) * g) + u32 (Z.shiftl patch (r_w run)))) /\
    (forall c, (forall tr, 0 <= tr < pll -> (tr + 1) * g < r_n run ->
                  c <> r_base run + (tr + 1) * g) ->
       vals' c = vals c).
Proof.
  intros pll g patch Hwid Hg.
  unfold rlev2_patch. cbv zeta.
  fold (rlev2_patch_width rle r) (rlev2_patch_gap_width rle r) (rlev2_patch_count rle r).
  fold pll.
  set (pw := rlev2_patch_width rle r) in *.
  set (pgw := rlev2_patch_gap_width rle r) in *.
  assert (Hpw : 0 <= pw).
  { unfold pw, rlev2_patch_width. apply Z.shiftr_nonneg. unfold u16.
    apply Z.mod_pos_bound. lia. }
  assert (Hpgw : 1 <= pgw <= 8).
  { unfold pgw, rlev2_patch_gap_width.
    pose proof (land_range (Z.shiftr (u16 (m2_pw_byte3 rle r)) 5) 3 ltac:(lia)) as H.
    change (Z.ones 3) with 7 in H. change (2 ^ 3) with 8 in H. lia. }
  assert (Hpll : 0 <= pll < 32).
  { unfold pll, rlev2_patch_count.
    pose proof (land_range (u16 (m2_pw_byte3 rle r)) 5 ltac:(lia)) as H.
    change (Z.ones 5) with 0x1f in H. change (2 ^ 5) with 32 in H. exact H. }
  fold (rlev2_patch_entry bs rle r run).
  set (e := rlev2_patch_entry bs rle r run) in *.
  assert (Hgb : 0 <= g <= 256).
  { unfold g, rlev2_patch_gap. fold pw. unfold e, rlev2_patch_entry. fold pw pgw.
    apply (patch_gap_bound _ pw pgw); try assumption.
    rewrite readbits_be_word by lia.
    apply (shiftr_range _ 32 (pgw + pw)); [apply be_word_range | lia]. }
  set (pp0 := fun tr : Z => Z.shiftr (if tr <? pll then e else 0) pw).
  assert (He : 0 <= e < 2 ^ 32) by (unfold e, rlev2_patch_entry; apply u32_range).
  destruct (patch_positions pp0 g pll) as (pp & Hloop & Hpp); try lia.
  - intros tr Htr. unfold pp0.
    replace (tr <? pll) with true by (symmetry; apply Z.ltb_lt; lia). reflexivity.
  - intros tr. unfold pp0. destruct (tr <? pll).
    + change (Z.shiftr e pw) with g. lia.
    + rewrite Z.shiftr_0_l. lia.
  - match goal with
    | |- context [scan_loop 32 U32 0 32 pll 1 ?f] => change f with pp0
    end.
    rewrite Hloop. cbn [obind]. eexists. split; [reflexivity |].
    set (P := fun tr => (tr <? pll) && (pp tr <? r_n run)).
    set (idx := fun tr => r_base run + pp tr).
    set (val := fun (v : arr) (tr : Z) =>
                  wrapT T (v (r_base run + pp tr)
                           + u32 (Z.shiftl (Z.land (if tr <? pll then e else 0)
                                              (u32 (u32 (Z.shiftl 1 pw) - 1))) (r_w run)))).
    change (fold_left _ lanes vals)
      with (fold_left (fun v tr => if P tr then upd v (idx tr) (val v tr) else v) lanes vals).
    split.
    + intros tr Htr Hlt.
      rewrite <- (Hpp tr Htr).
      change (r_base run + pp tr) with (idx tr).
      rewrite fold_upd_distinct.
      * unfold val, idx.
        replace (tr <? pll) with true by (symmetry; apply Z.ltb_lt; lia). reflexivity.
      * apply lanes_nodup.
      * intros t t' Ht Ht' HPt HPt' E. unfold P, idx in *.
        apply andb_true_iff in HPt, HPt'. destruct HPt as [H1 _]. destruct HPt' as [H1' _].
        apply Z.ltb_lt in H1, H1'. apply lanes_in in Ht, Ht'.
        rewrite (Hpp t), (Hpp t') in E by lia. nia.
      * intros v v' t E. unfold val. fold (idx t). rewrite E. reflexivity.
      * apply lanes_in. lia.
      * unfold P. rewrite (Hpp tr Htr).
        replace (tr <? pll) with true by (symmetry; apply Z.ltb_lt; lia).
        apply Z.ltb_lt. exact Hlt.
    + intros c Hc. apply fold_upd_other.
      intros tr Hin HP E. unfold P, idx in *.
      apply andb_true_iff in HP. destruct HP as [H1 H2].
      apply Z.ltb_lt in H1, H2. apply lanes_in in Hin.
      rewrite (Hpp tr) in E, H2 by lia.
      apply (Hc tr); [lia | exact H2 | symmetry; exact E].
Qed.


(** ** The row windows of the column data kernel *)

Lemma of_nat_seq_in (n : nat) (t : Z) :
  In t (map Z.of_nat (seq 0 n)) <-> 0 <= t < Z.of_nat n.
Proof.
  rewrite in_map_iff. split.
  - intros (k & <- & Hk). apply in_seq in Hk. lia.
  - intros Ht. exists (Z.to_nat t). split; [lia |]. apply in_seq. lia.
Qed.

Lemma of_nat_seq_nodup (n : nat) : NoDup (map Z.of_nat (seq 0 n)).
Proof.
  generalize (seq_NoDup n 0). generalize (seq 0 n).
  induction 1 as [| k l Hk Hnd IH]; cbn [map]; constructor; [| exact IH].
  rewrite in_map_iff. intros (k' & E & Hk'). apply Nat2Z.inj in E. subst k'. exact (Hk Hk').
Qed.

Lemma threads_in (t : Z) : In t threads <-> 0 <= t < NTHREADS.
Proof. unfold threads. rewrite of_nat_seq_in. change NTHREADS with 1024. lia. Qed.

Lemma fold_left_ext {A B : Type} (f g : A -> B -> A) (l : list B) :
  (forall a b, f a b = g a b) -> forall a, fold_left f l a = fold_left g l a.
Proof.
  intros H. induction l as [| b l IH]; intros a; cbn [fold_left]; [reflexivity |].
  rewrite H. apply IH.
Qed.

Lemma window_valid_range (vmem : arr) (vmb first_row : Z) (d : orc_datadec_state_s)
    (n t : Z) :
  0 <= window_valid vmem vmb first_row d n t <= 1.
Proof.
  unfold window_valid. cbv zeta.
  match goal with |- 0 <= (if ?c then _ else _) <= 1 => destruct c; [| lia] end.
  match goal with
  | |- 0 <= Z.land ?x 1 <= 1 =>
      pose proof (land_range x 1 ltac:(lia)) as H; change (Z.ones 1) with 1 in H;
        change (2 ^ 1) with 2 in H; lia
  end.
Qed.

Lemma window_rank_succ (valid : arr) (t : Z) :
  0 <= t -> window_rank valid t = window_rank valid (t - 1) + valid t.
Proof.
  intros Ht. unfold window_rank. rewrite sum_below_succ by lia.
  replace (t - 1 + 1) with t by lia. reflexivity.
Qed.

Lemma window_rank_mono (valid : arr) (t : Z) (k : nat) :
  (forall j, 0 <= valid j <= 1) -> -1 <= t ->
  window_rank valid t <= window_rank valid (t + Z.of_nat k) <= window_rank valid t + Z.of_nat k.
Proof.
  intros Hv Ht. induction k as [| k IH]; [rewrite Z.add_0_r; lia |].
  rewrite Nat2Z.inj_succ.
  replace (t + Z.succ (Z.of_nat k)) with (t + Z.of_nat k + 1) by lia.
  rewrite (window_rank_succ valid (t + Z.of_nat k + 1)) by lia.
  replace (t + Z.of_nat k + 1 - 1) with (t + Z.of_nat k) by lia.
  specialize (Hv (t + Z.of_nat k + 1)). lia.
Qed.

Lemma window_rank_range (valid : arr) (t : Z) :
  (forall j, 0 <= valid j <= 1) -> -1 <= t -> 0 <= window_rank valid t <= t + 1.
Proof.
  intros Hv Ht.
  pose proof (window_rank_mono valid (-1) (Z.to_nat (t + 1)) Hv ltac:(lia)) as H.
  replace (-1 + Z.of_nat (Z.to_nat (t + 1))) with t in H by lia.
  change (window_rank valid (-1)) with 0 in H. lia.
Qed.

(** Valid rows have distinct ranks. *)
Lemma window_rank_lt (valid : arr) (t t' : Z) :
  (forall j, 0 <= valid j <= 1) -> 0 <= t < t' -> valid t' = 1 ->
  window_rank valid t < window_rank valid t'.
Proof.
  intros Hv Ht Hv'.
  pose proof (window_rank_mono valid t (Z.to_nat (t' - 1 - t)) Hv ltac:(lia)) as H.
  replace (t + Z.of_nat (Z.to_nat (t' - 1 - t))) with (t' - 1) in H by lia.
  rewrite (window_rank_succ valid t') by lia. lia.
Qed.

(** Every rank up to the last one is the rank of a valid row. *)
Lemma window_rank_find (valid : arr) (k : Z) (n : nat) :
  (forall j, 0 <= valid j <= 1) ->
  1 <= k <= window_rank valid (Z.of_nat n - 1) ->
  exists t, 0 <= t < Z.of_nat n /\ valid t = 1 /\ window_rank valid t = k.
Proof.
  intros Hv. induction n as [| n IH]; intros Hk.
  - change (window_rank valid (Z.of_nat 0 - 1)) with 0 in Hk. lia.
  - replace (Z.of_nat (S n) - 1) with (Z.of_nat n) in Hk by lia.
    rewrite window_rank_succ in Hk by lia.
    destruct (Z.le_gt_cases k (window_rank valid (Z.of_nat n - 1))) as [Hle | Hgt].
    + destruct (IH ltac:(lia)) as (t & Ht & H1 & H2). exists t. split; [lia | auto].
    + exists (Z.of_nat n). specialize (Hv (Z.of_nat n)).
      split; [lia |]. split; [lia |].
      rewrite window_rank_succ by lia. lia.
Qed.

(** A window of rows of a chunk with a PRESENT stream. *)
Lemma window_present_spec (vmem : arr) (vmb first_row : Z) (d : orc_datadec_state_s)
    (n : Z) :
  1 <= n <= NTHREADS -> 0 <= max_vals d < NTHREADS ->
  0 <= nrows d -> nrows d + n <= 2 ^ 16 ->
  let valid := window_valid vmem vmb first_row d n in
  let total := max_vals d + window_rank valid (n - 1) in
  exists d',
    window_present vmem vmb first_row d n = Some d' /\
    cur_row d' = cur_row d /\ end_row d' = end_row d /\
    max_vals d' = Z.min total NTHREADS /\
    (forall t, 0 <= t < n -> valid t = 1 ->
       row_ofs_plus1 d' (max_vals d + window_rank valid t - 1) = nrows d + t) /\
    (total <= NTHREADS -> nrows d' = nrows d + n) /\
    (NTHREADS < total ->
     exists t, 0 <= t < n /\ valid t = 1 /\
               max_vals d + window_rank valid t = NTHREADS /\ nrows d' = nrows d + t).
Proof.
  intros Hn Hlo Hnr Hnr16 valid total.
  change NTHREADS with 1024 in *.
  assert (Hv : forall j, 0 <= valid j <= 1) by (intros j; apply window_valid_range).
  unfold window_present. fold valid. cbv zeta.
  set (lo := max_vals d) in *.
  set (ro0 := fun k : Z =>
                if (0 <=? k - lo) && (k - lo <? NTHREADS) && (k - lo <? n)
                then u16 (valid (k - lo)) else row_ofs_plus1 d k).
  unfold lengths_to_positions_at.
  change NTHREADS with 1024. rewrite (Z.min_l n 1024) by lia.
  assert (Hnn : 0 <= n <= n) by lia.
  assert (Hn31 : n <= 2 ^ 31) by lia.
  destruct (scan_loop_sums U16 ro0 lo n n Hnn Hn31) as (ro & Hloop & Hsum & _ & _).
  rewrite Hloop. cbn [obind].
  assert (Hrank : forall j, 0 <= j < n -> u16 (ro (lo + j)) = window_rank valid j).
  { intros j Hj. specialize (Hsum j Hj). cbn [wrapT] in Hsum. rewrite Hsum.
    rewrite (sum_below_ext (shift_arr ro0 lo) valid (j + 1)).
    - pose proof (window_rank_range valid j Hv ltac:(lia)) as Hr.
      unfold window_rank in Hr |- *. apply u16_small. lia.
    - intros i Hi. unfold shift_arr, ro0.
      replace (lo + i - lo) with i by lia.
      replace (0 <=? i) with true by (symmetry; apply Z.leb_le; lia).
      replace (i <? NTHREADS) with true
        by (symmetry; apply Z.ltb_lt; change NTHREADS with 1024; lia).
      replace (i <? n) with true by (symmetry; apply Z.ltb_lt; lia).
      cbn [andb]. apply u16_small. specialize (Hv i). lia. }
  pose proof (window_rank_range valid (n - 1) Hv ltac:(lia)) as Htot.
  rewrite (Hrank (n - 1)) by lia.
  rewrite (u32_small (lo + window_rank valid (n - 1))) by lia.
  fold total.
  set (P := fun t => negb (valid t =? 0)).
  set (idx := fun t => lo + (window_nz_pos valid ro lo t - 1)).
  set (val := fun (_ : arr) (t : Z) => u16 (nrows d + t)).
  rewrite (fold_left_ext _ (fun a t => if P t then upd a (idx t) (val a t) else a))
    by (intros a t; unfold P, idx, val; destruct (valid t =? 0); reflexivity).
  set (ro' := fold_left (fun a t => if P t then upd a (idx t) (val a t) else a) threads ro).
  assert (Hval0 : forall t, P t = true -> 0 <= t < NTHREADS -> 0 <= t < n /\ valid t = 1).
  { intros t HP Ht. unfold P in HP. apply negb_true_iff, Z.eqb_neq in HP.
    specialize (Hv t). split; [| lia].
    destruct (Z.lt_ge_cases t n) as [Hlt | Hge]; [lia |].
    exfalso. apply HP. unfold valid, window_valid. cbv zeta.
    replace (t <? n) with false by (symmetry; apply Z.ltb_ge; lia). reflexivity. }
  assert (Hidx : forall t, 0 <= t < n -> valid t = 1 -> idx t = lo + window_rank valid t - 1).
  { intros t Ht H1. unfold idx, window_nz_pos. rewrite H1. cbn [Z.eqb].
    rewrite Hrank by lia. lia. }
  assert (Hslot : forall t, 0 <= t < n -> valid t = 1 ->
            ro' (lo + window_rank valid t - 1) = nrows d + t).
  { intros t Ht H1. rewrite <- (Hidx t Ht H1). unfold ro'.
    rewrite fold_upd_distinct.
    - unfold val. apply u16_small. lia.
    - apply of_nat_seq_nodup.
    - intros a b Ha Hb HPa HPb E.
      apply threads_in in Ha, Hb.
      destruct (Hval0 a HPa Ha) as (Ha1 & Ha2). destruct (Hval0 b HPb Hb) as (Hb1 & Hb2).
      rewrite (Hidx a), (Hidx b) in E by assumption.
      destruct (Z.lt_trichotomy a b) as [Hlt | [Heq | Hgt]]; [| exact Heq |].
      + pose proof (window_rank_lt valid a b Hv ltac:(lia) Hb2). lia.
      + pose proof (window_rank_lt valid b a Hv ltac:(lia) Ha2). lia.
    - intros v v' t0 _. reflexivity.
    - apply threads_in. change NTHREADS with 1024. lia.
    - unfold P. rewrite H1. reflexivity. }
  destruct (1024 <? total) eqn:Efull.
  - apply Z.ltb_lt in Efull.
    eexists. split; [reflexivity |].
    cbn [set_window cur_row end_row max_vals nrows row_ofs_plus1].
    split; [reflexivity |]. split; [reflexivity |].
    split; [lia |]. split; [exact Hslot |]. split; [lia |].
    intros _.
    destruct (window_rank_find valid (1024 - lo) (Z.to_nat n) Hv) as (t & Ht & H1 & H2).
    { rewrite Z2Nat.id by lia. unfold total in Efull. lia. }
    rewrite Z2Nat.id in Ht by lia.
    exists t. split; [exact Ht |]. split; [exact H1 |]. split; [lia |].
    replace (1024 - 1) with (lo + window_rank valid t - 1) by lia.
    rewrite (Hslot t Ht H1). apply u16_small. lia.
  - apply Z.ltb_ge in Efull.
    eexists. split; [reflexivity |].
    cbn [set_window cur_row end_row max_vals nrows row_ofs_plus1].
    split; [reflexivity |]. split; [reflexivity |].
    split; [lia |]. split; [exact Hslot |]. split; [| lia].
    intros _. apply u32_small. lia.
Qed.

(** The bit that the column data kernel reads through the byte view of the
    bitmap is the bit of the word view. *)
Lemma valid_map_byte_bit (vmem : arr) (vmb r : Z) :
  0 <= r ->
  Z.land (Z.shiftr (valid_map_byte vmem vmb (Z.shiftr r 3)) (Z.land r 7)) 1
  = Z.b2z (bitmap_bit vmem vmb r).
Proof.
  intros Hr. unfold valid_map_byte, bitmap_bit.
  change 1 with (Z.ones 1) at 1. rewrite Z.land_ones by lia.
  change (2 ^ 1) with 2. rewrite <- Z.bit0_mod.
  rewrite Z.shiftr_spec by lia. rewrite Z.add_0_l.
  rewrite land_7, land_31, shiftr5, !shiftr3.
  change 0xff with (Z.ones 8). rewrite Z.land_ones by lia.
  pose proof (Z.mod_pos_bound r 8 ltac:(lia)) as H8.
  rewrite Z.mod_pow2_bits_low by lia.
  change 3 with (Z.ones 2). rewrite Z.land_ones by lia. change (2 ^ 2) with 4.
  rewrite Z.shiftr_spec by lia.
  rewrite Z.shiftr_div_pow2 by lia. change (2 ^ 2) with 4.
  pose proof (Z.mod_pos_bound (r / 8) 4 ltac:(lia)) as H4.
  pose proof (Z.div_mod r 8 ltac:(lia)) as Hd8.
  pose proof (Z.div_mod (r / 8) 4 ltac:(lia)) as Hd4.
  replace (r / 32) with (r / 8 / 4)
    by (rewrite Z.div_div by lia; reflexivity).
  replace (r mod 32) with (r mod 8 + 8 * (r / 8 mod 4))
    by (apply (Z.mod_unique _ _ (r / 8 / 4)); lia).
  reflexivity.
Qed.

Lemma row_window_done (fuel : nat) (vmem : arr) (chunk : ColumnDesc) (first_row : Z)
    (d : orc_datadec_state_s) :
  (max_vals d <? NTHREADS) && (u32 (cur_row d + nrows d) <? end_row d)
    && (nrows d <? 0xfe00) = false ->
  row_window fuel vmem chunk first_row d = Some d.
Proof. intros H. destruct fuel; cbn [row_window]; rewrite H; reflexivity. Qed.

(** The number of rows of a window. *)
Lemma window_rows_range (d : orc_datadec_state_s) :
  0 <= cur_row d -> end_row d < 2 ^ 32 -> 0 <= nrows d < 0xfe00 ->
  cur_row d + nrows d < end_row d ->
  let n := Z.min (u32 (end_row d - cur_row d)) (Z.min (u32 (0xfe00 - nrows d)) NTHREADS) in
  1 <= n <= NTHREADS /\ nrows d + n <= 0xfe00 /\ n <= end_row d - cur_row d.
Proof.
  intros Hc He Hn Hlt. cbv zeta. change NTHREADS with 1024.
  rewrite (u32_small (end_row d - cur_row d)) by lia.
  rewrite (u32_small (0xfe00 - nrows d)) by lia. lia.
Qed.

(** A chunk without PRESENT stream: one window fills the batch. *)
Lemma row_window_all_valid_spec (fuel : nat) (vmem : arr) (chunk : ColumnDesc)
    (first_row : Z) (d : orc_datadec_state_s) :
  (1 <= fuel)%nat -> strm_len chunk CI_PRESENT <= 0 -> 0 <= skip_count chunk ->
  0 <= cur_row d < end_row d -> end_row d < 2 ^ 32 ->
  let mv0 := Z.min (skip_count chunk) NTHREADS in
  let mv := Z.min (mv0 + (end_row d - cur_row d)) NTHREADS in
  exists d',
    row_window fuel vmem chunk first_row (batch_start chunk d) = Some d' /\
    cur_row d' = cur_row d /\ end_row d' = end_row d /\
    max_vals d' = mv /\ nrows d' = mv - mv0 /\
    (forall t, 0 <= t < mv0 -> row_ofs_plus1 d' t = 0) /\
    (forall t, mv0 <= t < mv -> row_ofs_plus1 d' t = t - mv0 + 1).
Proof.
  intros Hfuel Hpres Hskip Hc He. cbv zeta.
  change NTHREADS with 1024.
  set (mv0 := Z.min (skip_count chunk) 1024).
  set (d0 := batch_start chunk d).
  assert (F0 : cur_row d0 = cur_row d /\ end_row d0 = end_row d /\ max_vals d0 = mv0 /\
               nrows d0 = 0 /\
               (forall t, 0 <= t < mv0 -> row_ofs_plus1 d0 t = 0)).
  { unfold d0, batch_start. cbn [set_window cur_row end_row max_vals nrows row_ofs_plus1].
    change NTHREADS with 1024. fold mv0.
    repeat (split; [reflexivity |]).
    intros t Ht.
    replace (0 <=? t) with true by (symmetry; apply Z.leb_le; lia).
    replace (t <? 1024) with true by (symmetry; apply Z.ltb_lt; lia).
    replace (t <? mv0) with true by (symmetry; apply Z.ltb_lt; lia).
    reflexivity. }
  destruct F0 as (F1 & F2 & F3 & F4 & F5).
  destruct (Z.eq_dec mv0 1024) as [Efull | Hnfull].
  - exists d0. split.
    + apply row_window_done. rewrite F3, Efull. reflexivity.
    + rewrite F1, F2, F3, F4, Efull.
      split; [reflexivity |]. split; [reflexivity |]. split; [lia |]. split; [lia |].
      split; [intros t Ht; apply F5; lia | intros t Ht; lia].
  - destruct fuel as [| f]; [lia |]. cbn [row_window].
    rewrite F1, F2, F3, F4. rewrite Z.add_0_r, (u32_small (cur_row d)) by lia.
    change NTHREADS with 1024.
    replace (mv0 <? 1024) with true by (symmetry; apply Z.ltb_lt; lia).
    replace (cur_row d <? end_row d) with true by (symmetry; apply Z.ltb_lt; lia).
    change (0 <? 65024) with true. cbn [andb].
    replace (0 <? strm_len chunk CI_PRESENT) with false by (symmetry; apply Z.ltb_ge; lia).
    cbn [obind].
    rewrite (u32_small (end_row d - cur_row d)) by lia.
    change (u32 (65024 - 0)) with 65024. rewrite (Z.min_r 65024 1024) by lia.
    set (n := Z.min (end_row d - cur_row d) 1024).
    set (d1 := window_all_valid d0 n).
    assert (G : cur_row d1 = cur_row d /\ end_row d1 = end_row d /\
                max_vals d1 = mv0 + Z.min n (1024 - mv0) /\
                nrows d1 = Z.min n (1024 - mv0) /\
                (forall t, 0 <= t < mv0 -> row_ofs_plus1 d1 t = 0) /\
                (forall t, mv0 <= t < mv0 + Z.min n (1024 - mv0) ->
                   row_ofs_plus1 d1 t = t - mv0 + 1)).
    { unfold d1, window_all_valid. cbv zeta.
      cbn [set_window cur_row end_row max_vals nrows row_ofs_plus1].
      rewrite F1, F2, F3, F4. change NTHREADS with 1024.
      rewrite (u32_small (1024 - mv0)) by lia.
      rewrite (u32_small (mv0 + _)) by lia.
      rewrite (u32_small (0 + _)) by lia.
      split; [reflexivity |]. split; [reflexivity |]. split; [reflexivity |].
      split; [lia |]. split.
      - intros t Ht.
        replace (0 <=? t - mv0) with false by (symmetry; apply Z.leb_gt; lia).
        cbn [andb]. apply F5. exact Ht.
      - intros t Ht.
        replace (0 <=? t - mv0) with true by (symmetry; apply Z.leb_le; lia).
        replace (t - mv0 <? 1024) with true by (symmetry; apply Z.ltb_lt; lia).
        replace (t - mv0 <? Z.min n (1024 - mv0)) with true
          by (symmetry; apply Z.ltb_lt; lia).
        cbn [andb]. apply u16_small. lia. }
    destruct G as (G1 & G2 & G3 & G4 & G5 & G6).
    exists d1. split.
    + apply row_window_done. rewrite G1, G2, G3, G4. change NTHREADS with 1024.
      destruct (Z.le_gt_cases (1024 - mv0) n) as [Hle | Hgt].
      * rewrite Z.min_r by lia.
        replace (mv0 + (1024 - mv0) <? 1024) with false by (symmetry; apply Z.ltb_ge; lia).
        reflexivity.
      * rewrite Z.min_l by lia.
        assert (n = end_row d - cur_row d) by lia.
        rewrite u32_small by lia.
        replace (cur_row d + n <? end_row d) with false by (symmetry; apply Z.ltb_ge; lia).
        apply andb_false_intro1, andb_false_r.
    + rewrite G1, G2, G3, G4.
      split; [reflexivity |]. split; [reflexivity |]. split; [lia |]. split; [lia |].
      split; [exact G5 |]. intros t Ht. apply G6. lia.
Qed.

(** The loop over the windows returns within [0xfe00] iterations. *)
Lemma row_window_fuel (vmem : arr) (chunk : ColumnDesc) (first_row : Z) (fuel : nat) :
  forall d : orc_datadec_state_s,
    0 <= max_vals d <= NTHREADS -> 0 <= nrows d <= 0xfe00 ->
    0 <= cur_row d -> cur_row d + 0xfe00 < 2 ^ 32 -> end_row d < 2 ^ 32 ->
    (Z.to_nat (0xfe00 - nrows d) <= fuel)%nat ->
    exists d',
      row_window fuel vmem chunk first_row d = Some d' /\
      cur_row d' = cur_row d /\ end_row d' = end_row d /\
      max_vals d <= max_vals d' <= NTHREADS /\ nrows d <= nrows d' <= 0xfe00 /\
      (max_vals d' = NTHREADS \/ end_row d <= cur_row d + nrows d' \/ nrows d' = 0xfe00).
Proof.
  change NTHREADS with 1024.
  induction fuel as [| fuel IH]; intros d Hmv Hnr Hc Hc32 He Hfuel.
  - exists d. split.
    + apply row_window_done.
      replace (nrows d <? 65024) with false by (symmetry; apply Z.ltb_ge; lia).
      apply andb_false_r.
    + repeat (split; [reflexivity || lia |]). right. right. lia.
  - destruct ((max_vals d <? NTHREADS) && (u32 (cur_row d + nrows d) <? end_row d)
              && (nrows d <? 0xfe00)) eqn:Econd.
    2:{ exists d. split; [apply row_window_done; exact Econd |].
        repeat (split; [reflexivity || lia |]).
        rewrite u32_small in Econd by lia. change NTHREADS with 1024 in Econd.
        apply andb_false_iff in Econd. destruct Econd as [Econd | Econd].
        - apply andb_false_iff in Econd. destruct Econd as [Econd | Econd];
            apply Z.ltb_ge in Econd; [left; lia | right; left; lia].
        - apply Z.ltb_ge in Econd. right. right. lia. }
    cbn [row_window]. rewrite Econd.
    rewrite u32_small in Econd by lia. change NTHREADS with 1024 in Econd.
    apply andb_true_iff in Econd. destruct Econd as [Econd E3].
    apply andb_true_iff in Econd. destruct Econd as [E1 E2].
    apply Z.ltb_lt in E1, E2, E3.
    destruct (window_rows_range d Hc He ltac:(lia) E2) as (Hn1 & Hn2 & Hn3).
    change NTHREADS with 1024 in Hn1, Hn2, Hn3 |- *.
    set (n := Z.min (u32 (end_row d - cur_row d)) (Z.min (u32 (65024 - nrows d)) 1024)) in *.
    destruct (0 <? strm_len chunk CI_PRESENT).
    + (* a PRESENT stream *)
      destruct (window_present_spec vmem (valid_map_base chunk) first_row d n
                  ltac:(change NTHREADS with 1024; lia)
                  ltac:(change NTHREADS with 1024; lia) ltac:(lia) ltac:(lia))
        as (d1 & Hw & W1 & W2 & W3 & _ & W5 & W6).
      change NTHREADS with 1024 in W3, W5, W6.
      rewrite Hw. cbn [obind].
      set (valid := window_valid vmem (valid_map_base chunk) first_row d n) in *.
      pose proof (window_rank_range valid (n - 1)
                    ltac:(intros j; apply window_valid_range) ltac:(lia)) as Hrk.
      destruct (Z.le_gt_cases (max_vals d + window_rank valid (n - 1)) 1024) as [Hle | Hgt].
      * specialize (W5 Hle).
        destruct (IH d1) as (d' & Hrun & R1 & R2 & R3 & R4 & R5); try lia.
        exists d'. split; [exact Hrun |].
        rewrite R1, R2, W1, W2. rewrite W1, W2 in R5.
        split; [reflexivity |]. split; [reflexivity |].
        split; [lia |]. split; [lia |]. exact R5.
      * destruct (W6 Hgt) as (t & Ht & _ & _ & Hnr1).
        exists d1. split.
        -- apply row_window_done. rewrite W3. change NTHREADS with 1024.
           rewrite Z.min_r by lia. reflexivity.
        -- rewrite W1, W2, W3. rewrite Z.min_r by lia.
           split; [reflexivity |]. split; [reflexivity |].
           split; [lia |]. split; [lia |]. left. reflexivity.
    + (* all values are valid *)
      cbn [obind].
      set (d1 := window_all_valid d n).
      assert (G : cur_row d1 = cur_row d /\ end_row d1 = end_row d /\
                  max_vals d1 = max_vals d + Z.min n (1024 - max_vals d) /\
                  nrows d1 = nrows d + Z.min n (1024 - max_vals d)).
      { unfold d1, window_all_valid. cbv zeta.
        cbn [set_window cur_row end_row max_vals nrows row_ofs_plus1].
        change NTHREADS with 1024.
        rewrite (u32_small (1024 - max_vals d)) by lia.
        rewrite !u32_small by lia. auto. }
      destruct G as (G1 & G2 & G3 & G4).
      destruct (IH d1) as (d' & Hrun & R1 & R2 & R3 & R4 & R5); try lia.
      exists d'. split; [exact Hrun |].
      rewrite R1, R2, G1, G2. rewrite G1, G2 in R5.
      split; [reflexivity |]. split; [reflexivity |].
      split; [lia |]. split; [lia |]. exact R5.
Qed.

Lemma window_valid_bit (vmem : arr) (vmb first_row : Z) (d : orc_datadec_state_s)
    (n t : Z) :
  let r := u32 (cur_row d + nrows d + t - first_row) in
  let rmax := u32 (end_row d - Z.min (u32 first_row) (end_row d)) in
  window_valid vmem vmb first_row d n t
  = if (t <? n) && (r <? rmax) then Z.b2z (bitmap_bit vmem vmb r) else 0.
Proof.
  cbv zeta. unfold window_valid. cbv zeta.
  destruct ((t <? n) && _); [| reflexivity].
  apply valid_map_byte_bit. apply u32_range.
Qed.


(** ** The null kernel on a chunk without PRESENT stream *)

Lemma set_all_ones_byte (v : arr) (t k : Z) :
  (4 * t <= k < 4 * t + 4 \/ v k = 255) -> set_vals_u32 v t (u32 (Z.lnot 0)) k = 255.
Proof.
  intros H. unfold set_vals_u32.
  destruct ((4 * t <=? k) && (k <? 4 * t + 4)) eqn:E.
  - apply andb_true_iff in E. destruct E as [E1 E2].
    apply Z.leb_le in E1. apply Z.ltb_lt in E2.
    change (u32 (Z.lnot 0)) with 4294967295.
    assert (Hc : k - 4 * t = 0 \/ k - 4 * t = 1 \/ k - 4 * t = 2 \/ k - 4 * t = 3) by lia.
    destruct Hc as [-> | [-> | [-> | ->]]]; reflexivity.
  - destruct H as [H | H]; [| exact H].
    apply andb_false_iff in E. destruct E as [E | E];
      [apply Z.leb_gt in E | apply Z.ltb_ge in E]; lia.
Qed.

Lemma fold_all_ones (l : list Z) :
  forall (v : arr) (k : Z),
    ((exists t, In t l /\ 4 * t <= k < 4 * t + 4) \/ v k = 255) ->
    fold_left (fun v t => set_vals_u32 v t (u32 (Z.lnot 0))) l v k = 255.
Proof.
  induction l as [| t l IH]; intros v k H; cbn [fold_left].
  - destruct H as [(t & [] & _) | H]. exact H.
  - apply IH. destruct H as [(t' & [<- | Hin] & Ht') | H].
    + right. apply set_all_ones_byte. left. exact Ht'.
    + left. exists t'. auto.
    + right. apply set_all_ones_byte. right. exact H.
Qed.

Lemma all_valid_word (vals0 : arr) (w : Z) :
  0 <= w < NTHREADS -> vals_u32 (all_valid_vals vals0) w = Z.ones 32.
Proof.
  intros Hw. rewrite vals_u32_value. unfold all_valid_vals.
  assert (Hin : In w threads) by (apply threads_in; exact Hw).
  rewrite !fold_all_ones by (left; exists w; split; [exact Hin | lia]).
  reflexivity.
Qed.

Lemma all_valid_bit (vals0 : arr) (k : Z) :
  0 <= k < NTHREADS * 32 -> source_bit (all_valid_vals vals0) k = true.
Proof.
  intros Hk. change (NTHREADS * 32) with 32768 in Hk.
  unfold source_bit. rewrite land_31, shiftr5.
  rewrite all_valid_word.
  - apply Z.ones_spec_low. pose proof (Z.mod_pos_bound k 32 ltac:(lia)). lia.
  - change NTHREADS with 1024. split; [apply Z.div_pos; lia |].
    apply Z.div_lt_upper_bound; lia.
Qed.

Lemma all_valid_null_rows (vals0 : arr) (s n : Z) :
  0 <= s -> s + n <= NTHREADS * 32 -> null_rows (all_valid_vals vals0) s n = 0.
Proof.
  intros Hs Hn. unfold null_rows.
  rewrite (sum_below_ext _ (fun _ => 0)); [apply sum_below_zero |].
  intros j Hj. cbv beta. rewrite all_valid_bit by lia. reflexivity.
Qed.

(** The bits of the bitmap after the store of a batch. *)
Lemma null_store_window_bit (vals : arr) (vmb row_in nrows first_row max_num_rows : Z)
    (vmem nc : arr) (p : Z) :
  0 <= row_in < 2 ^ 32 -> 0 <= nrows <= NTHREADS * 32 ->
  0 <= first_row < 2 ^ 31 -> 0 <= max_num_rows < 2 ^ 63 -> 0 <= p ->
  bitmap_bit
    (fst (null_store vals vmb (null_window row_in nrows first_row max_num_rows) vmem nc))
    vmb p
  = if (row_in <=? first_row + p) && (first_row + p <? row_in + nrows)
       && (p <? max_num_rows)
    then source_bit vals (first_row + p - row_in)
    else bitmap_bit vmem vmb p.
Proof.
  intros Hr Hn Hf Hm Hp.
  rewrite null_window_value by assumption.
  change (NTHREADS * 32) with 32768 in Hn.
  rewrite null_store_bit; try lia.
  2:{ change (NTHREADS * 32) with 32768. lia. }
  set (dp := Z.max (row_in - first_row) 0). set (sb := Z.max (first_row - row_in) 0).
  set (nb := Z.max 0 (Z.min (row_in + nrows) (first_row + max_num_rows)
                      - Z.max row_in first_row)).
  destruct (Z.leb_spec row_in (first_row + p)) as [H1 | H1];
    destruct (Z.ltb_spec (first_row + p) (row_in + nrows)) as [H2 | H2];
    destruct (Z.ltb_spec p max_num_rows) as [H3 | H3]; cbn [andb].
  1:{ replace (dp <=? p) with true by (symmetry; apply Z.leb_le; lia).
      replace (p <? dp + nb) with true by (symmetry; apply Z.ltb_lt; lia).
      cbn [andb]. f_equal. lia. }
  all: replace ((dp <=? p) && (p <? dp + nb)) with false; [reflexivity |];
    symmetry; apply andb_false_iff;
    destruct (Z.leb_spec dp p); [right; apply Z.ltb_ge; lia | left; reflexivity].
Qed.

Section AllValid.
Variable mem : arr.
Variable chunk : ColumnDesc.
Variable vmem0 : arr.
Variables max_num_rows first_row : Z.
Variable vals0 : arr.
Hypothesis Hpresent : strm_len chunk CI_PRESENT <= 0.
Hypothesis Hvmb : valid_map_base chunk <> 0.
Hypothesis Hstart : 0 <= start_row chunk.
Hypothesis Hrows : 0 <= num_rows chunk.
Hypothesis Hend : start_row chunk + num_rows chunk < 2 ^ 32.
Hypothesis Hfirst : 0 <= first_row < 2 ^ 31.
Hypothesis Hmaxrows : 0 <= max_num_rows < 2 ^ 63.

Lemma all_valid_step (st : nulldec_state) :
  all_valid_inv chunk vmem0 max_num_rows first_row vals0 st -> nd_row st < num_rows chunk ->
  exists st',
    null_batch mem max_num_rows first_row st = Some st' /\
    all_valid_inv chunk vmem0 max_num_rows first_row vals0 st' /\ nd_row st < nd_row st'.
Proof.
  intros (Iv & Is & Ist & Inr & Ivm & Irow & Inc & Isum & Ibits) Hlt.
  unfold null_batch. cbv zeta. rewrite Is, Ist, Inr, Ivm.
  replace (0 <? strm_len chunk CI_PRESENT) with false by (symmetry; apply Z.ltb_ge; lia).
  unfold null_batch_decode. cbn [obind].
  rewrite (u32_small (num_rows chunk - nd_row st)) by lia.
  change (NTHREADS * 32) with 32768.
  set (n := Z.min (num_rows chunk - nd_row st) 32768).
  assert (Hn : 1 <= n <= 32768) by (unfold n; lia).
  assert (Hn' : n <= num_rows chunk - nd_row st) by (unfold n; lia).
  rewrite (u32_small (start_row chunk + nd_row st)) by lia.
  set (row_in := start_row chunk + nd_row st).
  rewrite (u32_small (nd_row st + n)) by lia.
  unfold u64. rewrite (Z.mod_small (row_in + n)) by (unfold row_in; lia).
  rewrite (Z.mod_small (first_row + max_num_rows)) by lia.
  replace (negb (valid_map_base chunk =? 0)) with true
    by (symmetry; apply negb_true_iff, Z.eqb_neq; exact Hvmb).
  rewrite andb_true_r.
  destruct ((first_row <? row_in + n) && (row_in <? first_row + max_num_rows)) eqn:Eg.
  - apply andb_true_iff in Eg. destruct Eg as [Eg1 Eg2].
    apply Z.ltb_lt in Eg1, Eg2.
    pose proof (null_window_value row_in n first_row max_num_rows
                  ltac:(unfold row_in; lia) ltac:(change (NTHREADS * 32) with 32768; lia)
                  Hfirst Hmaxrows) as Hw.
    destruct (null_store_count_sum (nd_vals st) (valid_map_base chunk)
                (Z.max (row_in - first_row) 0) (Z.max (first_row - row_in) 0)
                (Z.max 0 (Z.min (row_in + n) (first_row + max_num_rows)
                          - Z.max row_in first_row))
                (nd_vmem st) (nd_null_count st)) as (Hs & Hr); try lia.
    { change (NTHREADS * 32) with 32768. lia. }
    { exact Inc. }
    rewrite <- Hw in Hs, Hr.
    pose proof (fun p => null_store_window_bit (nd_vals st) (valid_map_base chunk) row_in n
                  first_row max_num_rows (nd_vmem st) (nd_null_count st) p
                  ltac:(unfold row_in; lia)
                  ltac:(change (NTHREADS * 32) with 32768; lia) Hfirst Hmaxrows) as Hb.
    destruct (null_store (nd_vals st) (valid_map_base chunk)
                (null_window row_in n first_row max_num_rows) (nd_vmem st)
                (nd_null_count st)) as [vmem1 nc1].
    cbn [fst snd] in Hs, Hr, Hb.
    eexists. split; [reflexivity |].
    split; [| cbn [nd_row]; lia].
    unfold all_valid_inv.
    cbn [nd_vals nd_chunk nd_row nd_null_count nd_vmem set_skip_count strm_len start_row
         num_rows valid_map_base].
    split; [exact Iv |]. split; [exact Is |]. split; [exact Ist |].
    split; [exact Inr |]. split; [exact Ivm |]. split; [lia |].
    split; [exact Hr |]. split.
    + rewrite Hs, Isum, Iv. rewrite all_valid_null_rows; [reflexivity | lia |].
      change (NTHREADS * 32) with 32768. lia.
    + intros p Hp. rewrite (Hb p Hp), (Ibits p Hp), Iv. fold row_in.
      destruct (Z.leb_spec row_in (first_row + p)) as [H1 | H1];
        destruct (Z.ltb_spec (first_row + p) (row_in + n)) as [H2 | H2];
        destruct (Z.ltb_spec p max_num_rows) as [H3 | H3]; cbn [andb].
      1:{ rewrite all_valid_bit
            by (change (NTHREADS * 32) with 32768; lia).
          replace (start_row chunk <=? first_row + p) with true
            by (symmetry; apply Z.leb_le; unfold row_in in H1; lia).
          replace (first_row + p <? start_row chunk + (nd_row st + n)) with true
            by (symmetry; apply Z.ltb_lt; unfold row_in in H2; lia).
          reflexivity. }
      all: unfold row_in in *;
        destruct (Z.leb_spec (start_row chunk) (first_row + p));
        destruct (Z.ltb_spec (first_row + p) (start_row chunk + nd_row st));
        destruct (Z.ltb_spec (first_row + p) (start_row chunk + (nd_row st + n)));
        cbn [andb]; try reflexivity; try lia.
  - eexists. split; [reflexivity |].
    split; [| cbn [nd_row]; lia].
    unfold all_valid_inv.
    cbn [nd_vals nd_chunk nd_row nd_null_count nd_vmem set_skip_count strm_len start_row
         num_rows valid_map_base].
    split; [exact Iv |]. split; [exact Is |]. split; [exact Ist |].
    split; [exact Inr |]. split; [exact Ivm |]. split; [lia |].
    split; [exact Inc |]. split; [exact Isum |].
    intros p Hp. rewrite (Ibits p Hp).
    apply andb_false_iff in Eg.
    destruct (Z.ltb_spec p max_num_rows) as [H3 | H3];
      [| rewrite !andb_false_r; reflexivity].
    rewrite !andb_true_r.
    destruct (Z.leb_spec (start_row chunk) (first_row + p)); cbn [andb]; [| reflexivity].
    destruct Eg as [Eg | Eg]; apply Z.ltb_ge in Eg; unfold row_in in Eg.
    + replace (first_row + p <? start_row chunk + nd_row st) with false
        by (symmetry; apply Z.ltb_ge; lia).
      replace (first_row + p <? start_row chunk + (nd_row st + n)) with false
        by (symmetry; apply Z.ltb_ge; lia).
      reflexivity.
    + replace (first_row + p <? start_row chunk + nd_row st) with true
        by (symmetry; apply Z.ltb_lt; lia).
      replace (first_row + p <? start_row chunk + (nd_row st + n)) with true
        by (symmetry; apply Z.ltb_lt; lia).
      reflexivity.
Qed.

Lemma all_valid_loop (fuel : nat) :
  forall st : nulldec_state,
    all_valid_inv chunk vmem0 max_num_rows first_row vals0 st ->
    (Z.to_nat (num_rows chunk - nd_row st) <= fuel)%nat ->
    exists st',
      null_loop fuel mem max_num_rows first_row st = Some st' /\
      all_valid_inv chunk vmem0 max_num_rows first_row vals0 st' /\ nd_row st' = num_rows chunk.
Proof.
  induction fuel as [| fuel IH]; intros st Hinv Hfuel.
  - pose proof Hinv as (_ & _ & _ & Inr & _ & Irow & _).
    exists st. split.
    + cbn [null_loop]. rewrite Inr.
      replace (nd_row st <? num_rows chunk) with false by (symmetry; apply Z.ltb_ge; lia).
      reflexivity.
    + split; [exact Hinv | lia].
  - pose proof Hinv as (_ & _ & _ & Inr & _ & Irow & _).
    cbn [null_loop]. rewrite Inr.
    destruct (Z.ltb_spec (nd_row st) (num_rows chunk)) as [Hlt | Hge].
    + destruct (all_valid_step st Hinv Hlt) as (st1 & Hb & Hinv1 & Hadv).
      rewrite Hb. cbn [obind]. apply IH; [exact Hinv1 | lia].
    + exists st. split; [reflexivity |]. split; [exact Hinv | lia].
Qed.

Lemma decode_nulls_all_valid_spec (bs0 : orc_bytestream_s) :
  exists chunk' vmem' st,
    decode_nulls mem chunk vmem0 max_num_rows first_row bs0 vals0
      = Some (chunk', vmem', st) /\
    null_count chunk' = 0 /\
    (forall p, 0 <= p ->
       bitmap_bit vmem' (valid_map_base chunk) p
       = if (start_row chunk <=? first_row + p)
            && (first_row + p <? start_row chunk + num_rows chunk)
            && (p <? max_num_rows)
         then true
         else bitmap_bit vmem0 (valid_map_base chunk) p).
Proof.
  unfold decode_nulls. cbv zeta.
  replace (0 <? strm_len chunk CI_PRESENT) with false by (symmetry; apply Z.ltb_ge; lia).
  fold (all_valid_vals vals0).
  destruct (all_valid_loop (Z.to_nat (num_rows chunk))
              (mk_nulldec 0 bs0 rle8_init (all_valid_vals vals0) zero_arr chunk vmem0 []))
    as (st & Hloop & Hinv & Hrow).
  - unfold all_valid_inv.
    cbn [nd_vals nd_chunk nd_row nd_null_count nd_vmem].
    repeat (split; [reflexivity || lia |]).
    split; [intros t; unfold zero_arr; lia |].
    split; [apply sum_below_zero |].
    intros p Hp.
    destruct (Z.leb_spec (start_row chunk) (first_row + p)); cbn [andb]; [| reflexivity].
    replace (first_row + p <? start_row chunk + 0) with false
      by (symmetry; apply Z.ltb_ge; lia).
    reflexivity.
  - cbn [nd_row]. lia.
  - rewrite Hloop. cbn [obind].
    destruct Hinv as (_ & _ & _ & _ & _ & _ & _ & Isum & Ibits).
    eexists _, _, st. split; [reflexivity |].
    split.
    + cbn [set_null_count null_count]. rewrite null_count_total_value, Isum. reflexivity.
    + intros p Hp. rewrite (Ibits p Hp), Hrow. reflexivity.
Qed.

End AllValid.

(** ** Integer RLE v1: the recorded runs *)

(** Every recorded run is the run of a group. *)
Lemma rlev1_group_runs_find (T : elem_type) (bs : orc_bytestream_s) (p0 : Z) (k : nat) :
  forall j, 0 <= j < rlev1_group_runs T bs p0 k ->
    exists r, (r < k)%nat /\
      rlev1_is_run bs (rlev1_group_pos T bs p0 r) = true /\
      rlev1_group_runs T bs p0 r = j.
Proof.
  induction k as [| k IH]; intros j Hj; cbn [rlev1_group_runs] in Hj; [lia |].
  destruct (Z.lt_ge_cases j (rlev1_group_runs T bs p0 k)) as [Hlt | Hge].
  - destruct (IH j ltac:(lia)) as (r & Hr & H1 & H2). exists r. split; [lia | auto].
  - destruct (rlev1_is_run bs (rlev1_group_pos T bs p0 k)) eqn:E; [| lia].
    exists k. split; [lia |]. split; [exact E | lia].
Qed.

(** The words recorded by the run search are those of the runs of the
    groups it has stepped over. *)
Lemma rlev1_scan_groups (T : elem_type) (bs : orc_bytestream_s)
    (rle : orc_rlev1_state_s) (vals : arr) (maxvals : Z) :
  0 <= maxvals <= 1024 ->
  0 <= pos bs <= len bs -> len bs + 8192 <= 2 ^ 32 ->
  exists s (k : nat),
    rlev1_scan_runs T bs rle vals maxvals = Some s /\
    sc_numruns s = rlev1_group_runs T bs (pos bs) k /\
    (forall j, 0 <= j < sc_numruns s ->
       exists r, (r < k)%nat /\
         rlev1_is_run bs (rlev1_group_pos T bs (pos bs) r) = true /\
         rlev1_group_runs T bs (pos bs) r = j) /\
    (forall r, (r < k)%nat ->
       let p := rlev1_group_pos T bs (pos bs) r in
       let d := bytestream_readbyte bs (p + 1) in
       let n := bytestream_readbyte bs p + 3 in
       let b := rlev1_group_loc T bs (pos bs) r in
       let rd := sc_run_data s (rlev1_group_runs T bs (pos bs) r) in
       rlev1_is_run bs p = true ->
       rd = rlev1_pack d n b /\
       3 <= n <= 130 /\ 0 <= b <= 1023 /\ b + n <= maxvals /\
       rlev1_unpack_base rd = b /\
       rlev1_unpack_n rd = n /\
       rlev1_unpack_delta rd = signed_byte d /\
       (forall (v : arr) (i : Z), 1 <= i < n ->
          rlev1_expand_run T v rd (b + i)
          = wrapT T (u32 (Z.lor (Z.shiftl (signed_byte d * i) 16)
                            (u32 (Z.land (v b) 0xffff)))))).
Proof.
  intros Hmax Hp Hlen. unfold rlev1_scan_runs.
  destruct (maxpos_range bs Hp Hlen) as (Hmp1 & Hmp2).
  change (BYTESTREAM_BFRSZ - 8) with 8184 in *.
  rewrite (u32_small (pos bs + 8184)) in * by lia.
  set (maxpos := Z.min (len bs) (pos bs + 8184)) in *.
  set (s0 := mk_scan1 0 0 (pos bs) vals (run_data rle)).
  assert (Hinv0 : rlev1_groups_inv T bs (pos bs) maxvals maxpos vals 0 s0).
  { unfold rlev1_groups_inv, s0.
    cbn [sc_numvals sc_numruns sc_lastpos sc_vals sc_run_data
         rlev1_group_loc rlev1_group_pos rlev1_group_runs].
    split; [reflexivity |]. split; [reflexivity |]. split; [reflexivity |].
    split; [lia |]. split; [lia |]. split; [intros r Hr; lia | reflexivity]. }
  destruct (rlev1_groups_loop T bs (pos bs) maxvals maxpos vals Hmax ltac:(lia) ltac:(lia)
              (rlev1_fuel maxvals) 0%nat s0 Hinv0)
    as (s & k & Hloop & Hinv & Hend).
  { unfold rlev1_fuel, s0. cbn [sc_numvals]. lia. }
  destruct Hinv as (Hnv & Hlp & Hnr & Hle & Hrange & Hrec & Hframe).
  exists s, k. split; [exact Hloop |]. split; [exact Hnr |]. split.
  - intros j Hj. apply rlev1_group_runs_find. rewrite <- Hnr. exact Hj.
  - intros r Hr. cbv zeta. intros Erun.
    specialize (Hrec r Hr). cbv zeta in Hrec. rewrite Erun in Hrec.
    destruct Hrec as (Hrd & _).
    pose proof (rlev1_group_loc_mono T bs (pos bs) (S r) k ltac:(lia)) as Hm.
    cbn [rlev1_group_loc] in Hm.
    pose proof (rlev1_group_loc_nonneg T bs (pos bs) r) as Hnn.
    assert (Hn : rlev1_group_len bs (rlev1_group_pos T bs (pos bs) r)
                 = bytestream_readbyte bs (rlev1_group_pos T bs (pos bs) r) + 3).
    { unfold rlev1_group_len. rewrite Erun. reflexivity. }
    rewrite Hn in Hrd, Hm.
    pose proof (readbyte_range bs (rlev1_group_pos T bs (pos bs) r)) as Hc.
    pose proof (readbyte_range bs (rlev1_group_pos T bs (pos bs) r + 1)) as Hd.
    unfold rlev1_is_run in Erun. apply Z.leb_le in Erun.
    set (p := rlev1_group_pos T bs (pos bs) r) in *.
    set (d := bytestream_readbyte bs (p + 1)) in *.
    set (n := bytestream_readbyte bs p + 3) in *.
    set (b := rlev1_group_loc T bs (pos bs) r) in *.
    destruct (rlev1_unpack_pack d n b ltac:(lia) ltac:(lia) ltac:(lia)) as (U1 & U2 & U3).
    rewrite Hrd.
    split; [reflexivity |]. split; [lia |]. split; [lia |]. split; [lia |].
    split; [exact U3 |]. split; [exact U2 |]. split; [exact U1 |].
    intros v i Hi. unfold rlev1_expand_run. cbv zeta.
    rewrite U1, U2, U3.
    replace (b + i - b) with i by lia.
    replace (1 <=? i) with true by (symmetry; apply Z.leb_le; lia).
    replace (i <? n) with true by (symmetry; apply Z.ltb_lt; lia).
    reflexivity.
Qed.


(** C10: asked for at most 1024 values, the run search of [Integer_RLEv1]
    returns, and every word it has recorded in [run_data] is
    [(delta << 24) | (count << 16) | base index] for a delta byte, a count
    between 3 and 130 and a base index of at most 1023; the expansion step
    gets back the base index with the mask [0x3ff], the count with the mask
    [0xff] and the delta, as a signed byte, with the arithmetic shift by 24,
    and writes the cell [base + i] of the run with [delta * i] above the 16
    bits of the position kept in the cell [base].  When the stream is
    positioned within its length (and ends 8 KB below 4 GB, so that the
    positions do not wrap around), the words recorded are those of the runs
    of the groups that the search has stepped over, in order: for the run
    of the group at the position [p], found when [b] values were counted,
    the delta is the byte at [p + 1], the count is the control byte at [p]
    plus 3 and the base index is [b]. *)
Theorem rlev1_run_data_lossless (T : elem_type) (bs : orc_bytestream_s)
    (rle : orc_rlev1_state_s) (vals : arr) (maxvals : Z) :
  0 <= maxvals <= 1024 ->
  exists s,
    rlev1_scan_runs T bs rle vals maxvals = Some s /\
    (forall j, 0 <= j < sc_numruns s ->
       exists d n b,
         0 <= d < 256 /\ 3 <= n <= 130 /\ 0 <= b <= 1023 /\ b + n <= maxvals /\
         sc_run_data s j = rlev1_pack d n b /\
         rlev1_unpack_base (sc_run_data s j) = b /\
         rlev1_unpack_n (sc_run_data s j) = n /\
         rlev1_unpack_delta (sc_run_data s j) = signed_byte d /\
         (forall (v : arr) (i : Z), 1 <= i < n ->
            rlev1_expand_run T v (sc_run_data s j) (b + i)
            = wrapT T (u32 (Z.lor (Z.shiftl (signed_byte d * i) 16)
                              (u32 (Z.land (v b) 0xffff)))))) /\
    (0 <= pos bs <= len bs -> len bs + 8192 <= 2 ^ 32 ->
     exists k : nat,
       sc_numruns s = rlev1_group_runs T bs (pos bs) k /\
       (forall j, 0 <= j < sc_numruns s ->
          exists r, (r < k)%nat /\
            rlev1_is_run bs (rlev1_group_pos T bs (pos bs) r) = true /\
            rlev1_group_runs T bs (pos bs) r = j) /\
       (forall r, (r < k)%nat ->
          let p := rlev1_group_pos T bs (pos bs) r in
          let rd := sc_run_data s (rlev1_group_runs T bs (pos bs) r) in
          rlev1_is_run bs p = true ->
          rd = rlev1_pack (bytestream_readbyte bs (p + 1)) (bytestream_readbyte bs p + 3)
                 (rlev1_group_loc T bs (pos bs) r) /\
          rlev1_unpack_base rd = rlev1_group_loc T bs (pos bs) r /\
          rlev1_unpack_n rd = bytestream_readbyte bs p + 3 /\
          rlev1_unpack_delta rd = signed_byte (bytestream_readbyte bs (p + 1)))).
Proof.
  intros Hmax.
  destruct (rlev1_scan_runs_inv T bs rle vals maxvals Hmax) as (s & Hs & _ & _ & Hruns).
  exists s. split; [exact Hs |]. split.
  - intros j Hj.
    destruct (Hruns j Hj) as (d & n & b & Hd & Hn & Hb & Hfit & Heq).
    exists d, n, b.
    destruct (rlev1_unpack_pack d n b) as (H1 & H2 & H3); try lia.
    rewrite Heq, H1, H2, H3.
    repeat (split; [lia || reflexivity |]).
    intros v i Hi. unfold rlev1_expand_run. cbv zeta.
    rewrite H1, H2, H3.
    replace (b + i - b) with i by lia.
    replace (1 <=? i) with true by (symmetry; apply Z.leb_le; lia).
    replace (i <? n) with true by (symmetry; apply Z.ltb_lt; lia).
    reflexivity.
  - intros Hp Hlen.
    destruct (rlev1_scan_groups T bs rle vals maxvals Hmax Hp Hlen)
      as (s2 & k & Hs2 & Hnr & Hcover & Hrun).
    rewrite Hs in Hs2. injection Hs2 as <-.
    exists k. split; [exact Hnr |]. split; [exact Hcover |].
    intros r Hr. cbv zeta. intros Erun.
    destruct (Hrun r Hr Erun) as (Hrd & _ & _ & _ & Hb & Hn & Hd & _).
    auto.
Qed.

(** A run of five values from 7 with the delta byte [0xFF]: one word is
    recorded, and it gives back the base index 0, the count 5 and the
    delta -1. *)
Lemma rlev1_run_data_lossless_witness :
  0 <= 1024 <= 1024 /\
  exists s,
    rlev1_scan_runs U32 (stream_of rlev1_run_then_literals) rlev1_init zero_arr 1024 = Some s /\
    sc_numruns s = 1 /\
    sc_run_data s 0 = rlev1_pack 0xFF 5 0 /\
    rlev1_unpack_base (sc_run_data s 0) = 0 /\
    rlev1_unpack_n (sc_run_data s 0) = 5 /\
    rlev1_unpack_delta (sc_run_data s 0) = -1.
Proof.
  split; [lia |].
  destruct (rlev1_run_data_lossless U32 (stream_of rlev1_run_then_literals)
              rlev1_init zero_arr 1024)
    as (s & Hs & _ & Hgroups).
  - lia.
  - exists s. split; [exact Hs |].
    destruct Hgroups as (k & Hnr & _).
    { vm_compute. split; discriminate. }
    { vm_compute. discriminate. }
    assert (E : option_map sc_numruns
                  (rlev1_scan_runs U32 (stream_of rlev1_run_then_literals)
                     rlev1_init zero_arr 1024) = Some 1)
      by (vm_compute; reflexivity).
    rewrite Hs in E. cbn [option_map] in E. injection E as E.
    split; [exact E |].
    assert (F : option_map (fun s => sc_run_data s 0)
                  (rlev1_scan_runs U32 (stream_of rlev1_run_then_literals)
                     rlev1_init zero_arr 1024) = Some (rlev1_pack 0xFF 5 0))
      by (vm_compute; reflexivity).
    rewrite Hs in F. cbn [option_map] in F. injection F as F.
    split; [exact F |].
    rewrite F. repeat split; vm_compute; reflexivity.
Defined.

(** ** An iteration of the dictionary loop *)

Lemma u32_congr (a b : Z) : u32 a = u32 b -> forall c, u32 (c + a) = u32 (c + b).
Proof. intros H c. rewrite <- (u32_add_r c a), H, u32_add_r. reflexivity. Qed.

Lemma u32_sub_u32 (x y : Z) : u32 (u32 x - u32 y) = u32 (x - y).
Proof. unfold u32. rewrite <- Zminus_mod. reflexivity. Qed.


(** * Further properties of the kernels *)

(** X1 ([lengths_to_positions]): for at most [NTHREADS] values the loop of
    rounds ends, every cell [t < numvals] then holds the sum of the cells
    [0 .. t] of the input in the arithmetic of [T] (an inclusive prefix
    sum), a cell that held a value of type [T] still does, and no cell
    from [numvals] on is written. *)
Theorem lengths_to_positions_prefix_sums (T : elem_type) (a : arr) (numvals : Z) :
  0 <= numvals <= NTHREADS ->
  exists v',
    lengths_to_positions T a numvals = Some v' /\
    (forall t, 0 <= t < numvals -> wrapT T (v' t) = wrapT T (sum_below a (t + 1))) /\
    (forall t, ~ 0 <= t < numvals -> v' t = a t) /\
    (forall t, wrapT T (a t) = a t -> wrapT T (v' t) = v' t).
Proof. apply lengths_to_positions_spec. Qed.

Lemma lengths_to_positions_prefix_sums_witness :
  0 <= 4 <= NTHREADS /\
  exists v',
    lengths_to_positions U32 (read_list [3; 0; 7; 2]) 4 = Some v' /\
    (forall t, 0 <= t < 4 ->
       wrapT U32 (v' t) = wrapT U32 (sum_below (read_list [3; 0; 7; 2]) (t + 1))) /\
    (forall t, ~ 0 <= t < 4 -> v' t = read_list [3; 0; 7; 2] t) /\
    (forall t, wrapT U32 (read_list [3; 0; 7; 2] t) = read_list [3; 0; 7; 2] t ->
               wrapT U32 (v' t) = v' t).
Proof.
  split; [vm_compute; split; discriminate |].
  apply (lengths_to_positions_prefix_sums U32 (read_list [3; 0; 7; 2]) 4).
  vm_compute. split; discriminate.
Defined.

(** X2 ([Integer_RLEv1]): when at most 1024 values are asked for from a
    stream whose position is within its length (and whose length leaves
    room for the buffer below 2^32), the function returns a count of at
    most [maxvals]; the stream position does not move back, advances by at
    most the bufferable [BYTESTREAM_BFRSZ - 8] bytes, stays within the
    length and has advanced when the count is not zero; the length and the
    base of the stream are unchanged. *)
Theorem Integer_RLEv1_returns (T : elem_type) (mem : arr) (bs : orc_bytestream_s)
    (rle : orc_rlev1_state_s) (vals : arr) (maxvals : Z) :
  0 <= maxvals <= 1024 ->
  0 <= pos bs <= len bs -> len bs + 8192 <= 2 ^ 32 ->
  exists bs' rle' vals' n,
    Integer_RLEv1 T mem bs rle vals maxvals = Some (bs', rle', vals', n) /\
    0 <= n <= maxvals /\
    pos bs <= pos bs' <= len bs /\ pos bs' <= pos bs + 8184 /\
    len bs' = len bs /\ base bs' = base bs /\
    (0 < n -> pos bs < pos bs').
Proof. apply Integer_RLEv1_stream. Qed.

Lemma Integer_RLEv1_returns_witness :
  0 <= 9 <= 1024 /\
  0 <= pos (stream_of rlev1_run_then_literals) <= len (stream_of rlev1_run_then_literals) /\
  len (stream_of rlev1_run_then_literals) + 8192 <= 2 ^ 32 /\
  exists bs' rle' vals' n,
    Integer_RLEv1 U32 (read_list rlev1_run_then_literals) (stream_of rlev1_run_then_literals)
      rlev1_init zero_arr 9 = Some (bs', rle', vals', n) /\
    0 <= n <= 9 /\
    pos (stream_of rlev1_run_then_literals) <= pos bs'
      <= len (stream_of rlev1_run_then_literals) /\
    pos bs' <= pos (stream_of rlev1_run_then_literals) + 8184 /\
    len bs' = len (stream_of rlev1_run_then_literals) /\
    base bs' = base (stream_of rlev1_run_then_literals) /\
    (0 < n -> pos (stream_of rlev1_run_then_literals) < pos bs').
Proof.
  split; [lia |].
  split; [vm_compute; split; discriminate |].
  split; [vm_compute; discriminate |].
  apply (Integer_RLEv1_returns U32 (read_list rlev1_run_then_literals)
           (stream_of rlev1_run_then_literals) rlev1_init zero_arr 9).
  - lia.
  - vm_compute. split; discriminate.
  - vm_compute. discriminate.
Defined.

(** X3 ([Integer_RLEv2]): under the same conditions [Integer_RLEv2]
    returns a count of at most [maxvals], whatever the modes of the runs
    it finds; the stream position does not move back, advances by at most
    [BYTESTREAM_BFRSZ - 8] bytes, stays within the length, and has
    advanced when the count is not zero. *)
Theorem Integer_RLEv2_returns (T : elem_type) (mem : arr) (bs : orc_bytestream_s)
    (rle : orc_rlev2_state_s) (vals : arr) (maxvals : Z) :
  0 <= maxvals <= 1024 ->
  0 <= pos bs <= len bs -> len bs + 8192 <= 2 ^ 32 ->
  exists bs' rle' vals' n,
    Integer_RLEv2 T mem bs rle vals maxvals = Some (bs', rle', vals', n) /\
    0 <= n <= maxvals /\
    pos bs <= pos bs' <= len bs /\ pos bs' <= pos bs + 8184 /\
    len bs' = len bs /\ base bs' = base bs /\
    (0 < n -> pos bs < pos bs').
Proof. apply Integer_RLEv2_stream. Qed.

Lemma Integer_RLEv2_returns_witness :
  0 <= 10 <= 1024 /\
  0 <= pos (stream_of rlev2_delta_down) <= len (stream_of rlev2_delta_down) /\
  len (stream_of rlev2_delta_down) + 8192 <= 2 ^ 32 /\
  exists bs' rle' vals' n,
    Integer_RLEv2 I32 (read_list rlev2_delta_down) (stream_of rlev2_delta_down)
      rlev2_init zero_arr 10 = Some (bs', rle', vals', n) /\
    0 <= n <= 10 /\
    pos (stream_of rlev2_delta_down) <= pos bs' <= len (stream_of rlev2_delta_down) /\
    pos bs' <= pos (stream_of rlev2_delta_down) + 8184 /\
    len bs' = len (stream_of rlev2_delta_down) /\
    base bs' = base (stream_of rlev2_delta_down) /\
    (0 < n -> pos (stream_of rlev2_delta_down) < pos bs').
Proof.
  split; [lia |].
  split; [vm_compute; split; discriminate |].
  split; [vm_compute; discriminate |].
  apply (Integer_RLEv2_returns I32 (read_list rlev2_delta_down)
           (stream_of rlev2_delta_down) rlev2_init zero_arr 10).
  - lia.
  - vm_compute. split; discriminate.
  - vm_compute. discriminate.
Defined.



(** X6 ([bytestream_init], [bytestream_initbuf], [bytestream_readbyte]):
    a stream initialised at any address and then buffered has an 8-byte
    aligned base and a length that is a multiple of 8; its position is the
    offset of the first byte of the stream from the aligned base, its
    length covers the stream with less than 8 bytes of padding, and every
    byte [i] of the stream that lies in the first [BYTESTREAM_BFRSZ] bytes
    is read back by [bytestream_readbyte] at the position [pos + i].  An
    empty stream starts at position 0. *)
Theorem bytestream_init_bytes (mem : arr) (bs0 : orc_bytestream_s) (base_addr length : Z) :
  0 <= base_addr -> 0 <= length -> length + 14 < 2 ^ 32 ->
  let bs := bytestream_initbuf mem (bytestream_init bs0 base_addr length) in
  base bs mod 8 = 0 /\ len bs mod 8 = 0 /\
  (0 < length -> base bs + pos bs = base_addr) /\
  (length = 0 -> pos bs = 0) /\
  pos bs + length <= len bs < base_addr mod 8 + length + 8 /\
  (forall i, 0 <= i < length -> pos bs + i < BYTESTREAM_BFRSZ ->
     bytestream_readbyte bs (pos bs + i) = u8 (mem (base_addr + i))).
Proof.
  intros Hb Hl Hlen. cbv zeta.
  destruct (init_fields bs0 base_addr length Hb Hl Hlen) as (Ebase & Epos & Elen).
  set (bi := bytestream_init bs0 base_addr length) in *.
  destruct (fill_fields mem bi 0 (Z.shiftr (Z.min (len bi) BYTESTREAM_BFRSZ) 3))
    as (Fpos & Flen & Fbase).
  fold (bytestream_initbuf mem bi) in Fpos, Flen, Fbase.
  rewrite Fpos, Flen, Fbase, Ebase, Epos, Elen.
  pose proof (Z.mod_pos_bound base_addr 8 ltac:(lia)) as Hm.
  pose proof (Z.div_mod base_addr 8 ltac:(lia)) as Hd.
  pose proof (Z.div_mod (length + base_addr mod 8 + 7) 8 ltac:(lia)) as Hd2.
  pose proof (Z.mod_pos_bound (length + base_addr mod 8 + 7) 8 ltac:(lia)) as Hm2.
  split; [rewrite Z.mul_comm; apply Z.mod_mul; lia |].
  split; [rewrite Z.mul_comm; apply Z.mod_mul; lia |].
  split; [intros H; replace (0 <? length) with true by (symmetry; apply Z.ltb_lt; lia); lia |].
  split; [intros ->; reflexivity |].
  split; [destruct (0 <? length); lia |].
  intros i Hi Hw. change BYTESTREAM_BFRSZ with 8192 in *.
  replace (0 <? length) with true in * by (symmetry; apply Z.ltb_lt; lia).
  rewrite initbuf_bytes.
  - rewrite Ebase. f_equal. f_equal. lia.
  - rewrite Elen. change BYTESTREAM_BFRSZ with 8192.
    split; [lia |].
    destruct (Z.le_gt_cases (8 * ((length + base_addr mod 8 + 7) / 8)) 8192) as [H | H].
    + rewrite Z.min_l by lia.
      set (k := (length + base_addr mod 8 + 7) / 8) in *.
      replace (8 * k / 8) with k by (symmetry; rewrite Z.mul_comm; apply Z.div_mul; lia).
      lia.
    + rewrite Z.min_r by lia. change (8192 / 8) with 1024. lia.
Qed.


Lemma bytestream_init_bytes_witness :
  0 <= 3 /\ 0 <= 5 /\ 5 + 14 < 2 ^ 32 /\
  forall i, 0 <= i < 5 ->
    bytestream_readbyte
      (bytestream_initbuf (read_list [0; 0; 0; 10; 20; 30; 40; 50])
         (bytestream_init empty_bs 3 5)) (3 + i)
    = u8 (read_list [0; 0; 0; 10; 20; 30; 40; 50] (3 + i)).
Proof.
  split; [lia |]. split; [lia |]. split; [lia |].
  pose proof (bytestream_init_bytes (read_list [0; 0; 0; 10; 20; 30; 40; 50]) empty_bs 3 5)
    as H.
  cbv zeta in H.
  destruct H as (_ & _ & _ & _ & _ & Hbytes); [lia | lia | lia |].
  intros i Hi. apply (Hbytes i Hi).
  change BYTESTREAM_BFRSZ with 8192. change (pos _) with 3. lia.
Defined.

(** X7 ([bytestream_flush_bytes] followed by [bytestream_fill], as in every
    decoder): the slots that are filled after [n] bytes were consumed are
    the slots of the consumed bytes themselves, at their own positions.
    While the new position is within the first [BYTESTREAM_BFRSZ] bytes of
    a buffered stream the refill therefore changes no byte of the buffer:
    every read returns what it returned before, and a position at or
    beyond [BYTESTREAM_BFRSZ] still reads the byte [BYTESTREAM_BFRSZ]
    positions before it. *)
Theorem bytestream_consume_first_lap (mem : arr) (bs : orc_bytestream_s) (n : Z) :
  0 <= pos bs <= len bs -> len bs < 2 ^ 32 ->
  0 <= n -> pos bs + n < 2 ^ 32 ->
  Z.min (pos bs + n) (len bs) <= BYTESTREAM_BFRSZ ->
  (forall q, 0 <= q < Z.min (len bs) BYTESTREAM_BFRSZ ->
     bytestream_readbyte bs q = u8 (mem (base bs + q))) ->
  pos (bytestream_consume mem bs n) = Z.min (pos bs + n) (len bs) /\
  len (bytestream_consume mem bs n) = len bs /\
  base (bytestream_consume mem bs n) = base bs /\
  (forall p, bytestream_readbyte (bytestream_consume mem bs n) p = bytestream_readbyte bs p) /\
  (forall q, 0 <= q < Z.min (len bs) BYTESTREAM_BFRSZ ->
     bytestream_readbyte (bytestream_consume mem bs n) (q + BYTESTREAM_BFRSZ)
     = u8 (mem (base bs + q))).
Proof.
  intros Hp Hlen Hn Hpn Hlap Hbuf. change BYTESTREAM_BFRSZ with 8192 in *.
  unfold bytestream_consume, bytestream_flush_bytes. cbv zeta.
  rewrite (u32_small (pos bs + n)) by lia.
  set (pn := Z.min (pos bs + n) (len bs)) in *.
  rewrite !shiftr3.
  assert (H8 : pos bs / 8 <= pn / 8) by (apply Z.div_le_mono; lia).
  assert (H8' : pn / 8 <= 1024) by (apply Z.div_le_upper_bound; lia).
  assert (H80 : 0 <= pos bs / 8) by (apply Z.div_pos; lia).
  rewrite u32_small by lia.
  destruct (fill_fields mem (set_pos bs pn) (pos bs) (pn / 8 - pos bs / 8)) as (F1 & F2 & F3).
  rewrite F1, F2, F3. cbn [pos len base set_pos].
  split; [reflexivity |]. split; [reflexivity |]. split; [reflexivity |].
  match goal with |- ?A /\ _ => assert (Hall : A) end.
  2:{ split; [exact Hall |]. intros q Hq. rewrite Hall, <- Hbuf by exact Hq.
      unfold bytestream_readbyte. rewrite !land_mask.
      replace (q + 8192) with (q + 1 * 8192) by lia.
      rewrite Z.mod_add by lia. reflexivity. }
  intros p.
  assert (Hred : forall b, bytestream_readbyte b p = bytestream_readbyte b (p mod 8192)).
  { intros b. unfold bytestream_readbyte. rewrite !land_mask.
    rewrite Z.mod_mod by lia. reflexivity. }
  rewrite (Hred bs), Hred.
  pose proof (Z.mod_pos_bound p 8192 ltac:(lia)) as Hq. set (q := p mod 8192) in *.
  assert (Hsame : bytestream_readbyte (set_pos bs pn) q = bytestream_readbyte bs q)
    by reflexivity.
  destruct (Z.le_gt_cases (pos bs / 8) (q / 8)) as [Hlo | Hlo];
    [destruct (Z.lt_ge_cases (q / 8) (pn / 8)) as [Hhi | Hhi] |].
  - rewrite readbyte_fill by (cbn [base set_pos]; lia).
    cbn [base set_pos]. symmetry. apply Hbuf.
    pose proof (Z.div_mod q 8 ltac:(lia)). pose proof (Z.mod_pos_bound q 8 ltac:(lia)).
    pose proof (Z.div_mod pn 8 ltac:(lia)). pose proof (Z.mod_pos_bound pn 8 ltac:(lia)).
    lia.
  - rewrite readbyte_fill_other by lia. exact Hsame.
  - rewrite readbyte_fill_other by lia. exact Hsame.
Qed.

Lemma bytestream_consume_first_lap_witness :
  0 <= pos (stream_of rlev1_run_then_literals) <= len (stream_of rlev1_run_then_literals) /\
  len (stream_of rlev1_run_then_literals) < 2 ^ 32 /\
  0 <= 3 /\
  forall p,
    bytestream_readbyte
      (bytestream_consume (read_list rlev1_run_then_literals)
         (stream_of rlev1_run_then_literals) 3) p
    = bytestream_readbyte (stream_of rlev1_run_then_literals) p.
Proof.
  split; [vm_compute; split; discriminate |].
  split; [vm_compute; reflexivity |].
  split; [lia |].
  apply (bytestream_consume_first_lap (read_list rlev1_run_then_literals)
           (stream_of rlev1_run_then_literals) 3).
  - vm_compute. split; discriminate.
  - vm_compute. reflexivity.
  - lia.
  - vm_compute. reflexivity.
  - vm_compute. discriminate.
  - intros q Hq.
    change (Z.min (len (stream_of rlev1_run_then_literals)) BYTESTREAM_BFRSZ) with 8 in Hq.
    assert (q = 0 \/ q = 1 \/ q = 2 \/ q = 3 \/ q = 4 \/ q = 5 \/ q = 6 \/ q = 7)
      as [-> | [-> | [-> | [-> | [-> | [-> | [-> | ->]]]]]]] by lia;
      vm_compute; reflexivity.
Defined.

(** X8 ([bytestream_readu32]): the two aligned words and the funnel shift
    give the four bytes at the positions [p .. p + 3] of the circular
    buffer, the first one lowest, for every position: also when [p] is not
    a multiple of 4 and when the four bytes wrap around the end of the
    buffer. *)
Theorem bytestream_readu32_little_endian (bs : orc_bytestream_s) (p : Z) :
  bytestream_readu32 bs p
  = bytestream_readbyte bs p + bytestream_readbyte bs (p + 1) * 2 ^ 8
    + bytestream_readbyte bs (p + 2) * 2 ^ 16 + bytestream_readbyte bs (p + 3) * 2 ^ 24.
Proof. apply readu32_bytes. Qed.

(** X9 ([decode_varint]): for a varint of [k] bytes at [p] (the first
    [k - 1] bytes with the continuation bit, the last one without; at most
    5 bytes are looked at for a 32-bit type and 10 for a 64-bit type)
    [decode_varint] returns the position [p + k] and the base-128 value of
    the bytes, the first byte lowest, with three particularities of the
    code: a 32-bit result keeps the low 32 bits; a 64-bit result read from
    exactly 5 bytes also keeps the low 32 bits only; and for 10 bytes the
    tenth byte is skipped and the bit 63 is taken to be 1.  The signed
    types return the zig-zag decoding of that value: [u / 2] for an even
    [u] and [- (u / 2) - 1] for an odd one. *)
Theorem decode_varint_bytes (T : elem_type) (bs : orc_bytestream_s) (p k : Z) :
  T <> U16 ->
  1 <= k <= (if wide T then 10 else 5) ->
  (forall i, 0 <= i < k - 1 -> 0x7f < bytestream_readbyte bs (p + i)) ->
  (k < (if wide T then 10 else 5) -> bytestream_readbyte bs (p + (k - 1)) <= 0x7f) ->
  let u := if wide T
           then if k =? 5 then u32 (varint_sum bs p 5)
                else if k =? 10 then varint_sum bs p 9 + 2 ^ 63
                else varint_sum bs p (Z.to_nat k)
           else u32 (varint_sum bs p (Z.to_nat k)) in
  decode_varint T bs p
  = (p + k, if is_signed T then (if Z.even u then u / 2 else - (u / 2) - 1) else u).
Proof.
  intros HT Hk Hc Hl. cbv zeta.
  assert (Hw : decode_varint_u (wide T) bs p
               = (p + k,
                  if wide T
                  then if k =? 5 then u32 (varint_sum bs p 5)
                       else if k =? 10 then varint_sum bs p 9 + 2 ^ 63
                       else varint_sum bs p (Z.to_nat k)
                  else u32 (varint_sum bs p (Z.to_nat k)))).
  { destruct (wide T).
    - apply decode_varint_wide; assumption.
    - apply decode_varint_narrow; assumption. }
  assert (Hu : wide T = true ->
               0 <= (if k =? 5 then u32 (varint_sum bs p 5)
                     else if k =? 10 then varint_sum bs p 9 + 2 ^ 63
                     else varint_sum bs p (Z.to_nat k)) < 2 ^ 64).
  { intros E. rewrite E in Hk.
    destruct (Z.eqb_spec k 5); [pose proof (u32_range (varint_sum bs p 5)); lia |].
    destruct (Z.eqb_spec k 10).
    - pose proof (varint_sum_range bs 9 p) as Hr.
      change (128 ^ Z.of_nat 9) with (2 ^ 63) in Hr. lia.
    - pose proof (varint_sum_range bs (Z.to_nat k) p) as Hr.
      assert (128 ^ Z.of_nat (Z.to_nat k) <= 128 ^ 9)
        by (apply Z.pow_le_mono_r; lia).
      change (128 ^ 9) with (2 ^ 63) in *. lia. }
  destruct T; try congruence; unfold decode_varint; cbn [is_signed];
    change (wide U32) with false in *; change (wide I32) with false in *;
    change (wide U64) with true in *; change (wide I64) with true in *;
    cbv iota in Hw |- *.
  - exact Hw.
  - rewrite Hw. f_equal. apply zigzag_s32. apply u32_range.
  - exact Hw.
  - rewrite Hw. f_equal. apply zigzag_s64. apply Hu. reflexivity.
Qed.

Lemma decode_varint_bytes_witness :
  U32 <> U16 /\
  decode_varint U32 (stream_of rlev1_two_literals) 1 = (3, 128).
Proof.
  split; [discriminate |].
  pose proof (decode_varint_bytes U32 (stream_of rlev1_two_literals) 1 2) as H.
  cbv zeta in H. rewrite H.
  - vm_compute. reflexivity.
  - discriminate.
  - vm_compute. split; discriminate.
  - intros i Hi. assert (i = 0) as -> by lia. vm_compute. reflexivity.
  - intros _. vm_compute. discriminate.
Defined.

(** X10 ([decode_varint], round trip): [decode_varint] gives back every
    value [x] of the types [uint32_t], [int32_t], [uint64_t] and [int64_t]
    from its canonical base-128 encoding (of the zig-zag code for the
    signed types) and returns the position after the last byte of the
    encoding, except for the 64-bit codes in [2^32, 2^35). *)
Theorem decode_varint_round_trip (T : elem_type) (bs : orc_bytestream_s) (p x : Z) :
  T <> U16 ->
  wrapT T x = x ->
  let u := if is_signed T then zigzag_code x else x in
  (wide T = true -> ~ 2 ^ 32 <= u < 2 ^ 35) ->
  stream_holds bs p (encode_varint u) ->
  decode_varint T bs p = (p + Z.of_nat (length (encode_varint u)), x).
Proof.
  intros HT Hx u Hgap Hs.
  assert (Hr : 0 <= u < (if wide T then 2 ^ 64 else 2 ^ 32)).
  { subst u. destruct T; try congruence; cbn [is_signed wrapT] in *;
      change (wide U32) with false; change (wide I32) with false;
      change (wide U64) with true; change (wide I64) with true; cbv iota.
    - rewrite <- Hx. apply u32_range.
    - unfold s32 in Hx. pose proof (Z.mod_pos_bound (x + 2 ^ 31) (2 ^ 32) ltac:(lia)).
      unfold zigzag_code. destruct (0 <=? x) eqn:E;
        [apply Z.leb_le in E | apply Z.leb_gt in E]; lia.
    - rewrite <- Hx. apply Z.mod_pos_bound. lia.
    - unfold s64 in Hx. pose proof (Z.mod_pos_bound (x + 2 ^ 63) (2 ^ 64) ltac:(lia)).
      unfold zigzag_code. destruct (0 <=? x) eqn:E;
        [apply Z.leb_le in E | apply Z.leb_gt in E]; lia. }
  pose proof (decode_varint_u_encode (wide T) bs p u Hr Hgap Hs) as Hd.
  subst u.
  destruct T; try congruence; unfold decode_varint; cbn [is_signed] in *;
    change (wide U32) with false in *; change (wide I32) with false in *;
    change (wide U64) with true in *; change (wide I64) with true in *.
  - exact Hd.
  - rewrite Hd. f_equal. rewrite zigzag_code_value. exact Hx.
  - exact Hd.
  - rewrite Hd. f_equal. rewrite zigzag_code_value. exact Hx.
Qed.

Lemma decode_varint_round_trip_witness :
  I32 <> U16 /\ wrapT I32 (-3) = -3 /\
  decode_varint I32 (stream_of rlev1_two_literals) 3 = (4, -3).
Proof.
  split; [discriminate |]. split; [reflexivity |].
  apply (decode_varint_round_trip I32 (stream_of rlev1_two_literals) 3 (-3)).
  - discriminate.
  - reflexivity.
  - discriminate.
  - intros i Hi. change (length _) with 1%nat in Hi.
    assert (i = 0%nat) as -> by lia. vm_compute. reflexivity.
Defined.

(** X11 ([varint_length]): for a varint of [k] bytes at [p]
    [varint_length] returns 1 when [k = 1], but [k + 1] when [k] is 2 or 3,
    5 when [k = 4] on a 32-bit type (5 to 9 on a 64-bit type, depending on
    the four bytes after the varint) and 1 when [k >= 5]: the probe word is
    read at [p] and not at [p + 1], so the length is right for
    single-byte varints only. *)
Theorem varint_length_off_by_one (T : elem_type) (bs : orc_bytestream_s) (p k : Z) :
  1 <= k ->
  (forall i, 0 <= i < k - 1 -> 0x7f < bytestream_readbyte bs (p + i)) ->
  bytestream_readbyte bs (p + (k - 1)) <= 0x7f ->
  (k = 1 -> varint_length T bs p = 1) /\
  (2 <= k <= 3 -> varint_length T bs p = k + 1) /\
  (k = 4 -> if wide T then 5 <= varint_length T bs p <= 9 else varint_length T bs p = 5) /\
  (5 <= k -> varint_length T bs p = 1).
Proof. apply varint_length_value. Qed.

Lemma varint_length_off_by_one_witness :
  1 <= 2 /\ varint_length U32 (stream_of rlev1_two_literals) 1 = 2 + 1.
Proof.
  split; [lia |].
  apply (varint_length_off_by_one U32 (stream_of rlev1_two_literals) 1 2).
  - lia.
  - intros i Hi. assert (i = 0) as -> by lia. vm_compute. reflexivity.
  - vm_compute. discriminate.
  - lia.
Defined.

(** X12 ([Byte_RLE]): asked for [maxvals] bytes, [Byte_RLE] returns; it
    takes the first [k] groups of the stream from the current position,
    where [k] is the first number at which the values asked for are
    reached, [NWARPS] groups are taken, or the next group does not fit any
    more (its end is beyond the buffered window, or its bytes exceed
    [maxvals]).  The count is the number of bytes of these groups, the
    stream position is the start of the next group, and the values are the
    bytes of the groups in order: the repeated byte of a run, the literal
    bytes of a literal group.  No other value is written. *)
Theorem Byte_RLE_groups (mem : arr) (bs : orc_bytestream_s) (rle : orc_byterle_state_s)
    (vals : arr) (maxvals : Z) :
  0 <= maxvals <= 2 ^ 31 ->
  0 <= pos bs <= len bs -> len bs + 8192 <= 2 ^ 32 ->
  let maxpos := Z.min (len bs) (pos bs + (BYTESTREAM_BFRSZ - 8)) in
  exists bs' rle' vals' (k : nat),
    Byte_RLE mem bs rle vals maxvals
      = Some (bs', rle', vals', rle8_group_loc bs (pos bs) k) /\
    (k <= 32)%nat /\
    rle8_group_loc bs (pos bs) k <= maxvals /\
    pos bs' = rle8_group_pos bs (pos bs) k /\ pos bs' <= maxpos /\
    len bs' = len bs /\ base bs' = base bs /\
    (forall r i, (r < k)%nat ->
       0 <= i < rle8_group_len bs (rle8_group_pos bs (pos bs) r) ->
       vals' (rle8_group_loc bs (pos bs) r + i)
       = rle8_group_byte bs (rle8_group_pos bs (pos bs) r) i) /\
    (forall j, ~ 0 <= j < rle8_group_loc bs (pos bs) k -> vals' j = vals j) /\
    rle8_scan_end bs (pos bs) maxvals maxpos k.
Proof. apply Byte_RLE_spec. Qed.

Lemma Byte_RLE_groups_witness :
  0 <= 5 <= 2 ^ 31 /\
  0 <= pos (stream_of present_stream) <= len (stream_of present_stream) /\
  len (stream_of present_stream) + 8192 <= 2 ^ 32 /\
  exists bs' rle' vals' (k : nat),
    Byte_RLE (read_list present_stream) (stream_of present_stream) rle8_init zero_arr 5
      = Some (bs', rle', vals', rle8_group_loc (stream_of present_stream)
                                  (pos (stream_of present_stream)) k) /\
    (k <= 32)%nat.
Proof.
  split; [lia |].
  split; [vm_compute; split; discriminate |].
  split; [vm_compute; discriminate |].
  destruct (Byte_RLE_groups (read_list present_stream) (stream_of present_stream)
              rle8_init zero_arr 5) as (bs' & rle' & vals' & k & H & Hk & _).
  - lia.
  - vm_compute. split; discriminate.
  - vm_compute. discriminate.
  - exists bs', rle', vals', k. split; [exact H | exact Hk].
Defined.

(** X13 ([Integer_RLEv1]): asked for at most 1024 values of a type of 32
    or 64 bits, [Integer_RLEv1] returns; it takes the first [k] groups of
    the stream from the current position, where [k] is the first number at
    which the values asked for are reached, [NWARPS * 12] runs are
    recorded, or the next group does not fit any more.  The count is the
    number of values of these groups, the stream position is the position
    the search reached after them, and value [i] of a run is the base
    varint plus [i] times the signed delta byte, value [i] of a literal
    group is the varint at the [i]-th position of the search, all in the
    arithmetic of [T].  The search steps over varints with
    [varint_length].  No value outside the [maxvals] cells is written. *)
Theorem Integer_RLEv1_groups (T : elem_type) (mem : arr) (bs : orc_bytestream_s)
    (rle : orc_rlev1_state_s) (vals : arr) (maxvals : Z) :
  T <> U16 ->
  0 <= maxvals <= 1024 ->
  0 <= pos bs <= len bs -> len bs + 8192 <= 2 ^ 32 ->
  let maxpos := Z.min (len bs) (pos bs + (BYTESTREAM_BFRSZ - 8)) in
  exists bs' rle' vals' (k : nat),
    Integer_RLEv1 T mem bs rle vals maxvals
      = Some (bs', rle', vals', rlev1_group_loc T bs (pos bs) k) /\
    rlev1_group_loc T bs (pos bs) k <= maxvals /\
    pos bs' = rlev1_group_pos T bs (pos bs) k /\ pos bs' <= maxpos /\
    (forall r i, (r < k)%nat ->
       0 <= i < rlev1_group_len bs (rlev1_group_pos T bs (pos bs) r) ->
       vals' (rlev1_group_loc T bs (pos bs) r + i)
       = rlev1_group_value T bs (rlev1_group_pos T bs (pos bs) r) i) /\
    (forall j, ~ 0 <= j < maxvals -> vals' j = vals j) /\
    rlev1_groups_end T bs (pos bs) maxvals maxpos k.
Proof. apply Integer_RLEv1_spec. Qed.

Lemma Integer_RLEv1_groups_witness :
  I32 <> U16 /\ 0 <= 9 <= 1024 /\
  0 <= pos (stream_of rlev1_run_then_literals) <= len (stream_of rlev1_run_then_literals) /\
  len (stream_of rlev1_run_then_literals) + 8192 <= 2 ^ 32 /\
  exists bs' rle' vals' (k : nat),
    Integer_RLEv1 I32 (read_list rlev1_run_then_literals)
      (stream_of rlev1_run_then_literals) rlev1_init zero_arr 9
      = Some (bs', rle', vals',
              rlev1_group_loc I32 (stream_of rlev1_run_then_literals)
                (pos (stream_of rlev1_run_then_literals)) k) /\
    pos bs' = rlev1_group_pos I32 (stream_of rlev1_run_then_literals)
                (pos (stream_of rlev1_run_then_literals)) k.
Proof.
  split; [discriminate |]. split; [lia |].
  split; [vm_compute; split; discriminate |].
  split; [vm_compute; discriminate |].
  destruct (Integer_RLEv1_groups I32 (read_list rlev1_run_then_literals)
              (stream_of rlev1_run_then_literals) rlev1_init zero_arr 9)
    as (bs' & rle' & vals' & k & H & _ & Hpos & _).
  - discriminate.
  - lia.
  - vm_compute. split; discriminate.
  - vm_compute. discriminate.
  - exists bs', rle', vals', k. split; [exact H | exact Hpos].
Defined.

(** X14 (the stores of [gpuDecodeOrcColumnData]): the store phase of an
    iteration changes no output row outside [0, max_num_rows), and changes
    a row only if some thread [t < max_vals] with a non-zero row offset
    computes that row as [cur_row + row_ofs_plus1[t] - 1 - first_row]. *)
Theorem scatter_rows (chunk : ColumnDesc) (g : Z -> DictionaryEntry) (uninit : arr)
    (max_num_rows first_row : Z) (d : orc_datadec_state_s) (vals : arr)
    (out : column_out) (r : Z) :
  (~ 0 <= r < max_num_rows \/
   forall t, 0 <= t < NTHREADS -> t < max_vals d -> u16 (row_ofs_plus1 d t) <> 0 ->
     scatter_row first_row d t <> r) ->
  out_data (scatter chunk g uninit max_num_rows first_row d vals out) r = out_data out r /\
  out_str (scatter chunk g uninit max_num_rows first_row d vals out) r = out_str out r.
Proof.
  intros Hr. unfold scatter. apply scatter_fold.
  intros t Ht Hmv Hofs Hrow.
  destruct Hr as [Hout | Hnone].
  - intros E. apply Hout. rewrite <- E. split; [| exact Hrow].
    unfold scatter_row, u64. apply Z.mod_pos_bound. lia.
  - apply Hnone; try assumption.
    unfold threads in Ht. apply in_map_iff in Ht. destruct Ht as (i & <- & Hi).
    apply in_seq in Hi. change (Z.to_nat NTHREADS) with 1024%nat in Hi.
    change NTHREADS with 1024. lia.
Qed.

Lemma scatter_rows_witness :
  (~ 0 <= 5 < 5 \/
   forall t, 0 <= t < NTHREADS -> t < max_vals (mk_datadec 0 5 3 3 0 0 (fun t => t + 1)) ->
     u16 (row_ofs_plus1 (mk_datadec 0 5 3 3 0 0 (fun t => t + 1)) t) <> 0 ->
     scatter_row 0 (mk_datadec 0 5 3 3 0 0 (fun t => t + 1)) t <> 5) /\
  out_data (scatter int_chunk no_dictionary zero_arr 5 0
              (mk_datadec 0 5 3 3 0 0 (fun t => t + 1)) (read_list [1; 0; 0; 0; 2]) no_out) 5
  = out_data no_out 5.
Proof.
  split; [left; lia |].
  apply (scatter_rows int_chunk no_dictionary zero_arr 5 0
           (mk_datadec 0 5 3 3 0 0 (fun t => t + 1)) (read_list [1; 0; 0; 0; 2]) no_out 5).
  left. lia.
Defined.

(** X15 (the bitmap store of [gpuDecodeNullsAndStringDictionaries]): for a
    batch of [nrows] decoded validity bits whose first bit is the row
    [row_in], the store leaves in the bit [p] of the bitmap of the chunk
    the decoded bit of the row [first_row + p] when that row is in the
    batch and [p < max_num_rows], and leaves every other bit of the bitmap
    as it was.  The decoded bit [k] is the bit [k mod 32] of the word
    [k / 32] of [vals.u32], that is the bit [k mod 8], counted from the
    least significant, of the byte [k / 8] that [Byte_RLE] produced. *)
Theorem null_store_window (vals : arr) (vmb row_in nrows first_row max_num_rows : Z)
    (vmem nc : arr) (p : Z) :
  0 <= row_in < 2 ^ 32 -> 0 <= nrows <= NTHREADS * 32 ->
  0 <= first_row < 2 ^ 31 -> 0 <= max_num_rows < 2 ^ 63 -> 0 <= p ->
  bitmap_bit
    (fst (null_store vals vmb (null_window row_in nrows first_row max_num_rows) vmem nc))
    vmb p
  = if (row_in <=? first_row + p) && (first_row + p <? row_in + nrows)
       && (p <? max_num_rows)
    then source_bit vals (first_row + p - row_in)
    else bitmap_bit vmem vmb p.
Proof.
  intros Hr Hn Hf Hm Hp.
  rewrite null_window_value by assumption.
  change (NTHREADS * 32) with 32768 in Hn.
  rewrite null_store_bit; try lia.
  2:{ change (NTHREADS * 32) with 32768. lia. }
  set (dp := Z.max (row_in - first_row) 0). set (sb := Z.max (first_row - row_in) 0).
  set (nb := Z.max 0 (Z.min (row_in + nrows) (first_row + max_num_rows)
                      - Z.max row_in first_row)).
  destruct (Z.leb_spec row_in (first_row + p)) as [H1 | H1];
    destruct (Z.ltb_spec (first_row + p) (row_in + nrows)) as [H2 | H2];
    destruct (Z.ltb_spec p max_num_rows) as [H3 | H3]; cbn [andb].
  1:{ replace (dp <=? p) with true by (symmetry; apply Z.leb_le; lia).
      replace (p <? dp + nb) with true by (symmetry; apply Z.ltb_lt; lia).
      cbn [andb]. f_equal. lia. }
  all: replace ((dp <=? p) && (p <? dp + nb)) with false; [reflexivity |];
    symmetry; apply andb_false_iff;
    destruct (Z.leb_spec dp p); [right; apply Z.ltb_ge; lia | left; reflexivity].
Qed.

Lemma null_store_window_witness :
  0 <= 3 < 2 ^ 32 /\ 0 <= 37 <= NTHREADS * 32 /\ 0 <= 5 < 2 ^ 31 /\ 0 <= 32 < 2 ^ 63 /\
  0 <= 31 /\
  bitmap_bit
    (fst (null_store (read_list [0xA7; 0x3C; 0xF1; 0x5E; 0x1B]) 1 (null_window 3 37 5 32)
            old_bitmaps zero_arr)) 1 31
  = source_bit (read_list [0xA7; 0x3C; 0xF1; 0x5E; 0x1B]) 33.
Proof.
  split; [lia |]. split; [vm_compute; split; discriminate |].
  split; [lia |]. split; [lia |]. split; [lia |].
  rewrite (null_store_window (read_list [0xA7; 0x3C; 0xF1; 0x5E; 0x1B]) 1 3 37 5 32
             old_bitmaps zero_arr 31).
  - reflexivity.
  - lia.
  - vm_compute. split; discriminate.
  - lia.
  - lia.
  - lia.
Defined.

(** X16 (the reduction that ends the null half of
    [gpuDecodeNullsAndStringDictionaries]): the value that thread 0 stores
    in [chunks[chunk_id].null_count] is the sum of the registers
    [null_count] of the 1024 threads of the block, modulo [2^32]: the five
    [SHFL_XOR] steps sum the lanes of each warp, lane 0 of each warp stores
    the sum in [s->top.nulls.null_count], and warp 0 sums the [NWARPS]
    sums. *)
Theorem null_count_total_sum (nc : arr) :
  null_count_total nc = u32 (sum_below nc NTHREADS).
Proof. apply null_count_total_value. Qed.

(** X17 (the skip count of [gpuDecodeNullsAndStringDictionaries]): for a
    batch of [nrows] rows that starts at the row [row_in] below
    [first_row], what lane 0 adds to [s->chunk.skip_count] is 32 times the
    number of valid rows among the rows of the batch below [first_row]:
    each of the 32 lanes counts all the skipped rows (the loop starts at
    [i = 0] in every lane), and the [SHFL_XOR] steps sum the 32 equal
    counts. *)
Theorem null_skip_count_32 (vals : arr) (row_in nrows first_row : Z) :
  row_in < first_row -> first_row - row_in < 2 ^ 32 ->
  0 <= nrows <= NTHREADS * 32 ->
  null_skip_count vals row_in nrows first_row
  = 32 * valid_count vals (Z.min (first_row - row_in) nrows).
Proof.
  intros Hlt Hd Hn.
  rewrite null_skip_count_value by exact Hlt.
  rewrite (u32_small (first_row - row_in)) by lia.
  rewrite skip_lane_count_value by lia.
  change (NTHREADS * 32) with 32768 in Hn.
  pose proof (sum_below_range (fun k => Z.b2z (source_bit vals k))
                (Z.min (first_row - row_in) nrows)) as Hr.
  assert (Hb : forall j, 0 <= j < Z.min (first_row - row_in) nrows ->
            0 <= Z.b2z (source_bit vals j) <= 1)
    by (intros j _; destruct (source_bit vals j); cbn; lia).
  specialize (Hr Hb). fold (valid_count vals (Z.min (first_row - row_in) nrows)) in Hr.
  apply u32_small. lia.
Qed.

Lemma null_skip_count_32_witness :
  3 < 5 /\ 5 - 3 < 2 ^ 32 /\ 0 <= 37 <= NTHREADS * 32 /\
  null_skip_count (read_list [0xA7; 0x3C; 0xF1; 0x5E; 0x1B]) 3 37 5
  = 32 * valid_count (read_list [0xA7; 0x3C; 0xF1; 0x5E; 0x1B]) (Z.min (5 - 3) 37).
Proof.
  split; [lia |]. split; [lia |]. split; [vm_compute; split; discriminate |].
  apply (null_skip_count_32 (read_list [0xA7; 0x3C; 0xF1; 0x5E; 0x1B]) 3 37 5).
  - lia.
  - lia.
  - vm_compute. split; discriminate.
Defined.

(** X18 (the null count of the bitmap store of
    [gpuDecodeNullsAndStringDictionaries]): the bitmap store of a batch
    raises the sum of the registers [null_count] of the block, hence the
    null count that the kernel reports, by the number of zero validity
    bits among the rows of the batch that it stores (the rows from
    [max row_in first_row] up to [min (row_in + nrows) (first_row +
    max_num_rows)]), as long as the sum stays below [2^32]: no row of the
    window is counted twice or left out, whether it is stored by thread 0
    in the first partial word, by a thread that stores a whole word or by
    the thread that stores the last partial word. *)
Theorem null_store_null_count (vals : arr) (vmb row_in nrows first_row max_num_rows : Z)
    (vmem nc : arr) :
  0 <= row_in < 2 ^ 31 -> 0 <= nrows <= NTHREADS * 32 ->
  0 <= first_row < 2 ^ 31 -> 0 <= max_num_rows < 2 ^ 63 ->
  (forall t, 0 <= nc t < 2 ^ 32) ->
  sum_below nc NTHREADS + NTHREADS * 32 < 2 ^ 32 ->
  null_count_total
    (snd (null_store vals vmb (null_window row_in nrows first_row max_num_rows) vmem nc))
  = null_count_total nc
    + null_rows vals (Z.max (first_row - row_in) 0)
        (Z.max 0 (Z.min (row_in + nrows) (first_row + max_num_rows)
                  - Z.max row_in first_row)).
Proof.
  intros Hr Hn Hf Hm Hnc Hsum.
  rewrite null_window_value by lia.
  change (NTHREADS * 32) with 32768 in *.
  set (sb := Z.max (first_row - row_in) 0).
  set (nb := Z.max 0 (Z.min (row_in + nrows) (first_row + max_num_rows)
                      - Z.max row_in first_row)).
  assert (Hnb : 0 <= nb <= 32768) by (unfold nb; lia).
  assert (Hsb : 0 <= sb < 2 ^ 31) by (unfold sb; lia).
  destruct (null_store_count_sum vals vmb (Z.max (row_in - first_row) 0) sb nb vmem nc)
    as [Hs _]; try assumption; try lia.
  rewrite !null_count_total_value, Hs.
  pose proof (sum_below_nonneg nc NTHREADS ltac:(intros; apply Hnc)) as H0.
  pose proof (null_rows_range vals sb nb) as Hz.
  rewrite (u32_small (sum_below nc NTHREADS)) by lia.
  apply u32_small. lia.
Qed.

Lemma null_store_null_count_witness :
  null_count_total
    (snd (null_store (read_list [0xA7; 0x3C; 0xF1; 0x5E; 0x1B]) 100
            (null_window 3 37 5 20) (fun _ => 0) (fun _ => 0)))
  = null_count_total (fun _ => 0)
    + null_rows (read_list [0xA7; 0x3C; 0xF1; 0x5E; 0x1B]) (Z.max (5 - 3) 0)
        (Z.max 0 (Z.min (3 + 37) (5 + 20) - Z.max 3 5)).
Proof.
  apply (null_store_null_count (read_list [0xA7; 0x3C; 0xF1; 0x5E; 0x1B]) 100 3 37 5 20
           (fun _ => 0) (fun _ => 0)).
  - lia.
  - vm_compute. split; discriminate.
  - lia.
  - lia.
  - intros t. cbv beta. lia.
  - vm_compute. reflexivity.
Defined.

(** X19 ([bytestream_readbits], also the [uint32_t] overload of
    [bytestream_readbe]): for [1 <= numbits <= 32] the result is the number
    formed by the [numbits] bits of the stream from the bit position
    [bitpos] on, read most significant bit first: it is below [2^numbits]
    and its bit [numbits - 1 - j] is the bit [7 - (bitpos + j) mod 8] of
    the byte [(bitpos + j) / 8] of the stream (read in the circular buffer). *)
Theorem bytestream_readbits_big_endian (bs : orc_bytestream_s) (bitpos numbits : Z) :
  0 <= bitpos -> 1 <= numbits <= 32 ->
  0 <= bytestream_readbits bs bitpos numbits < 2 ^ numbits /\
  forall j, 0 <= j < numbits ->
    Z.testbit (bytestream_readbits bs bitpos numbits) (numbits - 1 - j)
    = stream_bit bs (bitpos + j).
Proof.
  intros Hb Hn. rewrite readbits_be_word by lia. split.
  - apply shiftr_range; [apply be_word_range | lia].
  - intros j Hj. rewrite Z.shiftr_spec by lia.
    replace (numbits - 1 - j + (32 - numbits)) with (31 - j) by lia.
    apply be_word_bit; lia.
Qed.

Lemma bytestream_readbits_big_endian_witness :
  0 <= 5 /\ 1 <= 7 <= 32 /\
  0 <= bytestream_readbits (stream_of [0xA7; 0x3C; 0xF1; 0x5E; 0x1B; 0; 0; 0]) 5 7 < 2 ^ 7 /\
  forall j, 0 <= j < 7 ->
    Z.testbit (bytestream_readbits (stream_of [0xA7; 0x3C; 0xF1; 0x5E; 0x1B; 0; 0; 0]) 5 7)
      (7 - 1 - j)
    = stream_bit (stream_of [0xA7; 0x3C; 0xF1; 0x5E; 0x1B; 0; 0; 0]) (5 + j).
Proof.
  split; [lia |]. split; [lia |].
  apply (bytestream_readbits_big_endian
           (stream_of [0xA7; 0x3C; 0xF1; 0x5E; 0x1B; 0; 0; 0]) 5 7); lia.
Defined.

(** X20 ([bytestream_readbits64], also the [uint64_t] overload of
    [bytestream_readbe]): for [1 <= numbits <= 64] the result is the number
    formed by the [numbits] bits of the stream from the bit position
    [bitpos] on, read most significant bit first; the three words that the
    function loads are joined without a gap or an overlap. *)
Theorem bytestream_readbits64_big_endian (bs : orc_bytestream_s) (bitpos numbits : Z) :
  0 <= bitpos -> 1 <= numbits <= 64 ->
  0 <= bytestream_readbits64 bs bitpos numbits < 2 ^ numbits /\
  forall j, 0 <= j < numbits ->
    Z.testbit (bytestream_readbits64 bs bitpos numbits) (numbits - 1 - j)
    = stream_bit bs (bitpos + j).
Proof.
  intros Hb Hn. rewrite readbits64_be_word.
  pose proof (be_word_range bs bitpos) as Hh.
  pose proof (be_word_range bs (bitpos + 32)) as Hl.
  split.
  - apply shiftr_range; [| lia].
    rewrite lor_shiftl_add by lia.
    change (2 ^ 64) with (2 ^ 32 * 2 ^ 32). nia.
  - intros j Hj. rewrite Z.shiftr_spec by lia.
    replace (numbits - 1 - j + (64 - numbits)) with (63 - j) by lia.
    rewrite testbit_dword by lia.
    destruct (Z.ltb_spec (63 - j) 32) as [H | H].
    + replace (63 - j) with (31 - (j - 32)) by lia.
      rewrite be_word_bit by lia. f_equal. lia.
    + replace (63 - j - 32) with (31 - j) by lia.
      apply be_word_bit; lia.
Qed.

Lemma bytestream_readbits64_big_endian_witness :
  0 <= 13 /\ 1 <= 45 <= 64 /\
  0 <= bytestream_readbits64
         (stream_of [0xA7; 0x3C; 0xF1; 0x5E; 0x1B; 0x80; 0x01; 0x7F; 0x33; 0; 0; 0; 0; 0; 0; 0])
         13 45 < 2 ^ 45 /\
  forall j, 0 <= j < 45 ->
    Z.testbit
      (bytestream_readbits64
         (stream_of [0xA7; 0x3C; 0xF1; 0x5E; 0x1B; 0x80; 0x01; 0x7F; 0x33; 0; 0; 0; 0; 0; 0; 0])
         13 45) (45 - 1 - j)
    = stream_bit
        (stream_of [0xA7; 0x3C; 0xF1; 0x5E; 0x1B; 0x80; 0x01; 0x7F; 0x33; 0; 0; 0; 0; 0; 0; 0])
        (13 + j).
Proof.
  split; [lia |]. split; [lia |].
  apply (bytestream_readbits64_big_endian
           (stream_of [0xA7; 0x3C; 0xF1; 0x5E; 0x1B; 0x80; 0x01; 0x7F; 0x33; 0; 0; 0; 0; 0; 0; 0])
           13 45); lia.
Defined.



(** X22 (the patches of [Integer_RLEv2]): in a patched base group every
    lane below the length [pll] of the patch list reads the same bits, those
    of the first entry of the list, and adds one to them before it splits
    them into gap and patch.  When gap and patch widths together are at
    most 32 bits and the gap [g] so obtained is not zero, the shuffles
    leave [(tr + 1) * g] in lane [tr], so the cells at the multiples
    [g, 2 g, .., pll g] of the gap that lie in the run each receive the
    patch bits of the first entry (plus one), shifted by the width of the
    values; no other cell is changed.  The entries of the list after the
    first one are not read. *)
Theorem rlev2_patch_first_entry (T : elem_type) (bs : orc_bytestream_s)
    (rle : orc_rlev2_state_s) (r : Z) (run : rlev2_run) (vals : arr) :
  let pll := rlev2_patch_count rle r in
  let g := rlev2_patch_gap bs rle r run in
  let patch := rlev2_patch_bits bs rle r run in
  rlev2_patch_gap_width rle r + rlev2_patch_width rle r <= 32 ->
  1 <= g ->
  exists vals',
    rlev2_patch T bs rle r run vals = Some vals' /\
    (forall tr, 0 <= tr < pll -> (tr + 1) * g < r_n run ->
       vals' (r_base run + (tr + 1) * g)
       = wrapT T (vals (r_base run + (tr + 1) * g) + u32 (Z.shiftl patch (r_w run)))) /\
    (forall c, (forall tr, 0 <= tr < pll -> (tr + 1) * g < r_n run ->
                  c <> r_base run + (tr + 1) * g) ->
       vals' c = vals c).
Proof. apply rlev2_patch_spec. Qed.

Lemma rlev2_patch_first_entry_witness :
  rlev2_patch_gap_width patched_base_state 0 + rlev2_patch_width patched_base_state 0 <= 32 /\
  1 <= rlev2_patch_gap (stream_of rlev2_patched_base) patched_base_state 0 patched_base_run /\
  exists vals',
    rlev2_patch I64 (stream_of rlev2_patched_base) patched_base_state 0 patched_base_run
      zero_arr = Some vals' /\
    vals' 3 = 3899 * 2 ^ 8.
Proof.
  split; [vm_compute; discriminate |]. split; [vm_compute; discriminate |].
  destruct (rlev2_patch_first_entry I64 (stream_of rlev2_patched_base) patched_base_state 0
              patched_base_run zero_arr) as (vals' & H & Hin & _).
  - vm_compute. discriminate.
  - vm_compute. discriminate.
  - exists vals'. split; [exact H |].
    specialize (Hin 0). cbv zeta in Hin.
    replace 3 with (r_base patched_base_run
                    + (0 + 1) * rlev2_patch_gap (stream_of rlev2_patched_base)
                                  patched_base_state 0 patched_base_run)
      by (vm_compute; reflexivity).
    rewrite Hin.
    + vm_compute. reflexivity.
    + vm_compute. split; [discriminate | reflexivity].
    + vm_compute. reflexivity.
Defined.

(** X23 (a window of [gpuDecodeOrcColumnData] with a PRESENT stream): for
    a window of [n] rows, with [valid t] the bit that thread [t] reads in
    the bitmap and [rank t] the number of valid rows among the rows
    [0 .. t], the window returns; the value slot [max_vals + rank t - 1] of
    the [rank t]-th valid row [t] holds [nrows + t], the index of the row
    in the batch (and not that index plus one, which the branch without
    PRESENT stream stores); [max_vals] grows by the number of valid rows,
    capped at [NTHREADS]; when the values fit, [nrows] grows by [n], and
    when they do not, [nrows] becomes the index of the valid row whose
    value fills the last slot. *)
Theorem window_present_slots (vmem : arr) (vmb first_row : Z) (d : orc_datadec_state_s)
    (n : Z) :
  1 <= n <= NTHREADS -> 0 <= max_vals d < NTHREADS ->
  0 <= nrows d -> nrows d + n <= 2 ^ 16 ->
  let valid := window_valid vmem vmb first_row d n in
  let total := max_vals d + window_rank valid (n - 1) in
  exists d',
    window_present vmem vmb first_row d n = Some d' /\
    cur_row d' = cur_row d /\ end_row d' = end_row d /\
    max_vals d' = Z.min total NTHREADS /\
    (forall t, 0 <= t < n -> valid t = 1 ->
       row_ofs_plus1 d' (max_vals d + window_rank valid t - 1) = nrows d + t) /\
    (total <= NTHREADS -> nrows d' = nrows d + n) /\
    (NTHREADS < total ->
     exists t, 0 <= t < n /\ valid t = 1 /\
               max_vals d + window_rank valid t = NTHREADS /\ nrows d' = nrows d + t).
Proof. apply window_present_spec. Qed.

Lemma window_present_slots_witness :
  1 <= 5 <= NTHREADS /\ 0 <= max_vals window_start < NTHREADS /\
  0 <= nrows window_start /\ nrows window_start + 5 <= 2 ^ 16 /\
  exists d',
    window_present window_bitmaps 0 0 window_start 5 = Some d' /\
    max_vals d' = 3 /\ row_ofs_plus1 d' 1 = 2.
Proof.
  split; [vm_compute; split; discriminate |].
  split; [vm_compute; split; [discriminate | reflexivity] |].
  split; [vm_compute; discriminate |]. split; [vm_compute; discriminate |].
  destruct (window_present_slots window_bitmaps 0 0 window_start 5)
    as (d' & H & _ & _ & Hmv & Hslot & _).
  - vm_compute. split; discriminate.
  - vm_compute. split; [discriminate | reflexivity].
  - vm_compute. discriminate.
  - vm_compute. discriminate.
  - exists d'. split; [exact H |]. split.
    + rewrite Hmv. vm_compute. reflexivity.
    + specialize (Hslot 2 ltac:(lia) ltac:(vm_compute; reflexivity)).
      replace (max_vals window_start
               + window_rank (window_valid window_bitmaps 0 0 window_start 5) 2 - 1)
        with 1 in Hslot by (vm_compute; reflexivity).
      rewrite Hslot. reflexivity.
Defined.

(** X24 (the bitmap between the two kernels): after the bitmap store of a
    batch by [gpuDecodeNullsAndStringDictionaries], the validity bit that
    thread [t] of a window of [gpuDecodeOrcColumnData] reads for its row
    [cur_row + nrows + t] is the decoded PRESENT bit of that row, when the
    row lies in the batch and in the row window of the two kernels: the
    byte view of the bitmap read by the second kernel and the word view
    written by the first address the same bits. *)
Theorem window_valid_after_null_store (vals : arr)
    (vmb row_in batch_rows first_row max_num_rows : Z) (vmem nc : arr)
    (d : orc_datadec_state_s) (n t : Z) :
  0 <= row_in < 2 ^ 32 -> 0 <= batch_rows <= NTHREADS * 32 ->
  0 <= first_row < 2 ^ 31 -> 0 <= max_num_rows < 2 ^ 63 ->
  let row := cur_row d + nrows d + t in
  0 <= t < n -> first_row <= row < end_row d -> end_row d < 2 ^ 32 ->
  row_in <= row < row_in + batch_rows -> row - first_row < max_num_rows ->
  window_valid
    (fst (null_store vals vmb (null_window row_in batch_rows first_row max_num_rows) vmem nc))
    vmb first_row d n t
  = Z.b2z (source_bit vals (row - row_in)).
Proof.
  intros Hr Hb Hf Hm row Ht Hrow He Hin Hwin.
  rewrite window_valid_bit. cbv zeta. fold row.
  rewrite (u32_small first_row) by lia.
  rewrite Z.min_l by lia.
  rewrite (u32_small (row - first_row)) by lia.
  rewrite (u32_small (end_row d - first_row)) by lia.
  replace (t <? n) with true by (symmetry; apply Z.ltb_lt; lia).
  replace (row - first_row <? end_row d - first_row) with true
    by (symmetry; apply Z.ltb_lt; lia).
  cbn [andb]. f_equal.
  rewrite null_window_value by assumption.
  change (NTHREADS * 32) with 32768 in Hb.
  rewrite null_store_bit; try lia.
  2:{ change (NTHREADS * 32) with 32768. lia. }
  replace (Z.max (row_in - first_row) 0 <=? row - first_row) with true
    by (symmetry; apply Z.leb_le; lia).
  match goal with
  | |- (if true && (?a <? ?b) then _ else _) = _ =>
      replace (a <? b) with true by (symmetry; apply Z.ltb_lt; lia)
  end.
  cbn [andb]. f_equal. lia.
Qed.

Lemma window_valid_after_null_store_witness :
  window_valid
    (fst (null_store (read_list [0xA7; 0x3C; 0xF1; 0x5E; 0x1B]) 1 (null_window 3 37 5 32)
            old_bitmaps zero_arr))
    1 5 (mk_datadec 5 37 0 0 0 0 zero_arr) 8 2
  = Z.b2z (source_bit (read_list [0xA7; 0x3C; 0xF1; 0x5E; 0x1B]) (5 + 0 + 2 - 3)).
Proof.
  apply (window_valid_after_null_store (read_list [0xA7; 0x3C; 0xF1; 0x5E; 0x1B])
           1 3 37 5 32 old_bitmaps zero_arr (mk_datadec 5 37 0 0 0 0 zero_arr) 8 2).
  - lia.
  - vm_compute. split; discriminate.
  - lia.
  - lia.
  - lia.
  - cbn [cur_row nrows end_row]. lia.
  - cbn [end_row]. lia.
  - cbn [cur_row nrows]. lia.
  - cbn [cur_row nrows]. lia.
Defined.

(** X25 (the windows of a chunk without PRESENT stream): started from the
    state that an iteration of the chunk loop sets up, the loop over the
    windows returns after at most one window; the first
    [min(skip_count, NTHREADS)] value slots are marked as skipped (0), the
    following slots hold 1, 2, 3, ..: the values go to consecutive rows
    from [cur_row] on; [max_vals] is the number of skipped values plus the
    rows left, capped at [NTHREADS], and [nrows] counts the rows taken. *)
Theorem row_window_all_valid (fuel : nat) (vmem : arr) (chunk : ColumnDesc)
    (first_row : Z) (d : orc_datadec_state_s) :
  (1 <= fuel)%nat -> strm_len chunk CI_PRESENT <= 0 -> 0 <= skip_count chunk ->
  0 <= cur_row d < end_row d -> end_row d < 2 ^ 32 ->
  let mv0 := Z.min (skip_count chunk) NTHREADS in
  let mv := Z.min (mv0 + (end_row d - cur_row d)) NTHREADS in
  exists d',
    row_window fuel vmem chunk first_row (batch_start chunk d) = Some d' /\
    cur_row d' = cur_row d /\ end_row d' = end_row d /\
    max_vals d' = mv /\ nrows d' = mv - mv0 /\
    (forall t, 0 <= t < mv0 -> row_ofs_plus1 d' t = 0) /\
    (forall t, mv0 <= t < mv -> row_ofs_plus1 d' t = t - mv0 + 1).
Proof. apply row_window_all_valid_spec. Qed.

Lemma row_window_all_valid_witness :
  (1 <= 1)%nat /\ strm_len int_chunk CI_PRESENT <= 0 /\ 0 <= skip_count int_chunk /\
  0 <= cur_row window_start < end_row window_start /\ end_row window_start < 2 ^ 32 /\
  exists d',
    row_window 1 zero_arr int_chunk 0 (batch_start int_chunk window_start) = Some d' /\
    max_vals d' = 5 /\ nrows d' = 5.
Proof.
  split; [lia |]. split; [vm_compute; discriminate |]. split; [vm_compute; discriminate |].
  split; [vm_compute; split; [discriminate | reflexivity] |].
  split; [vm_compute; reflexivity |].
  destruct (row_window_all_valid 1 zero_arr int_chunk 0 window_start)
    as (d' & H & _ & _ & Hmv & Hnr & _).
  - lia.
  - vm_compute. discriminate.
  - vm_compute. discriminate.
  - vm_compute. split; [discriminate | reflexivity].
  - vm_compute. reflexivity.
  - exists d'. split; [exact H |]. split.
    + rewrite Hmv. vm_compute. reflexivity.
    + rewrite Hnr. vm_compute. reflexivity.
Defined.

(** X26 (the loop over the windows of [gpuDecodeOrcColumnData]): with or
    without PRESENT stream, the loop
    [while (max_vals < NTHREADS && cur_row + nrows < end_row && nrows < 0xfe00)]
    returns within [0xfe00] iterations: every window adds at least one row
    to [nrows] or fills the value slots.  It keeps [cur_row] and
    [end_row], never lowers [max_vals] or [nrows], keeps them at most
    [NTHREADS] and [0xfe00], and it ends with the value slots full, the
    rows of the chunk used up, or [0xfe00] rows in the batch. *)
Theorem row_window_terminates (vmem : arr) (chunk : ColumnDesc) (first_row : Z)
    (d : orc_datadec_state_s) :
  0 <= max_vals d <= NTHREADS -> 0 <= nrows d <= 0xfe00 ->
  0 <= cur_row d -> cur_row d + 0xfe00 < 2 ^ 32 -> end_row d < 2 ^ 32 ->
  exists d',
    row_window (Z.to_nat 0xfe00) vmem chunk first_row d = Some d' /\
    cur_row d' = cur_row d /\ end_row d' = end_row d /\
    max_vals d <= max_vals d' <= NTHREADS /\ nrows d <= nrows d' <= 0xfe00 /\
    (max_vals d' = NTHREADS \/ end_row d <= cur_row d + nrows d' \/ nrows d' = 0xfe00).
Proof.
  intros Hmv Hnr Hc Hc32 He.
  apply row_window_fuel; try assumption. lia.
Qed.

Lemma row_window_terminates_witness :
  0 <= max_vals window_start <= NTHREADS /\ 0 <= nrows window_start <= 0xfe00 /\
  0 <= cur_row window_start /\ cur_row window_start + 0xfe00 < 2 ^ 32 /\
  end_row window_start < 2 ^ 32 /\
  exists d',
    row_window (Z.to_nat 0xfe00) window_bitmaps present_chunk 0 window_start = Some d' /\
    cur_row d' = cur_row window_start.
Proof.
  split; [vm_compute; split; discriminate |].
  split; [vm_compute; split; discriminate |].
  split; [vm_compute; discriminate |].
  split; [vm_compute; reflexivity |]. split; [vm_compute; reflexivity |].
  destruct (row_window_terminates window_bitmaps present_chunk 0 window_start)
    as (d' & H & Hc & _).
  - vm_compute. split; discriminate.
  - vm_compute. split; discriminate.
  - vm_compute. discriminate.
  - vm_compute. reflexivity.
  - vm_compute. reflexivity.
  - exists d'. split; [exact H | exact Hc].
Defined.

(** X27 (the null half of [gpuDecodeNullsAndStringDictionaries] on a
    chunk without PRESENT stream): the kernel returns, over all the
    batches of [NTHREADS * 32] rows of the chunk; it stores [null_count = 0]
    in the chunk descriptor, sets the bit [p] of the bitmap of the chunk
    for every row [first_row + p] of the chunk with [p < max_num_rows], and
    leaves every other bit of the bitmap as it was. *)
Theorem decode_nulls_all_valid (mem : arr) (chunk : ColumnDesc) (vmem : arr)
    (max_num_rows first_row : Z) (bs0 : orc_bytestream_s) (vals0 : arr) :
  strm_len chunk CI_PRESENT <= 0 -> valid_map_base chunk <> 0 ->
  0 <= start_row chunk -> 0 <= num_rows chunk ->
  start_row chunk + num_rows chunk < 2 ^ 32 ->
  0 <= first_row < 2 ^ 31 -> 0 <= max_num_rows < 2 ^ 63 ->
  exists chunk' vmem' st,
    decode_nulls mem chunk vmem max_num_rows first_row bs0 vals0
      = Some (chunk', vmem', st) /\
    null_count chunk' = 0 /\
    (forall p, 0 <= p ->
       bitmap_bit vmem' (valid_map_base chunk) p
       = if (start_row chunk <=? first_row + p)
            && (first_row + p <? start_row chunk + num_rows chunk)
            && (p <? max_num_rows)
         then true
         else bitmap_bit vmem (valid_map_base chunk) p).
Proof.
  intros H1 H2 H3 H4 H5 H6 H7.
  apply decode_nulls_all_valid_spec; assumption.
Qed.

Lemma decode_nulls_all_valid_witness :
  strm_len plain_chunk CI_PRESENT <= 0 /\ valid_map_base plain_chunk <> 0 /\
  0 <= start_row plain_chunk /\ 0 <= num_rows plain_chunk /\
  start_row plain_chunk + num_rows plain_chunk < 2 ^ 32 /\
  0 <= 5 < 2 ^ 31 /\ 0 <= 20 < 2 ^ 63 /\
  exists chunk' vmem' st,
    decode_nulls zero_arr plain_chunk old_bitmaps 20 5 empty_bs zero_arr
      = Some (chunk', vmem', st) /\
    null_count chunk' = 0 /\
    bitmap_bit vmem' 1 19 = true /\ bitmap_bit vmem' 1 21 = false.
Proof.
  split; [vm_compute; discriminate |]. split; [vm_compute; discriminate |].
  split; [vm_compute; discriminate |]. split; [vm_compute; discriminate |].
  split; [vm_compute; reflexivity |]. split; [lia |]. split; [lia |].
  destruct (decode_nulls_all_valid zero_arr plain_chunk old_bitmaps 20 5 empty_bs zero_arr)
    as (chunk' & vmem' & st & H & Hnc & Hbits).
  - vm_compute. discriminate.
  - vm_compute. discriminate.
  - vm_compute. discriminate.
  - vm_compute. discriminate.
  - vm_compute. reflexivity.
  - lia.
  - lia.
  - exists chunk', vmem', st. split; [exact H |]. split; [exact Hnc |].
    change (valid_map_base plain_chunk) with 1 in Hbits.
    split.
    + rewrite (Hbits 19) by lia. vm_compute. reflexivity.
    + rewrite (Hbits 21) by lia. vm_compute. reflexivity.
Defined.

(** X4 (an iteration of the dictionary loop of
    [gpuDecodeNullsAndStringDictionaries]): with [n] the count and [vals1]
    the values that the integer RLE decoder returns when it is asked for
    the next [min(dict_len, NTHREADS)] lengths of the LENGTH stream, the
    iteration returns and writes [n] entries from [local_dict] on: the
    entry [t] is (position, length) with the length [vals1[t]] and the
    position [dict_pos] plus the lengths [vals1[0 .. t - 1]] before it, in
    32-bit arithmetic; [local_dict], [dict_pos] and [dict_len] move on by
    [n] entries and the sum of their lengths.  When the decoder returns no
    value (the stream ran out of data), the iteration writes
    [min(dict_len, NTHREADS)] entries of length 0 at the position
    [dict_pos] instead.  Entries outside the batch are left as they
    are. *)
Theorem dict_batch_entries (mem : arr) (kind : Z) (st : dictdec_state) :
  0 < top_dict_len (dd_top st) < 2 ^ 32 ->
  let top := dd_top st in
  let asked := Z.min (top_dict_len top) NTHREADS in
  exists bs' u' vals1 n st',
    Integer_RLE kind U32 mem (dd_bs st) (dd_u st) (dd_vals st) asked
      = Some (bs', u', vals1, n) /\
    0 <= n <= asked /\
    dict_batch mem kind st = Some st' /\
    dd_bs st' = bs' /\ dd_u st' = u' /\
    let m := if n =? 0 then asked else n in
    let len_ : arr := fun t => if n =? 0 then 0 else u32 (vals1 t) in
    (forall t, 0 <= t < m ->
       dd_dict st' (local_dict top + t)
       = mk_entry (u32 (dict_pos top + sum_below len_ t)) (len_ t)) /\
    (forall j, ~ local_dict top <= j < local_dict top + m -> dd_dict st' j = dd_dict st j) /\
    local_dict (dd_top st') = local_dict top + m /\
    dict_pos (dd_top st') = u32 (dict_pos top + sum_below len_ m) /\
    top_dict_len (dd_top st') = top_dict_len top - m.
Proof.
  intros Hlen. cbv zeta.
  assert (HN : NTHREADS = 1024) by reflexivity.
  unfold dict_batch.
  set (top := dd_top st) in *.
  set (asked := Z.min (top_dict_len top) NTHREADS).
  assert (Hasked : 1 <= asked <= 1024) by (unfold asked; lia).
  destruct (Integer_RLE_count kind U32 mem (dd_bs st) (dd_u st) (dd_vals st) asked)
    as (bs' & u' & vals1 & n & Hrun & Hn); [lia |].
  rewrite Hrun. cbn [obind].
  destruct (lengths_to_positions_spec U32 vals1 n ltac:(lia))
    as (vals2 & Hpos & Hsum & _ & _).
  rewrite Hpos. cbn [obind].
  exists bs', u', vals1, n.
  destruct (n =? 0) eqn:En.
  - (* the decoder returned nothing *)
    apply Z.eqb_eq in En. subst n.
    eexists. split; [reflexivity |]. split; [lia |]. split; [reflexivity |].
    cbn [dd_bs dd_u dd_dict dd_top local_dict dict_pos top_dict_len].
    split; [reflexivity |]. split; [reflexivity |].
    split; [| split; [| split; [reflexivity | split]]].
    + intros t Ht.
      replace (local_dict top + t - local_dict top) with t by lia.
      replace (0 <=? t) with true by (symmetry; apply Z.leb_le; lia).
      replace (t <? NTHREADS) with true by (symmetry; apply Z.ltb_lt; lia).
      replace (t <? asked) with true by (symmetry; apply Z.ltb_lt; lia).
      cbn [andb].
      replace (t <? 0) with false by (symmetry; apply Z.ltb_ge; lia).
      change (u32 0) with 0. rewrite Z.sub_0_r, sum_below_zero. reflexivity.
    + intros j Hj.
      destruct ((0 <=? j - local_dict top) && (j - local_dict top <? NTHREADS)
                && (j - local_dict top <? asked)) eqn:E; [| reflexivity].
      exfalso. apply Hj.
      apply andb_prop in E. destruct E as [E Hlt].
      apply andb_prop in E. destruct E as [Hge _].
      apply Z.leb_le in Hge. apply Z.ltb_lt in Hlt. lia.
    + replace (0 <=? asked - 1) with true by (symmetry; apply Z.leb_le; lia).
      replace (asked - 1 <? NTHREADS) with true by (symmetry; apply Z.ltb_lt; lia).
      rewrite sum_below_zero. reflexivity.
    + apply u32_small. unfold asked. lia.
  - (* the decoder returned [n] lengths *)
    apply Z.eqb_neq in En.
    eexists. split; [reflexivity |]. split; [lia |]. split; [reflexivity |].
    cbn [dd_bs dd_u dd_dict dd_top local_dict dict_pos top_dict_len].
    split; [reflexivity |]. split; [reflexivity |].
    set (len_ := fun t : Z => u32 (vals1 t)).
    assert (Hmod : forall t, 0 <= t <= n ->
              u32 (sum_below len_ t) = u32 (sum_below vals1 t)).
    { intros t Ht. apply (sum_below_wrap_ext U32).
      intros j Hj. unfold len_. cbn [wrapT]. apply u32_idem. }
    assert (Hv2 : forall t, 0 <= t < n -> u32 (vals2 t) = u32 (sum_below vals1 (t + 1))).
    { intros t Ht. specialize (Hsum t Ht). cbn [wrapT] in Hsum. exact Hsum. }
    split; [| split; [| split; [reflexivity | split]]].
    + intros t Ht.
      replace (local_dict top + t - local_dict top) with t by lia.
      replace (0 <=? t) with true by (symmetry; apply Z.leb_le; lia).
      replace (t <? NTHREADS) with true by (symmetry; apply Z.ltb_lt; lia).
      replace (t <? n) with true by (symmetry; apply Z.ltb_lt; lia).
      cbn [andb]. fold (len_ t). f_equal.
      replace (dict_pos top + u32 (vals2 t) - len_ t)
        with (dict_pos top + (u32 (vals2 t) - len_ t)) by lia.
      apply u32_congr.
      rewrite (Hv2 t Ht). unfold len_ at 1. rewrite u32_sub_u32.
      rewrite sum_below_succ by lia.
      replace (sum_below vals1 t + vals1 t - vals1 t) with (sum_below vals1 t) by lia.
      symmetry. apply Hmod. lia.
    + intros j Hj.
      destruct ((0 <=? j - local_dict top) && (j - local_dict top <? NTHREADS)
                && (j - local_dict top <? n)) eqn:E; [| reflexivity].
      exfalso. apply Hj.
      apply andb_prop in E. destruct E as [E Hlt].
      apply andb_prop in E. destruct E as [Hge _].
      apply Z.leb_le in Hge. apply Z.ltb_lt in Hlt. lia.
    + apply u32_congr. rewrite u32_idem.
      rewrite (Hv2 (n - 1)) by lia.
      replace (n - 1 + 1) with n by lia.
      symmetry. apply Hmod. lia.
    + apply u32_small. unfold asked in Hn. lia.
Qed.

(** The LENGTH stream with the lengths 3, 0, 7 and 2: one iteration writes
    the entries (0, 3), (3, 0), (3, 7) and (10, 2) from the index 5 on. *)
Lemma dict_batch_entries_witness :
  let st := mk_dictdec (stream_of dict_lengths_stream) rles_init zero_arr
              (mk_strdict 5 0 4) no_dictionary [] in
  0 < top_dict_len (dd_top st) < 2 ^ 32 /\
  exists st',
    dict_batch (read_list dict_lengths_stream) DICTIONARY st = Some st' /\
    dd_dict st' 5 = mk_entry 0 3 /\ dd_dict st' 6 = mk_entry 3 0 /\
    dd_dict st' 7 = mk_entry 3 7 /\ dd_dict st' 8 = mk_entry 10 2 /\
    dd_dict st' 9 = mk_entry 0 0 /\
    dict_pos (dd_top st') = 12 /\ top_dict_len (dd_top st') = 0.
Proof.
  intros st. split; [cbn; lia |].
  destruct (dict_batch_entries (read_list dict_lengths_stream) DICTIONARY st)
    as (bs' & u' & vals1 & n & st' & Hrun & Hn & Hb & _ & _ & Hent & Hout & _ & Hdp & Hdl).
  { cbn. lia. }
  exists st'. split; [exact Hb |].
  assert (E : option_map (fun '(_, _, v, n) => (n, map v [0; 1; 2; 3]))
                (Integer_RLE DICTIONARY U32 (read_list dict_lengths_stream) (dd_bs st)
                   (dd_u st) (dd_vals st) (Z.min (top_dict_len (dd_top st)) NTHREADS))
              = Some (4, [3; 0; 7; 2]))
    by (vm_compute; reflexivity).
  rewrite Hrun in E. cbn [option_map map] in E.
  injection E as En E0 E1 E2 E3. subst n.
  cbn [Z.eqb] in Hent, Hout, Hdp, Hdl.
  change (local_dict (dd_top st)) with 5 in Hent, Hout.
  change (dict_pos (dd_top st)) with 0 in Hent, Hdp.
  change (top_dict_len (dd_top st)) with 4 in Hdl.
  assert (S0 : forall t, 0 <= t <= 4 ->
            sum_below (fun t => u32 (vals1 t)) t
            = nth (Z.to_nat t) [0; 3; 3; 10; 12] 0).
  { intros t Ht.
    assert (Hc : t = 0 \/ t = 1 \/ t = 2 \/ t = 3 \/ t = 4) by lia.
    destruct Hc as [-> | [-> | [-> | [-> | ->]]]]; unfold sum_below;
      [change (Z.to_nat 0) with 0%nat | change (Z.to_nat 1) with 1%nat
       | change (Z.to_nat 2) with 2%nat | change (Z.to_nat 3) with 3%nat
       | change (Z.to_nat 4) with 4%nat];
      cbn [sum_upto nth]; change (Z.of_nat 0) with 0; change (Z.of_nat 1) with 1;
      change (Z.of_nat 2) with 2; change (Z.of_nat 3) with 3;
      rewrite ?E0, ?E1, ?E2, ?E3; reflexivity. }
  pose proof (Hent 0 ltac:(lia)) as H0. pose proof (Hent 1 ltac:(lia)) as H1.
  pose proof (Hent 2 ltac:(lia)) as H2. pose proof (Hent 3 ltac:(lia)) as H3.
  rewrite S0 in H0, H1, H2, H3 by lia.
  rewrite E0 in H0. rewrite E1 in H1. rewrite E2 in H2. rewrite E3 in H3.
  split; [exact H0 |]. split; [exact H1 |]. split; [exact H2 |]. split; [exact H3 |].
  split; [rewrite Hout by lia; reflexivity |].
  split; [rewrite Hdp, S0 by lia; reflexivity | rewrite Hdl; reflexivity].
Defined.
